(** * DedupFS control plane: a shallow embedding and its verified properties

    The development follows the Python sources of the repository:

    - [Jobs]       : [dedupfs/jobs/service.py]        (job coordinator, lease protocol)
    - [Thumbs]     : [dedupfs/thumbs/service.py]      (thumbnail work queue)
    - [Wal]        : [dedupfs/maintenance/service.py] (WAL checkpoint scheduler)
    - [Migrations] : [dedupfs/db/migrations.py]       (data repair of the jobs table)
    - [Cursor]     : [dedupfs/duplicates/service.py]  (duplicate-group cursor codec)
    - [Duplicates] : [dedupfs/duplicates/service.py]  (duplicate-group queries and their paging)

    [Py] holds the Python built-ins the services use on strings, [Sql] the
    [ORDER BY] of the queries.

    Conventions.  A table is the committed content of the relational store.  An
    operation of a service is a function from its arguments, the wall clock
    reading [now] and the committed tables to the value the caller receives
    (or the exception raised) and the tables committed when the call is over:
    a session that is closed without [commit] leaves the tables as they were.
    Timestamps are integers (an instant on the UTC time line), so
    [_coerce_utc], which only attaches the UTC zone to a naive value, keeps
    the instant.  A Python [str] is a [string] whose characters are the code
    points below 256; the cursor codec, which is handed arbitrary text, works
    on lists of code points instead. *)

From Stdlib Require Import ZArith String Ascii List Bool Lia Floats DecimalString OrderedTypeEx.
From stdpp Require Import base option list strings gmap sorting.

Set Warnings "-clear-no-such-hyp".

Open Scope string_scope.
Open Scope Z_scope.

(** ** Python built-ins on strings *)

Module Py.

(** [str.isspace] on the code points below 256: TAB..CR, FS..US, SPACE,
    NEL (0x85) and NBSP (0xA0). *)
Definition isspace (c : ascii) : bool :=
  let n := N_of_ascii c in
  ((9 <=? n) && (n <=? 13) || (28 <=? n) && (n <=? 32)
   || (n =? 133) || (n =? 160))%N.

Fixpoint lstrip (s : string) : string :=
  match s with
  | EmptyString => EmptyString
  | String c rest => if isspace c then lstrip rest else s
  end.

(** Drops the trailing white space: the characters of [s] are kept up to the
    last one that is not white space. *)
Fixpoint rstrip (s : string) : string :=
  match s with
  | EmptyString => EmptyString
  | String c rest =>
      match rstrip rest with
      | EmptyString => if isspace c then EmptyString else String c EmptyString
      | kept => String c kept
      end
  end.

(** [s.strip()] *)
Definition strip (s : string) : string := rstrip (lstrip s).

(** [str.lower] on one character (ASCII and Latin-1 capital letters). *)
Definition lower_char (c : ascii) : ascii :=
  let n := N_of_ascii c in
  if ((65 <=? n) && (n <=? 90))%N then ascii_of_N (n + 32)
  else if ((192 <=? n) && (n <=? 222) && negb (n =? 215))%N then ascii_of_N (n + 32)
  else c.

Fixpoint lower (s : string) : string :=
  match s with
  | EmptyString => EmptyString
  | String c rest => String (lower_char c) (lower rest)
  end.

(** Truthiness of a string: [not s] is [true] exactly for the empty one. *)
Definition nonempty (s : string) : bool :=
  match s with EmptyString => false | _ => true end.

(** [str(n)] for an integer. *)
Definition str_of_Z (n : Z) : string := NilZero.string_of_int (Z.to_int n).

(** [c in s] for a character. *)
Fixpoint contains (c : ascii) (s : string) : bool :=
  match s with
  | EmptyString => false
  | String d rest => bool_decide (c = d) || contains c rest
  end.

(** [s.split(sep)] for a one-character separator. *)
Fixpoint split (sep : ascii) (s : string) : list string :=
  match s with
  | EmptyString => [EmptyString]
  | String c rest =>
      if bool_decide (c = sep) then EmptyString :: split sep rest
      else match split sep rest with
           | [] => [String c EmptyString]
           | w :: ws => String c w :: ws
           end
  end.

(** [s.rfind(c)]: the position of the last [c], if there is one. *)
Fixpoint rfind (c : ascii) (s : string) : option nat :=
  match s with
  | EmptyString => None
  | String d rest =>
      match rfind c rest with
      | Some i => Some (S i)
      | None => if bool_decide (c = d) then Some O else None
      end
  end.

(** One byte as two lower-case hexadecimal digits, and [bytes.hex()]. *)
Definition hex_digit (n : N) : ascii :=
  if (n <? 10)%N then ascii_of_N (48 + n) else ascii_of_N (87 + n).

Definition hex_of_byte (b : Byte.byte) : string :=
  let n := Byte.to_N b in
  String (hex_digit (n / 16)%N) (String (hex_digit (n mod 16)%N) EmptyString).

Definition hex (bs : list Byte.byte) : string :=
  foldr (λ b acc, hex_of_byte b ++ acc)%string EmptyString bs.

(** The parts of a relative POSIX path ([PurePosixPath(p).parts]): the
    components between slashes, the empty ones and the [.] ones dropped. *)
Definition path_parts (p : string) : list string :=
  filter (λ w, w ≠ "" ∧ w ≠ ".") (split "/" p).

(** [PurePosixPath(p).suffix]: the last dot of the final component and what
    follows it, unless that dot opens or closes the component. *)
Definition path_suffix (p : string) : string :=
  let name := List.last (path_parts p) "" in
  match rfind "." name with
  | Some i =>
      if bool_decide (0 < i < String.length name - 1)%nat
      then substring i (String.length name - i) name
      else ""
  | None => ""
  end.

End Py.

(** ** Statements of the store *)

Module Sql.

(** [ORDER BY]: the rows sorted by insertion, [before a b] telling that [a]
    goes strictly before [b]. *)
Fixpoint place {A} (before : A → A → bool) (x : A) (sorted : list A) : list A :=
  match sorted with
  | [] => [x]
  | y :: rest => if before y x then y :: place before x rest else x :: y :: rest
  end.

Definition order_by {A} (before : A → A → bool) (rows : list A) : list A :=
  foldr (place before) [] rows.

(** SQLite's [lower(X)]: the ASCII capital letters only. *)
Definition lower_char (c : ascii) : ascii :=
  let n := N_of_ascii c in
  if ((65 <=? n) && (n <=? 90))%N then ascii_of_N (n + 32) else c.

Fixpoint lower (s : string) : string :=
  match s with
  | EmptyString => EmptyString
  | String c rest => String (lower_char c) (lower rest)
  end.

(** SQLite's [trim(X)]: the spaces at both ends. *)
Fixpoint ltrim (s : string) : string :=
  match s with
  | String " " rest => ltrim rest
  | _ => s
  end.

Fixpoint rtrim (s : string) : string :=
  match s with
  | EmptyString => EmptyString
  | String c rest =>
      match rtrim rest with
      | EmptyString => if bool_decide (c = " "%char) then EmptyString else String c EmptyString
      | kept => String c kept
      end
  end.

Definition trim (s : string) : string := rtrim (ltrim s).

End Sql.

(** ** Job coordinator ([dedupfs/jobs/service.py], [dedupfs/db/models.py]) *)

Module Config.

(** The fields of [Settings] the services read. *)
Record Settings := {
  dry_run : bool;
  allow_real_delete : bool;
  job_lock_ttl_seconds : Z;
  libraries_root : string;
  thumbnail_max_dimension : Z;
  thumbnail_default_format : string;
  thumbnail_queue_capacity : Z;
  wal_checkpoint_default_mode : string;
  wal_checkpoint_min_interval_seconds : Z;
  wal_checkpoint_allow_truncate : bool
}.

End Config.

Module Jobs.

Inductive JobKind := SCAN | HASH | DELETE | THUMBNAIL.
Inductive JobStatus := PENDING | RUNNING | COMPLETED | FAILED | CANCELLED | RETRYABLE.

#[global] Instance JobKind_eq_dec : EqDecision JobKind.
Proof. solve_decision. Defined.
#[global] Instance JobStatus_eq_dec : EqDecision JobStatus.
Proof. solve_decision. Defined.

(** The free-form keyed attributes of a job; the coordinator stores them and
    never looks inside. *)
Definition Payload := list (string * string).

(** A row of the [jobs] table ([class Job]). *)
Record Job := {
  id : string;
  kind : JobKind;
  status : JobStatus;
  dry_run : bool;
  worker_id : option string;
  worker_heartbeat_at : option Z;
  lease_expires_at : option Z;
  progress : float;
  total_items : option Z;
  processed_items : Z;
  payload : Payload;
  error_code : option string;
  error_message : option string;
  created_at : Z;
  updated_at : Z;
  started_at : option Z;
  finished_at : option Z
}.

(** [JobSnapshot] is a dataclass with the seventeen fields of the row. *)
Definition JobSnapshot := Job.

(** The exceptions a coordinator call can end with. *)
Inductive Raised :=
| JobConflictError
| JobNotFoundError
| InvalidJobStateError
| JobPolicyError
| ValueError
| IntegrityError.

#[global] Instance Raised_eq_dec : EqDecision Raised.
Proof. solve_decision. Defined.

(** What a call hands to its caller: an exception or a value. *)
Definition Result (A : Type) := (Raised + A)%type.
Definition raise {A} (e : Raised) : Result A := inl e.
Definition ret {A} (a : A) : Result A := inr a.

(** [ALLOWED_TRANSITIONS] *)
Definition ALLOWED_TRANSITIONS (from_status : JobStatus) : list JobStatus :=
  match from_status with
  | PENDING => [RUNNING; CANCELLED]
  | RUNNING => [COMPLETED; FAILED; CANCELLED; RETRYABLE]
  | RETRYABLE => [PENDING; CANCELLED; FAILED]
  | COMPLETED => []
  | FAILED => []
  | CANCELLED => []
  end.

Definition _lease_delta (settings : Config.Settings) : Z :=
  Config.job_lock_ttl_seconds settings.

Definition _coerce_utc (value : option Z) : option Z :=
  match value with
  | None => None
  | Some t => Some t
  end.

Definition _requires_scan_hash_mutex (k : JobKind) : bool :=
  bool_decide (k ∈ [SCAN; HASH]).

(** [_enforce_job_policy]: [None] when the policy lets the job through. *)
Definition _enforce_job_policy (settings : Config.Settings) (k : JobKind)
    (dry : bool) : option Raised :=
  if Config.dry_run settings && negb dry then Some JobPolicyError
  else if bool_decide (k = DELETE) && negb dry
          && negb (Config.allow_real_delete settings)
  then Some JobPolicyError
  else None.

(** [_enforce_transition]: [None] when the edge is in the table. *)
Definition _enforce_transition (from_status to_status : JobStatus) : option Raised :=
  if bool_decide (to_status ∈ ALLOWED_TRANSITIONS from_status) then None
  else Some InvalidJobStateError.

Definition _to_snapshot (job : Job) : JobSnapshot :=
  {| id := id job;
     kind := kind job;
     status := status job;
     dry_run := dry_run job;
     worker_id := worker_id job;
     worker_heartbeat_at := worker_heartbeat_at job;
     lease_expires_at := lease_expires_at job;
     progress := progress job;
     total_items := total_items job;
     processed_items := processed_items job;
     payload := payload job;
     error_code := error_code job;
     error_message := error_message job;
     created_at := created_at job;
     updated_at := updated_at job;
     started_at := started_at job;
     finished_at := finished_at job |}.

(** *** The store: the [jobs] table and its constraints *)

(** The table maps the primary key [id] to its row. *)
Abbreviation Table := (gmap string Job).

(** The rows covered by the partial unique index
    [ix_jobs_single_active_scan_hash]: status pending or running, kind scan
    or hash.  The index is keyed on a constant, so two such rows collide. *)
Definition indexed (j : Job) : bool :=
  bool_decide (status j ∈ [PENDING; RUNNING]) && _requires_scan_hash_mutex (kind j).

(** Writing row [key] into the index fails when another row is in it. *)
Definition index_conflict (key : string) (jobs : Table) : bool :=
  bool_decide (map_Exists (λ k j, k ≠ key ∧ indexed j = true) jobs).

(** The rows the admission query of [create_job] selects. *)
Definition active_scan_hash (j : Job) : bool :=
  bool_decide (kind j ∈ [SCAN; HASH])
  && bool_decide (status j ∈ [PENDING; RUNNING; RETRYABLE]).

(** *** recover_stale_jobs *)

(** The [WHERE] clause of the stale-lease query. *)
Definition stale (now : Z) (j : Job) : bool :=
  bool_decide (status j = RUNNING)
  && bool_decide (kind j ∈ [SCAN; HASH])
  && match lease_expires_at j with
     | None => true
     | Some t => t <=? now
     end.

(** The body of the loop over [stale_jobs]. *)
Definition expire_stale (now : Z) (j : Job) : Job :=
  {| id := id j;
     kind := kind j;
     status := RETRYABLE;
     dry_run := dry_run j;
     worker_id := None;
     worker_heartbeat_at := None;
     lease_expires_at := None;
     progress := progress j;
     total_items := total_items j;
     processed_items := processed_items j;
     payload := payload j;
     error_code := Some "LEASE_EXPIRED";
     error_message := Some "Lease expired and recovered by control plane";
     created_at := created_at j;
     updated_at := now;
     started_at := started_at j;
     finished_at := Some now |}.

(** The rows as the session sees them once the loop has run, and the number
    of rows it touched.  Every selected row is running and
    running -> retryable is an allowed edge, so [_enforce_transition] lets
    each one through. *)
Definition recover_in_session (now : Z) (jobs : Table) : Table :=
  (λ j, if stale now j then
          match _enforce_transition (status j) RETRYABLE with
          | None => expire_stale now j
          | Some _ => j
          end
        else j) <$> jobs.

Definition stale_count (now : Z) (jobs : Table) : Z :=
  Z.of_nat (size (filter (λ kj, stale now kj.2 = true) jobs)).

(** [recover_stale_jobs()] called on its own: it owns the session and commits. *)
Definition recover_stale_jobs (now : Z) (jobs : Table) : Z * Table :=
  (stale_count now jobs, recover_in_session now jobs).

(** *** create_job *)

(** The row [Job(id=..., kind=..., status=PENDING, dry_run=..., payload=payload or {})]
    with the column defaults of the model; [created_at] and [updated_at]
    are the store's clock reading at the insert. *)
Definition new_job (job_id : string) (k : JobKind) (effective_dry_run : bool)
    (p : option Payload) (now : Z) : Job :=
  {| id := job_id;
     kind := k;
     status := PENDING;
     dry_run := effective_dry_run;
     worker_id := None;
     worker_heartbeat_at := None;
     lease_expires_at := None;
     progress := 0%float;
     total_items := None;
     processed_items := 0;
     payload := default [] p;
     error_code := None;
     error_message := None;
     created_at := now;
     updated_at := now;
     started_at := None;
     finished_at := None |}.

(** The admission query: some scan/hash row is pending, running or retryable. *)
Definition has_active_scan_hash (jobs : Table) : bool :=
  bool_decide (map_Exists (λ _ j, active_scan_hash j = true) jobs).

(** [create_job(kind, payload, dry_run)]; [job_id] is the value of [uuid4()].
    The recovery inside the session is only flushed: when the call raises,
    the session is closed without a commit and the flushed rows roll back. *)
Definition create_job (settings : Config.Settings) (k : JobKind)
    (p : option Payload) (dry_run_arg : option bool) (job_id : string)
    (now : Z) (jobs : Table) : Result JobSnapshot * Table :=
  let effective_dry_run :=
    match dry_run_arg with
    | None => Config.dry_run settings
    | Some d => d
    end in
  match _enforce_job_policy settings k effective_dry_run with
  | Some e => (raise e, jobs)
  | None =>
      let session :=
        if _requires_scan_hash_mutex k then recover_in_session now jobs else jobs in
      if _requires_scan_hash_mutex k && has_active_scan_hash session
      then (raise JobConflictError, jobs)
      else
        let job := new_job job_id k effective_dry_run p now in
        if bool_decide (is_Some (session !! job_id))
           || (indexed job && index_conflict job_id session)
        then
          (* IntegrityError at commit, then rollback *)
          if _requires_scan_hash_mutex k then (raise JobConflictError, jobs)
          else (raise IntegrityError, jobs)
        else (ret (_to_snapshot job), <[job_id := job]> session)
  end.

(** *** get_job *)

Definition get_job (job_id : string) (now : Z) (jobs : Table)
    : Result JobSnapshot * Table :=
  let session := recover_in_session now jobs in
  match session !! job_id with
  | None => (raise JobNotFoundError, jobs)
  | Some job => (ret (_to_snapshot job), jobs)
  end.

(** *** list_jobs *)

(** [JobListResult] *)
Record JobListResult := {
  items : list JobSnapshot;
  next_cursor : option string
}.

(** [ORDER BY created_at DESC, id DESC] on (key, row) pairs. *)
Definition newer (a b : string * Job) : bool :=
  (created_at b.2 <? created_at a.2)
  || ((created_at a.2 =? created_at b.2) && String.ltb b.1 a.1).

(** The keyset predicate of a page that starts after the row [cursor]:
    [created_at < anchor_created_at OR
     (created_at = anchor_created_at AND id < :cursor)]. *)
Definition after_anchor (cursor : string) (anchor_created_at : Z)
    (r : string * Job) : bool :=
  (created_at r.2 <? anchor_created_at)
  || ((created_at r.2 =? anchor_created_at) && String.ltb r.1 cursor).

(** [list_jobs(limit, cursor)]; a caller that leaves [limit] out passes 50.
    The recovery is flushed into the session and nothing is committed. *)
Definition list_jobs (limit : Z) (cursor : option string) (now : Z)
    (jobs : Table) : Result JobListResult * Table :=
  let bounded_limit := Z.max 1 (Z.min limit 200) in
  let session := recover_in_session now jobs in
  let selected : Result (list (string * Job)) :=
    match cursor with
    | Some c =>
        if Py.nonempty c then
          match session !! c with
          | None => raise ValueError
          | Some anchor =>
              ret (filter (λ r, after_anchor c (created_at anchor) r = true)
                     (map_to_list session))
          end
        else ret (map_to_list session)
    | None => ret (map_to_list session)
    end in
  match selected with
  | inl e => (raise e, jobs)
  | inr selected =>
      let rows := take (Z.to_nat (bounded_limit + 1)) (Sql.order_by newer selected) in
      let page := take (Z.to_nat bounded_limit) rows in
      let next :=
        if (bounded_limit <? Z.of_nat (length rows)) && negb (bool_decide (page = []))
        then (λ r : string * Job, id r.2) <$> last page
        else None in
      (ret {| items := (λ r : string * Job, _to_snapshot r.2) <$> page;
              next_cursor := next |},
       jobs)
  end.

(** *** claim_pending_scan_hash_job *)

(** [ORDER BY created_at ASC, id ASC] on (key, row) pairs. *)
Definition older (a b : string * Job) : bool :=
  (created_at a.2 <? created_at b.2)
  || ((created_at a.2 =? created_at b.2) && String.ltb a.1 b.1).

(** The first row of a list in that order ([LIMIT 1]). *)
Definition first_by_age (rows : list (string * Job)) : option (string * Job) :=
  foldr (λ r acc, match acc with
                  | None => Some r
                  | Some best => if older r best then Some r else Some best
                  end) None rows.

(** The common table expression [candidate]. *)
Definition candidate (jobs : Table) : option (string * Job) :=
  first_by_age
    (map_to_list
       (filter (λ kj, kind kj.2 ∈ [SCAN; HASH] ∧ status kj.2 = PENDING) jobs)).

(** The [SET] clause of the claim statement. *)
Definition claimed (normalized_worker_id : string) (now lease : Z) (j : Job) : Job :=
  {| id := id j;
     kind := kind j;
     status := RUNNING;
     dry_run := dry_run j;
     worker_id := Some normalized_worker_id;
     worker_heartbeat_at := Some now;
     lease_expires_at := Some lease;
     progress := progress j;
     total_items := total_items j;
     processed_items := processed_items j;
     payload := payload j;
     error_code := error_code j;
     error_message := error_message j;
     created_at := created_at j;
     updated_at := now;
     started_at := Some (default now (started_at j));
     finished_at := finished_at j |}.

Definition claim_pending_scan_hash_job (settings : Config.Settings)
    (worker : string) (now : Z) (jobs : Table)
    : Result (option JobSnapshot) * Table :=
  let normalized_worker_id := Py.strip worker in
  if negb (Py.nonempty normalized_worker_id) then (raise ValueError, jobs)
  else
    let session := recover_in_session now jobs in
    let lease := now + _lease_delta settings in
    match candidate session with
    | None => (ret None, jobs)                      (* session.rollback() *)
    | Some (key, j) =>
        if index_conflict key session
        then (raise JobConflictError, jobs)         (* IntegrityError, rollback *)
        else
          let session' := <[key := claimed normalized_worker_id now lease j]> session in
          match session' !! key with
          | None => (raise JobConflictError, session')
          | Some claimed_job => (ret (Some (_to_snapshot claimed_job)), session')
          end
    end.

(** *** heartbeat *)

(** The row written when the lease has run out. *)
Definition lease_expired (now : Z) (j : Job) : Job :=
  {| id := id j;
     kind := kind j;
     status := RETRYABLE;
     dry_run := dry_run j;
     worker_id := None;
     worker_heartbeat_at := None;
     lease_expires_at := None;
     progress := progress j;
     total_items := total_items j;
     processed_items := processed_items j;
     payload := payload j;
     error_code := Some "LEASE_EXPIRED";
     error_message := Some "Lease expired before heartbeat";
     created_at := created_at j;
     updated_at := now;
     started_at := started_at j;
     finished_at := Some now |}.

(** The row written by a heartbeat that is accepted. *)
Definition refreshed (normalized_worker_id : string) (now lease : Z)
    (new_progress : option float) (new_processed : option Z) (j : Job) : Job :=
  {| id := id j;
     kind := kind j;
     status := status j;
     dry_run := dry_run j;
     worker_id := Some normalized_worker_id;
     worker_heartbeat_at := Some now;
     lease_expires_at := Some lease;
     progress := default (progress j) new_progress;
     total_items := total_items j;
     processed_items := default (processed_items j) new_processed;
     payload := payload j;
     error_code := error_code j;
     error_message := error_message j;
     created_at := created_at j;
     updated_at := now;
     started_at := started_at j;
     finished_at := finished_at j |}.

Definition progress_out_of_range (new_progress : option float) : bool :=
  match new_progress with
  | None => false
  | Some x => (x <? 0)%float || (1 <? x)%float
  end.

Definition processed_negative (new_processed : option Z) : bool :=
  match new_processed with
  | None => false
  | Some n => n <? 0
  end.

Definition heartbeat (settings : Config.Settings) (job_id worker : string)
    (new_progress : option float) (new_processed : option Z)
    (now : Z) (jobs : Table) : Result JobSnapshot * Table :=
  let normalized_worker_id := Py.strip worker in
  if negb (Py.nonempty normalized_worker_id) then (raise ValueError, jobs)
  else
    match jobs !! job_id with
    | None => (raise JobNotFoundError, jobs)
    | Some job =>
        if negb (bool_decide (status job = RUNNING))
        then (raise InvalidJobStateError, jobs)
        else
          let expired :=
            match _coerce_utc (lease_expires_at job) with
            | None => true
            | Some t => t <=? now
            end in
          if expired then
            match _enforce_transition (status job) RETRYABLE with
            | Some e => (raise e, jobs)
            | None =>
                (* the row is committed, then the exception is raised *)
                (raise JobConflictError, <[job_id := lease_expired now job]> jobs)
            end
          else if bool_decide (is_Some (worker_id job))
                  && negb (bool_decide (worker_id job = Some normalized_worker_id))
          then (raise JobConflictError, jobs)
          else if progress_out_of_range new_progress then (raise ValueError, jobs)
          else if processed_negative new_processed then (raise ValueError, jobs)
          else
            let job' :=
              refreshed normalized_worker_id now (now + _lease_delta settings)
                new_progress new_processed job in
            (ret (_to_snapshot job'), <[job_id := job']> jobs)
    end.

(** *** finish_job *)

Definition finished (success : bool) (message : option string) (now : Z)
    (next_status : JobStatus) (j : Job) : Job :=
  {| id := id j;
     kind := kind j;
     status := next_status;
     dry_run := dry_run j;
     worker_id := worker_id j;
     worker_heartbeat_at := Some now;
     lease_expires_at := None;
     progress := if success then 1%float else progress j;
     total_items := total_items j;
     processed_items := processed_items j;
     payload := payload j;
     error_code := if success then None else Some "WORKER_FAILURE";
     error_message := message;
     created_at := created_at j;
     updated_at := now;
     started_at := started_at j;
     finished_at := Some now |}.

Definition finish_job (job_id worker : string) (success : bool)
    (message : option string) (now : Z) (jobs : Table)
    : Result JobSnapshot * Table :=
  let normalized_worker_id := Py.strip worker in
  if negb (Py.nonempty normalized_worker_id) then (raise ValueError, jobs)
  else
    match jobs !! job_id with
    | None => (raise JobNotFoundError, jobs)
    | Some job =>
        if negb (bool_decide (status job = RUNNING))
        then (raise InvalidJobStateError, jobs)
        else if negb (bool_decide (worker_id job = Some normalized_worker_id))
        then (raise JobConflictError, jobs)
        else
          let next_status := if success then COMPLETED else FAILED in
          match _enforce_transition (status job) next_status with
          | Some e => (raise e, jobs)
          | None =>
              let job' := finished success message now next_status job in
              (ret (_to_snapshot job'), <[job_id := job']> jobs)
          end
    end.

(** *** reset_retryable_job *)

Definition reset (now : Z) (j : Job) : Job :=
  {| id := id j;
     kind := kind j;
     status := PENDING;
     dry_run := dry_run j;
     worker_id := None;
     worker_heartbeat_at := None;
     lease_expires_at := None;
     progress := progress j;
     total_items := total_items j;
     processed_items := processed_items j;
     payload := payload j;
     error_code := None;
     error_message := None;
     created_at := created_at j;
     updated_at := now;
     started_at := started_at j;
     finished_at := None |}.

(** The row re-enters the partial unique index at the commit; a collision
    there is an [IntegrityError] the method does not catch. *)
Definition reset_retryable_job (job_id : string) (now : Z) (jobs : Table)
    : Result JobSnapshot * Table :=
  match jobs !! job_id with
  | None => (raise JobNotFoundError, jobs)
  | Some job =>
      match _enforce_transition (status job) PENDING with
      | Some e => (raise e, jobs)
      | None =>
          let job' := reset now job in
          if indexed job' && index_conflict job_id jobs
          then (raise IntegrityError, jobs)
          else (ret (_to_snapshot job'), <[job_id := job']> jobs)
      end
  end.

(** *** cancel_job *)

Definition cancelled (message : option string) (now : Z) (j : Job) : Job :=
  {| id := id j;
     kind := kind j;
     status := CANCELLED;
     dry_run := dry_run j;
     worker_id := worker_id j;
     worker_heartbeat_at := worker_heartbeat_at j;
     lease_expires_at := None;
     progress := progress j;
     total_items := total_items j;
     processed_items := processed_items j;
     payload := payload j;
     error_code := error_code j;
     error_message :=
       match message with
       | Some m => if Py.nonempty m then Some m else error_message j
       | None => error_message j
       end;
     created_at := created_at j;
     updated_at := now;
     started_at := started_at j;
     finished_at := Some now |}.

Definition cancel_job (job_id : string) (message : option string) (now : Z)
    (jobs : Table) : Result JobSnapshot * Table :=
  match jobs !! job_id with
  | None => (raise JobNotFoundError, jobs)
  | Some job =>
      let target := CANCELLED in
      match _enforce_transition (status job) target with
      | Some e => (raise e, jobs)
      | None =>
          let job' := cancelled message now job in
          (ret (_to_snapshot job'), <[job_id := job']> jobs)
      end
  end.

(** *** The coordinator as a transition system *)

(** One call of a coordinator operation, seen from the store. *)
Inductive step : Table → Table → Prop :=
| step_create_job settings k p d job_id now s :
    step s (create_job settings k p d job_id now s).2
| step_claim settings worker now s :
    step s (claim_pending_scan_hash_job settings worker now s).2
| step_heartbeat settings job_id worker pr it now s :
    step s (heartbeat settings job_id worker pr it now s).2
| step_finish_job job_id worker success message now s :
    step s (finish_job job_id worker success message now s).2
| step_reset job_id now s :
    step s (reset_retryable_job job_id now s).2
| step_cancel job_id message now s :
    step s (cancel_job job_id message now s).2
| step_recover now s :
    step s (recover_stale_jobs now s).2.

(** The stores the coordinator can produce from the empty table. *)
Definition reachable (s : Table) : Prop := rtc step ∅ s.

End Jobs.

(** ** Shared enumerations of [dedupfs/db/models.py] *)

Module Models.

Inductive HashAlgorithm := BLAKE3 | SHA256.

#[global] Instance HashAlgorithm_eq_dec : EqDecision HashAlgorithm.
Proof. solve_decision. Defined.

(** [HashAlgorithm.value] and the constructor call [HashAlgorithm(text)]. *)
Definition HashAlgorithm_value (a : HashAlgorithm) : string :=
  match a with
  | BLAKE3 => "blake3"
  | SHA256 => "sha256"
  end.

Definition HashAlgorithm_of (text : string) : option HashAlgorithm :=
  if bool_decide (text = "blake3") then Some BLAKE3
  else if bool_decide (text = "sha256") then Some SHA256
  else None.

End Models.

(** ** Thumbnail queue ([dedupfs/thumbs/service.py]) *)

Module Thumbs.
Import Models.

Inductive ThumbnailStatus := PENDING | RUNNING | READY | FAILED.
Inductive ThumbnailMediaType := IMAGE | VIDEO.
Inductive ThumbnailFormat := JPEG | WEBP.
Inductive ThumbnailCleanupStatus :=
  CLEANUP_PENDING | CLEANUP_RUNNING | CLEANUP_COMPLETED | CLEANUP_FAILED.

#[global] Instance ThumbnailStatus_eq_dec : EqDecision ThumbnailStatus.
Proof. solve_decision. Defined.
#[global] Instance ThumbnailMediaType_eq_dec : EqDecision ThumbnailMediaType.
Proof. solve_decision. Defined.
#[global] Instance ThumbnailFormat_eq_dec : EqDecision ThumbnailFormat.
Proof. solve_decision. Defined.
#[global] Instance ThumbnailCleanupStatus_eq_dec : EqDecision ThumbnailCleanupStatus.
Proof. solve_decision. Defined.

Definition ThumbnailFormat_value (f : ThumbnailFormat) : string :=
  match f with
  | JPEG => "jpeg"
  | WEBP => "webp"
  end.

Definition ThumbnailFormat_of (text : string) : option ThumbnailFormat :=
  if bool_decide (text = "jpeg") then Some JPEG
  else if bool_decide (text = "webp") then Some WEBP
  else None.

(** The columns of [library_files] and [library_roots] the service reads. *)
Record LibraryFile := {
  file_pk : Z;
  library_id : Z;
  relative_path : string;
  size_bytes : Z;
  mtime_ns : Z;
  is_missing : bool;
  hash_algorithm : option HashAlgorithm;
  content_hash : option (list Byte.byte)
}.

Record LibraryRoot := {
  root_pk : Z;
  root_path : string
}.

(** A row of [thumbnails] ([class Thumbnail]). *)
Record Thumbnail := {
  id : Z;
  thumb_key : string;
  file_id : Z;
  group_key : option string;
  status : ThumbnailStatus;
  media_type : ThumbnailMediaType;
  format : ThumbnailFormat;
  max_dimension : Z;
  version : Z;
  source_size_bytes : Z;
  source_mtime_ns : Z;
  output_relpath : option string;
  width : option Z;
  height : option Z;
  bytes_size : option Z;
  error_code : option string;
  error_message : option string;
  error_count : Z;
  retry_after : option Z;
  worker_id : option string;
  worker_heartbeat_at : option Z;
  lease_expires_at : option Z;
  created_at : Z;
  updated_at : Z;
  started_at : option Z;
  finished_at : option Z
}.

(** [ThumbnailSnapshot] has the twenty-six fields of the row. *)
Definition ThumbnailSnapshot := Thumbnail.

(** A row of [thumbnail_cleanup_jobs]. *)
Record ThumbnailCleanupJob := {
  cleanup_id : Z;
  cleanup_group_key : string;
  cleanup_status : ThumbnailCleanupStatus;
  execute_after : Z;
  cleanup_worker_id : option string;
  cleanup_worker_heartbeat_at : option Z;
  cleanup_lease_expires_at : option Z;
  cleanup_error_code : option string;
  cleanup_error_message : option string;
  cleanup_created_at : Z;
  cleanup_updated_at : Z;
  cleanup_finished_at : option Z
}.

Definition ThumbnailCleanupSnapshot := ThumbnailCleanupJob.

Inductive Raised :=
| ThumbnailNotFoundError
| ThumbnailPolicyError
| ThumbnailQueueFullError
| ThumbnailCleanupError
| PathSafetyError
| ValueError
| IntegrityError.

#[global] Instance Raised_eq_dec : EqDecision Raised.
Proof. solve_decision. Defined.

Definition Result (A : Type) := (Raised + A)%type.
Definition raise {A} (e : Raised) : Result A := inl e.
Definition ret {A} (a : A) : Result A := inr a.

(** What the service takes from outside the repository: the digest of
    [hashlib.sha256] as a hexadecimal string, and [Path.resolve(strict=False)],
    which reads the file system. *)
Record Platform := {
  sha256_hexdigest : string → string;
  resolve : string → string
}.

(** The tables of the store the service works on. *)
Record Store := {
  library_files : gmap Z LibraryFile;
  library_roots : gmap Z LibraryRoot;
  thumbnails : list Thumbnail;
  cleanup_jobs : list ThumbnailCleanupJob
}.

Definition _IMAGE_EXTENSIONS : list string :=
  [".jpg"; ".jpeg"; ".png"; ".bmp"; ".gif"; ".tif"; ".tiff"; ".webp"].

Definition _VIDEO_EXTENSIONS : list string :=
  [".mp4"; ".mov"; ".m4v"; ".avi"; ".mkv"; ".webm"; ".mpeg"; ".mpg"; ".wmv"].

Definition _coerce_utc (value : option Z) : option Z :=
  match value with
  | None => None
  | Some t => Some t
  end.

Definition _normalize_format (settings : Config.Settings)
    (raw_format : option string) : Result ThumbnailFormat :=
  match raw_format with
  | None =>
      match ThumbnailFormat_of (Config.thumbnail_default_format settings) with
      | Some f => ret f
      | None => raise ValueError
      end
  | Some raw =>
      let normalized := Py.lower (Py.strip raw) in
      match ThumbnailFormat_of normalized with
      | Some f => ret f
      | None => raise ThumbnailPolicyError
      end
  end.

Definition _normalize_dimension (settings : Config.Settings)
    (requested : option Z) : Result Z :=
  match requested with
  | None => ret (Config.thumbnail_max_dimension settings)
  | Some r =>
      if r <=? 0 then raise ThumbnailPolicyError
      else if Config.thumbnail_max_dimension settings <? r
      then raise ThumbnailPolicyError
      else ret r
  end.

Definition _infer_media_type (relative : string) : Result ThumbnailMediaType :=
  let extension := Py.lower (Py.path_suffix relative) in
  if bool_decide (extension ∈ _IMAGE_EXTENSIONS) then ret IMAGE
  else if bool_decide (extension ∈ _VIDEO_EXTENSIONS) then ret VIDEO
  else raise ThumbnailPolicyError.

(** [validate_library_relative_path] of [dedupfs/core/path_safety.py]. *)
Definition validate_library_relative_path (raw_path : string) : Result string :=
  if String.prefix "/" raw_path then raise PathSafetyError
  else if bool_decide (".." ∈ Py.path_parts raw_path) then raise PathSafetyError
  else if Py.contains "~" raw_path then raise PathSafetyError
  else if Py.contains "$" raw_path then raise PathSafetyError
  else ret raw_path.

(** [root in candidate.parents] for two resolved absolute paths. *)
Definition in_parents (root candidate : string) : bool :=
  negb (bool_decide (root = candidate))
  && (bool_decide (root = "/") || String.prefix (root ++ "/") candidate).

Definition _validate_source_path (platform : Platform)
    (settings : Config.Settings) (root : string) (relative : string)
    : option Raised :=
  let libraries_root := resolve platform (Config.libraries_root settings) in
  let root_real := resolve platform root in
  if negb (bool_decide (root_real = libraries_root))
     && negb (in_parents libraries_root root_real)
  then Some ThumbnailPolicyError
  else
    match validate_library_relative_path relative with
    | inl e => Some e
    | inr rel =>
        let candidate := resolve platform (root_real ++ "/" ++ rel) in
        if negb (bool_decide (candidate = root_real))
           && negb (in_parents root_real candidate)
        then Some ThumbnailPolicyError
        else None
    end.

Definition _build_group_key (item : LibraryFile) : option string :=
  match hash_algorithm item, content_hash item with
  | Some a, Some h => Some (HashAlgorithm_value a ++ ":" ++ Py.hex h)
  | _, _ => None
  end.

Definition _build_thumb_key (platform : Platform) (item : LibraryFile)
    (dimension : Z) (output_format : ThumbnailFormat) : string :=
  let source_fingerprint :=
    match hash_algorithm item, content_hash item with
    | Some a, Some h => HashAlgorithm_value a ++ ":" ++ Py.hex h
    | _, _ =>
        "meta:" ++ Py.str_of_Z (size_bytes item) ++ ":" ++ Py.str_of_Z (mtime_ns item)
    end in
  let material :=
    Py.str_of_Z (file_pk item) ++ ":" ++ source_fingerprint ++ ":"
    ++ Py.str_of_Z dimension ++ ":" ++ ThumbnailFormat_value output_format
    ++ ":thumb-v2" in
  sha256_hexdigest platform material.

Definition _build_output_relpath (key : string) (output_format : ThumbnailFormat)
    : string :=
  let extension := if bool_decide (output_format = JPEG) then "jpg" else "webp" in
  substring 0 2 key ++ "/" ++ substring 2 2 key ++ "/" ++ key ++ "." ++ extension.

Definition _to_snapshot (item : Thumbnail) : ThumbnailSnapshot :=
  {| id := id item;
     thumb_key := thumb_key item;
     file_id := file_id item;
     group_key := group_key item;
     status := status item;
     media_type := media_type item;
     format := format item;
     max_dimension := max_dimension item;
     version := version item;
     source_size_bytes := source_size_bytes item;
     source_mtime_ns := source_mtime_ns item;
     output_relpath := output_relpath item;
     width := width item;
     height := height item;
     bytes_size := bytes_size item;
     error_code := error_code item;
     error_message := error_message item;
     error_count := error_count item;
     retry_after := retry_after item;
     worker_id := worker_id item;
     worker_heartbeat_at := worker_heartbeat_at item;
     lease_expires_at := lease_expires_at item;
     created_at := created_at item;
     updated_at := updated_at item;
     started_at := started_at item;
     finished_at := finished_at item |}.

(** *** Statements on the [thumbnails] table *)

(** [SELECT ... WHERE thumb_key = :key], first row. *)
Definition select_by_key (key : string) (rows : list Thumbnail) : option Thumbnail :=
  List.find (λ t, bool_decide (thumb_key t = key)) rows.

(** [SELECT COUNT(1) FROM thumbnails WHERE status IN ('pending', 'running')]. *)
Definition queue_depth (rows : list Thumbnail) : Z :=
  Z.of_nat (length (filter (λ t, status t ∈ [PENDING; RUNNING]) rows)).

(** The identifier the store gives to the next row. *)
Definition next_id (rows : list Thumbnail) : Z :=
  1 + foldr (λ t acc, Z.max (id t) acc) 0 rows.

(** The [UPDATE] the session flushes for a changed row: by primary key. *)
Definition update_row (row : Thumbnail) (rows : list Thumbnail) : list Thumbnail :=
  (λ t, if bool_decide (id t = id row) then row else t) <$> rows.

(** The reset of a failed row whose retry time has come. *)
Definition requeued (now : Z) (t : Thumbnail) : Thumbnail :=
  {| id := id t;
     thumb_key := thumb_key t;
     file_id := file_id t;
     group_key := group_key t;
     status := PENDING;
     media_type := media_type t;
     format := format t;
     max_dimension := max_dimension t;
     version := version t;
     source_size_bytes := source_size_bytes t;
     source_mtime_ns := source_mtime_ns t;
     output_relpath := output_relpath t;
     width := width t;
     height := height t;
     bytes_size := bytes_size t;
     error_code := None;
     error_message := None;
     error_count := error_count t;
     retry_after := None;
     worker_id := None;
     worker_heartbeat_at := None;
     lease_expires_at := None;
     created_at := created_at t;
     updated_at := now;
     started_at := None;
     finished_at := None |}.

(** The row the [INSERT] statement writes; the columns it does not name take
    their defaults. *)
Definition queued (row_id : Z) (key : string) (item : LibraryFile)
    (group : option string) (media : ThumbnailMediaType)
    (output_format : ThumbnailFormat) (dimension : Z) (relpath : string)
    (now : Z) : Thumbnail :=
  {| id := row_id;
     thumb_key := key;
     file_id := file_pk item;
     group_key := group;
     status := PENDING;
     media_type := media;
     format := output_format;
     max_dimension := dimension;
     version := 2;
     source_size_bytes := size_bytes item;
     source_mtime_ns := mtime_ns item;
     output_relpath := Some relpath;
     width := None;
     height := None;
     bytes_size := None;
     error_code := None;
     error_message := None;
     error_count := 0;
     retry_after := None;
     worker_id := None;
     worker_heartbeat_at := None;
     lease_expires_at := None;
     created_at := now;
     updated_at := now;
     started_at := None;
     finished_at := None |}.

(** [INSERT INTO thumbnails (...) SELECT ... WHERE (SELECT COUNT(1) ...) <
    :queue_capacity], one statement: no row when the queue is full, an
    [IntegrityError] when the unique [thumb_key] is taken, the new row
    otherwise. *)
Definition conditional_insert (capacity : Z) (row : Thumbnail)
    (rows : list Thumbnail) : Raised + list Thumbnail :=
  if queue_depth rows <? capacity then
    match select_by_key (thumb_key row) rows with
    | Some _ => inl IntegrityError
    | None => inr (rows ++ [row])%list
    end
  else inr rows.

(** *** request_thumbnail *)

(** What the first part of [request_thumbnail] computes from its arguments
    and the library tables, before it turns to the [thumbnails] table. *)
Record Request := {
  item : LibraryFile;
  normalized_format : ThumbnailFormat;
  normalized_dimension : Z;
  media : ThumbnailMediaType;
  key : string;
  relpath : string;
  group : option string
}.

(** The body of [request_thumbnail] down to [group_key = ...]: the
    normalisation of the arguments, the two reads of the library tables, the
    path validation and the derived key. *)
Definition resolve_request (platform : Platform) (settings : Config.Settings)
    (file : Z) (dimension_arg : option Z) (format_arg : option string)
    (db : Store) : Result Request :=
  match _normalize_format settings format_arg with
  | inl e => raise e
  | inr f =>
  match _normalize_dimension settings dimension_arg with
  | inl e => raise e
  | inr d =>
  match library_files db !! file with
  | None => raise ThumbnailNotFoundError
  | Some it =>
  if is_missing it then raise ThumbnailPolicyError
  else
  match library_roots db !! library_id it with
  | None => raise ThumbnailPolicyError
  | Some root =>
  match _validate_source_path platform settings (root_path root) (relative_path it) with
  | Some e => raise e
  | None =>
  match _infer_media_type (relative_path it) with
  | inl e => raise e
  | inr m =>
      let k := _build_thumb_key platform it d f in
      ret {| item := it;
             normalized_format := f;
             normalized_dimension := d;
             media := m;
             key := k;
             relpath := _build_output_relpath k f;
             group := _build_group_key it |}
  end end end end end end.

(** The rest of the body, from [existing = session.scalar(...)] on: the
    statements on the [thumbnails] table. *)
Definition enqueue (settings : Config.Settings) (r : Request) (now : Z)
    (rows : list Thumbnail) : Result ThumbnailSnapshot * list Thumbnail :=
  match select_by_key (key r) rows with
  | Some existing =>
      if bool_decide (status existing = FAILED)
         && match _coerce_utc (retry_after existing) with
            | None => true
            | Some t => t <=? now
            end
      then
        let existing' := requeued now existing in
        (ret (_to_snapshot existing'), update_row existing' rows)
      else (ret (_to_snapshot existing), rows)
  | None =>
      let row := queued (next_id rows) (key r) (item r) (group r) (media r)
                   (normalized_format r) (normalized_dimension r) (relpath r) now in
      match conditional_insert (Config.thumbnail_queue_capacity settings) row rows with
      | inl _ =>
          (* IntegrityError: rollback, then read the winner's row *)
          match select_by_key (key r) rows with
          | None => (raise IntegrityError, rows)
          | Some existing => (ret (_to_snapshot existing), rows)
          end
      | inr rows' =>
          match select_by_key (key r) rows' with
          | None =>
              (* nothing inserted: rollback *)
              match select_by_key (key r) rows with
              | Some existing => (ret (_to_snapshot existing), rows)
              | None => (raise ThumbnailQueueFullError, rows)
              end
          | Some _ =>
              (* commit, then read the row back *)
              match select_by_key (key r) rows' with
              | None => (raise ThumbnailPolicyError, rows')
              | Some created => (ret (_to_snapshot created), rows')
              end
          end
      end
  end.

(** [request_thumbnail(file_id, max_dimension, output_format)]: the value
    for the caller and the [thumbnails] table committed. *)
Definition request_thumbnail (platform : Platform) (settings : Config.Settings)
    (file : Z) (dimension_arg : option Z) (format_arg : option string)
    (now : Z) (db : Store) : Result ThumbnailSnapshot * list Thumbnail :=
  match resolve_request platform settings file dimension_arg format_arg db with
  | inl e => (raise e, thumbnails db)
  | inr r => enqueue settings r now (thumbnails db)
  end.

(** *** get_thumbnail *)

Definition get_thumbnail (key : string) (db : Store) : Result ThumbnailSnapshot :=
  match select_by_key key (thumbnails db) with
  | None => raise ThumbnailNotFoundError
  | Some item => ret (_to_snapshot item)
  end.

(** *** schedule_group_cleanup *)

Definition next_cleanup_id (rows : list ThumbnailCleanupJob) : Z :=
  1 + foldr (λ t acc, Z.max (cleanup_id t) acc) 0 rows.

Definition rescheduled (run_at now : Z) (r : ThumbnailCleanupJob)
    : ThumbnailCleanupJob :=
  {| cleanup_id := cleanup_id r;
     cleanup_group_key := cleanup_group_key r;
     cleanup_status := CLEANUP_PENDING;
     execute_after := run_at;
     cleanup_worker_id := None;
     cleanup_worker_heartbeat_at := None;
     cleanup_lease_expires_at := None;
     cleanup_error_code := None;
     cleanup_error_message := None;
     cleanup_created_at := cleanup_created_at r;
     cleanup_updated_at := now;
     cleanup_finished_at := None |}.

Definition schedule_group_cleanup (cleanup_delay_seconds : Z) (group : string)
    (delay_seconds : option Z) (now : Z) (rows : list ThumbnailCleanupJob)
    : Result ThumbnailCleanupSnapshot * list ThumbnailCleanupJob :=
  let normalized_group := Py.strip group in
  if negb (Py.nonempty normalized_group) then (raise ThumbnailCleanupError, rows)
  else if match delay_seconds with Some d => d <? 0 | None => false end
  then (raise ThumbnailCleanupError, rows)
  else
    let delay := default cleanup_delay_seconds delay_seconds in
    let run_at := now + delay in
    match List.find (λ r, bool_decide (cleanup_group_key r = normalized_group)) rows with
    | None =>
        let record :=
          {| cleanup_id := next_cleanup_id rows;
             cleanup_group_key := normalized_group;
             cleanup_status := CLEANUP_PENDING;
             execute_after := run_at;
             cleanup_worker_id := None;
             cleanup_worker_heartbeat_at := None;
             cleanup_lease_expires_at := None;
             cleanup_error_code := None;
             cleanup_error_message := None;
             cleanup_created_at := now;
             cleanup_updated_at := now;
             cleanup_finished_at := None |} in
        (ret record, (rows ++ [record])%list)
    | Some r =>
        let record := rescheduled run_at now r in
        (ret record,
         (λ x, if bool_decide (cleanup_id x = cleanup_id r) then record else x) <$> rows)
    end.

(** *** prune_group_thumbnails *)

(** The rows the [DELETE] covers; the files they name are removed from the
    thumbs root, which is outside the store. *)
Definition prunable (normalized_group : string) (t : Thumbnail) : Prop :=
  group_key t = Some normalized_group ∧ status t ∈ [READY; FAILED].

#[global] Instance prunable_dec g t : Decision (prunable g t).
Proof. unfold prunable. apply _. Defined.

Definition prune_group_thumbnails (group : string) (rows : list Thumbnail)
    : Result Z * list Thumbnail :=
  let normalized_group := Py.strip group in
  if negb (Py.nonempty normalized_group) then (raise ThumbnailCleanupError, rows)
  else
    (ret (Z.of_nat (length (filter (prunable normalized_group) rows))),
     filter (λ t, ¬ prunable normalized_group t) rows).

(** *** get_metrics *)

(** [ThumbnailMetricsSnapshot]; the field [queue_depth] is
    [metrics_queue_depth] here, beside the count of the same name above. *)
Record ThumbnailMetricsSnapshot := {
  generated_at : Z;
  metrics_queue_depth : Z;
  queue_pending : Z;
  queue_running : Z;
  retry_backlog : Z;
  retry_ready : Z;
  cleanup_pending : Z;
  cleanup_running : Z;
  cleanup_overdue : Z;
  cleanup_max_lag_seconds : Z
}.

(** [SELECT COUNT(id) ... WHERE ...] *)
Definition count_where {A} (where_clause : A → bool) (rows : list A) : Z :=
  Z.of_nat (length (filter (λ r, where_clause r = true) rows)).

(** [SELECT MIN(execute_after) ...]: [NULL] over no rows. *)
Definition min_execute_after (rows : list ThumbnailCleanupJob) : option Z :=
  foldr (λ c acc, Some match acc with
                       | None => execute_after c
                       | Some m => Z.min (execute_after c) m
                       end) None rows.

Definition get_metrics (now : Z) (db : Store) : ThumbnailMetricsSnapshot :=
  let queue_pending :=
    count_where (λ t, bool_decide (status t = PENDING)) (thumbnails db) in
  let queue_running :=
    count_where (λ t, bool_decide (status t = RUNNING)) (thumbnails db) in
  let retry_backlog :=
    count_where (λ t, bool_decide (status t = FAILED)
                      && match retry_after t with
                         | Some r => now <? r
                         | None => false
                         end) (thumbnails db) in
  let retry_ready :=
    count_where (λ t, bool_decide (status t = FAILED)
                      && (default now (retry_after t) <=? now)) (thumbnails db) in
  let cleanup_pending :=
    count_where (λ c, bool_decide (cleanup_status c = CLEANUP_PENDING)) (cleanup_jobs db) in
  let cleanup_running :=
    count_where (λ c, bool_decide (cleanup_status c = CLEANUP_RUNNING)) (cleanup_jobs db) in
  let overdue c :=
    bool_decide (cleanup_status c = CLEANUP_PENDING) && (execute_after c <=? now) in
  let cleanup_overdue := count_where overdue (cleanup_jobs db) in
  let oldest_due :=
    min_execute_after (filter (λ c, overdue c = true) (cleanup_jobs db)) in
  let oldest_due_utc := _coerce_utc oldest_due in
  let cleanup_max_lag_seconds :=
    match oldest_due_utc with
    | Some t => Z.max 0 (now - t)
    | None => 0
    end in
  {| generated_at := now;
     metrics_queue_depth := queue_pending + queue_running;
     queue_pending := queue_pending;
     queue_running := queue_running;
     retry_backlog := retry_backlog;
     retry_ready := retry_ready;
     cleanup_pending := cleanup_pending;
     cleanup_running := cleanup_running;
     cleanup_overdue := cleanup_overdue;
     cleanup_max_lag_seconds := cleanup_max_lag_seconds |}.

(** *** The service as a transition system on the [thumbnails] table *)

Definition with_thumbnails (rows : list Thumbnail) (db : Store) : Store :=
  {| library_files := library_files db;
     library_roots := library_roots db;
     thumbnails := rows;
     cleanup_jobs := cleanup_jobs db |}.

Definition with_cleanup_jobs (rows : list ThumbnailCleanupJob) (db : Store) : Store :=
  {| library_files := library_files db;
     library_roots := library_roots db;
     thumbnails := thumbnails db;
     cleanup_jobs := rows |}.

Inductive step (platform : Platform) (settings : Config.Settings)
    : Store → Store → Prop :=
| step_request file dimension_arg format_arg now db :
    step platform settings db
      (with_thumbnails
         (request_thumbnail platform settings file dimension_arg format_arg now db).2 db)
| step_schedule delay group delay_seconds now db :
    step platform settings db
      (with_cleanup_jobs
         (schedule_group_cleanup delay group delay_seconds now (cleanup_jobs db)).2 db)
| step_prune group db :
    step platform settings db
      (with_thumbnails (prune_group_thumbnails group (thumbnails db)).2 db).

End Thumbs.

(** ** WAL maintenance scheduler ([dedupfs/maintenance/service.py]) *)

Module Wal.
Import Sql.

Inductive WalCheckpointMode := PASSIVE | RESTART | TRUNCATE.
Inductive WalMaintenanceStatus := PENDING | RUNNING | COMPLETED | FAILED | RETRYABLE.

#[global] Instance WalCheckpointMode_eq_dec : EqDecision WalCheckpointMode.
Proof. solve_decision. Defined.
#[global] Instance WalMaintenanceStatus_eq_dec : EqDecision WalMaintenanceStatus.
Proof. solve_decision. Defined.

Definition WalCheckpointMode_of (text : string) : option WalCheckpointMode :=
  if bool_decide (text = "passive") then Some PASSIVE
  else if bool_decide (text = "restart") then Some RESTART
  else if bool_decide (text = "truncate") then Some TRUNCATE
  else None.

(** A row of [wal_maintenance_jobs]. *)
Record WalMaintenanceJob := {
  id : Z;
  requested_mode : WalCheckpointMode;
  status : WalMaintenanceStatus;
  requested_by : option string;
  reason : option string;
  execute_after : Z;
  retry_count : Z;
  retry_after : option Z;
  worker_id : option string;
  worker_heartbeat_at : option Z;
  lease_expires_at : option Z;
  checkpoint_busy : option Z;
  checkpoint_log_frames : option Z;
  checkpointed_frames : option Z;
  error_code : option string;
  error_message : option string;
  created_at : Z;
  updated_at : Z;
  started_at : option Z;
  finished_at : option Z
}.

(** [WalMaintenanceSnapshot] has the twenty fields of the row. *)
Definition WalMaintenanceSnapshot := WalMaintenanceJob.

Inductive Raised :=
| WalMaintenancePolicyError
| WalMaintenanceConflictError
| WalMaintenanceNotFoundError
| ValueError.

Definition Result (A : Type) := (Raised + A)%type.
Definition raise {A} (e : Raised) : Result A := inl e.
Definition ret {A} (a : A) : Result A := inr a.

Definition _coerce_utc (value : option Z) : option Z :=
  match value with
  | None => None
  | Some t => Some t
  end.

Definition _normalize_mode (settings : Config.Settings) (raw_mode : option string)
    : Result WalCheckpointMode :=
  match raw_mode with
  | None =>
      match WalCheckpointMode_of (Config.wal_checkpoint_default_mode settings) with
      | Some m => ret m
      | None => raise ValueError
      end
  | Some raw =>
      let token := Py.lower (Py.strip raw) in
      match WalCheckpointMode_of token with
      | Some m => ret m
      | None => raise ValueError
      end
  end.

Definition _to_snapshot (row : WalMaintenanceJob) : WalMaintenanceSnapshot :=
  {| id := id row;
     requested_mode := requested_mode row;
     status := status row;
     requested_by := requested_by row;
     reason := reason row;
     execute_after := execute_after row;
     retry_count := retry_count row;
     retry_after := retry_after row;
     worker_id := worker_id row;
     worker_heartbeat_at := worker_heartbeat_at row;
     lease_expires_at := lease_expires_at row;
     checkpoint_busy := checkpoint_busy row;
     checkpoint_log_frames := checkpoint_log_frames row;
     checkpointed_frames := checkpointed_frames row;
     error_code := error_code row;
     error_message := error_message row;
     created_at := created_at row;
     updated_at := updated_at row;
     started_at := started_at row;
     finished_at := finished_at row |}.

(** *** Queries *)

(** [created_at DESC, id DESC] *)
Definition created_desc (a b : WalMaintenanceJob) : bool :=
  (created_at b <? created_at a)
  || ((created_at a =? created_at b) && (id b <? id a)).

(** [finished_at DESC, id DESC]; an absent [finished_at] sorts below every
    instant. *)
Definition finished_desc (a b : WalMaintenanceJob) : bool :=
  match finished_at a, finished_at b with
  | Some x, Some y => (y <? x) || ((x =? y) && (id b <? id a))
  | Some _, None => true
  | None, Some _ => false
  | None, None => id b <? id a
  end.

Definition is_active (r : WalMaintenanceJob) : Prop :=
  status r ∈ [PENDING; RUNNING; RETRYABLE].

#[global] Instance is_active_dec r : Decision (is_active r).
Proof. unfold is_active. apply _. Defined.

(** The most recent active row. *)
Definition select_active (rows : list WalMaintenanceJob) : option WalMaintenanceJob :=
  head (order_by created_desc (filter is_active rows)).

(** The most recently finished completed row. *)
Definition select_latest_completed (rows : list WalMaintenanceJob)
    : option WalMaintenanceJob :=
  head (order_by finished_desc (filter (λ r, status r = COMPLETED) rows)).

Definition next_id (rows : list WalMaintenanceJob) : Z :=
  1 + foldr (λ r acc, Z.max (id r) acc) 0 rows.

(** *** request_checkpoint *)

(** [(requested_by or "api").strip()[:64] or "api"] *)
Definition requester (requested_by_arg : option string) : string :=
  let given :=
    match requested_by_arg with
    | Some s => if Py.nonempty s then s else "api"
    | None => "api"
    end in
  let cut := substring 0 64 (Py.strip given) in
  if Py.nonempty cut then cut else "api".

Definition request_checkpoint (settings : Config.Settings) (mode : option string)
    (reason_arg : option string) (requested_by_arg : option string) (force : bool)
    (now : Z) (rows : list WalMaintenanceJob)
    : Result WalMaintenanceSnapshot * list WalMaintenanceJob :=
  match _normalize_mode settings mode with
  | inl e => (raise e, rows)
  | inr normalized_mode =>
      if bool_decide (normalized_mode = TRUNCATE)
         && negb (Config.wal_checkpoint_allow_truncate settings)
      then (raise WalMaintenancePolicyError, rows)
      else
        match select_active rows with
        | Some active => (ret (_to_snapshot active), rows)
        | None =>
            let rate_limited :=
              if force then false
              else
                match select_latest_completed rows with
                | Some latest_completed =>
                    match _coerce_utc (finished_at latest_completed) with
                    | Some latest_finished_at =>
                        let next_allowed :=
                          latest_finished_at
                          + Config.wal_checkpoint_min_interval_seconds settings in
                        now <? next_allowed
                    | None => false
                    end
                | None => false
                end in
            if rate_limited then (raise WalMaintenanceConflictError, rows)
            else
              let row :=
                {| id := next_id rows;
                   requested_mode := normalized_mode;
                   status := PENDING;
                   requested_by := Some (requester requested_by_arg);
                   reason := reason_arg;
                   execute_after := now;
                   retry_count := 0;
                   retry_after := Some now;
                   worker_id := None;
                   worker_heartbeat_at := None;
                   lease_expires_at := None;
                   checkpoint_busy := None;
                   checkpoint_log_frames := None;
                   checkpointed_frames := None;
                   error_code := None;
                   error_message := None;
                   created_at := now;
                   updated_at := now;
                   started_at := None;
                   finished_at := None |} in
              (ret (_to_snapshot row), (rows ++ [row])%list)
        end
  end.

(** *** get_latest *)

Definition get_latest (rows : list WalMaintenanceJob) : Result WalMaintenanceSnapshot :=
  match head (order_by created_desc rows) with
  | None => raise WalMaintenanceNotFoundError
  | Some row => ret (_to_snapshot row)
  end.

(** *** get_metrics *)

(** [WalMaintenanceMetrics] *)
Record WalMaintenanceMetrics := {
  generated_at : Z;
  pending : Z;
  running : Z;
  retryable : Z;
  failed : Z;
  completed : Z;
  latest_completed_at : option Z
}.

(** [counts.get(status, 0)] on the result of [GROUP BY status]. *)
Definition count_status (st : WalMaintenanceStatus) (rows : list WalMaintenanceJob) : Z :=
  Z.of_nat (length (filter (λ r, status r = st) rows)).

(** [SELECT max(finished_at)]: the absent values are passed over, and the
    result is absent when there is no other. *)
Definition max_finished_at (rows : list WalMaintenanceJob) : option Z :=
  foldr (λ r acc,
           match finished_at r, acc with
           | Some t, Some m => Some (Z.max t m)
           | Some t, None => Some t
           | None, _ => acc
           end) None rows.

Definition get_metrics (now : Z) (rows : list WalMaintenanceJob) : WalMaintenanceMetrics :=
  let latest := max_finished_at (filter (λ r, status r = COMPLETED) rows) in
  {| generated_at := now;
     pending := count_status PENDING rows;
     running := count_status RUNNING rows;
     retryable := count_status RETRYABLE rows;
     failed := count_status FAILED rows;
     completed := count_status COMPLETED rows;
     latest_completed_at := _coerce_utc latest |}.

End Wal.

(** ** Repair of the jobs table ([dedupfs/db/migrations.py]) *)

Module Migrations.
Import Sql.

(** A row of [jobs] as the migrations see it: [kind] and [status] are the
    stored text, which older layouts wrote in capitals. *)
Record JobRow := {
  id : string;
  kind : string;
  status : string;
  dry_run : bool;
  worker_id : option string;
  worker_heartbeat_at : option Z;
  lease_expires_at : option Z;
  progress : float;
  total_items : option Z;
  processed_items : Z;
  payload : string;
  error_code : option string;
  error_message : option string;
  created_at : Z;
  updated_at : Z;
  started_at : option Z;
  finished_at : option Z
}.

(** [_normalize_job_enum_values] *)
Definition normalized (r : JobRow) : JobRow :=
  {| id := id r;
     kind := lower (kind r);
     status := lower (status r);
     dry_run := dry_run r;
     worker_id := worker_id r;
     worker_heartbeat_at := worker_heartbeat_at r;
     lease_expires_at := lease_expires_at r;
     progress := progress r;
     total_items := total_items r;
     processed_items := processed_items r;
     payload := payload r;
     error_code := error_code r;
     error_message := error_message r;
     created_at := created_at r;
     updated_at := updated_at r;
     started_at := started_at r;
     finished_at := finished_at r |}.

Definition _normalize_job_enum_values (rows : list JobRow) : list JobRow :=
  (λ r, if bool_decide (kind r ≠ lower (kind r) ∨ status r ≠ lower (status r))
        then normalized r else r) <$> rows.

(** [X IS NULL OR trim(X) = ''] *)
Definition null_or_blank (x : option string) : bool :=
  match x with
  | None => true
  | Some s => bool_decide (trim s = "")
  end.

(** [ORDER BY created_at ASC, id ASC] *)
Definition created_asc (a b : JobRow) : bool :=
  (created_at a <? created_at b)
  || ((created_at a =? created_at b) && String.ltb (id a) (id b)).

(** The [WHERE] clause of [ranked] in
    [_resolve_duplicate_running_scan_hash_jobs]. *)
Definition running_scan_hash (r : JobRow) : Prop :=
  lower (status r) = "running" ∧ lower (kind r) ∈ ["scan"; "hash"].

#[global] Instance running_scan_hash_dec r : Decision (running_scan_hash r).
Proof. unfold running_scan_hash. apply _. Defined.

(** The [SET] clause of [_resolve_duplicate_running_scan_hash_jobs];
    [now] is [CURRENT_TIMESTAMP]. *)
Definition reclassified_running (now : Z) (r : JobRow) : JobRow :=
  {| id := id r;
     kind := kind r;
     status := "retryable";
     dry_run := dry_run r;
     worker_id := None;
     worker_heartbeat_at := None;
     lease_expires_at := None;
     progress := progress r;
     total_items := total_items r;
     processed_items := processed_items r;
     payload := payload r;
     error_code := Some "MIGRATION_MUTEX_RECOVERY";
     error_message :=
       if null_or_blank (error_message r)
       then Some "Reclassified during migration to satisfy single running scan/hash invariant"
       else error_message r;
     created_at := created_at r;
     updated_at := now;
     started_at := started_at r;
     finished_at := Some (default now (finished_at r)) |}.

(** [SELECT id FROM ranked WHERE row_num > 1] *)
Definition beyond_first (before : JobRow → JobRow → bool) (candidates : list JobRow)
    : list string :=
  id <$> tail (order_by before candidates).

Definition _resolve_duplicate_running_scan_hash_jobs (now : Z) (rows : list JobRow)
    : list JobRow :=
  let losers := beyond_first created_asc (filter running_scan_hash rows) in
  (λ r, if bool_decide (id r ∈ losers) then reclassified_running now r else r) <$> rows.

(** The [CASE lower(status) WHEN 'running' THEN 0 WHEN 'pending' THEN 1 ELSE 2]
    of the second repair. *)
Definition status_rank (r : JobRow) : Z :=
  if bool_decide (lower (status r) = "running") then 0
  else if bool_decide (lower (status r) = "pending") then 1
  else 2.

Definition rank_created_asc (a b : JobRow) : bool :=
  (status_rank a <? status_rank b)
  || ((status_rank a =? status_rank b) && created_asc a b).

Definition pending_or_running_scan_hash (r : JobRow) : Prop :=
  lower (kind r) ∈ ["scan"; "hash"] ∧ lower (status r) ∈ ["pending"; "running"].

#[global] Instance pending_or_running_scan_hash_dec r :
  Decision (pending_or_running_scan_hash r).
Proof. unfold pending_or_running_scan_hash. apply _. Defined.

Definition reclassified_active (now : Z) (r : JobRow) : JobRow :=
  {| id := id r;
     kind := kind r;
     status := "retryable";
     dry_run := dry_run r;
     worker_id := None;
     worker_heartbeat_at := None;
     lease_expires_at := None;
     progress := progress r;
     total_items := total_items r;
     processed_items := processed_items r;
     payload := payload r;
     error_code :=
       if null_or_blank (error_code r) then Some "MIGRATION_ACTIVE_RECOVERY"
       else error_code r;
     error_message :=
       if null_or_blank (error_message r)
       then Some "Reclassified during migration to satisfy single pending/running scan/hash invariant"
       else error_message r;
     created_at := created_at r;
     updated_at := now;
     started_at := started_at r;
     finished_at := Some (default now (finished_at r)) |}.

Definition _resolve_duplicate_pending_or_running_scan_hash_jobs (now : Z)
    (rows : list JobRow) : list JobRow :=
  let losers :=
    beyond_first rank_created_asc (filter pending_or_running_scan_hash rows) in
  (λ r, if bool_decide (id r ∈ losers) then reclassified_active now r else r) <$> rows.

(** The rows the partial unique index [ix_jobs_single_active_scan_hash]
    covers; [_rebuild_single_active_scan_hash_index] succeeds when at most
    one row is covered. *)
Definition index_builds (rows : list JobRow) : bool :=
  bool_decide (length (filter pending_or_running_scan_hash rows) ≤ 1)%nat.

(** What a migration step does to the [jobs] table; [None] stands for a
    store without that table.  The statements that only change the schema
    (columns, indexes) leave the rows as they are. *)
Definition repair (now : Z) (rows : list JobRow) : list JobRow :=
  _resolve_duplicate_pending_or_running_scan_hash_jobs now
    (_resolve_duplicate_running_scan_hash_jobs now
       (_normalize_job_enum_values rows)).

Definition _migration_0006_jobs_lease_protocol (now : Z)
    (jobs : option (list JobRow)) : option (list JobRow) :=
  repair now <$> jobs.

Definition _migration_0007_normalize_enum_storage_for_rust_protocol (now : Z)
    (jobs : option (list JobRow)) : option (list JobRow) :=
  repair now <$> jobs.

Definition _migration_0009_scan_hash_admission_mutex (now : Z)
    (jobs : option (list JobRow)) : option (list JobRow) :=
  repair now <$> jobs.

(** [MIGRATIONS], as far as the rows of [jobs] go: the versions whose step
    changes them.  Step 5 copies the table when it still has the column
    [execution_backend]; that layout has neither [lease_expires_at] nor
    [error_code], which step 6 adds, so its rows carry [None] there and the
    copy, which takes every other column, leaves them as they are. *)
Definition MIGRATIONS : list (Z * (Z → option (list JobRow) → option (list JobRow))) :=
  [ (1, λ _ jobs, jobs);
    (2, λ _ jobs, jobs);
    (3, λ _ jobs, jobs);
    (4, λ _ jobs, jobs);
    (5, λ _ jobs, jobs);
    (6, _migration_0006_jobs_lease_protocol);
    (7, _migration_0007_normalize_enum_storage_for_rust_protocol);
    (8, λ _ jobs, jobs);
    (9, _migration_0009_scan_hash_admission_mutex);
    (10, λ _ jobs, jobs);
    (11, λ _ jobs, jobs);
    (12, λ _ jobs, jobs) ].

(** [apply_migrations]: the steps whose version is not recorded yet, in the
    declared order. *)
Definition apply_migrations (existing_versions : list Z) (now : Z)
    (jobs : option (list JobRow)) : option (list JobRow) :=
  foldl (λ acc step, if bool_decide (step.1 ∈ existing_versions) then acc
                     else step.2 now acc) jobs MIGRATIONS.

End Migrations.

(** ** Duplicate-group cursor codec ([dedupfs/duplicates/service.py]) *)

Module Cursor.
Import Models.

Local Open Scope N_scope.
Local Open Scope list_scope.

(** The decoder receives arbitrary text, so in this module a [str] is the
    list of its code points and a [bytes] value the list of its octets. *)
Abbreviation text := (list N).
Abbreviation octets := (list N).

Definition lit (s : string) : text := N_of_ascii <$> list_ascii_of_string s.

(** *** [str] methods *)

(** [str.isspace] for one code point. *)
Definition isspace (c : N) : bool :=
  (9 <=? c) && (c <=? 13) || (28 <=? c) && (c <=? 32)
  || (c =? 0x85) || (c =? 0xA0) || (c =? 0x1680)
  || (0x2000 <=? c) && (c <=? 0x200A)
  || (c =? 0x2028) || (c =? 0x2029) || (c =? 0x202F) || (c =? 0x205F)
  || (c =? 0x3000).

Fixpoint lstrip (s : text) : text :=
  match s with
  | [] => []
  | c :: rest => if isspace c then lstrip rest else s
  end.

Fixpoint rstrip (s : text) : text :=
  match s with
  | [] => []
  | c :: rest =>
      match rstrip rest with
      | [] => if isspace c then [] else [c]
      | kept => c :: kept
      end
  end.

Definition strip (s : text) : text := rstrip (lstrip s).

(** [s.rstrip(chars)] for a one-character set. *)
Fixpoint rstrip_char (x : N) (s : text) : text :=
  match s with
  | [] => []
  | c :: rest =>
      match rstrip_char x rest with
      | [] => if c =? x then [] else [c]
      | kept => c :: kept
      end
  end.

(** [str.lower] for one code point.  The capital letters of ASCII and
    Latin-1 move by 32; U+0130 and the Kelvin sign U+212A are the only other
    code points whose lower-case form contains an ASCII character.  The
    remaining case pairs of Unicode are not tabulated: the decoder compares
    lower-cased text with ASCII words and with hexadecimal digits only. *)
Definition lower_char (c : N) : text :=
  if (65 <=? c) && (c <=? 90) then [c + 32]
  else if (0xC0 <=? c) && (c <=? 0xDE) && negb (c =? 0xD7) then [c + 32]
  else if c =? 0x130 then [0x69; 0x307]
  else if c =? 0x212A then [0x6B]
  else [c].

Definition lower (s : text) : text := s ≫= lower_char.

(** *** Integers and text *)

Definition is_digit (c : N) : bool := (48 <=? c) && (c <=? 57).

(** The longest prefix of decimal digits, and what follows it. *)
Fixpoint span_digits (s : text) : text * text :=
  match s with
  | [] => ([], [])
  | c :: rest =>
      if is_digit c
      then let '(digits, tail) := span_digits rest in (c :: digits, tail)
      else ([], s)
  end.

Definition value_of_digits (digits : text) : N :=
  fold_left (λ acc c, 10 * acc + (c - 48)) digits 0.

(** The decimal digits of [n], most significant first; [fuel] bounds their
    number. *)
Fixpoint digits_of (fuel : nat) (n : N) (acc : text) : text :=
  match fuel with
  | O => acc
  | S fuel =>
      let acc := (48 + n mod 10) :: acc in
      if n <? 10 then acc else digits_of fuel (n / 10) acc
  end.

Definition str_of_N (n : N) : text := digits_of (S (N.to_nat (N.log2 n))) n [].

(** [str(n)] for an [int]. *)
Definition str_of_int (n : Z) : text :=
  if (n <? 0)%Z then 45 :: str_of_N (Z.abs_N n) else str_of_N (Z.abs_N n).

(** The white space [int] skips around an ASCII literal ([Py_ISSPACE]). *)
Definition isspace_ascii (c : N) : bool :=
  (9 <=? c) && (c <=? 13) || (c =? 32).

Fixpoint lstrip_ascii (s : text) : text :=
  match s with
  | [] => []
  | c :: rest => if isspace_ascii c then lstrip_ascii rest else s
  end.

Fixpoint rstrip_ascii (s : text) : text :=
  match s with
  | [] => []
  | c :: rest =>
      match rstrip_ascii rest with
      | [] => if isspace_ascii c then [] else [c]
      | kept => c :: kept
      end
  end.

(** The value of digits with single underscores between them. *)
Fixpoint grouped_digits (s : text) (acc : N) (after_digit : bool) : option N :=
  match s with
  | [] => if after_digit then Some acc else None
  | c :: rest =>
      if is_digit c then grouped_digits rest (10 * acc + (c - 48)) true
      else if (c =? 95) && after_digit then grouped_digits rest acc false
      else None
  end.

(** [int(s)] for a [str]: white space around, a sign, decimal digits.  A
    Unicode space outside ASCII counts as a blank.  Two things are left
    out: the decimal digits of other scripts, which [int] also reads, and
    the interpreter's cap on the length of a literal
    ([sys.set_int_max_str_digits]).  [None] stands for [ValueError]. *)
Definition int_of_str (s : text) : option Z :=
  let ascii := (λ c, if (127 <=? c) && isspace c then 32 else c) <$> s in
  let body := rstrip_ascii (lstrip_ascii ascii) in
  let '(negative, magnitude) :=
    match body with
    | c :: rest => if c =? 45 then (true, rest)
                   else if c =? 43 then (false, rest)
                   else (false, body)
    | [] => (false, body)
    end in
  match grouped_digits magnitude 0 false with
  | Some n => Some (if negative then - Z.of_N n else Z.of_N n)%Z
  | None => None
  end.

(** *** Floats read from JSON text

    A float is kept as the literal it was read from: a sign, the digits of
    the integer and fraction parts taken together, and the power of ten that
    scales them. *)
Inductive Float :=
| FNaN
| FInfinity (negative : bool)
| FDecimal (negative : bool) (digits : N) (exponent : Z).

(** The binary64 value nearest to [digits * 10 ^ exponent] (ties to even),
    truncated to an integer; [None] when that value is infinite. *)
Definition trunc_nearest_double (digits : N) (exponent : Z) : option Z :=
  if digits =? 0 then Some 0%Z
  else if (400 <? exponent)%Z then None
  else if (exponent <? - (400 + Z.of_N (N.log2 digits)))%Z then Some 0%Z
  else
    (let num := Z.of_N digits * 10 ^ Z.max exponent 0 in
     let den := 10 ^ Z.max (- exponent) 0 in
     let scaled (s : Z) := (num * 2 ^ Z.max (- s) 0, den * 2 ^ Z.max s 0) in
     let e0 := Z.log2 num - Z.log2 den in
     let e := let '(a, b) := scaled e0 in if a <? b then e0 - 1 else e0 in
     let s := Z.max (e - 52) (-1074) in
     let '(a, b) := scaled s in
     let q := a / b in
     let r := a mod b in
     let m := if (b <? 2 * r) || (b =? 2 * r) && Z.odd q then q + 1 else q in
     if 2 ^ 1024 <=? m * 2 ^ s then None
     else Some (if 0 <=? s then m * 2 ^ s else m / 2 ^ (- s)))%Z.

(** [int(x)] for a float: [ValueError] for NaN, [OverflowError] for an
    infinity, both rendered as [None]. *)
Definition int_of_float (x : Float) : option Z :=
  match x with
  | FNaN => None
  | FInfinity _ => None
  | FDecimal negative digits exponent =>
      (λ n, if negative then - n else n)%Z <$> trunc_nearest_double digits exponent
  end.

(** *** [base64]

    [table_b2a_base64] and [table_a2b_base64] of [binascii]. *)
Definition b2a (v : N) : N :=
  if v <? 26 then 65 + v
  else if v <? 52 then 97 + (v - 26)
  else if v <? 62 then 48 + (v - 52)
  else if v =? 62 then 43
  else 47.

Definition a2b (c : N) : option N :=
  if (65 <=? c) && (c <=? 90) then Some (c - 65)
  else if (97 <=? c) && (c <=? 122) then Some (c - 97 + 26)
  else if (48 <=? c) && (c <=? 57) then Some (c - 48 + 52)
  else if c =? 43 then Some 62
  else if c =? 47 then Some 63
  else None.

(** [binascii.b2a_base64(data, newline=False)]: three octets give four
    characters, and a final group of one or two octets is padded with [=]. *)
Fixpoint b2a_base64 (data : octets) : octets :=
  match data with
  | [] => []
  | [x] => [b2a (x / 4); b2a (x mod 4 * 16); 61; 61]
  | [x; y] => [b2a (x / 4); b2a (x mod 4 * 16 + y / 16); b2a (y mod 16 * 4); 61]
  | x :: y :: z :: rest =>
      b2a (x / 4) :: b2a (x mod 4 * 16 + y / 16)
      :: b2a (y mod 16 * 4 + z / 64) :: b2a (z mod 64) :: b2a_base64 rest
  end.

(** [bytes.translate] with the two tables of the URL-safe alphabet. *)
Definition _urlsafe_encode_translation (c : N) : N :=
  if c =? 43 then 45 else if c =? 47 then 95 else c.

Definition _urlsafe_decode_translation (c : N) : N :=
  if c =? 45 then 43 else if c =? 95 then 47 else c.

Definition urlsafe_b64encode (data : octets) : octets :=
  _urlsafe_encode_translation <$> b2a_base64 data.

(** [binascii.a2b_base64(data)] outside strict mode.  [quad_pos] counts the
    characters of the current group, [leftchar] holds the bits not yet
    written, [pads] the [=] seen since the last character of the alphabet.
    Characters outside the alphabet are skipped; a [=] that completes a
    group of two or three characters ends the input; a group left open at the
    end is an error ([None]). *)
Fixpoint a2b_base64 (data : octets) (quad_pos leftchar pads : N) : option octets :=
  match data with
  | [] => if quad_pos =? 0 then Some [] else None
  | this_ch :: rest =>
      if this_ch =? 61 then
        if (2 <=? quad_pos) && (4 <=? quad_pos + (pads + 1)) then Some []
        else a2b_base64 rest quad_pos leftchar
               (if 2 <=? quad_pos then pads + 1 else pads)
      else
        match a2b this_ch with
        | None => a2b_base64 rest quad_pos leftchar pads
        | Some v =>
            if quad_pos =? 0 then a2b_base64 rest 1 v 0
            else if quad_pos =? 1 then
              cons (leftchar * 4 + v / 16) <$> a2b_base64 rest 2 (v mod 16) 0
            else if quad_pos =? 2 then
              cons (leftchar * 16 + v / 4) <$> a2b_base64 rest 3 (v mod 4) 0
            else
              cons (leftchar * 64 + v) <$> a2b_base64 rest 0 0 0
        end
  end.

Definition urlsafe_b64decode (data : octets) : option octets :=
  a2b_base64 (_urlsafe_decode_translation <$> data) 0 0 0.

(** *** Codecs *)

(** [s.encode("ascii")] *)
Definition encode_ascii (s : text) : option octets :=
  if forallb (λ c, c <? 128) s then Some s else None.

Definition utf8_of_char (c : N) : option octets :=
  if c <? 0x80 then Some [c]
  else if c <? 0x800 then Some [0xC0 + c / 64; 0x80 + c mod 64]
  else if (0xD800 <=? c) && (c <=? 0xDFFF) then None
  else if c <? 0x10000 then
    Some [0xE0 + c / 4096; 0x80 + c / 64 mod 64; 0x80 + c mod 64]
  else if c <? 0x110000 then
    Some [0xF0 + c / 262144; 0x80 + c / 4096 mod 64; 0x80 + c / 64 mod 64;
          0x80 + c mod 64]
  else None.

(** [s.encode("utf-8")] *)
Fixpoint encode_utf8 (s : text) : option octets :=
  match s with
  | [] => Some []
  | c :: rest =>
      match utf8_of_char c, encode_utf8 rest with
      | Some head, Some tail => Some (head ++ tail)
      | _, _ => None
      end
  end.

Definition continuation (b : N) : bool := (0x80 <=? b) && (b <=? 0xBF).

(** [data.decode("utf-8")]: shortest forms only, no surrogates, nothing
    above U+10FFFF. *)
Fixpoint decode_utf8 (data : octets) : option text :=
  match data with
  | [] => Some []
  | b0 :: rest =>
      if b0 <? 0x80 then cons b0 <$> decode_utf8 rest
      else if (0xC2 <=? b0) && (b0 <=? 0xDF) then
        match rest with
        | b1 :: rest =>
            if continuation b1
            then cons ((b0 - 0xC0) * 64 + (b1 - 0x80)) <$> decode_utf8 rest
            else None
        | _ => None
        end
      else if (0xE0 <=? b0) && (b0 <=? 0xEF) then
        match rest with
        | b1 :: b2 :: rest =>
            if continuation b1 && continuation b2
               && implb (b0 =? 0xE0) (0xA0 <=? b1)
               && implb (b0 =? 0xED) (b1 <=? 0x9F)
            then cons ((b0 - 0xE0) * 4096 + (b1 - 0x80) * 64 + (b2 - 0x80))
                   <$> decode_utf8 rest
            else None
        | _ => None
        end
      else if (0xF0 <=? b0) && (b0 <=? 0xF4) then
        match rest with
        | b1 :: b2 :: b3 :: rest =>
            if continuation b1 && continuation b2 && continuation b3
               && implb (b0 =? 0xF0) (0x90 <=? b1)
               && implb (b0 =? 0xF4) (b1 <=? 0x8F)
            then cons ((b0 - 0xF0) * 262144 + (b1 - 0x80) * 4096
                       + (b2 - 0x80) * 64 + (b3 - 0x80))
                   <$> decode_utf8 rest
            else None
        | _ => None
        end
      else None
  end.

(** *** [bytes.fromhex]

    Pairs of hexadecimal digits, of either case; ASCII white space is
    skipped wherever a pair may start. *)
Definition hex_value (c : N) : option N :=
  if (48 <=? c) && (c <=? 57) then Some (c - 48)
  else if (97 <=? c) && (c <=? 102) then Some (c - 87)
  else if (65 <=? c) && (c <=? 70) then Some (c - 55)
  else None.

Fixpoint fromhex (s : text) : option octets :=
  match s with
  | [] => Some []
  | c :: rest =>
      if isspace_ascii c then fromhex rest
      else
        match hex_value c, rest with
        | Some top, d :: rest =>
            match hex_value d with
            | Some bot => cons (top * 16 + bot) <$> fromhex rest
            | None => None
            end
        | _, _ => None
        end
  end.

(** *** [json]

    The values [json.loads] builds.  An object keeps its members in the
    order of the text; a subscript reads the last member with the key, as
    the [dict] built from them does. *)
#[warnings="-register-all"]
Inductive json :=
| JNull
| JBool (b : bool)
| JInt (n : Z)
| JFloat (x : Float)
| JStr (s : text)
| JArr (items : list json)
| JObj (members : list (text * json)).

(** What the encoder hands to [json.dumps]: a [dict] from [str] keys to
    [int] and [str] values. *)
Inductive Scalar := VInt (n : Z) | VStr (s : text).

Definition hex_digit (n : N) : N := if n <? 10 then 48 + n else 87 + n.

Definition u_escape (c : N) : text :=
  [92; 117; hex_digit (c / 4096); hex_digit (c / 256 mod 16);
   hex_digit (c / 16 mod 16); hex_digit (c mod 16)].

(** One character of a string under [ensure_ascii]: the short escapes, the
    printable ASCII characters as they are, [\uXXXX] for the rest, with a
    surrogate pair above U+FFFF. *)
Definition escape_char (c : N) : text :=
  if c =? 34 then [92; 34]
  else if c =? 92 then [92; 92]
  else if c =? 10 then [92; 110]
  else if c =? 13 then [92; 114]
  else if c =? 9 then [92; 116]
  else if c =? 12 then [92; 102]
  else if c =? 8 then [92; 98]
  else if (32 <=? c) && (c <=? 126) then [c]
  else if c <? 0x10000 then u_escape c
  else
    let v := c - 0x10000 in
    u_escape (0xD800 + v / 1024) ++ u_escape (0xDC00 + v mod 1024).

Definition dumps_str (s : text) : text := 34 :: (s ≫= escape_char) ++ [34].

Definition dumps_scalar (v : Scalar) : text :=
  match v with
  | VInt n => str_of_int n
  | VStr s => dumps_str s
  end.

(** The order of [str] values: lexicographic on code points. *)
Fixpoint text_ltb (a b : text) : bool :=
  match a, b with
  | _, [] => false
  | [], _ :: _ => true
  | x :: a, y :: b => (x <? y) || (x =? y) && text_ltb a b
  end.

Fixpoint insert_item (item : text * Scalar) (sorted : list (text * Scalar))
    : list (text * Scalar) :=
  match sorted with
  | [] => [item]
  | head :: tail =>
      if text_ltb item.1 head.1 then item :: sorted
      else head :: insert_item item tail
  end.

Definition sort_keys (items : list (text * Scalar)) : list (text * Scalar) :=
  foldr insert_item [] items.

Fixpoint dumps_members (items : list (text * Scalar)) : text :=
  match items with
  | [] => []
  | (key, value) :: rest =>
      dumps_str key ++ [58] ++ dumps_scalar value ++
      match rest with
      | [] => []
      | _ => 44 :: dumps_members rest
      end
  end.

(** [json.dumps(payload, separators=(",", ":"), sort_keys=True)] *)
Definition dumps (payload : list (text * Scalar)) : text :=
  123 :: dumps_members (sort_keys payload) ++ [125].

(** The white space of JSON text: space, TAB, LF, CR. *)
Definition is_ws (c : N) : bool :=
  (c =? 32) || (c =? 9) || (c =? 10) || (c =? 13).

Fixpoint skip_ws (s : text) : text :=
  match s with
  | [] => []
  | c :: rest => if is_ws c then skip_ws rest else s
  end.

(** After an opening quote: the characters up to the closing quote, a
    backslash protecting the character after it, and the text that follows
    the closing quote. *)
Fixpoint string_body (s : text) : option (text * text) :=
  match s with
  | [] => None
  | c :: rest =>
      if c =? 34 then Some ([], rest)
      else if c =? 92 then
        match rest with
        | [] => None
        | e :: rest =>
            '(body, tail) ← string_body rest; Some (c :: e :: body, tail)
        end
      else '(body, tail) ← string_body rest; Some (c :: body, tail)
  end.

Definition hex4 (a b c d : N) : option N :=
  va ← hex_value a; vb ← hex_value b; vc ← hex_value c; vd ← hex_value d;
  Some (((va * 16 + vb) * 16 + vc) * 16 + vd).

Definition simple_escape (e : N) : option N :=
  if e =? 34 then Some 34
  else if e =? 92 then Some 92
  else if e =? 47 then Some 47
  else if e =? 98 then Some 8
  else if e =? 102 then Some 12
  else if e =? 110 then Some 10
  else if e =? 114 then Some 13
  else if e =? 116 then Some 9
  else None.

(** The characters a string body denotes (strict mode): no control
    character, the escapes resolved, a high surrogate escape joined with the
    low surrogate escape that follows it. *)
Fixpoint unescape (body : text) : option text :=
  match body with
  | [] => Some []
  | c :: rest =>
      if c =? 92 then
        match rest with
        | [] => None
        | e :: rest =>
            if e =? 117 then
              match rest with
              | h1 :: h2 :: h3 :: h4 :: rest =>
                  match hex4 h1 h2 h3 h4 with
                  | None => None
                  | Some hi =>
                      let alone := cons hi <$> unescape rest in
                      if (0xD800 <=? hi) && (hi <=? 0xDBFF) then
                        match rest with
                        | b :: u :: l1 :: l2 :: l3 :: l4 :: rest2 =>
                            if (b =? 92) && (u =? 117) then
                              match hex4 l1 l2 l3 l4 with
                              | None => None
                              | Some lo =>
                                  if (0xDC00 <=? lo) && (lo <=? 0xDFFF) then
                                    cons (0x10000 + (hi - 0xD800) * 1024
                                          + (lo - 0xDC00))
                                      <$> unescape rest2
                                  else alone
                              end
                            else alone
                        | _ => alone
                        end
                      else alone
                  end
              | _ => None
              end
            else
              match simple_escape e with
              | Some x => cons x <$> unescape rest
              | None => None
              end
        end
      else if c <? 32 then None
      else cons c <$> unescape rest
  end.

Fixpoint strip_prefix (prefix s : text) : option text :=
  match prefix, s with
  | [], _ => Some s
  | x :: prefix, y :: s => if x =? y then strip_prefix prefix s else None
  | _ :: _, [] => None
  end.

(** A number: an optional minus sign, [0] or a run of digits that does not
    start with [0], then a fraction and an exponent when they are complete.
    Without either the value is an [int], otherwise a [float]. *)
Definition match_number (s : text) : option (json * text) :=
  let '(negative, s1) :=
    match s with
    | c :: rest => if c =? 45 then (true, rest) else (false, s)
    | [] => (false, s)
    end in
  let integer :=
    match s1 with
    | [] => None
    | c :: rest =>
        if (49 <=? c) && (c <=? 57)
        then let '(digits, tail) := span_digits rest in Some (c :: digits, tail)
        else if c =? 48 then Some ([c], rest)
        else None
    end in
  match integer with
  | None => None
  | Some (int_digits, s2) =>
      let '(fraction, s3) :=
        match s2 with
        | dot :: d :: rest =>
            if (dot =? 46) && is_digit d then span_digits (d :: rest)
            else ([], s2)
        | _ => ([], s2)
        end in
      let '(exponent, s4) :=
        match s3 with
        | e :: rest =>
            if (e =? 101) || (e =? 69) then
              let '(negative_exponent, s') :=
                match rest with
                | sign :: after =>
                    if sign =? 45 then (true, after)
                    else if sign =? 43 then (false, after)
                    else (false, rest)
                | [] => (false, rest)
                end in
              let '(digits, tail) := span_digits s' in
              match digits with
              | [] => (None, s3)
              | _ => (Some (negative_exponent, digits), tail)
              end
            else (None, s3)
        | [] => (None, s3)
        end in
      match fraction, exponent with
      | [], None =>
          let n := Z.of_N (value_of_digits int_digits) in
          Some (JInt (if negative then - n else n)%Z, s4)
      | _, _ =>
          let e :=
            match exponent with
            | Some (negative_exponent, digits) =>
                let v := Z.of_N (value_of_digits digits) in
                (if negative_exponent then - v else v)%Z
            | None => 0%Z
            end in
          Some (JFloat (FDecimal negative
                          (value_of_digits (int_digits ++ fraction))
                          (e - Z.of_nat (length fraction))%Z), s4)
      end
  end.

(** [scan_once] of the decoder and its loops over the members of an object
    and the items of an array.  Every call made from [scan_once] is on a
    shorter text, so a [fuel] above the length of the text is never used
    up. *)
Fixpoint scan_once (fuel : nat) (s : text) {struct fuel} : option (json * text) :=
  match fuel with
  | O => None
  | S fuel =>
      match s with
      | [] => None
      | c :: rest =>
          if c =? 34 then
            '(body, tail) ← string_body rest;
            str ← unescape body;
            Some (JStr str, tail)
          else if c =? 123 then
            match skip_ws rest with
            | e :: tail =>
                if e =? 125 then Some (JObj [], tail)
                else
                  '(members, tail) ← object_members fuel (e :: tail);
                  Some (JObj members, tail)
            | [] => None
            end
          else if c =? 91 then
            match skip_ws rest with
            | e :: tail =>
                if e =? 93 then Some (JArr [], tail)
                else
                  '(items, tail) ← array_items fuel (e :: tail);
                  Some (JArr items, tail)
            | [] => None
            end
          else
            match strip_prefix (lit "null") s with
            | Some tail => Some (JNull, tail)
            | None =>
            match strip_prefix (lit "true") s with
            | Some tail => Some (JBool true, tail)
            | None =>
            match strip_prefix (lit "false") s with
            | Some tail => Some (JBool false, tail)
            | None =>
            match strip_prefix (lit "NaN") s with
            | Some tail => Some (JFloat FNaN, tail)
            | None =>
            match strip_prefix (lit "Infinity") s with
            | Some tail => Some (JFloat (FInfinity false), tail)
            | None =>
            match strip_prefix (lit "-Infinity") s with
            | Some tail => Some (JFloat (FInfinity true), tail)
            | None => match_number s
            end end end end end end
      end
  end
with object_members (fuel : nat) (s : text) {struct fuel}
    : option (list (text * json) * text) :=
  match fuel with
  | O => None
  | S fuel =>
      match s with
      | q :: rest =>
          if q =? 34 then
            '(body, after_key) ← string_body rest;
            key ← unescape body;
            match skip_ws after_key with
            | colon :: after_colon =>
                if colon =? 58 then
                  '(value, after_value) ← scan_once fuel (skip_ws after_colon);
                  match skip_ws after_value with
                  | e :: tail =>
                      if e =? 125 then Some ([(key, value)], tail)
                      else if e =? 44 then
                        '(more, tail) ← object_members fuel (skip_ws tail);
                        Some ((key, value) :: more, tail)
                      else None
                  | [] => None
                  end
                else None
            | [] => None
            end
          else None
      | [] => None
      end
  end
with array_items (fuel : nat) (s : text) {struct fuel}
    : option (list json * text) :=
  match fuel with
  | O => None
  | S fuel =>
      '(value, after_value) ← scan_once fuel s;
      match skip_ws after_value with
      | e :: tail =>
          if e =? 93 then Some ([value], tail)
          else if e =? 44 then
            '(more, tail) ← array_items fuel (skip_ws tail);
            Some (value :: more, tail)
          else None
      | [] => None
      end
  end.

(** [json.loads(s)] for a [str]: one value, white space around it, nothing
    else; a leading byte order mark is refused.  [None] stands for the
    exception raised. *)
Definition loads (s : text) : option json :=
  match strip_prefix [0xFEFF] s with
  | Some _ => None
  | None =>
      '(value, tail) ← scan_once (S (length s)) (skip_ws s);
      match skip_ws tail with
      | [] => Some value
      | _ => None
      end
  end.

(** [payload[key]]: only a [dict] takes a [str] subscript. *)
Fixpoint lookup_last (key : text) (members : list (text * json)) : option json :=
  match members with
  | [] => None
  | (k, v) :: rest =>
      match lookup_last key rest with
      | Some later => Some later
      | None => if bool_decide (k = key) then Some v else None
      end
  end.

Definition subscript (payload : json) (key : text) : option json :=
  match payload with
  | JObj members => lookup_last key members
  | _ => None
  end.

(** [int(v)] for a value read from JSON. *)
Definition py_int (v : json) : option Z :=
  match v with
  | JInt n => Some n
  | JBool b => Some (if b then 1 else 0)%Z
  | JFloat x => int_of_float x
  | JStr s => int_of_str s
  | JNull | JArr _ | JObj _ => None
  end.

(** [str(v)] for a value read from JSON.  The text [repr] gives for a
    float, a list or a dict is not computed: it holds a [.], a sign, [inf],
    [nan], a bracket or a brace, so it is neither the value of a hash
    algorithm nor accepted by [bytes.fromhex], and both uses below end in
    the same [ValueError] as a failed coercion. *)
Definition py_str (v : json) : option text :=
  match v with
  | JStr s => Some s
  | JInt n => Some (str_of_int n)
  | JBool true => Some (lit "True")
  | JBool false => Some (lit "False")
  | JNull => Some (lit "None")
  | JFloat _ | JArr _ | JObj _ => None
  end.

(** [HashAlgorithm(value)] *)
Definition HashAlgorithm_of (value : text) : option HashAlgorithm :=
  if bool_decide (value = lit (HashAlgorithm_value BLAKE3)) then Some BLAKE3
  else if bool_decide (value = lit (HashAlgorithm_value SHA256)) then Some SHA256
  else None.

(** *** [DuplicateService] *)

Record DuplicateGroupSnapshot := {
  group_key : text;
  hash_algorithm : HashAlgorithm;
  content_hash_hex : text;
  file_count : Z;
  total_size_bytes : Z;
  duplicate_waste_bytes : Z;
  sample_file_id : Z;
}.

(** [_GroupCursor]; the fields carry the names of the query parameters they
    are bound to in [list_groups]. *)
Record _GroupCursor := {
  cursor_file_count : Z;
  cursor_total_size_bytes : Z;
  cursor_hash_algorithm : HashAlgorithm;
  cursor_content_hash_hex : text;
}.

Inductive Raised := ValueError | UnicodeEncodeError.

Definition Result (A : Type) := (Raised + A)%type.
Definition raise {A} (e : Raised) : Result A := inl e.
Definition ret {A} (a : A) : Result A := inr a.

Definition _encode_group_cursor (snapshot : DuplicateGroupSnapshot) : Result text :=
  let payload :=
    [ (lit "file_count", VInt (file_count snapshot));
      (lit "total_size_bytes", VInt (total_size_bytes snapshot));
      (lit "hash_algorithm", VStr (lit (HashAlgorithm_value (hash_algorithm snapshot))));
      (lit "content_hash_hex", VStr (content_hash_hex snapshot)) ] in
  match encode_utf8 (dumps payload) with
  | None => raise UnicodeEncodeError
  | Some raw => ret (rstrip_char 61 (urlsafe_b64encode raw))
  end.

Definition _expected_hash_hex_length (algorithm : HashAlgorithm) : Result nat :=
  if bool_decide (algorithm ∈ [BLAKE3; SHA256]) then ret 64%nat
  else raise ValueError.

Definition _decode_group_cursor (cursor : text) : Result _GroupCursor :=
  let token := strip cursor in
  if bool_decide (token = []) then raise ValueError
  else
    let padded :=
      token ++ replicate (Z.to_nat ((- Z.of_nat (length token)) mod 4)) 61 in
    let parsed :=
      encoded ← encode_ascii padded;
      raw ← urlsafe_b64decode encoded;
      decoded ← decode_utf8 raw;
      loads decoded in
    match parsed with
    | None => raise ValueError
    | Some payload =>
        let coerced :=
          raw_file_count ← subscript payload (lit "file_count");
          file_count ← py_int raw_file_count;
          raw_total_size_bytes ← subscript payload (lit "total_size_bytes");
          total_size_bytes ← py_int raw_total_size_bytes;
          raw_hash_algorithm ← subscript payload (lit "hash_algorithm");
          name ← py_str raw_hash_algorithm;
          hash_algorithm ← HashAlgorithm_of (lower name);
          raw_content_hash_hex ← subscript payload (lit "content_hash_hex");
          content_hash_hex ← lower <$> py_str raw_content_hash_hex;
          Some (file_count, total_size_bytes, hash_algorithm, content_hash_hex) in
        match coerced with
        | None => raise ValueError
        | Some (file_count, total_size_bytes, hash_algorithm, content_hash_hex) =>
            if ((file_count <? 2) || (total_size_bytes <? 1))%Z then raise ValueError
            else
              match _expected_hash_hex_length hash_algorithm with
              | inl e => inl e
              | inr expected_hex_length =>
                  if negb (length content_hash_hex =? expected_hex_length)%nat
                  then raise ValueError
                  else if negb (length content_hash_hex mod 2 =? 0)%nat
                  then raise ValueError
                  else
                    match fromhex content_hash_hex with
                    | None => raise ValueError
                    | Some _ =>
                        ret {| cursor_file_count := file_count;
                               cursor_total_size_bytes := total_size_bytes;
                               cursor_hash_algorithm := hash_algorithm;
                               cursor_content_hash_hex := content_hash_hex |}
                    end
              end
        end
    end.

End Cursor.

(** ** Duplicate queries ([dedupfs/duplicates/service.py]) *)

Module Duplicates.
Import Models Cursor.

Local Open Scope list_scope.

(** The two fields of [Settings] the service reads; [Settings] declares both
    as positive integers. *)
Record PageSettings := {
  default_page_size : Z;
  max_page_size : Z
}.

Inductive Raised := ValueError | UnicodeEncodeError | DuplicateQueryError.

#[global] Instance Raised_eq_dec : EqDecision Raised.
Proof. solve_decision. Defined.

Definition Result (A : Type) := (Raised + A)%type.
Definition raise {A} (e : Raised) : Result A := inl e.
Definition ret {A} (a : A) : Result A := inr a.

(** An exception of the cursor codec, as it leaves this service. *)
Definition of_codec {A} (r : Cursor.Result A) : Result A :=
  match r with
  | inl Cursor.ValueError => raise ValueError
  | inl Cursor.UnicodeEncodeError => raise UnicodeEncodeError
  | inr a => ret a
  end.

(** The columns of [library_files] and [library_roots] the two queries read,
    under the aliases the queries give the tables.  [hash_algorithm] is kept
    as the text the column holds. *)
Record LibraryFile := {
  lf_id : Z;
  lf_library_id : Z;
  lf_relative_path : text;
  lf_size_bytes : Z;
  lf_mtime_ns : Z;
  lf_is_missing : bool;
  lf_needs_hash : bool;
  lf_hash_algorithm : option text;
  lf_content_hash : option octets;
  lf_hashed_at : option Z
}.

Record LibraryRoot := {
  lr_id : Z;
  lr_name : text
}.

Record Store := {
  library_files : list LibraryFile;
  library_roots : list LibraryRoot
}.

(** [DuplicateFileSnapshot] *)
Record DuplicateFileSnapshot := {
  file_id : Z;
  library_id : Z;
  library_name : text;
  relative_path : text;
  size_bytes : Z;
  mtime_ns : Z;
  hashed_at : option Z
}.

(** [DuplicateGroupListResult] and [DuplicateFileListResult]: the items of a
    page and the cursor of the next one. *)
Record ListResult (A : Type) := {
  items : list A;
  next_cursor : option text
}.
Arguments items {A}.
Arguments next_cursor {A}.

Definition DuplicateGroupListResult := ListResult DuplicateGroupSnapshot.
Definition DuplicateFileListResult := ListResult DuplicateFileSnapshot.

(** *** _normalize_limit *)

Definition _normalize_limit (settings : PageSettings) (limit : option Z) : Z :=
  match limit with
  | None => default_page_size settings
  | Some l =>
      let bounded := Z.max 1 (Z.min l (max_page_size settings)) in
      bounded
  end.

(** *** _normalize_file_cursor *)

Definition _normalize_file_cursor (cursor : option text) : Result (option Z) :=
  match cursor with
  | None => ret None
  | Some cursor =>
      let token := strip cursor in
      if bool_decide (token = []) then raise ValueError
      else
        match int_of_str token with
        | None => raise ValueError
        | Some anchor => if anchor <? 1 then raise ValueError else ret (Some anchor)
        end
  end.

(** *** _parse_group_key *)

(** [s.partition(sep)] for a separator of one character. *)
Fixpoint partition (sep : N) (s : text) : text * text * text :=
  match s with
  | [] => ([], [], [])
  | c :: rest =>
      if (c =? sep)%N then ([], [sep], rest)
      else let '(before, found, after) := partition sep rest in (c :: before, found, after)
  end.

Definition _parse_group_key (group_key : text) : Result (HashAlgorithm * text * octets) :=
  let token := lower (strip group_key) in
  if bool_decide (token = []) then raise ValueError
  else
    let '(algorithm_raw, sep, hash_hex) := partition 58 token in
    if negb (bool_decide (sep = [58%N])) then raise ValueError
    else
      match HashAlgorithm_of algorithm_raw with
      | None => raise ValueError
      | Some algorithm =>
          match of_codec (_expected_hash_hex_length algorithm) with
          | inl e => inl e
          | inr expected_hex_length =>
              if negb (length hash_hex =? expected_hex_length)%nat then raise ValueError
              else if negb (length hash_hex mod 2 =? 0)%nat then raise ValueError
              else
                match fromhex hash_hex with
                | None => raise ValueError
                | Some hash_blob => ret (algorithm, hash_hex, hash_blob)
                end
          end
      end.

(** *** list_groups *)

(** A row of the common table expression [grouped]. *)
Record GroupRow := {
  row_hash_algorithm : text;
  row_content_hash_hex : text;
  row_file_count : Z;
  row_total_size_bytes : Z;
  row_duplicate_waste_bytes : Z;
  row_sample_file_id : Z
}.

(** [lower(hex(X))] for a blob. *)
Definition lower_hex_of (blob : octets) : text :=
  blob ≫= (λ b, [hex_digit (b / 16); hex_digit (b mod 16)])%N.

(** The [WHERE] clause of [grouped], and the two [GROUP BY] columns of a row
    that passes it. *)
Definition grouping_key (lf : LibraryFile) : option (text * octets) :=
  if negb (lf_is_missing lf) && negb (lf_needs_hash lf) then
    match lf_hash_algorithm lf, lf_content_hash lf with
    | Some algorithm, Some blob => Some (algorithm, blob)
    | _, _ => None
    end
  else None.

(** [SUM] and [MIN] over a group, which has at least one row. *)
Definition sum (values : list Z) : Z := foldr Z.add 0 values.

Definition minimum (values : list Z) : Z :=
  match values with
  | [] => 0
  | v :: rest => foldr Z.min v rest
  end.

(** The select list of [grouped] for one group. *)
Definition aggregate (key : text * octets) (members : list LibraryFile) : GroupRow :=
  {| row_hash_algorithm := key.1;
     row_content_hash_hex := lower_hex_of key.2;
     row_file_count := Z.of_nat (length members);
     row_total_size_bytes := sum (lf_size_bytes <$> members);
     row_duplicate_waste_bytes :=
       sum (lf_size_bytes <$> members) - minimum (lf_size_bytes <$> members);
     row_sample_file_id := minimum (lf_id <$> members) |}.

(** [grouped]: one row for each pair of the [GROUP BY] columns that more than
    one file has. *)
Definition grouped (files : list LibraryFile) : list GroupRow :=
  let keys := remove_dups (omap grouping_key files) in
  filter (λ g, 1 < row_file_count g)
    ((λ key, aggregate key (filter (λ lf, grouping_key lf = Some key) files)) <$> keys).

(** The keyset predicate, with the four parameters bound from the cursor. *)
Definition after_cursor (state : _GroupCursor) (g : GroupRow) : bool :=
  let cursor_algorithm := lit (HashAlgorithm_value (cursor_hash_algorithm state)) in
  (row_file_count g <? cursor_file_count state)
  || ((row_file_count g =? cursor_file_count state)
      && (row_total_size_bytes g <? cursor_total_size_bytes state))
  || ((row_file_count g =? cursor_file_count state)
      && (row_total_size_bytes g =? cursor_total_size_bytes state)
      && text_ltb cursor_algorithm (row_hash_algorithm g))
  || ((row_file_count g =? cursor_file_count state)
      && (row_total_size_bytes g =? cursor_total_size_bytes state)
      && bool_decide (row_hash_algorithm g = cursor_algorithm)
      && text_ltb (cursor_content_hash_hex state) (row_content_hash_hex g)).

(** [ORDER BY file_count DESC, total_size_bytes DESC, hash_algorithm ASC,
    content_hash_hex ASC] *)
Definition group_order (a b : GroupRow) : bool :=
  (row_file_count b <? row_file_count a)
  || ((row_file_count a =? row_file_count b)
      && ((row_total_size_bytes b <? row_total_size_bytes a)
          || ((row_total_size_bytes a =? row_total_size_bytes b)
              && (text_ltb (row_hash_algorithm a) (row_hash_algorithm b)
                  || (bool_decide (row_hash_algorithm a = row_hash_algorithm b)
                      && text_ltb (row_content_hash_hex a) (row_content_hash_hex b)))))).

(** The body of the loop over the rows of a page. *)
Definition group_snapshot (row : GroupRow) : Result DuplicateGroupSnapshot :=
  match HashAlgorithm_of (lower (row_hash_algorithm row)) with
  | None => raise DuplicateQueryError
  | Some algorithm =>
      let hash_hex := lower (row_content_hash_hex row) in
      ret {| group_key := lit (HashAlgorithm_value algorithm) ++ 58%N :: hash_hex;
             hash_algorithm := algorithm;
             content_hash_hex := hash_hex;
             file_count := row_file_count row;
             total_size_bytes := row_total_size_bytes row;
             duplicate_waste_bytes := row_duplicate_waste_bytes row;
             sample_file_id := row_sample_file_id row |}
  end.

(** The loop: the first row that fails ends it. *)
Fixpoint group_snapshots (rows : list GroupRow) : Result (list DuplicateGroupSnapshot) :=
  match rows with
  | [] => ret []
  | row :: rest =>
      match group_snapshot row with
      | inl e => inl e
      | inr snapshot =>
          match group_snapshots rest with
          | inl e => inl e
          | inr snapshots => ret (snapshot :: snapshots)
          end
      end
  end.

Definition list_groups (settings : PageSettings) (limit : option Z)
    (cursor : option text) (db : Store) : Result DuplicateGroupListResult :=
  let bounded_limit := _normalize_limit settings limit in
  let cursor_state : Result (option _GroupCursor) :=
    match cursor with
    | Some c =>
        if bool_decide (c = []) then ret None
        else match of_codec (_decode_group_cursor c) with
             | inl e => inl e
             | inr state => ret (Some state)
             end
    | None => ret None
    end in
  match cursor_state with
  | inl e => inl e
  | inr cursor_state =>
      let selected :=
        match cursor_state with
        | Some state => filter (λ g, after_cursor state g = true) (grouped (library_files db))
        | None => grouped (library_files db)
        end in
      let rows := take (Z.to_nat (bounded_limit + 1)) (Sql.order_by group_order selected) in
      match group_snapshots (take (Z.to_nat bounded_limit) rows) with
      | inl e => inl e
      | inr snapshots =>
          if (bounded_limit <? Z.of_nat (length rows)) && negb (bool_decide (snapshots = []))
          then
            match last snapshots with
            | Some snapshot =>
                match of_codec (_encode_group_cursor snapshot) with
                | inl e => inl e
                | inr next => ret {| items := snapshots; next_cursor := Some next |}
                end
            | None => ret {| items := snapshots; next_cursor := None |}
            end
          else ret {| items := snapshots; next_cursor := None |}
      end
  end.

(** *** list_group_files *)

(** The join of the two tables and the [WHERE] clause. *)
Definition joined (db : Store) : list (LibraryFile * LibraryRoot) :=
  lf ← library_files db;
  lr ← library_roots db;
  if bool_decide (lr_id lr = lf_library_id lf) then [(lf, lr)] else [].

Definition in_group (algorithm : HashAlgorithm) (hash_blob : octets)
    (cursor_id : option Z) (r : LibraryFile * LibraryRoot) : bool :=
  negb (lf_is_missing r.1) && negb (lf_needs_hash r.1)
  && bool_decide (lf_hash_algorithm r.1 = Some (lit (HashAlgorithm_value algorithm)))
  && bool_decide (lf_content_hash r.1 = Some hash_blob)
  && match cursor_id with
     | Some c => c <? lf_id r.1
     | None => true
     end.

Definition file_snapshot (r : LibraryFile * LibraryRoot) : DuplicateFileSnapshot :=
  {| file_id := lf_id r.1;
     library_id := lf_library_id r.1;
     library_name := lr_name r.2;
     relative_path := lf_relative_path r.1;
     size_bytes := lf_size_bytes r.1;
     mtime_ns := lf_mtime_ns r.1;
     hashed_at := lf_hashed_at r.1 |}.

Definition list_group_files (settings : PageSettings) (group_key : text)
    (limit : option Z) (cursor : option text) (db : Store)
    : Result DuplicateFileListResult :=
  let bounded_limit := _normalize_limit settings limit in
  match _normalize_file_cursor cursor with
  | inl e => inl e
  | inr cursor_id =>
      match _parse_group_key group_key with
      | inl e => inl e
      | inr (algorithm, _hash_hex, hash_blob) =>
          let selected :=
            filter (λ r, in_group algorithm hash_blob cursor_id r = true) (joined db) in
          let rows :=
            take (Z.to_nat (bounded_limit + 1))
              (Sql.order_by (λ a b : LibraryFile * LibraryRoot, lf_id a.1 <? lf_id b.1)
                 selected) in
          let snapshots := file_snapshot <$> take (Z.to_nat bounded_limit) rows in
          let next :=
            if (bounded_limit <? Z.of_nat (length rows))
               && negb (bool_decide (snapshots = []))
            then (λ s, str_of_int (file_id s)) <$> last snapshots
            else None in
          ret {| items := snapshots; next_cursor := next |}
      end
  end.

End Duplicates.

(** * Sample data *)

(** Concrete settings and stores, used to run the model. *)

Module Samples.
Import Jobs.

Definition cfg : Config.Settings :=
  {| Config.dry_run := true;
     Config.allow_real_delete := false;
     Config.job_lock_ttl_seconds := 300;
     Config.libraries_root := "/libraries";
     Config.thumbnail_max_dimension := 256;
     Config.thumbnail_default_format := "jpeg";
     Config.thumbnail_queue_capacity := 1;
     Config.wal_checkpoint_default_mode := "passive";
     Config.wal_checkpoint_min_interval_seconds := 900;
     Config.wal_checkpoint_allow_truncate := false |}.

(** A scan job created at 100 ... *)
Definition jobs_pending : gmap string Job :=
  (create_job cfg SCAN None None "job-a" 100 ∅).2.

(** ... claimed by worker w1 at 110 (lease until 410) ... *)
Definition jobs_running : gmap string Job :=
  (claim_pending_scan_hash_job cfg "w1" 110 jobs_pending).2.

(** ... whose heartbeat at 500 comes after the lease has run out. *)
Definition jobs_retryable : gmap string Job :=
  (heartbeat cfg "job-a" "w1" None None 500 jobs_running).2.

(** Beside the running scan job, a thumbnail job and a delete job (dry
    run), both created at 120. *)
Definition jobs_three : gmap string Job :=
  (create_job cfg DELETE None None "job-c" 120
     (create_job cfg THUMBNAIL None None "job-b" 120 jobs_running).2).2.

(** A running row that no worker is bound to (as a store upgraded from a
    layout without the worker column holds it), lease until 410. *)
Definition job_unbound : Job :=
  {| id := "job-u";
     kind := HASH;
     status := RUNNING;
     dry_run := true;
     worker_id := None;
     worker_heartbeat_at := None;
     lease_expires_at := Some 410;
     progress := 0%float;
     total_items := None;
     processed_items := 0;
     payload := [];
     error_code := None;
     error_message := None;
     created_at := 100;
     updated_at := 100;
     started_at := Some 100;
     finished_at := None |}.

(** A platform for running the thumbnail queue: the digest is stood in for
    by an injective function and the paths are already resolved. *)
Definition platform : Thumbs.Platform :=
  {| Thumbs.sha256_hexdigest := λ material, "sha256(" ++ material ++ ")";
     Thumbs.resolve := λ path, path |}.

Definition file_a : Thumbs.LibraryFile :=
  {| Thumbs.file_pk := 1;
     Thumbs.library_id := 1;
     Thumbs.relative_path := "media/a.jpg";
     Thumbs.size_bytes := 1024;
     Thumbs.mtime_ns := 1700000000;
     Thumbs.is_missing := false;
     Thumbs.hash_algorithm := None;
     Thumbs.content_hash := None |}.

Definition file_b : Thumbs.LibraryFile :=
  {| Thumbs.file_pk := 2;
     Thumbs.library_id := 1;
     Thumbs.relative_path := "media/b.jpg";
     Thumbs.size_bytes := 2048;
     Thumbs.mtime_ns := 1700000001;
     Thumbs.is_missing := false;
     Thumbs.hash_algorithm := None;
     Thumbs.content_hash := None |}.

(** Two files of one library and no thumbnail yet. *)
Definition thumbs_empty : Thumbs.Store :=
  {| Thumbs.library_files := <[2 := file_b]> (<[1 := file_a]> ∅);
     Thumbs.library_roots := {[1 := {| Thumbs.root_pk := 1; Thumbs.root_path := "/libraries/lib" |}]};
     Thumbs.thumbnails := [];
     Thumbs.cleanup_jobs := [] |}.

(** The thumbnail of file 1 requested at 10 ... *)
Definition thumbs_one : Thumbs.Store :=
  Thumbs.with_thumbnails
    (Thumbs.request_thumbnail platform cfg 1 (Some 128) (Some "jpeg") 10 thumbs_empty).2
    thumbs_empty.

(** ... and what the worker makes of the row when rendering fails at 20:
    failed, to be retried after 50. *)
Definition failed_by_worker (t : Thumbs.Thumbnail) : Thumbs.Thumbnail :=
  {| Thumbs.id := Thumbs.id t;
     Thumbs.thumb_key := Thumbs.thumb_key t;
     Thumbs.file_id := Thumbs.file_id t;
     Thumbs.group_key := Thumbs.group_key t;
     Thumbs.status := Thumbs.FAILED;
     Thumbs.media_type := Thumbs.media_type t;
     Thumbs.format := Thumbs.format t;
     Thumbs.max_dimension := Thumbs.max_dimension t;
     Thumbs.version := Thumbs.version t;
     Thumbs.source_size_bytes := Thumbs.source_size_bytes t;
     Thumbs.source_mtime_ns := Thumbs.source_mtime_ns t;
     Thumbs.output_relpath := Thumbs.output_relpath t;
     Thumbs.width := None;
     Thumbs.height := None;
     Thumbs.bytes_size := None;
     Thumbs.error_code := Some "THUMB_GENERATION_FAILED";
     Thumbs.error_message := Some "decode failed";
     Thumbs.error_count := 1;
     Thumbs.retry_after := Some 50;
     Thumbs.worker_id := None;
     Thumbs.worker_heartbeat_at := None;
     Thumbs.lease_expires_at := None;
     Thumbs.created_at := Thumbs.created_at t;
     Thumbs.updated_at := 20;
     Thumbs.started_at := Some 15;
     Thumbs.finished_at := Some 20 |}.

Definition thumbs_failed : Thumbs.Store :=
  Thumbs.with_thumbnails (failed_by_worker <$> Thumbs.thumbnails thumbs_one) thumbs_one.

(** With the first row failed the queue is empty again, and the thumbnail of
    file 2, requested at 30, fills it (the capacity of [cfg] is 1). *)
Definition thumbs_full : Thumbs.Store :=
  Thumbs.with_thumbnails
    (Thumbs.request_thumbnail platform cfg 2 (Some 128) (Some "jpeg") 30 thumbs_failed).2
    thumbs_failed.

(** Two queued checkpoint requests and an older completed one. *)
Definition wal_row (row_id : Z) (st : Wal.WalMaintenanceStatus) (created : Z)
    : Wal.WalMaintenanceJob :=
  {| Wal.id := row_id;
     Wal.requested_mode := Wal.RESTART;
     Wal.status := st;
     Wal.requested_by := Some "api";
     Wal.reason := None;
     Wal.execute_after := created;
     Wal.retry_count := 0;
     Wal.retry_after := Some created;
     Wal.worker_id := None;
     Wal.worker_heartbeat_at := None;
     Wal.lease_expires_at := None;
     Wal.checkpoint_busy := None;
     Wal.checkpoint_log_frames := None;
     Wal.checkpointed_frames := None;
     Wal.error_code := None;
     Wal.error_message := None;
     Wal.created_at := created;
     Wal.updated_at := created;
     Wal.started_at := None;
     Wal.finished_at := None |}.

Definition wal_rows : list Wal.WalMaintenanceJob :=
  [wal_row 1 Wal.COMPLETED 10; wal_row 2 Wal.RETRYABLE 20; wal_row 3 Wal.PENDING 20].

(** The jobs of a store written by an older layout: two running scan/hash
    jobs in capitals, and a pending one. *)
Definition legacy_row (row_id kind_text status_text : string) (created : Z)
    : Migrations.JobRow :=
  {| Migrations.id := row_id;
     Migrations.kind := kind_text;
     Migrations.status := status_text;
     Migrations.dry_run := true;
     Migrations.worker_id := Some "w1";
     Migrations.worker_heartbeat_at := Some created;
     Migrations.lease_expires_at := Some (created + 300);
     Migrations.progress := 0%float;
     Migrations.total_items := None;
     Migrations.processed_items := 0;
     Migrations.payload := "{}";
     Migrations.error_code := None;
     Migrations.error_message := None;
     Migrations.created_at := created;
     Migrations.updated_at := created;
     Migrations.started_at := Some created;
     Migrations.finished_at := None |}.

Definition legacy_rows : list Migrations.JobRow :=
  [ legacy_row "job-b" "HASH" "RUNNING" 20;
    legacy_row "job-a" "SCAN" "RUNNING" 10;
    legacy_row "job-c" "scan" "pending" 5 ].

(** A duplicate group as [list_groups] reports it. *)
Definition group_a : Cursor.DuplicateGroupSnapshot :=
  {| Cursor.group_key :=
       Cursor.lit "sha256:00112233445566778899aabbccddeeff00112233445566778899aabbccddeeff";
     Cursor.hash_algorithm := Models.SHA256;
     Cursor.content_hash_hex :=
       Cursor.lit "00112233445566778899aabbccddeeff00112233445566778899aabbccddeeff";
     Cursor.file_count := 3;
     Cursor.total_size_bytes := 300;
     Cursor.duplicate_waste_bytes := 200;
     Cursor.sample_file_id := 1 |}.

(** The cursor of the test suite whose hash text is [aa]: the URL-safe
    base64 text, padding removed, of
    [{"file_count": 3, "total_size_bytes": 300, "hash_algorithm": "sha256", "content_hash_hex": "aa"}]. *)
Definition cursor_short_hash : list N :=
  Cursor.lit "eyJmaWxlX2NvdW50IjogMywgInRvdGFsX3NpemVfYnl0ZXMiOiAzMDAsICJoYXNoX2FsZ29yaXRobSI6ICJzaGEyNTYiLCAiY29udGVudF9oYXNoX2hleCI6ICJhYSJ9".

(** A hash text of 64 characters: 31 times [ab], then two spaces. *)
Definition blank_padded_hash : list N :=
  Cursor.lit "ababababababababababababababababababababababababababababababab  ".

(** The cursor that carries it: the URL-safe base64 text, padding removed,
    of the canonical JSON object with [file_count] 3, [total_size_bytes]
    300, [hash_algorithm] [sha256] and [content_hash_hex] the text above. *)
Definition cursor_blank_padded : list N :=
  Cursor.lit "eyJjb250ZW50X2hhc2hfaGV4IjoiYWJhYmFiYWJhYmFiYWJhYmFiYWJhYmFiYWJhYmFiYWJhYmFiYWJhYmFiYWJhYmFiYWJhYmFiYWJhYmFiYWIgICIsImZpbGVfY291bnQiOjMsImhhc2hfYWxnb3JpdGhtIjoic2hhMjU2IiwidG90YWxfc2l6ZV9ieXRlcyI6MzAwfQ".

(** A hashed file, whose thumbnails belong to the duplicate group
    [sha256:0a0b]; its thumbnail, requested at 10, has failed at 20. *)
Definition file_h : Thumbs.LibraryFile :=
  {| Thumbs.file_pk := 3;
     Thumbs.library_id := 1;
     Thumbs.relative_path := "media/h.png";
     Thumbs.size_bytes := 4096;
     Thumbs.mtime_ns := 1700000002;
     Thumbs.is_missing := false;
     Thumbs.hash_algorithm := Some Models.SHA256;
     Thumbs.content_hash := Some [Byte.x0a; Byte.x0b] |}.

Definition thumbs_grouped : list Thumbs.Thumbnail :=
  failed_by_worker
    <$> (Thumbs.request_thumbnail platform cfg 3 None None 10
           {| Thumbs.library_files := {[3 := file_h]};
              Thumbs.library_roots := Thumbs.library_roots thumbs_empty;
              Thumbs.thumbnails := [];
              Thumbs.cleanup_jobs := [] |}).2.

(** The cleanup of that group, scheduled at 10 with the configured delay of
    600 seconds. *)
Definition cleanups_one : list Thumbs.ThumbnailCleanupJob :=
  (Thumbs.schedule_group_cleanup 600 "sha256:0a0b" None 10 []).2.

(** A checkpoint request that was completed at 50. *)
Definition wal_completed : Wal.WalMaintenanceJob :=
  {| Wal.id := 1;
     Wal.requested_mode := Wal.PASSIVE;
     Wal.status := Wal.COMPLETED;
     Wal.requested_by := Some "api";
     Wal.reason := None;
     Wal.execute_after := 10;
     Wal.retry_count := 0;
     Wal.retry_after := Some 10;
     Wal.worker_id := Some "w1";
     Wal.worker_heartbeat_at := Some 50;
     Wal.lease_expires_at := None;
     Wal.checkpoint_busy := Some 0;
     Wal.checkpoint_log_frames := Some 12;
     Wal.checkpointed_frames := Some 12;
     Wal.error_code := None;
     Wal.error_message := None;
     Wal.created_at := 10;
     Wal.updated_at := 50;
     Wal.started_at := Some 40;
     Wal.finished_at := Some 50 |}.

(** A file that is present and hashed with SHA-256; the hash is one byte
    repeated. *)
Definition hashed_file (file_id library_id : Z) (path : string) (size : Z) (byte : N)
    : Duplicates.LibraryFile :=
  {| Duplicates.lf_id := file_id;
     Duplicates.lf_library_id := library_id;
     Duplicates.lf_relative_path := Cursor.lit path;
     Duplicates.lf_size_bytes := size;
     Duplicates.lf_mtime_ns := 1700000000;
     Duplicates.lf_is_missing := false;
     Duplicates.lf_needs_hash := false;
     Duplicates.lf_hash_algorithm := Some (Cursor.lit "sha256");
     Duplicates.lf_content_hash := Some (replicate 32 byte);
     Duplicates.lf_hashed_at := Some 90 |}.

Definition dup_settings : Duplicates.PageSettings :=
  {| Duplicates.default_page_size := 50; Duplicates.max_page_size := 200 |}.

(** Two libraries: three files of 10 bytes with the hash [ab..ab], two files
    of 5 bytes with the hash [01..01], a file with a hash of its own, a
    missing file and a file that waits for its hash. *)
Definition dup_store : Duplicates.Store :=
  {| Duplicates.library_files :=
       [ hashed_file 1 1 "a/one.bin" 10 171;
         hashed_file 2 1 "a/two.bin" 10 171;
         hashed_file 4 1 "c.txt" 5 1;
         hashed_file 3 2 "b/one.bin" 10 171;
         hashed_file 5 2 "c.txt" 5 1;
         hashed_file 6 2 "d.txt" 7 2;
         {| Duplicates.lf_id := 7;
            Duplicates.lf_library_id := 1;
            Duplicates.lf_relative_path := Cursor.lit "gone.bin";
            Duplicates.lf_size_bytes := 10;
            Duplicates.lf_mtime_ns := 1700000000;
            Duplicates.lf_is_missing := true;
            Duplicates.lf_needs_hash := false;
            Duplicates.lf_hash_algorithm := Some (Cursor.lit "sha256");
            Duplicates.lf_content_hash := Some (replicate 32 171%N);
            Duplicates.lf_hashed_at := Some 90 |};
         {| Duplicates.lf_id := 8;
            Duplicates.lf_library_id := 2;
            Duplicates.lf_relative_path := Cursor.lit "new.bin";
            Duplicates.lf_size_bytes := 10;
            Duplicates.lf_mtime_ns := 1700000000;
            Duplicates.lf_is_missing := false;
            Duplicates.lf_needs_hash := true;
            Duplicates.lf_hash_algorithm := None;
            Duplicates.lf_content_hash := None;
            Duplicates.lf_hashed_at := None |} ];
     Duplicates.library_roots :=
       [ {| Duplicates.lr_id := 1; Duplicates.lr_name := Cursor.lit "photos" |};
         {| Duplicates.lr_id := 2; Duplicates.lr_name := Cursor.lit "backup" |} ] |}.

(** The key of the group of three files. *)
Definition dup_group_key : Cursor.text :=
  (Cursor.lit "sha256" ++ 58%N :: Duplicates.lower_hex_of (replicate 32 171%N))%list.

(** Two groups of two empty files each. *)
Definition dup_store_empty_files : Duplicates.Store :=
  {| Duplicates.library_files :=
       [ hashed_file 1 1 "a/empty" 0 1;
         hashed_file 2 1 "b/empty" 0 1;
         hashed_file 3 1 "c/empty" 0 2;
         hashed_file 4 1 "d/empty" 0 2 ];
     Duplicates.library_roots :=
       [ {| Duplicates.lr_id := 1; Duplicates.lr_name := Cursor.lit "photos" |} ] |}.

End Samples.

(** * Verified properties *)

(** ** Sorted tables *)

Module SqlFacts.
Import Sql.

Section Sorted.
Context {A : Type} (before : A → A → bool).

Lemma head_place x sorted :
  head (place before x sorted)
  = match head sorted with
    | Some y => if before y x then Some y else Some x
    | None => Some x
    end.
Proof. destruct sorted as [|y rest]; simpl; [done|]. by destruct (before y x). Qed.

Lemma head_order_by_elem rows x : head (order_by before rows) = Some x → x ∈ rows.
Proof.
  revert x. induction rows as [|a rows IH]; intros x; simpl; [done|].
  rewrite head_place. destruct (head (order_by before rows)) as [y|].
  - destruct (before y a); intros [= <-].
    + apply list_elem_of_further. by apply IH.
    + apply list_elem_of_here.
  - intros [= <-]. apply list_elem_of_here.
Qed.

Lemma head_order_by_is_Some rows : rows ≠ [] → is_Some (head (order_by before rows)).
Proof.
  destruct rows as [|a rows]; [done|]. intros _. simpl. rewrite head_place.
  destruct (head _) as [y|]; [destruct (before y a)|]; eauto.
Qed.

(** When [before] is asymmetric and its complement transitive, nothing
    goes before the head. *)
Lemma head_order_by_first rows x :
  (∀ a b, before a b = true → before b a = false) →
  (∀ a b c, before a b = false → before b c = false → before a c = false) →
  head (order_by before rows) = Some x →
  ∀ y, y ∈ rows → before y x = false.
Proof.
  intros Hasym Htrans. revert x.
  induction rows as [|a rows IH]; intros x; simpl; [done|].
  rewrite head_place. destruct (head (order_by before rows)) as [h|] eqn:Eh.
  - destruct (before h a) eqn:Eb; intros [= Hx] y Hy; subst x;
      apply elem_of_cons in Hy as [->|Hy].
    + by apply Hasym.
    + by apply (IH h).
    + destruct (before a a) eqn:Eaa; [|done]. by rewrite (Hasym _ _ Eaa) in Eaa.
    + apply (Htrans y h a); [by apply (IH h)|done].
  - intros [= Hx] y Hy. subst x. apply elem_of_cons in Hy as [->|Hy].
    + destruct (before a a) eqn:Eaa; [|done]. by rewrite (Hasym _ _ Eaa) in Eaa.
    + destruct rows as [|b rows']; [by apply elem_of_nil in Hy|].
      destruct (head_order_by_is_Some (b :: rows')) as [? ?]; [done|congruence].
Qed.
End Sorted.

Section Permuted.
Context {A : Type} (before : A → A → bool).

Lemma place_perm x sorted : place before x sorted ≡ₚ x :: sorted.
Proof.
  induction sorted as [|y rest IH]; simpl; [done|].
  destruct (before y x); [|done]. rewrite IH. apply Permutation_swap.
Qed.

(** Sorting permutes the rows. *)
Lemma order_by_perm rows : order_by before rows ≡ₚ rows.
Proof.
  induction rows as [|a rows IH]; simpl; [done|].
  rewrite place_perm. by rewrite IH.
Qed.

Lemma order_by_elem rows x : x ∈ order_by before rows ↔ x ∈ rows.
Proof. by rewrite order_by_perm. Qed.
End Permuted.

(** A column without repeated values identifies the row. *)
Lemma fmap_inj_on {A B} (f : A → B) (l : list A) x y :
  NoDup (f <$> l) → x ∈ l → y ∈ l → f x = f y → x = y.
Proof.
  induction l as [|a l IH]; simpl; intros Hnd Hx Hy Hf; [by apply elem_of_nil in Hx|].
  apply NoDup_cons in Hnd as [Ha Hnd].
  apply elem_of_cons in Hx as [->|Hx]; apply elem_of_cons in Hy as [->|Hy]; auto.
  - exfalso. apply Ha. rewrite Hf. by apply list_elem_of_fmap_2.
  - exfalso. apply Ha. rewrite <- Hf. by apply list_elem_of_fmap_2.
Qed.

(** *** The order on identifiers *)

Lemma ltb_asym a b : String.ltb a b = true → String.ltb b a = false.
Proof.
  unfold String.ltb. rewrite (String.compare_antisym a b).
  by destruct (b ?= a)%string.
Qed.

Lemma ltb_ntrans a b c :
  String.ltb a b = false → String.ltb b c = false → String.ltb a c = false.
Proof.
  unfold String.ltb.
  destruct (a ?= b)%string eqn:Eab; [|done|].
  - apply String.compare_eq_iff in Eab as ->. done.
  - intros _. destruct (b ?= c)%string eqn:Ebc; [|done|].
    + apply String.compare_eq_iff in Ebc as <-. by rewrite Eab.
    + intros _.
      assert ((c ?= a)%string = Lt) as Hca.
      { apply String_as_OT.cmp_lt.
        apply (String_as_OT.lt_trans c b a); apply String_as_OT.cmp_lt.
        - unfold String_as_OT.cmp. by rewrite String.compare_antisym, Ebc.
        - unfold String_as_OT.cmp. by rewrite String.compare_antisym, Eab. }
      by rewrite String.compare_antisym, Hca.
Qed.

(** *** Lexicographic orders *)

Section Lex.
Context {A : Type} (k : A → Z) (b : A → A → bool).

Definition lex (x y : A) : bool := (k x <? k y) || ((k x =? k y) && b x y).

Lemma lex_asym :
  (∀ x y, b x y = true → b y x = false) →
  ∀ x y, lex x y = true → lex y x = false.
Proof.
  intros Hb x y. unfold lex.
  rewrite orb_true_iff, andb_true_iff, Z.ltb_lt, Z.eqb_eq.
  intros [Hlt | [Heq Hxy]].
  - rewrite (proj2 (Z.ltb_ge (k y) (k x))) by lia.
    rewrite (proj2 (Z.eqb_neq (k y) (k x))) by lia. done.
  - rewrite (proj2 (Z.ltb_ge (k y) (k x))) by lia.
    rewrite (Hb _ _ Hxy). by rewrite andb_false_r.
Qed.

Lemma lex_ntrans :
  (∀ x y z, b x y = false → b y z = false → b x z = false) →
  ∀ x y z, lex x y = false → lex y z = false → lex x z = false.
Proof.
  intros Hb x y z. unfold lex.
  rewrite !orb_false_iff, !andb_false_iff, !Z.ltb_ge, !Z.eqb_neq.
  intros [H1 H1'] [H2 H2']. split; [lia|].
  destruct (decide (k x = k z)) as [Hxz|]; [|by left]. right.
  destruct H1' as [?|H1']; [lia|]. destruct H2' as [?|H2']; [lia|].
  by apply (Hb x y z).
Qed.
End Lex.

(** *** Strict orders: the sorted table is unique *)

Section Strict.
Context {A : Type} (before : A → A → bool).
Context (Hasym : ∀ a b, before a b = true → before b a = false).
Context (Hntrans : ∀ a b c, before a b = false → before b c = false → before a c = false).

(** [goes_before x y]: the row [x] is listed strictly before [y]. *)
Definition goes_before (x y : A) : Prop := before x y = true.

Lemma before_irrefl a : before a a = false.
Proof. destruct (before a a) eqn:E; [|done]. by rewrite (Hasym _ _ E) in E. Qed.

Lemma before_trans a b c :
  before a b = true → before b c = true → before a c = true.
Proof.
  intros Hab Hbc. destruct (before a c) eqn:E; [done|].
  rewrite (Hntrans a c b E (Hasym _ _ Hbc)) in Hab. done.
Qed.

Lemma place_sorted x l :
  StronglySorted goes_before l →
  (∀ y, y ∈ l → before x y = true ∨ before y x = true) →
  StronglySorted goes_before (place before x l).
Proof.
  induction l as [|y rest IH]; simpl; intros Hs Ht.
  - by repeat constructor.
  - apply StronglySorted_inv in Hs as [Hrest Hy].
    destruct (before y x) eqn:Eyx.
    + constructor.
      * apply IH; [done|]. intros z Hz. apply Ht. by apply list_elem_of_further.
      * rewrite place_perm. by constructor.
    + constructor; [by constructor|].
      assert (before x y = true) as Hxy.
      { destruct (Ht y) as [?|?]; [apply list_elem_of_here|done|congruence]. }
      constructor; [done|].
      eapply Forall_impl; [exact Hy|]. intros z Hz. by apply (before_trans x y z).
Qed.

Lemma order_by_sorted l :
  NoDup l →
  (∀ x y, x ∈ l → y ∈ l → x ≠ y → before x y = true ∨ before y x = true) →
  StronglySorted goes_before (order_by before l).
Proof.
  induction l as [|a l IH]; simpl; intros Hnd Ht; [constructor|].
  apply NoDup_cons in Hnd as [Ha Hnd].
  apply place_sorted.
  - apply IH; [done|]. intros x y Hx Hy. apply Ht; by apply list_elem_of_further.
  - intros y Hy. apply order_by_elem in Hy. apply Ht.
    + apply list_elem_of_here.
    + by apply list_elem_of_further.
    + by intros ->.
Qed.

Lemma sorted_filter (P : A → Prop) `{∀ x, Decision (P x)} l :
  StronglySorted goes_before l → StronglySorted goes_before (filter P l).
Proof.
  induction 1 as [|x l Hl IH Hx]; [constructor|].
  rewrite filter_cons. case_decide; [|done].
  constructor; [done|]. apply Forall_forall. intros y Hy.
  apply list_elem_of_filter in Hy as [_ Hy]. by apply (proj1 (Forall_forall _ _) Hx).
Qed.

(** Two strictly sorted lists of the same rows are the same list. *)
Lemma sorted_unique l1 l2 :
  StronglySorted goes_before l1 → StronglySorted goes_before l2 →
  l1 ≡ₚ l2 → l1 = l2.
Proof.
  apply StronglySorted_unique_strong.
  intros x y _ _ Hxy Hyx. unfold goes_before in *.
  by rewrite (Hasym _ _ Hxy) in Hyx.
Qed.

(** A [WHERE] clause commutes with [ORDER BY]. *)
Lemma order_by_filter (P : A → Prop) `{∀ x, Decision (P x)} l :
  NoDup l →
  (∀ x y, x ∈ l → y ∈ l → x ≠ y → before x y = true ∨ before y x = true) →
  order_by before (filter P l) = filter P (order_by before l).
Proof.
  intros Hnd Ht. apply sorted_unique.
  - apply order_by_sorted; [by apply NoDup_filter|].
    intros x y Hx Hy. apply list_elem_of_filter in Hx as [_ Hx].
    apply list_elem_of_filter in Hy as [_ Hy]. by apply Ht.
  - apply sorted_filter. by apply order_by_sorted.
  - by rewrite !order_by_perm.
Qed.

(** In a strictly sorted list, the rows that go after a row of the list are
    the rows listed after it. *)
Lemma filter_after l1 a l2 :
  StronglySorted goes_before (l1 ++ a :: l2)%list →
  filter (λ x, before a x = true) (l1 ++ a :: l2)%list = l2.
Proof.
  intros Hs. apply StronglySorted_app in Hs as (H12 & H1 & H2).
  apply StronglySorted_inv in H2 as [H2 Ha].
  rewrite filter_app, filter_cons.
  rewrite decide_False by by rewrite before_irrefl.
  replace (filter _ l1) with (@nil A).
  - simpl. induction l2 as [|y l2 IH]; [done|].
    apply Forall_cons in Ha as [Hy Ha]. apply StronglySorted_inv in H2 as [H2 _].
    rewrite filter_cons, decide_True by done. f_equal. apply IH; [|done..].
    intros x1 x2 Hx1 Hx2. apply H12; [done|].
    apply elem_of_cons in Hx2 as [->|Hx2]; [apply list_elem_of_here|].
    by do 2 apply list_elem_of_further.
  - symmetry. clear -H12 Hasym. induction l1 as [|x l1 IH]; [done|].
    rewrite filter_cons, decide_False.
    { apply IH. intros x1 x2 Hx1. apply H12. by apply list_elem_of_further. }
    intros Hax.
    assert (before x a = true) as Hxa by (apply H12; apply list_elem_of_here).
    by rewrite (Hasym _ _ Hxa) in Hax.
Qed.
End Strict.

Lemma ltb_total a b : a ≠ b → String.ltb a b = true ∨ String.ltb b a = true.
Proof.
  intros Hne. unfold String.ltb. rewrite (String.compare_antisym a b).
  destruct (b ?= a)%string eqn:E; simpl; auto.
  apply String.compare_eq_iff in E. congruence.
Qed.

(** *** Keyset pagination *)

Section Paging.
Context {Item Cur : Type} (page : option Cur → option (list Item * option Cur)).

(** A client that asks for the first page and then follows the cursor it is
    given until there is none, collecting the items. *)
Fixpoint follow (fuel : nat) (cursor : option Cur) : option (list Item) :=
  match fuel with
  | O => None
  | S fuel' =>
      match page cursor with
      | None => None
      | Some (items, None) => Some items
      | Some (items, Some next) =>
          match follow fuel' (Some next) with
          | None => None
          | Some more => Some (items ++ more)%list
          end
      end
  end.

Context {Row : Type} (rows : list Row) (item : Row → Item) (cursor_of : Row → Cur).
Context (bounded_limit : nat).

(** The page that starts at the rows [rest]. *)
Definition page_at (rest : list Row) : list Item * option Cur :=
  (item <$> take bounded_limit rest,
   if (bounded_limit <? length rest)%nat
   then cursor_of <$> last (take bounded_limit rest)
   else None).

(** If the first page starts at the first row, and the page asked for with
    the cursor of a row starts after that row, the pages together are the
    rows. *)
Lemma follow_all fuel :
  (1 ≤ bounded_limit)%nat →
  page None = Some (page_at rows) →
  (∀ before r rest, rows = (before ++ r :: rest)%list →
     page (Some (cursor_of r)) = Some (page_at rest)) →
  (length rows < fuel)%nat →
  follow fuel None = Some (item <$> rows).
Proof.
  intros Hpos Hfirst Hnext.
  assert (∀ fuel cursor before rest,
            rows = (before ++ rest)%list →
            page cursor = Some (page_at rest) →
            (length rest < fuel)%nat →
            follow fuel cursor = Some (item <$> rest)) as Hrest.
  { clear fuel. induction fuel as [|fuel IH]; intros cursor before rest Hl Hpage Hlen; [lia|].
    simpl. rewrite Hpage. unfold page_at.
    destruct (bounded_limit <? length rest)%nat eqn:E.
    - apply Nat.ltb_lt in E.
      destruct (last (take bounded_limit rest)) as [r|] eqn:Elast.
      2: { apply last_None in Elast. apply (f_equal length) in Elast.
           rewrite length_take in Elast. simpl in Elast. lia. }
      simpl. apply last_Some in Elast as [front Hfront].
      assert (rest = (front ++ r :: drop bounded_limit rest)%list) as Hsplit.
      { rewrite <- (take_drop bounded_limit rest) at 1. rewrite Hfront.
        by rewrite <- app_assoc. }
      rewrite (IH (Some (cursor_of r)) (before ++ front ++ [r])%list
                 (drop bounded_limit rest)).
      + rewrite <- fmap_app. by rewrite take_drop.
      + rewrite Hl. rewrite Hsplit at 1. by rewrite <- !app_assoc.
      + apply (Hnext (before ++ front)%list). rewrite Hl. rewrite Hsplit at 1.
        by rewrite <- app_assoc.
      + rewrite length_drop. lia.
    - apply Nat.ltb_ge in E. by rewrite take_ge by lia. }
  intros Hlen. by apply (Hrest fuel None []).
Qed.
End Paging.

(** [LIMIT :limit_plus_one] and the slice [rows[:bounded_limit]]: the page
    is the first [bounded_limit] rows, and more rows were fetched than the
    page holds exactly when more are left. *)
Lemma limit_plus_one {A} (bounded_limit : Z) (l : list A) :
  1 ≤ bounded_limit →
  take (Z.to_nat bounded_limit) (take (Z.to_nat (bounded_limit + 1)) l)
  = take (Z.to_nat bounded_limit) l
  ∧ (bounded_limit <? Z.of_nat (length (take (Z.to_nat (bounded_limit + 1)) l)))
    = (Z.to_nat bounded_limit <? length l)%nat
  ∧ ((Z.to_nat bounded_limit < length l)%nat → take (Z.to_nat bounded_limit) l ≠ []).
Proof.
  intros Hpos. split; [|split].
  - rewrite take_take. f_equal. lia.
  - rewrite length_take.
    destruct (Z.to_nat bounded_limit <? length l)%nat eqn:E.
    + apply Nat.ltb_lt in E. apply Z.ltb_lt. lia.
    + apply Nat.ltb_ge in E. apply Z.ltb_ge. lia.
  - intros Hlt Hnil. apply (f_equal length) in Hnil.
    rewrite length_take in Hnil. simpl in Hnil. lia.
Qed.

(** *** Lexicographic products of strict total orders *)

Record strict_total {K : Type} (lt : K → K → bool) : Prop := {
  st_irrefl : ∀ x, lt x x = false;
  st_trans : ∀ x y z, lt x y = true → lt y z = true → lt x z = true;
  st_total : ∀ x y, x ≠ y → lt x y = true ∨ lt y x = true
}.

Lemma strict_total_asym {K} (lt : K → K → bool) :
  strict_total lt → ∀ x y, lt x y = true → lt y x = false.
Proof.
  intros [Hi Ht _] x y Hxy. destruct (lt y x) eqn:Hyx; [|done].
  by rewrite <- (Hi x), (Ht x y x).
Qed.

Lemma strict_total_ntrans {K} `{EqDecision K} (lt : K → K → bool) :
  strict_total lt → ∀ x y z, lt x y = false → lt y z = false → lt x z = false.
Proof.
  intros Hst x y z Hxy Hyz. pose proof (strict_total_asym lt Hst) as Ha.
  destruct Hst as [Hi Ht Htot].
  destruct (lt x z) eqn:Hxz; [|done].
  destruct (decide (x = y)) as [->|Hne1]; [congruence|].
  destruct (decide (y = z)) as [->|Hne2]; [congruence|].
  destruct (Htot x y Hne1) as [?|Hyx]; [congruence|].
  destruct (Htot y z Hne2) as [?|Hzy]; [congruence|].
  rewrite (Ha z x) in Hxz; [done|]. by apply (Ht z y x).
Qed.

(** The order on pairs: by the first component, then by the second. *)
Definition lexprod {K1 K2} `{EqDecision K1} (lt1 : K1 → K1 → bool)
    (lt2 : K2 → K2 → bool) (x y : K1 * K2) : bool :=
  lt1 x.1 y.1 || (bool_decide (x.1 = y.1) && lt2 x.2 y.2).

Lemma lexprod_strict_total {K1 K2} `{EqDecision K1} (lt1 : K1 → K1 → bool)
    (lt2 : K2 → K2 → bool) :
  strict_total lt1 → strict_total lt2 → strict_total (lexprod lt1 lt2).
Proof.
  intros H1 H2. pose proof (strict_total_asym lt1 H1) as Ha1.
  destruct H1 as [Hi1 Ht1 Htot1], H2 as [Hi2 Ht2 Htot2]. split.
  - intros [a b]. unfold lexprod. simpl. by rewrite Hi1, Hi2, andb_false_r.
  - intros [a1 a2] [b1 b2] [c1 c2]. unfold lexprod. simpl.
    rewrite !orb_true_iff, !andb_true_iff, !bool_decide_eq_true.
    intros [Hab|[-> Hab]] [Hbc|[-> Hbc]]; eauto.
  - intros [a1 a2] [b1 b2] Hne. unfold lexprod. simpl.
    rewrite !orb_true_iff, !andb_true_iff, !bool_decide_eq_true.
    destruct (decide (a1 = b1)) as [->|Hne1].
    + destruct (Htot2 a2 b2) as [?|?]; [congruence|by left; right|by right; right].
    + destruct (Htot1 a1 b1 Hne1); auto.
Qed.

Lemma Z_descending : strict_total (λ x y : Z, y <? x).
Proof.
  split.
  - intros x. apply Z.ltb_irrefl.
  - intros x y z. rewrite !Z.ltb_lt. lia.
  - intros x y Hne. rewrite !Z.ltb_lt. lia.
Qed.

Lemma Z_ascending : strict_total Z.ltb.
Proof.
  split.
  - intros x. apply Z.ltb_irrefl.
  - intros x y z. rewrite !Z.ltb_lt. lia.
  - intros x y Hne. rewrite !Z.ltb_lt. lia.
Qed.

(** An order that compares rows by a key. *)
Lemma by_key_asym {A K} (key : A → K) (lt : K → K → bool) :
  strict_total lt → ∀ a b, lt (key a) (key b) = true → lt (key b) (key a) = false.
Proof. intros Hst a b. by apply strict_total_asym. Qed.

Lemma by_key_ntrans {A K} `{EqDecision K} (key : A → K) (lt : K → K → bool) :
  strict_total lt →
  ∀ a b c, lt (key a) (key b) = false → lt (key b) (key c) = false →
           lt (key a) (key c) = false.
Proof. intros Hst a b c. by apply strict_total_ntrans. Qed.

End SqlFacts.

(** ** Job coordinator *)

Module JobsFacts.
Import Jobs.

(** At most one scan/hash job is pending, running or retryable. *)
Definition mutex_inv (s : gmap string Job) : Prop :=
  ∀ i j a b, s !! i = Some a → s !! j = Some b →
    active_scan_hash a = true → active_scan_hash b = true → i = j.

(** The lease binding the operations maintain: a running job has a worker and
    a lease, any other job has no lease, and a job waiting to be claimed
    (pending or retryable) has no worker. *)
Definition lease_ok (j : Job) : Prop :=
  (status j = RUNNING → is_Some (worker_id j) ∧ is_Some (lease_expires_at j))
  ∧ (status j ≠ RUNNING → lease_expires_at j = None)
  ∧ (status j ∈ [PENDING; RETRYABLE] → worker_id j = None).

Definition lease_inv (s : gmap string Job) : Prop :=
  map_Forall (λ _ j, lease_ok j) s.

(** The binding as invariant (b) of the data model words it: a job that is
    not running has neither a worker nor a lease. *)
Definition strict_binding (j : Job) : Prop :=
  (status j = RUNNING → is_Some (worker_id j) ∧ is_Some (lease_expires_at j))
  ∧ (status j ≠ RUNNING → worker_id j = None ∧ lease_expires_at j = None).

#[global] Instance strict_binding_dec j : Decision (strict_binding j).
Proof. unfold strict_binding. apply _. Defined.

Lemma job_snapshot_id (j : Job) : _to_snapshot j = j.
Proof. by destruct j. Qed.

Lemma has_active_true s :
  has_active_scan_hash s = true ↔ ∃ i j, s !! i = Some j ∧ active_scan_hash j = true.
Proof.
  unfold has_active_scan_hash. rewrite bool_decide_eq_true.
  unfold map_Exists. naive_solver.
Qed.

Lemma has_active_false s :
  has_active_scan_hash s = false ↔ ∀ i j, s !! i = Some j → active_scan_hash j = false.
Proof.
  rewrite <- not_true_iff_false, has_active_true. split.
  - intros H i j Hi. destruct (active_scan_hash j) eqn:E; [|done].
    exfalso. apply H. eauto.
  - intros H (i & j & Hi & Hj). rewrite (H _ _ Hi) in Hj. done.
Qed.

Lemma index_conflict_true key s :
  index_conflict key s = true ↔ ∃ i j, s !! i = Some j ∧ i ≠ key ∧ indexed j = true.
Proof.
  unfold index_conflict. rewrite bool_decide_eq_true.
  unfold map_Exists. naive_solver.
Qed.

Lemma indexed_active j : indexed j = true → active_scan_hash j = true.
Proof.
  unfold indexed, active_scan_hash, _requires_scan_hash_mutex.
  rewrite !andb_true_iff, !bool_decide_eq_true.
  intros [Hs Hk]. split; [done|].
  rewrite !elem_of_cons in *. naive_solver.
Qed.

(** *** Stale-lease recovery *)

Lemma recover_lookup now s i :
  recover_in_session now s !! i =
    (λ j, if stale now j then expire_stale now j else j) <$> s !! i.
Proof.
  unfold recover_in_session. rewrite lookup_fmap.
  destruct (s !! i) as [j|]; [|done]. simpl.
  destruct (stale now j) eqn:E; [|done].
  unfold stale in E. rewrite !andb_true_iff, !bool_decide_eq_true in E.
  destruct E as [[-> _] _]. done.
Qed.

Lemma stale_active now j : stale now j = true → active_scan_hash j = true.
Proof.
  unfold stale, active_scan_hash.
  rewrite !andb_true_iff, !bool_decide_eq_true.
  intros [[-> Hk] _]. split; [done|].
  rewrite !elem_of_cons. auto.
Qed.

Lemma expire_active now j :
  stale now j = true → active_scan_hash (expire_stale now j) = true.
Proof.
  unfold stale, active_scan_hash. simpl.
  rewrite !andb_true_iff, !bool_decide_eq_true.
  intros [[_ Hk] _]. by split.
Qed.

Lemma recover_active now j :
  active_scan_hash (if stale now j then expire_stale now j else j)
  = active_scan_hash j.
Proof.
  destruct (stale now j) eqn:E; [|done].
  by rewrite (expire_active _ _ E), (stale_active _ _ E).
Qed.

(** Recovery moves a row from running to retryable, so the admission query
    answers the same before and after it. *)
Lemma recover_has_active now s :
  has_active_scan_hash (recover_in_session now s) = has_active_scan_hash s.
Proof.
  apply eq_true_iff_eq. rewrite !has_active_true. split.
  - intros (i & j & Hi & Hj). rewrite recover_lookup in Hi.
    destruct (s !! i) as [j0|] eqn:E; [|done]. simpl in Hi.
    injection Hi as <-. rewrite recover_active in Hj. eauto.
  - intros (i & j & Hi & Hj). eexists i, _. rewrite recover_lookup, Hi. simpl.
    split; [done|]. by rewrite recover_active.
Qed.

(** With no active scan/hash job there is nothing to recover. *)
Lemma recover_nothing now s :
  has_active_scan_hash s = false → recover_in_session now s = s.
Proof.
  rewrite has_active_false. intros H. apply map_eq. intros i.
  rewrite recover_lookup. destruct (s !! i) as [j|] eqn:E; [|done]. simpl.
  destruct (stale now j) eqn:Es; [|done].
  apply stale_active in Es. rewrite (H _ _ E) in Es. done.
Qed.

Lemma recover_mutex now s : mutex_inv s → mutex_inv (recover_in_session now s).
Proof.
  intros H i j a b Hi Hj Ha Hb. rewrite recover_lookup in Hi, Hj.
  destruct (s !! i) as [a0|] eqn:Ei; [|done].
  destruct (s !! j) as [b0|] eqn:Ej; [|done].
  simpl in *. injection Hi as <-. injection Hj as <-.
  rewrite recover_active in Ha, Hb. eauto.
Qed.

Lemma expire_lease_ok now j : lease_ok (expire_stale now j).
Proof. unfold lease_ok. simpl. naive_solver. Qed.

Lemma recover_lease now s : lease_inv s → lease_inv (recover_in_session now s).
Proof.
  intros H i j Hi. rewrite recover_lookup in Hi.
  destruct (s !! i) as [j0|] eqn:Ei; [|done]. simpl in Hi. injection Hi as <-.
  destruct (stale now j0); [apply expire_lease_ok | by apply (H i)].
Qed.

(** *** Writing one row *)

(** Replacing a row keeps the mutex when the new row is active only if the
    old one was. *)
Lemma mutex_replace s k j j' :
  mutex_inv s → s !! k = Some j →
  (active_scan_hash j' = true → active_scan_hash j = true) →
  mutex_inv (<[k := j']> s).
Proof.
  intros H Hk Hact i1 i2 a b H1 H2 Ha Hb.
  rewrite lookup_insert in H1, H2.
  destruct (decide (k = i1)) as [->|]; destruct (decide (i1 = i2)) as [->|];
    [done| |done|]; repeat case_decide; simplify_eq; eauto.
Qed.

(** Adding a row under a fresh key keeps the mutex when the row is not
    active, or when no row of the table is. *)
Lemma mutex_insert_fresh s k j' :
  mutex_inv s → s !! k = None →
  (active_scan_hash j' = true → has_active_scan_hash s = false) →
  mutex_inv (<[k := j']> s).
Proof.
  intros H Hk Hact i1 i2 a b H1 H2 Ha Hb.
  rewrite lookup_insert in H1, H2.
  repeat case_decide; simplify_eq; eauto.
  all: specialize (Hact ltac:(assumption)); rewrite has_active_false in Hact.
  all: match goal with
       | Hl : _ !! _ = Some ?x, Hx : active_scan_hash ?x = true |- _ =>
           rewrite (Hact _ _ Hl) in Hx; done
       end.
Qed.

Lemma lease_write s k j' : lease_inv s → lease_ok j' → lease_inv (<[k := j']> s).
Proof. intros H Hj. by apply map_Forall_insert_2. Qed.

(** Closes [lease_ok] for a row whose status is known. *)
Ltac solve_lease_ok :=
  unfold lease_ok; simpl;
  rewrite ?elem_of_cons, ?elem_of_nil;
  repeat split; intros;
  try done; try (by eexists);
  intuition (try discriminate; try congruence).

(** *** Each operation keeps the invariants *)

(** [keeps s s']: what holds of [s] among the two invariants holds of [s']. *)
Definition keeps (s s' : gmap string Job) : Prop :=
  (mutex_inv s → mutex_inv s') ∧ (lease_inv s → lease_inv s').

Lemma keeps_refl s : keeps s s.
Proof. by split. Qed.

Lemma not_mutex_kind_inactive k (j : Job) :
  _requires_scan_hash_mutex k = false → kind j = k → active_scan_hash j = false.
Proof.
  unfold _requires_scan_hash_mutex, active_scan_hash. intros H ->. by rewrite H.
Qed.

Lemma create_job_keeps settings k p d job_id now s :
  keeps s (create_job settings k p d job_id now s).2.
Proof.
  unfold create_job.
  destruct (_enforce_job_policy _ _ _); [apply keeps_refl|].
  destruct (_requires_scan_hash_mutex k) eqn:Ek; simpl.
  - destruct (has_active_scan_hash _) eqn:Ea; [apply keeps_refl|].
    destruct (bool_decide (is_Some _)) eqn:Ef; simpl; [apply keeps_refl|].
    destruct (indexed _ && index_conflict _ _); [apply keeps_refl|]. simpl.
    apply bool_decide_eq_false in Ef. apply eq_None_not_Some in Ef.
    split; intros H.
    + apply mutex_insert_fresh; [by apply recover_mutex|done|done].
    + apply lease_write; [by apply recover_lease|]. solve_lease_ok.
  - destruct (bool_decide (is_Some _)) eqn:Ef; simpl; [apply keeps_refl|].
    destruct (indexed _ && index_conflict _ _); [apply keeps_refl|]. simpl.
    apply bool_decide_eq_false in Ef. apply eq_None_not_Some in Ef.
    split; intros H.
    + apply mutex_insert_fresh; [done|done|]. intros Ha.
      by rewrite (not_mutex_kind_inactive k) in Ha.
    + apply lease_write; [done|]. solve_lease_ok.
Qed.

Lemma first_by_age_elem rows r : first_by_age rows = Some r → r ∈ rows.
Proof.
  revert r. induction rows as [|x rows IH]; intros r; simpl; [done|].
  destruct (first_by_age rows) as [best|].
  - destruct (older x best); intros [= <-].
    + apply list_elem_of_here.
    + apply list_elem_of_further. by apply IH.
  - intros [= <-]. apply list_elem_of_here.
Qed.

(** The candidate of a claim is a pending scan/hash row of the table. *)
Lemma candidate_lookup s key j :
  candidate s = Some (key, j) →
  s !! key = Some j ∧ kind j ∈ [SCAN; HASH] ∧ status j = PENDING.
Proof.
  unfold candidate. intros H. apply first_by_age_elem in H.
  apply elem_of_map_to_list in H. apply map_lookup_filter_Some in H.
  simpl in H. naive_solver.
Qed.

Lemma claim_keeps settings worker now s :
  keeps s (claim_pending_scan_hash_job settings worker now s).2.
Proof.
  unfold claim_pending_scan_hash_job.
  destruct (negb _); [apply keeps_refl|].
  destruct (candidate _) as [[key j]|] eqn:Ec; [|apply keeps_refl].
  destruct (index_conflict _ _); [apply keeps_refl|].
  rewrite lookup_insert_eq. simpl.
  apply candidate_lookup in Ec as (Hk & Hkind & Hst).
  split; intros H.
  - eapply mutex_replace; [by apply recover_mutex|done|].
    intros _. unfold active_scan_hash.
    rewrite Hst, andb_true_iff, !bool_decide_eq_true. split; [done|].
    rewrite !elem_of_cons. auto.
  - apply lease_write; [by apply recover_lease|]. solve_lease_ok.
Qed.

Lemma heartbeat_keeps settings job_id worker pr it now s :
  keeps s (heartbeat settings job_id worker pr it now s).2.
Proof.
  unfold heartbeat.
  destruct (negb (Py.nonempty _)); [apply keeps_refl|].
  destruct (s !! job_id) as [job|] eqn:Ej; [|apply keeps_refl].
  destruct (bool_decide (status job = RUNNING)) eqn:Es; simpl; [|apply keeps_refl].
  apply bool_decide_eq_true in Es.
  destruct (match _coerce_utc _ with None => true | Some t => t <=? now end).
  - rewrite Es. simpl. split; intros H.
    + eapply mutex_replace; [done|done|].
      unfold active_scan_hash. simpl. rewrite Es.
      rewrite !andb_true_iff, !bool_decide_eq_true. intros [? _]. split; [done|].
      rewrite !elem_of_cons. auto.
    + apply lease_write; [done|]. solve_lease_ok.
  - destruct (_ && _); [apply keeps_refl|].
    destruct (progress_out_of_range _); [apply keeps_refl|].
    destruct (processed_negative _); [apply keeps_refl|]. simpl.
    split; intros H.
    + eapply mutex_replace; [done|done|]. by unfold active_scan_hash.
    + apply lease_write; [done|]. unfold lease_ok. simpl. rewrite Es.
      solve_lease_ok.
Qed.

Lemma finish_job_keeps job_id worker success message now s :
  keeps s (finish_job job_id worker success message now s).2.
Proof.
  unfold finish_job.
  destruct (negb (Py.nonempty _)); [apply keeps_refl|].
  destruct (s !! job_id) as [job|] eqn:Ej; [|apply keeps_refl].
  destruct (bool_decide (status job = RUNNING)) eqn:Es; simpl; [|apply keeps_refl].
  apply bool_decide_eq_true in Es.
  destruct (negb (bool_decide (worker_id job = _))); [apply keeps_refl|].
  rewrite Es. destruct success; simpl.
  all: split; intros H;
    [ eapply mutex_replace; [done|done|];
      unfold active_scan_hash; simpl;
      by rewrite andb_true_iff; intros [_ ?]
    | apply lease_write; [done|]; solve_lease_ok ].
Qed.

Lemma reset_keeps job_id now s :
  keeps s (reset_retryable_job job_id now s).2.
Proof.
  unfold reset_retryable_job.
  destruct (s !! job_id) as [job|] eqn:Ej; [|apply keeps_refl].
  destruct (_enforce_transition _ _) eqn:Et; [apply keeps_refl|].
  destruct (indexed _ && index_conflict _ _); [apply keeps_refl|]. simpl.
  assert (status job = RETRYABLE) as Hs.
  { unfold _enforce_transition in Et. destruct (status job); try done. }
  split; intros H.
  - eapply mutex_replace; [done|done|].
    unfold active_scan_hash. simpl. rewrite Hs.
    rewrite !andb_true_iff, !bool_decide_eq_true. intros [? _]. split; [done|].
    rewrite !elem_of_cons. auto.
  - apply lease_write; [done|]. solve_lease_ok.
Qed.

Lemma cancel_keeps job_id message now s :
  keeps s (cancel_job job_id message now s).2.
Proof.
  unfold cancel_job.
  destruct (s !! job_id) as [job|] eqn:Ej; [|apply keeps_refl].
  destruct (_enforce_transition _ _) eqn:Et; [apply keeps_refl|]. simpl.
  split; intros H.
  - eapply mutex_replace; [done|done|].
    unfold active_scan_hash. simpl. by rewrite andb_true_iff; intros [_ ?].
  - apply lease_write; [done|]. solve_lease_ok.
Qed.

Lemma recover_keeps now s : keeps s (recover_stale_jobs now s).2.
Proof. split; intros H; [by apply recover_mutex | by apply recover_lease]. Qed.

Lemma step_keeps s s' : step s s' → keeps s s'.
Proof.
  destruct 1; eauto using create_job_keeps, claim_keeps, heartbeat_keeps,
    finish_job_keeps, reset_keeps, cancel_keeps, recover_keeps.
Qed.

Lemma mutex_empty : mutex_inv ∅.
Proof. intros i j a b Hi. by rewrite lookup_empty in Hi. Qed.

(** Induction along the trace of operations. *)
Lemma reachable_mutex s : reachable s → mutex_inv s.
Proof.
  unfold reachable. intros H.
  apply (rtc_ind_r (R := step) (λ t, mutex_inv t) ∅); [apply mutex_empty| |done].
  intros y z _ Hstep IH. by apply (step_keeps _ _ Hstep).
Qed.

Lemma reachable_lease s : reachable s → lease_inv s.
Proof.
  unfold reachable. intros H.
  apply (rtc_ind_r (R := step) (λ t, lease_inv t) ∅); [apply map_Forall_empty| |done].
  intros y z _ Hstep IH. by apply (step_keeps _ _ Hstep).
Qed.

Lemma reachable_step s s' : reachable s → step s s' → reachable s'.
Proof. unfold reachable. intros H Hs. by eapply rtc_r. Qed.

(** *** The claims about the coordinator *)

Lemma mutex_kind_requires k : k ∈ [SCAN; HASH] → _requires_scan_hash_mutex k = true.
Proof. intros H. unfold _requires_scan_hash_mutex. by apply bool_decide_eq_true. Qed.

Lemma no_active_no_conflict key s :
  has_active_scan_hash s = false → index_conflict key s = false.
Proof.
  intros H. apply not_true_iff_false. rewrite index_conflict_true.
  intros (i & j & Hi & _ & Hj). apply indexed_active in Hj.
  rewrite has_active_false in H. rewrite (H _ _ Hi) in Hj. done.
Qed.


(** C3.  A heartbeat, from any non-blank worker id, for a running job whose
    lease is absent or not after [now]: the row becomes retryable with
    [error_code = LEASE_EXPIRED], its worker, heartbeat time and lease are
    cleared, the new row is in the committed table, and the caller gets
    [JobConflictError]. *)
Theorem heartbeat_expired_lease settings job_id worker pr it now jobs job :
  Py.strip worker ≠ "" →
  jobs !! job_id = Some job →
  status job = RUNNING →
  (lease_expires_at job = None ∨ ∃ t, lease_expires_at job = Some t ∧ t ≤ now) →
  ∃ job',
    heartbeat settings job_id worker pr it now jobs
      = (raise JobConflictError, <[job_id := job']> jobs)
    ∧ job' = lease_expired now job
    ∧ status job' = RETRYABLE
    ∧ error_code job' = Some "LEASE_EXPIRED"
    ∧ worker_id job' = None
    ∧ worker_heartbeat_at job' = None
    ∧ lease_expires_at job' = None.
Proof.
  intros Hw Hj Hs Hlease. exists (lease_expired now job).
  repeat split. unfold heartbeat.
  destruct (Py.strip worker) eqn:Ew; [done|]. simpl.
  rewrite Hj, Hs. simpl.
  destruct Hlease as [-> | (t & -> & Ht)]; simpl; [done|].
  by rewrite (proj2 (Z.leb_le t now) Ht).
Qed.


(** C5, as the code has it.  [cancel_job] on an existing job succeeds exactly
    from pending, running and retryable: the row becomes cancelled, its
    [finished_at] is [now] and its lease is cleared.  From completed, failed
    and cancelled it raises [InvalidJobStateError] and the table is left as
    it was. *)
Theorem cancel_job_sources job_id message now jobs job :
  jobs !! job_id = Some job →
  (status job ∈ [PENDING; RUNNING; RETRYABLE] →
     ∃ job',
       cancel_job job_id message now jobs = (ret job', <[job_id := job']> jobs)
       ∧ job' = cancelled message now job
       ∧ status job' = CANCELLED
       ∧ finished_at job' = Some now
       ∧ lease_expires_at job' = None)
  ∧ (status job ∈ [COMPLETED; FAILED; CANCELLED] →
     cancel_job job_id message now jobs = (raise InvalidJobStateError, jobs)).
Proof.
  intros Hj. unfold cancel_job. rewrite Hj. split; intros Hs.
  - exists (cancelled message now job).
    rewrite !elem_of_cons, elem_of_nil in Hs.
    destruct Hs as [-> | [-> | [-> | []]]]; simpl; by repeat split.
  - rewrite !elem_of_cons, elem_of_nil in Hs.
    by destruct Hs as [-> | [-> | [-> | []]]].
Qed.

(** C4, as the code has it.  In every store the coordinator can reach, and
    after any further operation on it: a running job has a worker and a
    lease; a job that is not running has no lease; a pending or retryable job
    has no worker.  (A completed, failed or cancelled job keeps the worker
    it had.) *)
Theorem coordinator_lease_binding s :
  reachable s →
  lease_inv s ∧ ∀ s', step s s' → lease_inv s'.
Proof.
  intros H. split; [by apply reachable_lease|].
  intros s' Hs. apply reachable_lease. by eapply reachable_step.
Qed.

(** *** The theorems at the sample stores *)

Lemma jobs_running_reachable : reachable Samples.jobs_running.
Proof.
  unfold reachable.
  eapply rtc_l; [apply (step_create_job Samples.cfg SCAN None None "job-a" 100)|].
  eapply rtc_l; [apply (step_claim Samples.cfg "w1" 110)|].
  apply rtc_refl.
Qed.

Lemma jobs_retryable_reachable : reachable Samples.jobs_retryable.
Proof.
  eapply reachable_step; [apply jobs_running_reachable|].
  apply (step_heartbeat Samples.cfg "job-a" "w1" None None 500).
Qed.


Lemma heartbeat_expired_lease_witness :
  ∃ job',
    heartbeat Samples.cfg "job-a" "w1" None None 500 Samples.jobs_running
      = (raise JobConflictError, <["job-a" := job']> Samples.jobs_running)
    ∧ job' = lease_expired 500 (claimed "w1" 110 410 (new_job "job-a" SCAN true None 100))
    ∧ status job' = RETRYABLE
    ∧ error_code job' = Some "LEASE_EXPIRED"
    ∧ worker_id job' = None
    ∧ worker_heartbeat_at job' = None
    ∧ lease_expires_at job' = None.
Proof.
  apply (heartbeat_expired_lease Samples.cfg "job-a" "w1" None None 500
           Samples.jobs_running
           (claimed "w1" 110 410 (new_job "job-a" SCAN true None 100))).
  - discriminate.
  - reflexivity.
  - reflexivity.
  - right. exists 410. split; [reflexivity | lia].
Defined.


(** C5 as stated fails: a retryable job is cancelled, not refused. *)
Lemma cancel_job_accepts_retryable :
  ∃ job job',
    Samples.jobs_retryable !! "job-a" = Some job
    ∧ status job = RETRYABLE
    ∧ cancel_job "job-a" None 600 Samples.jobs_retryable
      = (ret job', <["job-a" := job']> Samples.jobs_retryable)
    ∧ status job' = CANCELLED.
Proof. do 2 eexists. repeat split; reflexivity. Qed.

Lemma cancel_job_sources_witness :
  (status (lease_expired 500 (claimed "w1" 110 410 (new_job "job-a" SCAN true None 100)))
     ∈ [PENDING; RUNNING; RETRYABLE] →
   ∃ job',
     cancel_job "job-a" None 600 Samples.jobs_retryable
       = (ret job', <["job-a" := job']> Samples.jobs_retryable)
     ∧ job' = cancelled None 600
                (lease_expired 500 (claimed "w1" 110 410 (new_job "job-a" SCAN true None 100)))
     ∧ status job' = CANCELLED
     ∧ finished_at job' = Some 600
     ∧ lease_expires_at job' = None)
  ∧ (status (lease_expired 500 (claimed "w1" 110 410 (new_job "job-a" SCAN true None 100)))
       ∈ [COMPLETED; FAILED; CANCELLED] →
     cancel_job "job-a" None 600 Samples.jobs_retryable
       = (raise InvalidJobStateError, Samples.jobs_retryable)).
Proof.
  apply (cancel_job_sources "job-a" None 600 Samples.jobs_retryable).
  reflexivity.
Defined.

(** C4 as stated fails: the job a worker has finished is no longer running
    and still carries that worker's id. *)
Lemma finish_job_keeps_worker_id :
  reachable Samples.jobs_running
  ∧ ∃ job',
      (finish_job "job-a" "w1" true None 120 Samples.jobs_running).2 !! "job-a" = Some job'
      ∧ status job' = COMPLETED
      ∧ worker_id job' = Some "w1"
      ∧ ¬ strict_binding job'.
Proof.
  split; [apply jobs_running_reachable|].
  eexists. split; [reflexivity|]. repeat split.
  intros [_ H]. by destruct H.
Qed.

Lemma coordinator_lease_binding_witness :
  lease_inv Samples.jobs_running
  ∧ ∀ s', step Samples.jobs_running s' → lease_inv s'.
Proof.
  apply (coordinator_lease_binding Samples.jobs_running).
  unfold reachable.
  eapply rtc_l; [apply (step_create_job Samples.cfg SCAN None None "job-a" 100)|].
  eapply rtc_l; [apply (step_claim Samples.cfg "w1" 110)|].
  apply rtc_refl.
Defined.

(** *** The status of a job moves along the transition table *)

(** From [s] to [s'] no job is lost, and the status of a job is the same or
    one that [ALLOWED_TRANSITIONS] lists for it. *)
Definition follows_transitions (s s' : gmap string Job) : Prop :=
  ∀ i j, s !! i = Some j →
    ∃ j', s' !! i = Some j'
      ∧ (status j' = status j ∨ status j' ∈ ALLOWED_TRANSITIONS (status j)).

Lemma follows_refl s : follows_transitions s s.
Proof. intros i j Hi. eauto. Qed.

Lemma follows_recover now s : follows_transitions s (recover_in_session now s).
Proof.
  intros i j Hi. rewrite recover_lookup, Hi. simpl. eexists. split; [done|].
  destruct (stale now j) eqn:Es; [|by left]. right.
  unfold stale in Es. rewrite !andb_true_iff, !bool_decide_eq_true in Es.
  destruct Es as [[-> _] _]. simpl. rewrite !elem_of_cons. auto.
Qed.

(** Writing the row [k] of the session that recovery leaves. *)
Lemma follows_write now s k j j' :
  recover_in_session now s !! k = Some j →
  status j ≠ RETRYABLE →
  status j' = status j ∨ status j' ∈ ALLOWED_TRANSITIONS (status j) →
  follows_transitions s (<[k := j']> (recover_in_session now s)).
Proof.
  intros Hk Hnr Hedge i j0 Hi. destruct (decide (i = k)) as [->|Hne].
  - rewrite lookup_insert_eq. eexists. split; [done|].
    rewrite recover_lookup, Hi in Hk. simpl in Hk. injection Hk as <-.
    destruct (stale now j0) eqn:Es; [by simpl in Hnr|done].
  - rewrite lookup_insert_ne by done. by apply follows_recover.
Qed.

Lemma follows_replace s k j j' :
  s !! k = Some j →
  status j' = status j ∨ status j' ∈ ALLOWED_TRANSITIONS (status j) →
  follows_transitions s (<[k := j']> s).
Proof.
  intros Hk Hedge i j0 Hi. destruct (decide (i = k)) as [->|Hne].
  - rewrite lookup_insert_eq. eexists. split; [done|]. by simplify_eq.
  - rewrite lookup_insert_ne by done. eauto.
Qed.

Lemma follows_insert_fresh now s k j' :
  recover_in_session now s !! k = None →
  follows_transitions s (<[k := j']> (recover_in_session now s)).
Proof.
  intros Hk i j Hi. destruct (decide (i = k)) as [->|Hne].
  - rewrite recover_lookup, Hi in Hk. done.
  - rewrite lookup_insert_ne by done. by apply follows_recover.
Qed.

Lemma follows_insert s k j' :
  s !! k = None → follows_transitions s (<[k := j']> s).
Proof.
  intros Hk i j Hi. destruct (decide (i = k)) as [->|Hne]; [congruence|].
  rewrite lookup_insert_ne by done. eauto.
Qed.

Lemma enforced from_status to_status :
  _enforce_transition from_status to_status = None →
  to_status ∈ ALLOWED_TRANSITIONS from_status.
Proof. unfold _enforce_transition. by case_bool_decide. Qed.

Lemma create_job_follows settings k p d job_id now s :
  follows_transitions s (create_job settings k p d job_id now s).2.
Proof.
  unfold create_job.
  destruct (_enforce_job_policy _ _ _); [apply follows_refl|].
  destruct (_requires_scan_hash_mutex k) eqn:Ek; simpl.
  - destruct (has_active_scan_hash _) eqn:Ea; [apply follows_refl|].
    destruct (bool_decide (is_Some _)) eqn:Ef; simpl; [apply follows_refl|].
    destruct (indexed _ && index_conflict _ _); [apply follows_refl|]. simpl.
    apply bool_decide_eq_false in Ef. apply eq_None_not_Some in Ef.
    by apply follows_insert_fresh.
  - destruct (bool_decide (is_Some _)) eqn:Ef; simpl; [apply follows_refl|].
    destruct (indexed _ && index_conflict _ _); [apply follows_refl|]. simpl.
    apply bool_decide_eq_false in Ef. apply eq_None_not_Some in Ef.
    by apply follows_insert.
Qed.

Lemma claim_follows settings worker now s :
  follows_transitions s (claim_pending_scan_hash_job settings worker now s).2.
Proof.
  unfold claim_pending_scan_hash_job.
  destruct (negb _); [apply follows_refl|].
  destruct (candidate _) as [[key j]|] eqn:Ec; [|apply follows_refl].
  destruct (index_conflict _ _); [apply follows_refl|].
  rewrite lookup_insert_eq. simpl.
  apply candidate_lookup in Ec as (Hk & Hkind & Hst).
  apply (follows_write now s key j); [done|by rewrite Hst|].
  right. rewrite Hst. simpl. rewrite !elem_of_cons. auto.
Qed.

Lemma heartbeat_follows settings job_id worker pr it now s :
  follows_transitions s (heartbeat settings job_id worker pr it now s).2.
Proof.
  unfold heartbeat.
  destruct (negb (Py.nonempty _)); [apply follows_refl|].
  destruct (s !! job_id) as [job|] eqn:Ej; [|apply follows_refl].
  destruct (bool_decide (status job = RUNNING)) eqn:Es; simpl; [|apply follows_refl].
  apply bool_decide_eq_true in Es.
  destruct (match _coerce_utc _ with None => true | Some t => t <=? now end).
  - rewrite Es. simpl. apply (follows_replace s job_id job); [done|].
    right. rewrite Es. simpl. rewrite !elem_of_cons. auto.
  - destruct (_ && _); [apply follows_refl|].
    destruct (progress_out_of_range _); [apply follows_refl|].
    destruct (processed_negative _); [apply follows_refl|]. simpl.
    apply (follows_replace s job_id job); [done|]. by left.
Qed.

Lemma finish_job_follows job_id worker success message now s :
  follows_transitions s (finish_job job_id worker success message now s).2.
Proof.
  unfold finish_job.
  destruct (negb (Py.nonempty _)); [apply follows_refl|].
  destruct (s !! job_id) as [job|] eqn:Ej; [|apply follows_refl].
  destruct (bool_decide (status job = RUNNING)) eqn:Es; simpl; [|apply follows_refl].
  apply bool_decide_eq_true in Es.
  destruct (negb (bool_decide (worker_id job = _))); [apply follows_refl|].
  rewrite Es. destruct success; simpl.
  all: apply (follows_replace s job_id job); [done|];
    right; rewrite Es; simpl; rewrite !elem_of_cons; auto.
Qed.

Lemma reset_follows job_id now s :
  follows_transitions s (reset_retryable_job job_id now s).2.
Proof.
  unfold reset_retryable_job.
  destruct (s !! job_id) as [job|] eqn:Ej; [|apply follows_refl].
  destruct (_enforce_transition _ _) eqn:Et; [apply follows_refl|].
  destruct (indexed _ && index_conflict _ _); [apply follows_refl|]. simpl.
  apply (follows_replace s job_id job); [done|]. right. by apply enforced.
Qed.

Lemma cancel_follows job_id message now s :
  follows_transitions s (cancel_job job_id message now s).2.
Proof.
  unfold cancel_job.
  destruct (s !! job_id) as [job|] eqn:Ej; [|apply follows_refl].
  destruct (_enforce_transition _ _) eqn:Et; [apply follows_refl|]. simpl.
  apply (follows_replace s job_id job); [done|]. right. by apply enforced.
Qed.

(** Every operation of the coordinator keeps every job of the table, and
    leaves its status as it was or moves it along an edge of
    [ALLOWED_TRANSITIONS]; a completed, failed or cancelled job stays so. *)
Theorem step_follows_transitions s s' :
  step s s' →
  follows_transitions s s'
  ∧ ∀ i j, s !! i = Some j → status j ∈ [COMPLETED; FAILED; CANCELLED] →
      ∃ j', s' !! i = Some j' ∧ status j' = status j.
Proof.
  intros Hstep.
  assert (follows_transitions s s') as Hfollows.
  { destruct Hstep.
    - apply create_job_follows.
    - apply claim_follows.
    - apply heartbeat_follows.
    - apply finish_job_follows.
    - apply reset_follows.
    - apply cancel_follows.
    - apply follows_recover. }
  split; [done|]. intros i j Hi Hterminal.
  destruct (Hfollows i j Hi) as (j' & Hj' & Hedge). exists j'. split; [done|].
  destruct Hedge as [|Hedge]; [done|].
  rewrite !elem_of_cons, elem_of_nil in Hterminal.
  destruct Hterminal as [Hs|[Hs|[Hs|[]]]]; rewrite Hs in Hedge;
    by apply elem_of_nil in Hedge.
Qed.

Lemma step_follows_transitions_witness :
  follows_transitions Samples.jobs_running
    (finish_job "job-a" "w1" true None 120 Samples.jobs_running).2
  ∧ ∀ i j, Samples.jobs_running !! i = Some j →
      status j ∈ [COMPLETED; FAILED; CANCELLED] →
      ∃ j', (finish_job "job-a" "w1" true None 120 Samples.jobs_running).2 !! i = Some j'
            ∧ status j' = status j.
Proof.
  apply (step_follows_transitions Samples.jobs_running).
  apply step_finish_job.
Defined.

(** *** What a claim leaves behind *)

Definition pending_scan_hash (j : Job) : Prop :=
  kind j ∈ [SCAN; HASH] ∧ status j = PENDING.

Lemma candidate_None s :
  candidate s = None → ∀ k j, s !! k = Some j → ¬ pending_scan_hash j.
Proof.
  unfold candidate. intros H k j Hk Hp.
  assert ((k, j) ∈ map_to_list
            (filter (λ kj : string * Job,
                       kind kj.2 ∈ [SCAN; HASH] ∧ status kj.2 = PENDING) s)) as Hin.
  { apply elem_of_map_to_list. apply map_lookup_filter_Some. split; [done|]. apply Hp. }
  destruct (map_to_list _) as [|r rows]; [by apply elem_of_nil in Hin|].
  simpl in H. destruct (first_by_age rows) as [best|]; [by destruct (older r best)|done].
Qed.

Lemma pending_indexed j : pending_scan_hash j → indexed j = true.
Proof.
  intros [Hk Hs]. unfold indexed, _requires_scan_hash_mutex.
  rewrite Hs, andb_true_iff, !bool_decide_eq_true. split; [|done].
  rewrite !elem_of_cons. auto.
Qed.

Lemma index_conflict_false key s :
  index_conflict key s = false ↔ ∀ i j, s !! i = Some j → indexed j = true → i = key.
Proof.
  rewrite <- not_true_iff_false, index_conflict_true. split.
  - intros H i j Hi Hj. destruct (decide (i = key)); [done|].
    exfalso. apply H. eauto.
  - intros H (i & j & Hi & Hne & Hj). eauto.
Qed.

(** X6.  [claim_pending_scan_hash_job] with a worker id that is not blank ends
    in one of three ways.  It returns [None] and leaves the store as it was
    (the recovery it ran is rolled back) when no scan/hash job is pending
    after the recovery.  It returns the snapshot of a pending scan/hash job,
    now running, bound to the stripped worker id with a lease of
    [job_lock_ttl_seconds] from now, committed together with the recovery;
    no other scan/hash job is then pending or running.  Or it raises
    [JobConflictError] and leaves the store as it was, which happens only
    when another scan/hash job is pending or running, and so never in a store
    in which at most one scan/hash job is active. *)
Theorem claim_outcome settings worker now jobs :
  Py.strip worker ≠ "" →
  let session := recover_in_session now jobs in
  let out := claim_pending_scan_hash_job settings worker now jobs in
  ( (out = (ret None, jobs)
     ∧ ∀ k j, session !! k = Some j → ¬ pending_scan_hash j)
    ∨ (∃ key j,
         session !! key = Some j ∧ pending_scan_hash j
         ∧ let snap := claimed (Py.strip worker) now
                         (now + Config.job_lock_ttl_seconds settings) j in
           out = (ret (Some snap), <[key := snap]> session)
           ∧ ∀ i r, session !! i = Some r → indexed r = true → i = key)
    ∨ (out = (raise JobConflictError, jobs)
       ∧ ∃ i r k j, session !! i = Some r ∧ session !! k = Some j
                    ∧ i ≠ k ∧ indexed r = true ∧ pending_scan_hash j) )
  ∧ (mutex_inv jobs → out.1 ≠ raise JobConflictError).
Proof.
  intros Hw session out.
  assert (out = match candidate session with
                | None => (ret None, jobs)
                | Some (key, j) =>
                    if index_conflict key session then (raise JobConflictError, jobs)
                    else
                      let snap := claimed (Py.strip worker) now
                                    (now + Config.job_lock_ttl_seconds settings) j in
                      (ret (Some snap), <[key := snap]> session)
                end) as ->.
  { subst out session. unfold claim_pending_scan_hash_job.
    destruct (Py.strip worker) eqn:Ew; [done|]. simpl.
    destruct (candidate _) as [[key j]|]; [|done].
    destruct (index_conflict _ _); [done|].
    rewrite lookup_insert_eq. by rewrite job_snapshot_id. }
  destruct (candidate session) as [[key j]|] eqn:Ec.
  - apply candidate_lookup in Ec as (Hk & Hkind & Hst).
    destruct (index_conflict key session) eqn:Ei.
    + split.
      * right. right. split; [done|].
        apply index_conflict_true in Ei as (i & r & Hi & Hne & Hr).
        by exists i, r, key, j.
      * intros Hm _. apply (recover_mutex now) in Hm.
        apply index_conflict_true in Ei as (i & r & Hi & Hne & Hr).
        apply Hne. apply (Hm i key r j Hi Hk); [by apply indexed_active|].
        apply indexed_active. by apply pending_indexed.
    + split; [|done]. right. left. exists key, j.
      split; [done|]. split; [done|]. simpl. split; [done|].
      by apply index_conflict_false.
  - split; [|done]. left. split; [done|]. by apply candidate_None.
Qed.

(** *** Recovery settles *)

Lemma stale_expired now now' j : stale now' (expire_stale now j) = false.
Proof. done. Qed.

Lemma recover_recover now s :
  recover_in_session now (recover_in_session now s) = recover_in_session now s.
Proof.
  apply map_eq. intros i. rewrite !recover_lookup.
  destruct (s !! i) as [j|]; [|done]. simpl.
  destruct (stale now j) eqn:Es; [done|]. by rewrite Es.
Qed.

Lemma stale_count_0 now s :
  stale_count now s = 0 ↔ ∀ i j, s !! i = Some j → stale now j = false.
Proof.
  unfold stale_count. split.
  - intros H i j Hi. destruct (stale now j) eqn:Es; [|done].
    assert (size (filter (λ kj : string * Job, stale now kj.2 = true) s) = 0%nat) as H0 by lia.
    apply map_size_empty_iff in H0.
    assert (filter (λ kj : string * Job, stale now kj.2 = true) s !! i = Some j) as Hf
      by by apply map_lookup_filter_Some.
    rewrite H0 in Hf. done.
  - intros H. replace (filter _ s) with (∅ : gmap string Job); [done|].
    symmetry. apply map_empty. intros i. apply map_lookup_filter_None.
    right. intros j Hi Hs. simpl in Hs. by rewrite (H _ _ Hi) in Hs.
Qed.

(** X7.  [recover_stale_jobs()] changes exactly the running scan/hash jobs
    whose lease is null or not after now: each becomes retryable with
    [error_code] LEASE_EXPIRED and no worker or lease; every other row, a job of
    another kind with an expired lease included, is left as it is.  The
    number it returns is zero exactly when the store is unchanged, and a
    second call at the same instant finds nothing to recover. *)
Theorem recover_stale_jobs_settles now jobs :
  let out := recover_stale_jobs now jobs in
  (∀ k j, jobs !! k = Some j →
     (stale now j = true →
        ∃ j', out.2 !! k = Some j' ∧ status j' = RETRYABLE
              ∧ error_code j' = Some "LEASE_EXPIRED"
              ∧ worker_id j' = None ∧ lease_expires_at j' = None
              ∧ kind j' = kind j ∧ payload j' = payload j)
     ∧ (stale now j = false → out.2 !! k = Some j)
     ∧ (kind j ∉ [SCAN; HASH] → out.2 !! k = Some j)
     ∧ (status j ≠ RUNNING → out.2 !! k = Some j))
  ∧ dom out.2 = dom jobs
  ∧ (out.1 = 0 ↔ out.2 = jobs)
  ∧ 0 ≤ out.1
  ∧ recover_stale_jobs now out.2 = (0, out.2).
Proof.
  intros out. subst out. unfold recover_stale_jobs. simpl.
  repeat split.
  - intros Hs. rewrite recover_lookup, H. simpl. rewrite Hs.
    eexists. split; [done|]. done.
  - intros Hs. rewrite recover_lookup, H. simpl. by rewrite Hs.
  - intros Hk. rewrite recover_lookup, H. simpl.
    destruct (stale now j) eqn:Es; [|done]. exfalso. apply Hk.
    unfold stale in Es. rewrite !andb_true_iff, !bool_decide_eq_true in Es. tauto.
  - intros Hk. rewrite recover_lookup, H. simpl.
    destruct (stale now j) eqn:Es; [|done]. exfalso. apply Hk.
    unfold stale in Es. rewrite !andb_true_iff, !bool_decide_eq_true in Es. tauto.
  - unfold recover_in_session. apply dom_fmap_L.
  - rewrite stale_count_0. intros H. apply map_eq. intros i.
    rewrite recover_lookup. destruct (jobs !! i) as [j|] eqn:Ej; [|done].
    simpl. by rewrite (H _ _ Ej).
  - rewrite stale_count_0. intros H i j Hi.
    destruct (stale now j) eqn:Es; [|done].
    assert (recover_in_session now jobs !! i = Some (expire_stale now j)) as Hr.
    { rewrite recover_lookup, Hi. simpl. by rewrite Es. }
    rewrite H, Hi in Hr. injection Hr as Hr.
    unfold stale in Es. rewrite !andb_true_iff, !bool_decide_eq_true in Es.
    destruct Es as [[Hst _] _]. rewrite Hr in Hst. done.
  - unfold stale_count. lia.
  - f_equal; [|apply recover_recover].
    apply stale_count_0. intros i j Hi. rewrite recover_lookup in Hi.
    destruct (jobs !! i) as [j0|]; [|done]. simpl in Hi. injection Hi as <-.
    destruct (stale now j0) eqn:Es; done.
Qed.
(** *** Calls that raise, and the rows a call touches *)

(** X8.  A call of [create_job], [claim_pending_scan_hash_job], [finish_job],
    [reset_retryable_job] or [cancel_job] that raises leaves the store as it
    was.  A [heartbeat] that raises leaves it as it was, but for one case: the
    lease of the running job has run out, the job is stored as retryable and
    the caller gets [JobConflictError].  [heartbeat], [finish_job],
    [reset_retryable_job] and [cancel_job] add and remove no row and write
    no row but the one they are called for. *)
Theorem failed_call_keeps_store :
  (∀ settings k p d job_id now s e,
     (create_job settings k p d job_id now s).1 = raise e →
     (create_job settings k p d job_id now s).2 = s)
  ∧ (∀ settings worker now s e,
     (claim_pending_scan_hash_job settings worker now s).1 = raise e →
     (claim_pending_scan_hash_job settings worker now s).2 = s)
  ∧ (∀ job_id worker success message now s e,
     (finish_job job_id worker success message now s).1 = raise e →
     (finish_job job_id worker success message now s).2 = s)
  ∧ (∀ job_id now s e,
     (reset_retryable_job job_id now s).1 = raise e →
     (reset_retryable_job job_id now s).2 = s)
  ∧ (∀ job_id message now s e,
     (cancel_job job_id message now s).1 = raise e →
     (cancel_job job_id message now s).2 = s)
  ∧ (∀ settings job_id worker pr it now s e,
     (heartbeat settings job_id worker pr it now s).1 = raise e →
     (heartbeat settings job_id worker pr it now s).2 = s
     ∨ (e = JobConflictError
        ∧ ∃ job, s !! job_id = Some job ∧ status job = RUNNING
            ∧ (lease_expires_at job = None
               ∨ ∃ t, lease_expires_at job = Some t ∧ t ≤ now)
            ∧ (heartbeat settings job_id worker pr it now s).2
              = <[job_id := lease_expired now job]> s))
  ∧ (∀ settings job_id worker pr it success message now s s',
     s' ∈ [ (heartbeat settings job_id worker pr it now s).2;
            (finish_job job_id worker success message now s).2;
            (reset_retryable_job job_id now s).2;
            (cancel_job job_id message now s).2 ] →
     dom s' = dom s ∧ ∀ k, k ≠ job_id → s' !! k = s !! k).
Proof.
  repeat split.
  - intros settings k p d job_id now s e. unfold create_job.
    destruct (_enforce_job_policy _ _ _); [done|].
    destruct (_ && has_active_scan_hash _); [done|].
    destruct (_ || _); [by destruct (_requires_scan_hash_mutex k)|done].
  - intros settings worker now s e. unfold claim_pending_scan_hash_job.
    destruct (negb _); [done|].
    destruct (candidate _) as [[key j]|]; [|done].
    destruct (index_conflict _ _); [done|].
    by rewrite lookup_insert_eq.
  - intros job_id worker success message now s e. unfold finish_job.
    destruct (negb (Py.nonempty _)); [done|].
    destruct (s !! job_id) as [job|]; [|done].
    destruct (negb (bool_decide (status job = RUNNING))); [done|].
    destruct (negb (bool_decide (worker_id job = _))); [done|].
    by destruct (_enforce_transition _ _).
  - intros job_id now s e. unfold reset_retryable_job.
    destruct (s !! job_id) as [job|]; [|done].
    destruct (_enforce_transition _ _); [done|].
    by destruct (_ && _).
  - intros job_id message now s e. unfold cancel_job.
    destruct (s !! job_id) as [job|]; [|done].
    by destruct (_enforce_transition _ _).
  - intros settings job_id worker pr it now s e. unfold heartbeat.
    destruct (negb (Py.nonempty _)); [by left|].
    destruct (s !! job_id) as [job|] eqn:Ej; [|by left].
    destruct (bool_decide (status job = RUNNING)) eqn:Es; simpl; [|by left].
    apply bool_decide_eq_true in Es.
    destruct (lease_expires_at job) as [t|] eqn:El; simpl.
    + destruct (t <=? now) eqn:Et.
      * rewrite Es. simpl. intros [= <-]. right. split; [done|].
        exists job. repeat split; [done|]. right. exists t. split; [done|lia].
      * destruct (_ && _); [by left|].
        destruct (progress_out_of_range _); [by left|].
        destruct (processed_negative _); [by left|done].
    + rewrite Es. simpl. intros [= <-]. right. split; [done|].
      exists job. repeat split; [done|]. by left.
  - rewrite !elem_of_cons, elem_of_nil in H.
    destruct H as [->|[->|[->|[->|[]]]]].
    + unfold heartbeat.
      destruct (negb (Py.nonempty _)); [done|].
      destruct (s !! job_id) as [job|] eqn:Ej; [|done].
      assert (∀ j', dom (<[job_id := j']> s) = dom s) as Hdom.
      { intros j'. apply dom_insert_lookup_L. by eexists. }
      destruct (negb _); [done|].
      destruct (match _coerce_utc _ with None => true | Some t => t <=? now end).
      * destruct (_enforce_transition _ _); [done|]. apply Hdom.
      * destruct (_ && _); [done|].
        destruct (progress_out_of_range _); [done|].
        destruct (processed_negative _); [done|]. apply Hdom.
    + unfold finish_job.
      destruct (negb (Py.nonempty _)); [done|].
      destruct (s !! job_id) as [job|] eqn:Ej; [|done].
      destruct (negb (bool_decide (status job = RUNNING))); [done|].
      destruct (negb (bool_decide (worker_id job = _))); [done|].
      destruct (_enforce_transition _ _); [done|].
      apply dom_insert_lookup_L. by eexists.
    + unfold reset_retryable_job.
      destruct (s !! job_id) as [job|] eqn:Ej; [|done].
      destruct (_enforce_transition _ _); [done|].
      destruct (_ && _); [done|].
      apply dom_insert_lookup_L. by eexists.
    + unfold cancel_job.
      destruct (s !! job_id) as [job|] eqn:Ej; [|done].
      destruct (_enforce_transition _ _); [done|].
      apply dom_insert_lookup_L. by eexists.
  - intros k Hk. rewrite !elem_of_cons, elem_of_nil in H.
    destruct H as [->|[->|[->|[->|[]]]]].
    + unfold heartbeat.
      destruct (negb (Py.nonempty _)); [done|].
      destruct (s !! job_id) as [job|] eqn:Ej; [|done].
      destruct (negb _); [done|].
      destruct (match _coerce_utc _ with None => true | Some t => t <=? now end).
      * destruct (_enforce_transition _ _); [done|]. by apply lookup_insert_ne.
      * destruct (_ && _); [done|].
        destruct (progress_out_of_range _); [done|].
        destruct (processed_negative _); [done|]. by apply lookup_insert_ne.
    + unfold finish_job.
      destruct (negb (Py.nonempty _)); [done|].
      destruct (s !! job_id) as [job|] eqn:Ej; [|done].
      destruct (negb (bool_decide (status job = RUNNING))); [done|].
      destruct (negb (bool_decide (worker_id job = _))); [done|].
      destruct (_enforce_transition _ _); [done|].
      by apply lookup_insert_ne.
    + unfold reset_retryable_job.
      destruct (s !! job_id) as [job|] eqn:Ej; [|done].
      destruct (_enforce_transition _ _); [done|].
      destruct (_ && _); [done|].
      by apply lookup_insert_ne.
    + unfold cancel_job.
      destruct (s !! job_id) as [job|] eqn:Ej; [|done].
      destruct (_enforce_transition _ _); [done|].
      by apply lookup_insert_ne.
Qed.

(** *** Who may finish a job *)

(** X9.  [finish_job] returns a snapshot exactly when the worker id is not
    blank and the job exists, is running and is bound to the stripped worker
    id; the lease is not looked at, so a worker whose lease has run out but
    was not yet recovered still finishes its job.  The snapshot returned is
    the row stored: completed with progress 1 and no error code on success,
    failed with [error_code] WORKER_FAILURE otherwise, [finished_at] and
    [worker_heartbeat_at] now, the lease cleared, the worker kept; no edge of
    [ALLOWED_TRANSITIONS] leaves its status. *)
Theorem finish_job_accepts job_id worker success message now jobs :
  let out := finish_job job_id worker success message now jobs in
  ((∃ snap, out.1 = ret snap)
   ↔ Py.strip worker ≠ ""
     ∧ ∃ job, jobs !! job_id = Some job ∧ status job = RUNNING
              ∧ worker_id job = Some (Py.strip worker))
  ∧ (∀ snap, out.1 = ret snap →
       out.2 = <[job_id := snap]> jobs
       ∧ status snap = (if success then COMPLETED else FAILED)
       ∧ error_code snap = (if success then None else Some "WORKER_FAILURE")
       ∧ (success = true → progress snap = 1%float)
       ∧ error_message snap = message
       ∧ finished_at snap = Some now
       ∧ worker_heartbeat_at snap = Some now
       ∧ lease_expires_at snap = None
       ∧ worker_id snap = Some (Py.strip worker)
       ∧ ALLOWED_TRANSITIONS (status snap) = []).
Proof.
  intros out. subst out. unfold finish_job.
  destruct (Py.strip worker) as [|c w] eqn:Ew; simpl.
  { split; [|done]. split; [by intros [? ?]|]. by intros [? _]. }
  destruct (jobs !! job_id) as [job|] eqn:Ej; simpl.
  2: { split; [|done]. split; [by intros [? ?]|]. by intros [_ (? & ? & _)]. }
  destruct (bool_decide (status job = RUNNING)) eqn:Es; simpl.
  2: { apply bool_decide_eq_false in Es.
       split; [|done]. split; [by intros [? ?]|].
       intros [_ (? & ? & ? & _)]. by simplify_eq. }
  apply bool_decide_eq_true in Es.
  destruct (bool_decide (worker_id job = Some (String c w))) eqn:Eb; simpl.
  2: { apply bool_decide_eq_false in Eb.
       split; [|done]. split; [by intros [? ?]|].
       intros [_ (? & ? & _ & ?)]. by simplify_eq. }
  apply bool_decide_eq_true in Eb.
  rewrite Es. destruct success; simpl.
  all: split; [split; [intros _; split; [done|]; by exists job | by eexists]|].
  all: intros snap [= <-]; by rewrite job_snapshot_id.
Qed.

(** *** Resetting a retryable job *)

(** X10.  In a store in which at most one scan/hash job is pending, running or
    retryable (every store the coordinator reaches is one),
    [reset_retryable_job] never fails on the unique index: it raises
    [JobNotFoundError] for an unknown id, [InvalidJobStateError] for a job
    that is not retryable, and otherwise stores and returns the job as
    pending, with worker, lease, error and [finished_at] cleared and the
    rest of the row kept. *)
Theorem reset_retryable_job_outcome job_id now jobs :
  mutex_inv jobs →
  reset_retryable_job job_id now jobs
  = match jobs !! job_id with
    | None => (raise JobNotFoundError, jobs)
    | Some job =>
        if bool_decide (status job = RETRYABLE)
        then (ret (reset now job), <[job_id := reset now job]> jobs)
        else (raise InvalidJobStateError, jobs)
    end.
Proof.
  intros Hm. unfold reset_retryable_job.
  destruct (jobs !! job_id) as [job|] eqn:Ej; [|done].
  case_bool_decide as Hs.
  - rewrite Hs. simpl.
    destruct (indexed (reset now job) && index_conflict job_id jobs) eqn:Ec.
    + exfalso. apply andb_true_iff in Ec as [Hi Hc].
      apply index_conflict_true in Hc as (i & r & Hr & Hne & Hind).
      apply Hne. apply (Hm i job_id r job Hr Ej); [by apply indexed_active|].
      apply indexed_active in Hi. revert Hi. unfold active_scan_hash. simpl.
      rewrite Hs, !andb_true_iff, !bool_decide_eq_true. intros [? _].
      split; [done|]. rewrite !elem_of_cons. auto.
    + by rewrite job_snapshot_id.
  - unfold _enforce_transition. by destruct (status job).
Qed.

(** *** Reading back what a call returned *)

(** X11.  The snapshot that [create_job], [heartbeat], [finish_job],
    [reset_retryable_job] or [cancel_job] returns is the row the store holds
    for the job after the call, and [get_job] hands the same snapshot back at
    any later reading at which the job is not a running scan/hash job whose
    lease has run out; [get_job] itself never changes the store, and raises
    [JobNotFoundError] for an id the store does not hold. *)
Theorem returned_snapshot_is_stored settings k p d worker pr it success message
    job_id now jobs snap jobs' :
  (ret snap, jobs') ∈ [ create_job settings k p d job_id now jobs;
                        heartbeat settings job_id worker pr it now jobs;
                        finish_job job_id worker success message now jobs;
                        reset_retryable_job job_id now jobs;
                        cancel_job job_id message now jobs ] →
  jobs' !! job_id = Some snap
  ∧ (∀ now', stale now' snap = false → get_job job_id now' jobs' = (ret snap, jobs'))
  ∧ (∀ now' other, (get_job other now' jobs').2 = jobs')
  ∧ (∀ now' other, jobs' !! other = None →
       get_job other now' jobs' = (raise JobNotFoundError, jobs')).
Proof.
  intros Hin.
  assert (jobs' !! job_id = Some snap) as Hs.
  { rewrite !elem_of_cons, elem_of_nil in Hin.
    destruct Hin as [H|[H|[H|[H|[H|[]]]]]]; revert H.
    - unfold create_job.
      destruct (_enforce_job_policy _ _ _); [done|].
      destruct (_ && has_active_scan_hash _); [done|].
      destruct (_ || _); [by destruct (_requires_scan_hash_mutex k)|].
      intros [= -> ->]. by rewrite lookup_insert_eq.
    - unfold heartbeat.
      destruct (negb (Py.nonempty _)); [done|].
      destruct (jobs !! job_id) as [job|] eqn:Ej; [|done].
      destruct (negb _); [done|].
      destruct (match _coerce_utc _ with None => true | Some t => t <=? now end).
      + by destruct (_enforce_transition _ _).
      + destruct (_ && _); [done|].
        destruct (progress_out_of_range _); [done|].
        destruct (processed_negative _); [done|].
        intros [= -> ->]. by rewrite lookup_insert_eq.
    - unfold finish_job.
      destruct (negb (Py.nonempty _)); [done|].
      destruct (jobs !! job_id) as [job|] eqn:Ej; [|done].
      destruct (negb (bool_decide (status job = RUNNING))); [done|].
      destruct (negb (bool_decide (worker_id job = _))); [done|].
      destruct (_enforce_transition _ _); [done|].
      intros [= -> ->]. by rewrite lookup_insert_eq.
    - unfold reset_retryable_job.
      destruct (jobs !! job_id) as [job|] eqn:Ej; [|done].
      destruct (_enforce_transition _ _); [done|].
      destruct (_ && _); [done|].
      intros [= -> ->]. by rewrite lookup_insert_eq.
    - unfold cancel_job.
      destruct (jobs !! job_id) as [job|] eqn:Ej; [|done].
      destruct (_enforce_transition _ _); [done|].
      intros [= -> ->]. by rewrite lookup_insert_eq. }
  split; [done|]. repeat split.
  - intros now' Hst. unfold get_job. rewrite recover_lookup, Hs. simpl.
    by rewrite Hst, job_snapshot_id.
  - intros now' other. unfold get_job. by destruct (_ !! other).
  - intros now' other Ho. unfold get_job. by rewrite recover_lookup, Ho.
Qed.
(** *** Paging through the jobs *)

(** The table is keyed by the column [id]. *)
Definition keyed (s : gmap string Job) : Prop :=
  ∀ k j, s !! k = Some j → id j = k.

(** The rows a listing sees, newest first. *)
Definition listing (now : Z) (jobs : gmap string Job) : list (string * Job) :=
  Sql.order_by newer (map_to_list (recover_in_session now jobs)).

(** A client that asks for the first page and then follows [next_cursor]
    until there is none, collecting the items. *)
Fixpoint follow_cursors (fuel : nat) (limit : Z) (cursor : option string)
    (now : Z) (jobs : gmap string Job) : option (list JobSnapshot) :=
  match fuel with
  | O => None
  | S fuel' =>
      match (list_jobs limit cursor now jobs).1 with
      | inl _ => None
      | inr page =>
          match next_cursor page with
          | None => Some (items page)
          | Some c =>
              match follow_cursors fuel' limit (Some c) now jobs with
              | None => None
              | Some more => Some (items page ++ more)%list
              end
          end
      end
  end.

(** [created_at DESC, id DESC] on snapshots. *)
Definition listed_before (a b : JobSnapshot) : Prop :=
  created_at b < created_at a
  ∨ (created_at a = created_at b ∧ String.ltb (id b) (id a) = true).

Lemma newer_lex a b :
  newer a b
  = SqlFacts.lex (λ r : string * Job, created_at r.2)
      (λ x y : string * Job, String.ltb x.1 y.1) b a.
Proof. unfold newer, SqlFacts.lex. by rewrite (Z.eqb_sym (created_at a.2)). Qed.

Lemma newer_asym a b : newer a b = true → newer b a = false.
Proof.
  rewrite !newer_lex. apply SqlFacts.lex_asym.
  intros x y. apply SqlFacts.ltb_asym.
Qed.

Lemma newer_ntrans a b c :
  newer a b = false → newer b c = false → newer a c = false.
Proof.
  rewrite !newer_lex. intros Hab Hbc. revert Hbc Hab. apply SqlFacts.lex_ntrans.
  intros x y z. apply SqlFacts.ltb_ntrans.
Qed.

Lemma newer_total (a b : string * Job) :
  a.1 ≠ b.1 → newer a b = true ∨ newer b a = true.
Proof.
  intros Hne. unfold newer.
  destruct (Z.lt_trichotomy (created_at a.2) (created_at b.2)) as [H|[H|H]].
  - right. by rewrite (proj2 (Z.ltb_lt _ _) H).
  - rewrite H, !Z.ltb_irrefl, !Z.eqb_refl. simpl.
    destruct (SqlFacts.ltb_total a.1 b.1 Hne); auto.
  - left. by rewrite (proj2 (Z.ltb_lt _ _) H).
Qed.

Lemma map_to_list_total (s : gmap string Job) x y :
  x ∈ map_to_list s → y ∈ map_to_list s → x ≠ y →
  newer x y = true ∨ newer y x = true.
Proof.
  intros Hx Hy Hne. apply newer_total. intros Hk. apply Hne.
  destruct x as [k a], y as [k' b]. simpl in Hk. subst k'.
  apply elem_of_map_to_list in Hx, Hy. congruence.
Qed.

Lemma listing_sorted now jobs :
  StronglySorted (SqlFacts.goes_before newer) (listing now jobs).
Proof.
  apply SqlFacts.order_by_sorted.
  - apply newer_asym.
  - apply newer_ntrans.
  - apply NoDup_map_to_list.
  - apply map_to_list_total.
Qed.

Lemma listing_elem now jobs k j :
  (k, j) ∈ listing now jobs ↔ recover_in_session now jobs !! k = Some j.
Proof. unfold listing. by rewrite SqlFacts.order_by_elem, elem_of_map_to_list. Qed.

(** What a page holds, given the rows that are left to list. *)
Definition page_of (bounded_limit : nat) (rest : list (string * Job)) : JobListResult :=
  {| items := (λ r : string * Job, r.2) <$> take bounded_limit rest;
     next_cursor :=
       if (bounded_limit <? length rest)%nat
       then (λ r : string * Job, id r.2) <$> last (take bounded_limit rest)
       else None |}.

Definition bounded (limit : Z) : nat := Z.to_nat (Z.max 1 (Z.min limit 200)).

Lemma page_rows limit (rest : list (string * Job)) :
  let bounded_limit := Z.max 1 (Z.min limit 200) in
  let rows := take (Z.to_nat (bounded_limit + 1)) rest in
  let page := take (Z.to_nat bounded_limit) rows in
  {| items := (λ r : string * Job, _to_snapshot r.2) <$> page;
     next_cursor :=
       if (bounded_limit <? Z.of_nat (length rows)) && negb (bool_decide (page = []))
       then (λ r : string * Job, id r.2) <$> last page
       else None |}
  = page_of (bounded limit) rest.
Proof.
  intros bounded_limit rows page. unfold page_of, bounded.
  fold bounded_limit.
  assert (page = take (Z.to_nat bounded_limit) rest) as ->.
  { subst page rows. rewrite take_take. f_equal. lia. }
  f_equal.
  - apply list_fmap_ext. intros _ r _. apply job_snapshot_id.
  - subst rows. rewrite length_take.
    destruct (Z.to_nat bounded_limit <? length rest)%nat eqn:E.
    + apply Nat.ltb_lt in E.
      rewrite (proj2 (Z.ltb_lt _ _)) by lia.
      rewrite bool_decide_eq_false_2; [done|].
      intros Hnil. apply (f_equal length) in Hnil.
      rewrite length_take in Hnil. simpl in Hnil. lia.
    + apply Nat.ltb_ge in E. by rewrite (proj2 (Z.ltb_ge _ _)) by lia.
Qed.

Lemma list_jobs_first limit cursor now jobs :
  cursor = None ∨ cursor = Some "" →
  list_jobs limit cursor now jobs = (ret (page_of (bounded limit) (listing now jobs)), jobs).
Proof.
  intros Hc. unfold list_jobs.
  assert (match cursor with
          | Some c =>
              if Py.nonempty c then
                match recover_in_session now jobs !! c with
                | None => raise ValueError
                | Some anchor =>
                    ret (filter (λ r, after_anchor c (created_at anchor) r = true)
                           (map_to_list (recover_in_session now jobs)))
                end
              else ret (map_to_list (recover_in_session now jobs))
          | None => ret (map_to_list (recover_in_session now jobs))
          end = ret (map_to_list (recover_in_session now jobs))) as ->.
  { by destruct Hc as [->| ->]. }
  cbv zeta. unfold ret at 1. cbv iota beta. by rewrite page_rows.
Qed.

Lemma list_jobs_after limit c j before rest now jobs :
  c ≠ "" →
  listing now jobs = (before ++ (c, j) :: rest)%list →
  list_jobs limit (Some c) now jobs = (ret (page_of (bounded limit) rest), jobs).
Proof.
  intros Hc Hl. unfold list_jobs.
  destruct c as [|a c]; [done|]. simpl Py.nonempty. cbv iota.
  assert (recover_in_session now jobs !! String a c = Some j) as ->.
  { apply listing_elem. rewrite Hl. apply elem_of_app. right. apply list_elem_of_here. }
  cbv zeta. unfold ret at 1. cbv iota beta.
  rewrite (list_filter_iff _ (λ r, newer (String a c, j) r = true)).
  2: { intros r. unfold after_anchor, newer. simpl.
       by rewrite (Z.eqb_sym (created_at j)). }
  rewrite (SqlFacts.order_by_filter newer newer_asym newer_ntrans).
  2: apply NoDup_map_to_list.
  2: apply map_to_list_total.
  fold (listing now jobs). rewrite Hl.
  rewrite (SqlFacts.filter_after newer newer_asym).
  2: { rewrite <- Hl. apply listing_sorted. }
  by rewrite page_rows.
Qed.

Lemma bounded_pos limit : (1 ≤ bounded limit ≤ 200)%nat.
Proof. unfold bounded. lia. Qed.

Lemma recover_keyed now s : keyed s → keyed (recover_in_session now s).
Proof.
  intros H k j Hk. rewrite recover_lookup in Hk.
  destruct (s !! k) as [j0|] eqn:E; [|done]. simpl in Hk. injection Hk as <-.
  destruct (stale now j0); simpl; by apply H.
Qed.

(** Following the cursors from a row of the listing yields the rows after it. *)
Lemma follow_rest limit now jobs fuel :
  keyed jobs → jobs !! "" = None →
  ∀ cursor before rest,
    listing now jobs = (before ++ rest)%list →
    (cursor = None ∧ before = []
     ∨ ∃ c j before', cursor = Some c ∧ before = (before' ++ [(c, j)])%list) →
    (length rest < fuel)%nat →
    follow_cursors fuel limit cursor now jobs = Some (rest.*2).
Proof.
  intros Hkeyed Hblank.
  induction fuel as [|fuel IH]; intros cursor before rest Hl Hc Hlen; [lia|].
  assert (∀ c j, (c, j) ∈ listing now jobs → id j = c ∧ c ≠ "") as Hkey.
  { intros c j Hin. apply listing_elem in Hin. split.
    - by apply (recover_keyed now jobs Hkeyed).
    - intros ->. rewrite recover_lookup, Hblank in Hin. done. }
  assert (list_jobs limit cursor now jobs
          = (ret (page_of (bounded limit) rest), jobs)) as Hpage.
  { destruct Hc as [[-> ->]|(c & j & before' & -> & ->)].
    - rewrite list_jobs_first by auto. by rewrite Hl.
    - rewrite <- app_assoc in Hl. simpl in Hl.
      apply (list_jobs_after limit c j before' rest); [|done].
      apply (Hkey c j). rewrite Hl. apply elem_of_app. right. apply list_elem_of_here. }
  simpl. rewrite Hpage. simpl.
  pose proof (bounded_pos limit) as Hb.
  destruct (bounded limit <? length rest)%nat eqn:E.
  - apply Nat.ltb_lt in E.
    destruct (last (take (bounded limit) rest)) as [[c' j']|] eqn:Elast.
    2: { apply last_None in Elast. apply (f_equal length) in Elast.
         rewrite length_take in Elast. simpl in Elast. lia. }
    simpl.
    apply last_Some in Elast as [front Hfront].
    assert (rest = (front ++ (c', j') :: drop (bounded limit) rest)%list) as Hrest.
    { rewrite <- (take_drop (bounded limit) rest) at 1. rewrite Hfront.
      by rewrite <- app_assoc. }
    assert (id j' = c') as ->.
    { apply (Hkey c' j'). rewrite Hl, Hrest.
      apply elem_of_app. right. apply elem_of_app. right. apply list_elem_of_here. }
    rewrite (IH (Some c') (before ++ front ++ [(c', j')])%list
               (drop (bounded limit) rest)).
    + rewrite <- fmap_app. by rewrite take_drop.
    + rewrite Hl. rewrite Hrest at 1. by rewrite <- !app_assoc.
    + right. exists c', j', (before ++ front)%list. by rewrite <- app_assoc.
    + rewrite length_drop. lia.
  - apply Nat.ltb_ge in E. by rewrite take_ge by lia.
Qed.

Lemma goes_before_listed (a b : string * Job) :
  id a.2 = a.1 → id b.2 = b.1 →
  SqlFacts.goes_before newer a b → listed_before a.2 b.2.
Proof.
  intros Ha Hb. unfold SqlFacts.goes_before, newer, listed_before.
  rewrite Ha, Hb, orb_true_iff, andb_true_iff, Z.ltb_lt, Z.eqb_eq. tauto.
Qed.

Lemma sorted_fmap {A B} (R : relation A) (S : relation B) (f : A → B) l :
  (∀ x y, x ∈ l → y ∈ l → R x y → S (f x) (f y)) →
  StronglySorted R l → StronglySorted S (f <$> l).
Proof.
  induction l as [|a l IH]; intros HRS Hs; [constructor|].
  apply StronglySorted_inv in Hs as [Hs Ha]. simpl. constructor.
  - apply IH; [|done]. intros x y Hx Hy. apply HRS; by apply list_elem_of_further.
  - apply Forall_fmap, Forall_forall. intros y Hy. simpl.
    apply HRS; [apply list_elem_of_here|by apply list_elem_of_further|].
    by apply (proj1 (Forall_forall _ _) Ha).
Qed.

(** X12.  [list_jobs] on a table keyed by [id] that holds no job with the empty
    id.  A client that asks for the first page and follows [next_cursor]
    until there is none receives, over an unchanged store, every job exactly
    once (the pages together are a permutation of the rows, as the
    stale-lease recovery shows them), newest first by
    [created_at DESC, id DESC], also when several jobs share a [created_at].
    A page holds at most [max(1, min(limit, 200))] items, the call never
    changes the store, and a cursor that is not the id of a job raises
    [ValueError]. *)
Theorem list_jobs_pages limit now jobs :
  keyed jobs → jobs !! "" = None →
  (∃ all,
     follow_cursors (S (size jobs)) limit None now jobs = Some all
     ∧ all ≡ₚ (map_to_list (recover_in_session now jobs)).*2
     ∧ StronglySorted listed_before all)
  ∧ (∀ cursor page,
       (list_jobs limit cursor now jobs).1 = ret page →
       Z.of_nat (length (items page)) ≤ Z.max 1 (Z.min limit 200) ≤ 200)
  ∧ (∀ cursor, (list_jobs limit cursor now jobs).2 = jobs)
  ∧ (∀ c, c ≠ "" → jobs !! c = None →
       (list_jobs limit (Some c) now jobs).1 = raise ValueError).
Proof.
  intros Hkeyed Hblank. split; [|split; [|split]].
  - exists ((listing now jobs).*2). repeat split.
    + apply (follow_rest limit now jobs _ Hkeyed Hblank None [] (listing now jobs));
        [done|by left|].
      unfold listing. rewrite SqlFacts.order_by_perm, length_map_to_list.
      unfold recover_in_session. rewrite map_size_fmap. lia.
    + unfold listing. by rewrite SqlFacts.order_by_perm.
    + apply (sorted_fmap (SqlFacts.goes_before newer)); [|apply listing_sorted].
      intros [k a] [k' b] Ha Hb. apply listing_elem in Ha, Hb.
      apply goes_before_listed; simpl; by apply (recover_keyed now jobs Hkeyed).
  - intros cursor page. unfold list_jobs.
    destruct (match cursor with Some _ => _ | None => _ end) as [e|selected];
      [done|].
    cbv zeta. intros [= <-]. simpl. rewrite length_fmap, !length_take. lia.
  - intros cursor. unfold list_jobs.
    by destruct (match cursor with Some _ => _ | None => _ end).
  - intros c Hc Hn. unfold list_jobs.
    destruct c as [|a c]; [done|]. simpl Py.nonempty. cbv iota.
    by rewrite recover_lookup, Hn.
Qed.
(** Every store the coordinator reaches is keyed by [id]. *)
Lemma keyed_insert s k j : keyed s → id j = k → keyed (<[k := j]> s).
Proof.
  intros H Hj i r. rewrite lookup_insert. case_decide.
  - intros [= <-]. congruence.
  - apply H.
Qed.

Lemma step_keyed s s' : step s s' → keyed s → keyed s'.
Proof.
  intros Hstep H. destruct Hstep.
  - unfold create_job.
    destruct (_enforce_job_policy _ _ _); [done|].
    destruct (_ && has_active_scan_hash _); [done|].
    destruct (_ || _); [destruct (_requires_scan_hash_mutex k); apply H|]. simpl.
    apply keyed_insert; [|done].
    destruct (_requires_scan_hash_mutex k); [by apply recover_keyed|done].
  - unfold claim_pending_scan_hash_job.
    destruct (negb _); [done|].
    destruct (candidate _) as [[key j]|] eqn:Ec; [|done].
    destruct (index_conflict _ _); [done|].
    rewrite lookup_insert_eq. simpl.
    apply candidate_lookup in Ec as (Hk & _).
    apply keyed_insert; [by apply recover_keyed|]. simpl.
    by apply (recover_keyed now s H).
  - unfold heartbeat.
    destruct (negb (Py.nonempty _)); [done|].
    destruct (s !! job_id) as [job|] eqn:Ej; [|done].
    destruct (negb _); [done|].
    destruct (match _coerce_utc _ with None => true | Some t => t <=? now end).
    + destruct (_enforce_transition _ _); [done|]. simpl.
      apply keyed_insert; [done|]. exact (H _ _ Ej).
    + destruct (_ && _); [done|].
      destruct (progress_out_of_range _); [done|].
      destruct (processed_negative _); [done|]. simpl.
      apply keyed_insert; [done|]. exact (H _ _ Ej).
  - unfold finish_job.
    destruct (negb (Py.nonempty _)); [done|].
    destruct (s !! job_id) as [job|] eqn:Ej; [|done].
    destruct (negb (bool_decide (status job = RUNNING))); [done|].
    destruct (negb (bool_decide (worker_id job = _))); [done|].
    destruct (_enforce_transition _ _); [done|]. simpl.
    apply keyed_insert; [done|]. exact (H _ _ Ej).
  - unfold reset_retryable_job.
    destruct (s !! job_id) as [job|] eqn:Ej; [|done].
    destruct (_enforce_transition _ _); [done|].
    destruct (_ && _); [done|]. simpl.
    apply keyed_insert; [done|]. exact (H _ _ Ej).
  - unfold cancel_job.
    destruct (s !! job_id) as [job|] eqn:Ej; [|done].
    destruct (_enforce_transition _ _); [done|]. simpl.
    apply keyed_insert; [done|]. exact (H _ _ Ej).
  - by apply recover_keyed.
Qed.

Lemma reachable_keyed s : reachable s → keyed s.
Proof.
  unfold reachable. intros H.
  apply (rtc_ind_r (R := step) (λ t, keyed t) ∅); [|by eauto using step_keyed|done].
  intros k j Hk. by rewrite lookup_empty in Hk.
Qed.

(** *** Further theorems at the sample stores *)

Lemma jobs_pending_reachable : reachable Samples.jobs_pending.
Proof.
  unfold reachable.
  eapply rtc_l; [apply (step_create_job Samples.cfg SCAN None None "job-a" 100)|].
  apply rtc_refl.
Qed.

Lemma jobs_three_reachable : reachable Samples.jobs_three.
Proof.
  eapply reachable_step.
  - eapply reachable_step; [apply jobs_running_reachable|].
    apply (step_create_job Samples.cfg THUMBNAIL None None "job-b" 120).
  - apply (step_create_job Samples.cfg DELETE None None "job-c" 120).
Qed.

Lemma claim_outcome_witness :
  (claim_pending_scan_hash_job Samples.cfg " w1 " 110 Samples.jobs_pending
   = (ret None, Samples.jobs_pending)
   ∧ ∀ k j, recover_in_session 110 Samples.jobs_pending !! k = Some j →
       ¬ pending_scan_hash j)
  ∨ (∃ key j,
       recover_in_session 110 Samples.jobs_pending !! key = Some j
       ∧ pending_scan_hash j
       ∧ claim_pending_scan_hash_job Samples.cfg " w1 " 110 Samples.jobs_pending
         = (ret (Some (claimed "w1" 110 410 j)),
            <[key := claimed "w1" 110 410 j]> (recover_in_session 110 Samples.jobs_pending))
       ∧ ∀ i r, recover_in_session 110 Samples.jobs_pending !! i = Some r →
           indexed r = true → i = key)
  ∨ (claim_pending_scan_hash_job Samples.cfg " w1 " 110 Samples.jobs_pending
     = (raise JobConflictError, Samples.jobs_pending)
     ∧ ∃ i r k j, recover_in_session 110 Samples.jobs_pending !! i = Some r
                  ∧ recover_in_session 110 Samples.jobs_pending !! k = Some j
                  ∧ i ≠ k ∧ indexed r = true ∧ pending_scan_hash j).
Proof.
  apply (claim_outcome Samples.cfg " w1 " 110 Samples.jobs_pending).
  discriminate.
Defined.

Lemma reset_retryable_job_outcome_witness :
  reset_retryable_job "job-a" 600 Samples.jobs_retryable
  = match Samples.jobs_retryable !! "job-a" with
    | None => (raise JobNotFoundError, Samples.jobs_retryable)
    | Some job =>
        if bool_decide (status job = RETRYABLE)
        then (ret (reset 600 job), <["job-a" := reset 600 job]> Samples.jobs_retryable)
        else (raise InvalidJobStateError, Samples.jobs_retryable)
    end.
Proof.
  apply (reset_retryable_job_outcome "job-a" 600 Samples.jobs_retryable).
  apply reachable_mutex, jobs_retryable_reachable.
Defined.

Lemma returned_snapshot_is_stored_witness :
  (finish_job "job-a" "w1" true None 120 Samples.jobs_running).2 !! "job-a"
  = Some (finished true None 120 COMPLETED
            (claimed "w1" 110 410 (new_job "job-a" SCAN true None 100)))
  ∧ (∀ now', stale now' (finished true None 120 COMPLETED
                 (claimed "w1" 110 410 (new_job "job-a" SCAN true None 100))) = false →
       get_job "job-a" now' (finish_job "job-a" "w1" true None 120 Samples.jobs_running).2
       = (ret (finished true None 120 COMPLETED
                 (claimed "w1" 110 410 (new_job "job-a" SCAN true None 100))),
          (finish_job "job-a" "w1" true None 120 Samples.jobs_running).2))
  ∧ (∀ now' other,
       (get_job other now' (finish_job "job-a" "w1" true None 120 Samples.jobs_running).2).2
       = (finish_job "job-a" "w1" true None 120 Samples.jobs_running).2)
  ∧ (∀ now' other,
       (finish_job "job-a" "w1" true None 120 Samples.jobs_running).2 !! other = None →
       get_job other now' (finish_job "job-a" "w1" true None 120 Samples.jobs_running).2
       = (raise JobNotFoundError,
          (finish_job "job-a" "w1" true None 120 Samples.jobs_running).2)).
Proof.
  apply (returned_snapshot_is_stored Samples.cfg SCAN None None "w1" None None
           true None "job-a" 120 Samples.jobs_running).
  do 2 apply list_elem_of_further. apply elem_of_cons. left. reflexivity.
Defined.

Lemma list_jobs_pages_witness :
  ∃ all,
    follow_cursors (S (size Samples.jobs_three)) 2 None 200 Samples.jobs_three = Some all
    ∧ all ≡ₚ (map_to_list (recover_in_session 200 Samples.jobs_three)).*2
    ∧ StronglySorted listed_before all.
Proof.
  apply (list_jobs_pages 2 200 Samples.jobs_three).
  - apply reachable_keyed, jobs_three_reachable.
  - reflexivity.
Defined.

(** The three jobs come in two pages of two and one, the two created at 120
    ordered by id. *)
Example list_jobs_sample :
  (λ all : list JobSnapshot, id <$> all) <$> follow_cursors 4 2 None 200 Samples.jobs_three
  = Some ["job-c"; "job-b"; "job-a"]
  ∧ sum_map (λ e : Raised, e) (λ page, (id <$> items page, next_cursor page))
      (list_jobs 2 None 200 Samples.jobs_three).1
    = inr (["job-c"; "job-b"], Some "job-b")
  ∧ sum_map (λ e : Raised, e) (λ page, (id <$> items page, next_cursor page))
      (list_jobs 2 (Some "job-b") 200 Samples.jobs_three).1
    = inr (["job-a"], None).
Proof. vm_compute. done. Qed.


(** *** The dry-run policy *)

(** What [_enforce_job_policy] asks of a job under [settings]: no real run
    while the global dry-run mode is on, and no real delete unless the
    configuration allows it. *)
Definition within_policy (settings : Config.Settings) (j : Job) : Prop :=
  (Config.dry_run settings = true → dry_run j = true)
  ∧ (kind j = DELETE → dry_run j = false → Config.allow_real_delete settings = true).

(** The stores the coordinator reaches from the empty one under one
    configuration. *)
Inductive runs (settings : Config.Settings) : Table → Prop :=
| runs_empty : runs settings ∅
| runs_create_job k p d job_id now s :
    runs settings s → runs settings (create_job settings k p d job_id now s).2
| runs_claim worker now s :
    runs settings s → runs settings (claim_pending_scan_hash_job settings worker now s).2
| runs_heartbeat job_id worker pr it now s :
    runs settings s → runs settings (heartbeat settings job_id worker pr it now s).2
| runs_finish_job job_id worker success message now s :
    runs settings s → runs settings (finish_job job_id worker success message now s).2
| runs_reset job_id now s :
    runs settings s → runs settings (reset_retryable_job job_id now s).2
| runs_cancel job_id message now s :
    runs settings s → runs settings (cancel_job job_id message now s).2
| runs_recover now s :
    runs settings s → runs settings (recover_stale_jobs now s).2.

(** The columns no operation writes after the job is created. *)
Definition same_job (j j' : Job) : Prop :=
  id j' = id j ∧ kind j' = kind j ∧ dry_run j' = dry_run j
  ∧ payload j' = payload j ∧ created_at j' = created_at j.

Definition fixed_columns (s s' : Table) : Prop :=
  ∀ i j, s !! i = Some j → ∃ j', s' !! i = Some j' ∧ same_job j j'.

Lemma same_job_refl j : same_job j j.
Proof. by repeat split. Qed.

Lemma same_job_trans a b c : same_job a b → same_job b c → same_job a c.
Proof. unfold same_job. intros (?&?&?&?&?) (?&?&?&?&?). repeat split; congruence. Qed.

Lemma fixed_refl s : fixed_columns s s.
Proof. intros i j Hi. exists j. split; [done|apply same_job_refl]. Qed.

Lemma fixed_trans s1 s2 s3 :
  fixed_columns s1 s2 → fixed_columns s2 s3 → fixed_columns s1 s3.
Proof.
  intros H12 H23 i j Hi. destruct (H12 i j Hi) as (j2 & H2 & Hs2).
  destruct (H23 i j2 H2) as (j3 & H3 & Hs3). exists j3. split; [done|].
  by eapply same_job_trans.
Qed.

Lemma fixed_recover now s : fixed_columns s (recover_in_session now s).
Proof.
  intros i j Hi. rewrite recover_lookup, Hi. simpl. eexists. split; [done|].
  destruct (stale now j); [|apply same_job_refl]. by repeat split.
Qed.

Lemma fixed_replace s k j j' :
  s !! k = Some j → same_job j j' → fixed_columns s (<[k := j']> s).
Proof.
  intros Hk Hsame i j0 Hi. destruct (decide (i = k)) as [->|Hne].
  - rewrite lookup_insert_eq. eexists. split; [done|]. by simplify_eq.
  - rewrite lookup_insert_ne by done. exists j0. split; [done|apply same_job_refl].
Qed.

Lemma fixed_insert s k j' : s !! k = None → fixed_columns s (<[k := j']> s).
Proof.
  intros Hk i j Hi. destruct (decide (i = k)) as [->|Hne]; [congruence|].
  rewrite lookup_insert_ne by done. exists j. split; [done|apply same_job_refl].
Qed.

Lemma create_job_fixed settings k p d job_id now s :
  fixed_columns s (create_job settings k p d job_id now s).2.
Proof.
  unfold create_job.
  destruct (_enforce_job_policy _ _ _); [apply fixed_refl|].
  destruct (_ && has_active_scan_hash _); [apply fixed_refl|].
  destruct (bool_decide (is_Some _)) eqn:Ef; simpl;
    [destruct (_requires_scan_hash_mutex k); apply fixed_refl|].
  destruct (indexed _ && index_conflict _ _);
    [destruct (_requires_scan_hash_mutex k); apply fixed_refl|]. simpl.
  apply bool_decide_eq_false in Ef. apply eq_None_not_Some in Ef.
  eapply fixed_trans; [|by apply fixed_insert].
  destruct (_requires_scan_hash_mutex k); [apply fixed_recover|apply fixed_refl].
Qed.

Lemma claim_fixed settings worker now s :
  fixed_columns s (claim_pending_scan_hash_job settings worker now s).2.
Proof.
  unfold claim_pending_scan_hash_job.
  destruct (negb _); [apply fixed_refl|].
  destruct (candidate _) as [[key j]|] eqn:Ec; [|apply fixed_refl].
  destruct (index_conflict _ _); [apply fixed_refl|].
  rewrite lookup_insert_eq. simpl.
  apply candidate_lookup in Ec as (Hk & _).
  eapply fixed_trans; [apply fixed_recover|].
  by apply (fixed_replace _ key j).
Qed.

Lemma heartbeat_fixed settings job_id worker pr it now s :
  fixed_columns s (heartbeat settings job_id worker pr it now s).2.
Proof.
  unfold heartbeat.
  destruct (negb (Py.nonempty _)); [apply fixed_refl|].
  destruct (s !! job_id) as [job|] eqn:Ej; [|apply fixed_refl].
  destruct (bool_decide (status job = RUNNING)) eqn:Es; simpl; [|apply fixed_refl].
  apply bool_decide_eq_true in Es.
  destruct (match _coerce_utc _ with None => true | Some t => t <=? now end).
  - rewrite Es. simpl. by apply (fixed_replace s job_id job).
  - destruct (_ && _); [apply fixed_refl|].
    destruct (progress_out_of_range _); [apply fixed_refl|].
    destruct (processed_negative _); [apply fixed_refl|]. simpl.
    by apply (fixed_replace s job_id job).
Qed.

Lemma finish_job_fixed job_id worker success message now s :
  fixed_columns s (finish_job job_id worker success message now s).2.
Proof.
  unfold finish_job.
  destruct (negb (Py.nonempty _)); [apply fixed_refl|].
  destruct (s !! job_id) as [job|] eqn:Ej; [|apply fixed_refl].
  destruct (bool_decide (status job = RUNNING)) eqn:Es; simpl; [|apply fixed_refl].
  apply bool_decide_eq_true in Es.
  destruct (negb (bool_decide (worker_id job = _))); [apply fixed_refl|].
  rewrite Es. destruct success; simpl; by apply (fixed_replace s job_id job).
Qed.

Lemma reset_fixed job_id now s :
  fixed_columns s (reset_retryable_job job_id now s).2.
Proof.
  unfold reset_retryable_job.
  destruct (s !! job_id) as [job|] eqn:Ej; [|apply fixed_refl].
  destruct (_enforce_transition _ _); [apply fixed_refl|].
  destruct (indexed _ && index_conflict _ _); [apply fixed_refl|]. simpl.
  by apply (fixed_replace s job_id job).
Qed.

Lemma cancel_fixed job_id message now s :
  fixed_columns s (cancel_job job_id message now s).2.
Proof.
  unfold cancel_job.
  destruct (s !! job_id) as [job|] eqn:Ej; [|apply fixed_refl].
  destruct (_enforce_transition _ _); [apply fixed_refl|]. simpl.
  by apply (fixed_replace s job_id job).
Qed.

Lemma step_fixed s s' : step s s' → fixed_columns s s'.
Proof.
  intros Hstep. destruct Hstep.
  - apply create_job_fixed.
  - apply claim_fixed.
  - apply heartbeat_fixed.
  - apply finish_job_fixed.
  - apply reset_fixed.
  - apply cancel_fixed.
  - apply fixed_recover.
Qed.

(** Only [create_job] adds a row. *)
Definition no_new_row (s s' : Table) : Prop := ∀ i, s !! i = None → s' !! i = None.

Lemma no_new_refl s : no_new_row s s.
Proof. by intros i Hi. Qed.

Lemma no_new_recover now s : no_new_row s (recover_in_session now s).
Proof. intros i Hi. by rewrite recover_lookup, Hi. Qed.

Lemma no_new_replace s k j j' : s !! k = Some j → no_new_row s (<[k := j']> s).
Proof.
  intros Hk i Hi. destruct (decide (i = k)) as [->|Hne]; [congruence|].
  by rewrite lookup_insert_ne.
Qed.

Lemma no_new_trans s1 s2 s3 : no_new_row s1 s2 → no_new_row s2 s3 → no_new_row s1 s3.
Proof. intros H12 H23 i Hi. by apply H23, H12. Qed.

Lemma claim_no_new settings worker now s :
  no_new_row s (claim_pending_scan_hash_job settings worker now s).2.
Proof.
  unfold claim_pending_scan_hash_job.
  destruct (negb _); [apply no_new_refl|].
  destruct (candidate _) as [[key j]|] eqn:Ec; [|apply no_new_refl].
  destruct (index_conflict _ _); [apply no_new_refl|].
  rewrite lookup_insert_eq. simpl.
  apply candidate_lookup in Ec as (Hk & _).
  eapply no_new_trans; [apply no_new_recover|]. by apply (no_new_replace _ key j).
Qed.

Lemma heartbeat_no_new settings job_id worker pr it now s :
  no_new_row s (heartbeat settings job_id worker pr it now s).2.
Proof.
  unfold heartbeat.
  destruct (negb (Py.nonempty _)); [apply no_new_refl|].
  destruct (s !! job_id) as [job|] eqn:Ej; [|apply no_new_refl].
  destruct (bool_decide (status job = RUNNING)) eqn:Es; simpl; [|apply no_new_refl].
  apply bool_decide_eq_true in Es.
  destruct (match _coerce_utc _ with None => true | Some t => t <=? now end).
  - rewrite Es. simpl. by apply (no_new_replace s job_id job).
  - destruct (_ && _); [apply no_new_refl|].
    destruct (progress_out_of_range _); [apply no_new_refl|].
    destruct (processed_negative _); [apply no_new_refl|]. simpl.
    by apply (no_new_replace s job_id job).
Qed.

Lemma finish_job_no_new job_id worker success message now s :
  no_new_row s (finish_job job_id worker success message now s).2.
Proof.
  unfold finish_job.
  destruct (negb (Py.nonempty _)); [apply no_new_refl|].
  destruct (s !! job_id) as [job|] eqn:Ej; [|apply no_new_refl].
  destruct (bool_decide (status job = RUNNING)) eqn:Es; simpl; [|apply no_new_refl].
  apply bool_decide_eq_true in Es.
  destruct (negb (bool_decide (worker_id job = _))); [apply no_new_refl|].
  rewrite Es. destruct success; simpl; by apply (no_new_replace s job_id job).
Qed.

Lemma reset_no_new job_id now s :
  no_new_row s (reset_retryable_job job_id now s).2.
Proof.
  unfold reset_retryable_job.
  destruct (s !! job_id) as [job|] eqn:Ej; [|apply no_new_refl].
  destruct (_enforce_transition _ _); [apply no_new_refl|].
  destruct (indexed _ && index_conflict _ _); [apply no_new_refl|]. simpl.
  by apply (no_new_replace s job_id job).
Qed.

Lemma cancel_no_new job_id message now s :
  no_new_row s (cancel_job job_id message now s).2.
Proof.
  unfold cancel_job.
  destruct (s !! job_id) as [job|] eqn:Ej; [|apply no_new_refl].
  destruct (_enforce_transition _ _); [apply no_new_refl|]. simpl.
  by apply (no_new_replace s job_id job).
Qed.

(** The row that [create_job] adds. *)
Lemma create_job_new settings k p d job_id now s i j' :
  s !! i = None →
  (create_job settings k p d job_id now s).2 !! i = Some j' →
  i = job_id
  ∧ j' = new_job job_id k (default (Config.dry_run settings) d) p now
  ∧ _enforce_job_policy settings k (default (Config.dry_run settings) d) = None
  ∧ (create_job settings k p d job_id now s).1 = ret j'.
Proof.
  intros Hnone. unfold create_job.
  replace (match d with Some d0 => d0 | None => Config.dry_run settings end)
    with (default (Config.dry_run settings) d) by by destruct d.
  destruct (_enforce_job_policy _ _ _) eqn:Ep; [simpl; congruence|].
  destruct (_ && has_active_scan_hash _); [simpl; congruence|].
  destruct (bool_decide (is_Some _) || _) eqn:Ef;
    [destruct (_requires_scan_hash_mutex k); simpl; congruence|].
  simpl. destruct (decide (i = job_id)) as [->|Hne].
  - rewrite lookup_insert_eq. by intros [= <-].
  - rewrite lookup_insert_ne by done.
    destruct (_requires_scan_hash_mutex k); [rewrite recover_lookup|]; rewrite Hnone; done.
Qed.

Lemma enforce_job_policy_None settings k dry :
  _enforce_job_policy settings k dry = None ↔
    (Config.dry_run settings = true → dry = true)
    ∧ (k = DELETE → dry = false → Config.allow_real_delete settings = true).
Proof.
  unfold _enforce_job_policy.
  destruct (Config.dry_run settings), dry, (Config.allow_real_delete settings);
    simpl; try case_bool_decide; simpl; split; try done; try tauto.
  all: try (intros [H1 H2]; first [by specialize (H1 eq_refl) | by specialize (H2 ltac:(done) eq_refl)]).
Qed.

Lemma runs_reachable settings s : runs settings s → reachable s.
Proof.
  induction 1; [apply rtc_refl|..]; (eapply reachable_step; [eassumption|constructor]).
Qed.

Lemma kept_within_policy settings s s' i j :
  fixed_columns s s' → no_new_row s s' →
  (∀ i j, s !! i = Some j → within_policy settings j) →
  s' !! i = Some j → within_policy settings j.
Proof.
  intros Hfixed Hnew IH Hi. destruct (s !! i) as [j0|] eqn:Ej.
  - destruct (Hfixed i j0 Ej) as (j' & Hj' & _ & Hk & Hd & _).
    assert (j' = j) as -> by congruence.
    destruct (IH i j0 Ej) as [H1 H2]. split; rewrite ?Hk, ?Hd; done.
  - by rewrite (Hnew i Ej) in Hi.
Qed.

Lemma runs_within_policy settings s i j :
  runs settings s → s !! i = Some j → within_policy settings j.
Proof.
  intros Hruns. revert i j.
  induction Hruns as [|k p d job_id now s Hs IH|worker now s Hs IH
                      |job_id worker pr it now s Hs IH
                      |job_id worker success message now s Hs IH
                      |job_id now s Hs IH|job_id message now s Hs IH|now s Hs IH];
    intros i j Hi.
  - by rewrite lookup_empty in Hi.
  - destruct (s !! i) as [j0|] eqn:Ej.
    + destruct (create_job_fixed settings k p d job_id now s i j0 Ej)
        as (j' & Hj' & _ & Hk & Hd & _).
      assert (j' = j) as -> by congruence.
      destruct (IH i j0 Ej) as [H1 H2]. split; rewrite ?Hk, ?Hd; done.
    + destruct (create_job_new _ _ _ _ _ _ _ _ _ Ej Hi) as (_ & -> & Hp & _).
      by apply enforce_job_policy_None in Hp.
  - eapply kept_within_policy; [apply claim_fixed|apply claim_no_new|exact IH|exact Hi].
  - eapply kept_within_policy; [apply heartbeat_fixed|apply heartbeat_no_new|exact IH|exact Hi].
  - eapply kept_within_policy; [apply finish_job_fixed|apply finish_job_no_new|exact IH|exact Hi].
  - eapply kept_within_policy; [apply reset_fixed|apply reset_no_new|exact IH|exact Hi].
  - eapply kept_within_policy; [apply cancel_fixed|apply cancel_no_new|exact IH|exact Hi].
  - eapply kept_within_policy; [apply fixed_recover|apply no_new_recover|exact IH|exact Hi].
Qed.

(** X23.  The dry-run policy under one configuration.  In every store the
    coordinator reaches from the empty one, no job is a real run while the
    global dry-run mode is on, and a delete job is a real run only when
    [allow_real_delete] is set: [create_job] stores only jobs that
    [_enforce_job_policy] lets through, and no operation writes [id], [kind],
    [dry_run], [payload] or [created_at] of a job afterwards.  [create_job]
    raises [JobPolicyError] exactly when the effective [dry_run] (the
    argument, or the global setting when there is none) is off while the
    global mode is on, or is off for a delete job with [allow_real_delete]
    unset. *)
Theorem dry_run_policy_kept settings s :
  runs settings s →
  (∀ i j, s !! i = Some j →
     (Config.dry_run settings = true → dry_run j = true)
     ∧ (kind j = DELETE → dry_run j = false → Config.allow_real_delete settings = true))
  ∧ (∀ k p d job_id now,
       (create_job settings k p d job_id now s).1 = raise JobPolicyError
       ↔ default (Config.dry_run settings) d = false
         ∧ (Config.dry_run settings = true
            ∨ (k = DELETE ∧ Config.allow_real_delete settings = false)))
  ∧ (∀ s', step s s' →
       ∀ i j, s !! i = Some j →
         ∃ j', s' !! i = Some j'
               ∧ id j' = id j ∧ kind j' = kind j ∧ dry_run j' = dry_run j
               ∧ payload j' = payload j ∧ created_at j' = created_at j).
Proof.
  intros Hruns. split; [|split].
  - intros i j Hi. by apply (runs_within_policy settings s i j).
  - intros k p d job_id now. unfold create_job.
    replace (match d with Some d0 => d0 | None => Config.dry_run settings end)
      with (default (Config.dry_run settings) d) by by destruct d.
    destruct (_enforce_job_policy settings k (default (Config.dry_run settings) d)) eqn:Ep.
    + assert (r = JobPolicyError) as ->.
      { revert Ep. unfold _enforce_job_policy.
        destruct (_ && _); [congruence|]. destruct (_ && _); congruence. }
      split; [intros _|done].
      assert (¬ ((Config.dry_run settings = true → default (Config.dry_run settings) d = true)
                 ∧ (k = DELETE → default (Config.dry_run settings) d = false →
                    Config.allow_real_delete settings = true))) as Hnot.
      { intros H. apply enforce_job_policy_None in H. rewrite Ep in H. discriminate H. }
      destruct (default (Config.dry_run settings) d); [exfalso; apply Hnot; by split|].
      split; [done|].
      destruct (Config.dry_run settings); [by left|]. right.
      destruct (decide (k = DELETE)) as [->|]; [|exfalso; apply Hnot; by split].
      split; [done|].
      destruct (Config.allow_real_delete settings); [exfalso; apply Hnot; by split|done].
    + apply enforce_job_policy_None in Ep as [H1 H2]. split.
      * unfold raise, ret.
        destruct (_ && has_active_scan_hash _); [simpl; congruence|].
        destruct (bool_decide (is_Some _) || _);
          [destruct (_requires_scan_hash_mutex k); simpl; congruence|].
        simpl. congruence.
      * intros [Hd [Hg|[-> Ha]]].
        -- rewrite (H1 Hg) in Hd. done.
        -- rewrite (H2 eq_refl Hd) in Ha. done.
  - intros s' Hstep i j Hi.
    destruct (step_fixed s s' Hstep i j Hi) as (j' & Hj' & Hsame).
    exists j'. by split.
Qed.

Lemma jobs_three_runs : runs Samples.cfg Samples.jobs_three.
Proof. repeat constructor. Qed.

Lemma dry_run_policy_kept_witness :
  (∀ i j, Samples.jobs_three !! i = Some j →
     (Config.dry_run Samples.cfg = true → dry_run j = true)
     ∧ (kind j = DELETE → dry_run j = false
        → Config.allow_real_delete Samples.cfg = true))
  ∧ (∀ k p d job_id now,
       (create_job Samples.cfg k p d job_id now Samples.jobs_three).1
       = raise JobPolicyError
       ↔ default (Config.dry_run Samples.cfg) d = false
         ∧ (Config.dry_run Samples.cfg = true
            ∨ (k = DELETE ∧ Config.allow_real_delete Samples.cfg = false)))
  ∧ (∀ s', step Samples.jobs_three s' →
       ∀ i j, Samples.jobs_three !! i = Some j →
         ∃ j', s' !! i = Some j'
               ∧ id j' = id j ∧ kind j' = kind j ∧ dry_run j' = dry_run j
               ∧ payload j' = payload j ∧ created_at j' = created_at j).
Proof.
  apply (dry_run_policy_kept Samples.cfg Samples.jobs_three).
  apply jobs_three_runs.
Defined.

(** Under the sample configuration, which is in dry-run mode, a real run is
    refused for every kind and a dry run of a delete job is stored. *)
Example dry_run_policy_sample :
  (create_job Samples.cfg SCAN None (Some false) "job-d" 130 ∅).1 = raise JobPolicyError
  ∧ (create_job Samples.cfg DELETE None (Some false) "job-d" 130 ∅).1 = raise JobPolicyError
  ∧ (dry_run <$> (create_job Samples.cfg DELETE None None "job-d" 130 ∅).2 !! "job-d")
    = Some true.
Proof. vm_compute. done. Qed.

End JobsFacts.

(** ** Thumbnail queue *)

Module ThumbsFacts.
Import SqlFacts Thumbs.

(** The keys of the table: the primary key and the unique [thumb_key]. *)
Definition unique_rows (rows : list Thumbnail) : Prop :=
  NoDup (id <$> rows) ∧ NoDup (thumb_key <$> rows).

(** A failed row whose retry time has come. *)
Definition retry_due (now : Z) (t : Thumbnail) : bool :=
  bool_decide (status t = FAILED)
  && match _coerce_utc (retry_after t) with
     | None => true
     | Some r => r <=? now
     end.

Lemma thumbnail_snapshot_id (t : Thumbnail) : _to_snapshot t = t.
Proof. by destruct t. Qed.

(** *** Looking a key up *)

Lemma select_by_key_Some key rows t :
  select_by_key key rows = Some t → t ∈ rows ∧ thumb_key t = key.
Proof.
  unfold select_by_key. intros H. apply find_some in H as [Hin Hk].
  apply bool_decide_eq_true in Hk. by apply list_elem_of_In in Hin.
Qed.

Lemma select_by_key_None key rows :
  select_by_key key rows = None → key ∉ thumb_key <$> rows.
Proof.
  unfold select_by_key. intros H Hin.
  apply list_elem_of_fmap in Hin as (t & -> & Ht).
  apply list_elem_of_In in Ht.
  pose proof (find_none _ _ H _ Ht) as Hf. simpl in Hf.
  by apply bool_decide_eq_false in Hf.
Qed.

Lemma select_by_key_app_new key rows row :
  select_by_key key rows = None → thumb_key row = key →
  select_by_key key (rows ++ [row]) = Some row.
Proof.
  unfold select_by_key. intros Hn Hk. induction rows as [|a rows IH]; simpl in *.
  - by rewrite bool_decide_eq_true_2.
  - destruct (bool_decide (thumb_key a = key)); [done|]. by apply IH.
Qed.

(** After the flush of a changed row the key finds the changed row. *)
Lemma select_by_key_update key rows e e' :
  select_by_key key rows = Some e → thumb_key e' = key → id e' = id e →
  select_by_key key (update_row e' rows) = Some e'.
Proof.
  unfold select_by_key, update_row. intros Hs Hk Hid.
  induction rows as [|a rows IH]; simpl in *; [done|].
  destruct (bool_decide (id a = id e')) eqn:Ea; simpl.
  - by rewrite bool_decide_eq_true_2.
  - destruct (bool_decide (thumb_key a = key)) eqn:Eb; [|by apply IH].
    injection Hs as ->. rewrite Hid in Ea.
    by rewrite bool_decide_eq_true_2 in Ea.
Qed.

(** *** The keys stay unique *)

Lemma update_row_fmap {B} (f : Thumbnail → B) rows e e' :
  NoDup (id <$> rows) → e ∈ rows → id e' = id e → f e' = f e →
  f <$> update_row e' rows = f <$> rows.
Proof.
  intros Hnd He Hid Hf. unfold update_row. rewrite <- list_fmap_compose.
  apply list_fmap_ext. intros i t Ht. simpl.
  case_bool_decide as Hc; [|done].
  rewrite Hid in Hc. apply list_elem_of_lookup_2 in Ht.
  by rewrite (fmap_inj_on id rows t e Hnd Ht He Hc).
Qed.

Lemma update_row_unique rows e e' :
  unique_rows rows → e ∈ rows → id e' = id e → thumb_key e' = thumb_key e →
  unique_rows (update_row e' rows).
Proof.
  intros [Hi Hk] He Hid Hkey. unfold unique_rows.
  by rewrite !(update_row_fmap _ _ e e').
Qed.

Lemma id_lt_next_id rows t : t ∈ rows → id t < next_id rows.
Proof.
  unfold next_id. induction rows as [|a rows IH]; simpl; intros H.
  - by apply elem_of_nil in H.
  - apply elem_of_cons in H as [->|H]; [lia|]. specialize (IH H). lia.
Qed.

Lemma append_unique rows row :
  unique_rows rows → id row = next_id rows →
  select_by_key (thumb_key row) rows = None →
  unique_rows (rows ++ [row]).
Proof.
  intros [Hi Hk] Hid Hn. unfold unique_rows. rewrite !fmap_app. simpl.
  split; apply NoDup_app; (split; [done|]); (split; [|apply NoDup_singleton]).
  - intros x Hx Hx'. apply list_elem_of_singleton in Hx'. subst x.
    apply list_elem_of_fmap in Hx as (t & Ht & Hin).
    apply id_lt_next_id in Hin. lia.
  - intros x Hx Hx'. apply list_elem_of_singleton in Hx'. subst x.
    by apply select_by_key_None in Hn.
Qed.

Lemma filter_unique (P : Thumbnail → Prop) `{∀ t, Decision (P t)} rows :
  unique_rows rows → unique_rows (filter P rows).
Proof.
  intros [Hi Hk]. split.
  - eapply sublist_NoDup; [exact Hi|]. apply fmap_sublist, sublist_filter.
  - eapply sublist_NoDup; [exact Hk|]. apply fmap_sublist, sublist_filter.
Qed.

Lemma conditional_insert_unique capacity row rows rows' :
  unique_rows rows → id row = next_id rows →
  conditional_insert capacity row rows = inr rows' →
  unique_rows rows'.
Proof.
  unfold conditional_insert. intros Hu Hid.
  destruct (queue_depth rows <? capacity); [|by intros [= <-]].
  destruct (select_by_key _ _) eqn:E; [done|].
  intros [= <-]. by apply append_unique.
Qed.

(** *** The depth of the queue *)

Lemma queue_depth_app rows row :
  queue_depth (rows ++ [row])
  = queue_depth rows + (if bool_decide (status row ∈ [PENDING; RUNNING]) then 1 else 0).
Proof.
  unfold queue_depth. rewrite filter_app, length_app. simpl.
  rewrite filter_cons, filter_nil. case_bool_decide as Hc.
  - rewrite decide_True by done. simpl. lia.
  - rewrite decide_False by done. simpl. lia.
Qed.

(** The conditional insert never takes the queue past the capacity. *)
Lemma conditional_insert_bounded capacity row rows rows' :
  queue_depth rows ≤ capacity →
  conditional_insert capacity row rows = inr rows' →
  queue_depth rows' ≤ capacity.
Proof.
  unfold conditional_insert. intros Hb.
  destruct (queue_depth rows <? capacity) eqn:E; [|by intros [= <-]].
  apply Z.ltb_lt in E.
  destruct (select_by_key _ _); [done|]. intros [= <-].
  rewrite queue_depth_app. case_bool_decide; lia.
Qed.

(** Pruning removes ready and failed rows only: the depth is unchanged. *)
Lemma prune_queue_depth group rows :
  queue_depth (prune_group_thumbnails group rows).2 = queue_depth rows.
Proof.
  unfold prune_group_thumbnails. destruct (negb _); [done|]. simpl.
  unfold queue_depth. f_equal. f_equal.
  induction rows as [|a rows IH]; [done|].
  rewrite !filter_cons.
  destruct (decide (¬ prunable (Py.strip group) a)) as [Hp|Hp].
  - rewrite filter_cons. destruct (decide (status a ∈ [PENDING; RUNNING])); by rewrite IH.
  - rewrite decide_False; [done|].
    intros Hs. apply Hp. intros [_ Hr].
    rewrite !elem_of_cons, !elem_of_nil in Hs, Hr.
    destruct Hs as [Hs|[Hs|[]]]; rewrite Hs in Hr; naive_solver.
Qed.

(** *** Admission *)

(** An existing row answers the request: requeued when its retry is due,
    returned as it is otherwise; nothing is inserted. *)
Lemma enqueue_existing settings r now rows existing :
  select_by_key (key r) rows = Some existing →
  enqueue settings r now rows
  = if retry_due now existing
    then (ret (requeued now existing), update_row (requeued now existing) rows)
    else (ret existing, rows).
Proof.
  intros H. unfold enqueue, retry_due. rewrite H, !thumbnail_snapshot_id. done.
Qed.

(** How the table a request leaves relates to the table it found: when the
    call raises, nothing is committed; when it returns a snapshot, the key
    finds that snapshot, and the table is the old one, or the old one with
    the failed row requeued, or the old one with the new row appended while
    the queue was below the capacity. *)
Lemma enqueue_outcome settings r now rows res rows1 :
  enqueue settings r now rows = (res, rows1) →
  match res with
  | inl _ => rows1 = rows
  | inr snap =>
      select_by_key (key r) rows1 = Some snap
      ∧ (rows1 = rows
         ∨ (∃ existing, existing ∈ rows ∧ retry_due now existing = true
              ∧ snap = requeued now existing ∧ rows1 = update_row snap rows)
         ∨ (select_by_key (thumb_key snap) rows = None
              ∧ id snap = next_id rows ∧ status snap = PENDING
              ∧ queue_depth rows < Config.thumbnail_queue_capacity settings
              ∧ rows1 = (rows ++ [snap])%list))
  end.
Proof.
  destruct (select_by_key (key r) rows) as [existing|] eqn:Ex.
  - rewrite (enqueue_existing _ _ _ _ _ Ex).
    destruct (retry_due now existing) eqn:Edue; intros [= <- <-].
    + split.
      * by apply (select_by_key_update _ _ existing);
          [|apply (select_by_key_Some _ _ _ Ex)|].
      * right. left. exists existing. split; [|done].
        by apply (select_by_key_Some _ _ _ Ex).
    + split; [done|by left].
  - unfold enqueue. rewrite Ex. unfold conditional_insert.
    cbn [thumb_key queued]. rewrite Ex.
    destruct (queue_depth rows <? _) eqn:Ecap.
    + set (row := queued _ _ _ _ _ _ _ _ _).
      rewrite (select_by_key_app_new (key r) rows row Ex eq_refl), thumbnail_snapshot_id.
      intros [= <- <-]. split.
      * by apply select_by_key_app_new.
      * right. right. apply Z.ltb_lt in Ecap. by cbn.
    + rewrite Ex. by intros [= <- <-].
Qed.

Lemma enqueue_unique settings r now rows :
  unique_rows rows → unique_rows (enqueue settings r now rows).2.
Proof.
  intros Hu. destruct (enqueue settings r now rows) as [res rows1] eqn:E.
  apply enqueue_outcome in E. simpl. destruct res as [e|snap]; [by subst|].
  destruct E as [_ [-> | [(existing & Hin & _ & -> & ->) | (Hn & Hid & _ & _ & ->)]]].
  - done.
  - by apply (update_row_unique _ existing).
  - by apply append_unique.
Qed.

Lemma request_thumbnail_unique platform settings file dim fmt now db :
  unique_rows (thumbnails db) →
  unique_rows (request_thumbnail platform settings file dim fmt now db).2.
Proof.
  intros Hu. unfold request_thumbnail.
  destruct (resolve_request _ _ _ _ _ _); [done|]. by apply enqueue_unique.
Qed.

Lemma prune_unique group rows :
  unique_rows rows → unique_rows (prune_group_thumbnails group rows).2.
Proof.
  intros Hu. unfold prune_group_thumbnails. destruct (negb _); [done|].
  by apply filter_unique.
Qed.

(** Every operation of the service keeps the keys of [thumbnails] unique. *)
Lemma step_unique platform settings db db' :
  step platform settings db db' →
  unique_rows (thumbnails db) → unique_rows (thumbnails db').
Proof.
  destruct 1; simpl; intros Hu;
    auto using request_thumbnail_unique, prune_unique.
Qed.

(** *** The claims about the queue *)

(** C6.  The keys of the [thumbnails] table stay unique under every
    operation of the service, so a [thumb_key] names at most one row.  When
    [request_thumbnail] returns a snapshot, it is the one row of the table
    with its key; and a second call with the same arguments, made at any
    time at which that row is not a failed row whose retry is due, returns
    the same snapshot (hence the same row id) and commits the same table: no
    row is inserted and none is changed. *)
Theorem request_thumbnail_idempotent platform settings file dim fmt now db snap rows1 :
  unique_rows (thumbnails db) →
  request_thumbnail platform settings file dim fmt now db = (ret snap, rows1) →
  unique_rows rows1
  ∧ snap ∈ rows1
  ∧ (∀ t, t ∈ rows1 → thumb_key t = thumb_key snap → t = snap)
  ∧ (∀ now', retry_due now' snap = false →
       request_thumbnail platform settings file dim fmt now' (with_thumbnails rows1 db)
       = (ret snap, rows1))
  ∧ (∀ db', step platform settings (with_thumbnails rows1 db) db' →
       unique_rows (thumbnails db')).
Proof.
  intros Hu Hreq.
  assert (unique_rows rows1) as Hu1.
  { pose proof (request_thumbnail_unique platform settings file dim fmt now db Hu) as H.
    by rewrite Hreq in H. }
  unfold request_thumbnail in *.
  cbn [with_thumbnails library_files library_roots thumbnails resolve_request].
  change (resolve_request platform settings file dim fmt (with_thumbnails rows1 db))
    with (resolve_request platform settings file dim fmt db).
  destruct (resolve_request platform settings file dim fmt db) as [e|r]; [done|].
  apply enqueue_outcome in Hreq as [Hsel _].
  pose proof (select_by_key_Some _ _ _ Hsel) as [Hin Hkey].
  split; [done|]. split; [done|]. split; [|split].
  - intros t Ht Hk. destruct Hu1 as [_ Hk1].
    by apply (fmap_inj_on thumb_key rows1).
  - intros now' Hdue. cbn. by rewrite (enqueue_existing _ _ _ _ _ Hsel), Hdue.
  - intros db' Hstep. by apply (step_unique _ _ _ _ Hstep).
Qed.

(** A request that does not requeue a failed row keeps the queue within the
    capacity: the insert is gated by the count in the same statement. *)
Lemma request_thumbnail_bounded_without_requeue platform settings file dim fmt now db :
  queue_depth (thumbnails db) ≤ Config.thumbnail_queue_capacity settings →
  (∀ t, t ∈ thumbnails db → retry_due now t = false) →
  queue_depth (request_thumbnail platform settings file dim fmt now db).2
  ≤ Config.thumbnail_queue_capacity settings.
Proof.
  intros Hb Hnone. unfold request_thumbnail.
  destruct (resolve_request _ _ _ _ _ _) as [e|r]; [done|].
  destruct (enqueue settings r now (thumbnails db)) as [res rows1] eqn:E.
  apply enqueue_outcome in E. simpl. destruct res as [e|snap]; [by subst|].
  destruct E as [_ [-> | [(existing & Hin & Hdue & _) | (_ & _ & Hs & Hcap & ->)]]].
  - done.
  - by rewrite (Hnone _ Hin) in Hdue.
  - rewrite queue_depth_app. case_bool_decide; lia.
Qed.

(** C2 at the sample store: the queue holds one pending row, which is the
    capacity; the row of file 1 has failed and its retry is due at 100.  The
    request for file 1 puts that row back to pending without looking at the
    depth of the queue, which is then 2. *)
Lemma requeue_exceeds_capacity :
  Config.thumbnail_queue_capacity Samples.cfg = 1
  ∧ queue_depth (thumbnails Samples.thumbs_full) = 1
  ∧ queue_depth
      (request_thumbnail Samples.platform Samples.cfg 1 (Some 128) (Some "jpeg") 100
         Samples.thumbs_full).2 = 2.
Proof. by vm_compute. Qed.

Lemma request_thumbnail_idempotent_witness :
  ∃ snap rows1,
    request_thumbnail Samples.platform Samples.cfg 1 (Some 128) (Some "jpeg") 10
      Samples.thumbs_empty = (ret snap, rows1)
    ∧ unique_rows rows1
    ∧ snap ∈ rows1
    ∧ (∀ t, t ∈ rows1 → thumb_key t = thumb_key snap → t = snap)
    ∧ (∀ now', retry_due now' snap = false →
         request_thumbnail Samples.platform Samples.cfg 1 (Some 128) (Some "jpeg") now'
           (with_thumbnails rows1 Samples.thumbs_empty)
         = (ret snap, rows1))
    ∧ (∀ db', step Samples.platform Samples.cfg
                (with_thumbnails rows1 Samples.thumbs_empty) db' →
         unique_rows (thumbnails db')).
Proof.
  do 2 eexists. split; [reflexivity|].
  apply (request_thumbnail_idempotent Samples.platform Samples.cfg 1 (Some 128)
           (Some "jpeg") 10 Samples.thumbs_empty).
  - split; apply NoDup_nil_2.
  - reflexivity.
Defined.

Lemma request_thumbnail_bounded_without_requeue_witness :
  queue_depth
    (request_thumbnail Samples.platform Samples.cfg 2 (Some 128) (Some "jpeg") 30
       Samples.thumbs_one).2
  ≤ Config.thumbnail_queue_capacity Samples.cfg.
Proof.
  apply request_thumbnail_bounded_without_requeue.
  - by vm_compute.
  - apply Forall_forall.
    apply (bool_decide_unpack
             (Forall (λ t, retry_due 30 t = false) (thumbnails Samples.thumbs_one))).
    vm_compute. reflexivity.
Defined.

(** *** Pruning a duplicate group *)

Lemma filter_nothing {A} (P : A → Prop) `{∀ x, Decision (P x)} (l : list A) :
  (∀ x, x ∈ l → ¬ P x) → filter P l = [].
Proof.
  induction l as [|a l IH]; intros Hl; [done|].
  rewrite filter_cons, decide_False by (apply Hl, list_elem_of_here).
  apply IH. intros x Hx. by apply Hl, list_elem_of_further.
Qed.

Lemma filter_everything {A} (P : A → Prop) `{∀ x, Decision (P x)} (l : list A) :
  (∀ x, x ∈ l → P x) → filter P l = l.
Proof.
  induction l as [|a l IH]; intros Hl; [done|].
  rewrite filter_cons, decide_True by (apply Hl, list_elem_of_here).
  f_equal. apply IH. intros x Hx. by apply Hl, list_elem_of_further.
Qed.

Lemma filter_split_length {A} (P : A → Prop) `{∀ x, Decision (P x)} (l : list A) :
  (length (filter P l) + length (filter (λ x, ¬ P x) l) = length l)%nat.
Proof.
  induction l as [|a l IH]; [done|]. rewrite !filter_cons.
  destruct (decide (P a)).
  - rewrite decide_False by tauto. simpl. lia.
  - rewrite decide_True by done. simpl. lia.
Qed.

(** X13.  [prune_group_thumbnails] with a blank group key raises
    [ThumbnailCleanupError] and deletes nothing.  Otherwise it deletes
    exactly the ready and failed rows whose [group_key] is the stripped
    argument and returns their number: the rows kept are the other rows, in
    their order, so pending and running rows, rows of other groups and rows
    with no group stay, and the depth of the queue is unchanged.  A second
    call finds nothing to delete. *)
Theorem prune_group_thumbnails_outcome group rows :
  let out := prune_group_thumbnails group rows in
  (Py.strip group = "" → out = (raise ThumbnailCleanupError, rows))
  ∧ (Py.strip group ≠ "" →
     ∃ deleted, out = (ret deleted, out.2)
       ∧ out.2 `sublist_of` rows
       ∧ (∀ t, t ∈ out.2 ↔
            t ∈ rows ∧ ¬ (group_key t = Some (Py.strip group)
                          ∧ status t ∈ [READY; FAILED]))
       ∧ deleted = Z.of_nat (length rows) - Z.of_nat (length out.2)
       ∧ queue_depth out.2 = queue_depth rows
       ∧ prune_group_thumbnails group out.2 = (ret 0, out.2)).
Proof.
  intros out. subst out. unfold prune_group_thumbnails.
  destruct (Py.strip group) as [|c g] eqn:Eg; simpl; [by split|].
  split; [done|]. intros _. eexists. split; [done|].
  split; [apply sublist_filter|].
  split; [intros t; rewrite list_elem_of_filter; unfold prunable; tauto|].
  split.
  { pose proof (filter_split_length (prunable (String c g)) rows). lia. }
  split.
  { pose proof (prune_queue_depth group rows) as H.
    unfold prune_group_thumbnails in H. by rewrite Eg in H. }
  rewrite (filter_nothing (prunable (String c g))).
  - simpl. f_equal. apply filter_everything.
    intros t Ht. by apply list_elem_of_filter in Ht as [? _].
  - intros t Ht. by apply list_elem_of_filter in Ht as [? _].
Qed.

(** *** Scheduling the cleanup of a group *)

(** The keys of [thumbnail_cleanup_jobs]: the primary key and the unique
    [group_key]. *)
Definition unique_cleanups (rows : list ThumbnailCleanupJob) : Prop :=
  NoDup (cleanup_id <$> rows) ∧ NoDup (cleanup_group_key <$> rows).

Lemma cleanup_id_lt_next rows r : r ∈ rows → cleanup_id r < next_cleanup_id rows.
Proof.
  unfold next_cleanup_id. induction rows as [|a rows IH]; simpl; intros H.
  - by apply elem_of_nil in H.
  - apply elem_of_cons in H as [->|H]; [lia|]. specialize (IH H). lia.
Qed.

Lemma find_cleanup_Some g rows r :
  List.find (λ r, bool_decide (cleanup_group_key r = g)) rows = Some r →
  r ∈ rows ∧ cleanup_group_key r = g.
Proof.
  intros H. apply find_some in H as [Hin Hk].
  apply bool_decide_eq_true in Hk. by apply list_elem_of_In in Hin.
Qed.

Lemma find_cleanup_None g rows :
  List.find (λ r, bool_decide (cleanup_group_key r = g)) rows = None →
  ∀ r, r ∈ rows → cleanup_group_key r ≠ g.
Proof.
  intros H r Hr. apply list_elem_of_In in Hr.
  pose proof (find_none _ _ H _ Hr) as Hf. simpl in Hf.
  by apply bool_decide_eq_false in Hf.
Qed.

(** The flush of a changed cleanup row, by primary key. *)
Lemma cleanup_update_elem rows r record x :
  NoDup (cleanup_id <$> rows) → r ∈ rows → cleanup_id record = cleanup_id r →
  x ∈ ((λ x, if bool_decide (cleanup_id x = cleanup_id r) then record else x) <$> rows)
  ↔ x = record ∨ (x ∈ rows ∧ x ≠ r).
Proof.
  intros Hnd Hr Hid. rewrite list_elem_of_fmap. split.
  - intros (y & -> & Hy). case_bool_decide as Hc; [by left|].
    right. split; [done|]. by intros ->.
  - intros [->|[Hx Hne]].
    + exists r. by rewrite bool_decide_eq_true_2.
    + exists x. split; [|done]. rewrite bool_decide_eq_false_2; [done|].
      intros Hc. apply Hne. by apply (fmap_inj_on cleanup_id rows).
Qed.

Lemma cleanup_update_fmap {B} (f : ThumbnailCleanupJob → B) rows r record :
  NoDup (cleanup_id <$> rows) → r ∈ rows → f record = f r →
  f <$> ((λ x, if bool_decide (cleanup_id x = cleanup_id r) then record else x) <$> rows)
  = f <$> rows.
Proof.
  intros Hnd Hr Hf. rewrite <- list_fmap_compose.
  apply list_fmap_ext. intros i t Ht. simpl.
  case_bool_decide as Hc; [|done].
  apply list_elem_of_lookup_2 in Ht.
  by rewrite (fmap_inj_on cleanup_id rows t r Hnd Ht Hr Hc).
Qed.


(** *** Reading a thumbnail back *)

(** X15.  A call of [request_thumbnail] that raises leaves the [thumbnails]
    table as it was.  When it returns a snapshot, [get_thumbnail] with the
    snapshot's [thumb_key] on the store committed returns the same
    snapshot; the table committed is the old one, or the old one with the
    failed row requeued, or the old one with one pending row appended while
    fewer than [thumbnail_queue_capacity] rows were pending or running.
    [get_thumbnail] with a key that no row has raises
    [ThumbnailNotFoundError]. *)
Theorem get_thumbnail_after_request platform settings file dim fmt now db :
  let out := request_thumbnail platform settings file dim fmt now db in
  (∀ e, out.1 = raise e → out.2 = thumbnails db)
  ∧ (∀ snap, out.1 = ret snap →
       get_thumbnail (thumb_key snap) (with_thumbnails out.2 db) = ret snap
       ∧ (out.2 = thumbnails db
          ∨ (∃ existing, existing ∈ thumbnails db ∧ retry_due now existing = true
               ∧ snap = requeued now existing
               ∧ out.2 = update_row snap (thumbnails db))
          ∨ (status snap = PENDING
             ∧ queue_depth (thumbnails db) < Config.thumbnail_queue_capacity settings
             ∧ out.2 = (thumbnails db ++ [snap])%list)))
  ∧ (∀ key, key ∉ thumb_key <$> out.2 →
       get_thumbnail key (with_thumbnails out.2 db) = raise ThumbnailNotFoundError).
Proof.
  intros out. subst out. unfold request_thumbnail.
  split; [|split].
  - intros e. destruct (resolve_request _ _ _ _ _ _) as [e'|r]; [done|].
    destruct (enqueue settings r now (thumbnails db)) as [res rows1] eqn:E.
    apply enqueue_outcome in E. simpl. by intros ->.
  - intros snap. destruct (resolve_request _ _ _ _ _ _) as [e'|r]; [done|].
    destruct (enqueue settings r now (thumbnails db)) as [res rows1] eqn:E.
    apply enqueue_outcome in E. simpl. intros ->. destruct E as [Hs Hcases].
    split.
    + unfold get_thumbnail. simpl.
      destruct (select_by_key_Some _ _ _ Hs) as [_ ->].
      by rewrite Hs, thumbnail_snapshot_id.
    + destruct Hcases as [?|[?|(_ & _ & ? & ? & ?)]]; auto.
  - intros key Hkey. unfold get_thumbnail. simpl.
    destruct (select_by_key key _) as [t|] eqn:E; [|done].
    apply select_by_key_Some in E as [Hin <-].
    exfalso. apply Hkey. by apply list_elem_of_fmap_2.
Qed.
(** *** Further theorems at the sample stores *)

(** The failed thumbnail of the group is deleted, and only once. *)
Example prune_group_thumbnails_sample :
  (λ t, (group_key t, status t)) <$> Samples.thumbs_grouped = [(Some "sha256:0a0b", FAILED)]
  ∧ prune_group_thumbnails " sha256:0a0b " Samples.thumbs_grouped = (ret 1, [])
  ∧ prune_group_thumbnails "sha256:0a0c" Samples.thumbs_grouped
    = (ret 0, Samples.thumbs_grouped).
Proof. vm_compute. done. Qed.


(** The second request resets the job of the group instead of adding one. *)
Example schedule_group_cleanup_sample :
  (λ r, (cleanup_id r, cleanup_group_key r, execute_after r, cleanup_created_at r))
    <$> (schedule_group_cleanup 600 " sha256:0a0b " (Some 5) 20 Samples.cleanups_one).2
  = [(1, "sha256:0a0b", 25, 10)].
Proof. reflexivity. Qed.


(** *** The metrics *)

Lemma count_where_split {A} (p q r : A → bool) (rows : list A) :
  (∀ x, p x = q x || r x) → (∀ x, q x && r x = false) →
  count_where p rows = count_where q rows + count_where r rows.
Proof.
  intros Hpq Hdisj. unfold count_where.
  induction rows as [|x rows IH]; [done|].
  rewrite !filter_cons. specialize (Hpq x). specialize (Hdisj x).
  destruct (q x) eqn:Eq, (r x) eqn:Er; simpl in *; try done;
    repeat (destruct (decide _) as [|]; try congruence); simpl; lia.
Qed.

Lemma count_where_le {A} (p q : A → bool) (rows : list A) :
  (∀ x, p x = true → q x = true) → count_where p rows ≤ count_where q rows.
Proof.
  intros Hpq. unfold count_where.
  induction rows as [|x rows IH]; [done|].
  rewrite !filter_cons. specialize (Hpq x).
  destruct (decide (p x = true)) as [Hp|]; [rewrite decide_True by auto; simpl; lia|].
  destruct (decide (q x = true)); simpl; lia.
Qed.

Lemma count_where_ext {A} (p q : A → bool) (rows : list A) :
  (∀ x, p x = q x) → count_where p rows = count_where q rows.
Proof.
  intros Hpq. unfold count_where. f_equal. f_equal. apply list_filter_iff.
  intros x. by rewrite Hpq.
Qed.

Lemma count_where_0 {A} (p : A → bool) (rows : list A) :
  count_where p rows = 0 ↔ filter (λ x, p x = true) rows = [].
Proof.
  unfold count_where. destruct (filter _ rows); simpl; split; try done; lia.
Qed.

Lemma min_execute_after_None rows : min_execute_after rows = None ↔ rows = [].
Proof. by destruct rows. Qed.

Lemma min_execute_after_Some rows m :
  min_execute_after rows = Some m →
  (∃ c, c ∈ rows ∧ execute_after c = m) ∧ ∀ c, c ∈ rows → m ≤ execute_after c.
Proof.
  revert m. induction rows as [|c rows IH]; intros m; [done|].
  cbn [min_execute_after foldr]. fold (min_execute_after rows).
  destruct (min_execute_after rows) as [m'|] eqn:Em; intros [= <-].
  - destruct (IH m' eq_refl) as [(c' & Hc' & Hm') Hle]. split.
    + destruct (Z.min_spec (execute_after c) m') as [[_ ->]|[_ ->]].
      * exists c. split; [apply list_elem_of_here|done].
      * exists c'. split; [by apply list_elem_of_further|done].
    + intros x Hx. apply elem_of_cons in Hx as [->|Hx]; [lia|].
      specialize (Hle x Hx). lia.
  - apply min_execute_after_None in Em as ->. split.
    + exists c. split; [apply list_elem_of_here|done].
    + intros x Hx. apply elem_of_cons in Hx as [->|Hx]; [lia|].
      by apply elem_of_nil in Hx.
Qed.


(** The sample queue holds one failed row, due for a retry at once, and the
    cleanup scheduled at 10 for 610 is 90 seconds late at 700. *)
Example get_metrics_sample :
  let m := get_metrics 700
             {| library_files := ∅; library_roots := ∅;
                thumbnails := Samples.thumbs_grouped;
                cleanup_jobs := Samples.cleanups_one |} in
  (metrics_queue_depth m, retry_backlog m, retry_ready m,
   cleanup_pending m, cleanup_overdue m, cleanup_max_lag_seconds m)
  = (0, 0, 1, 1, 1, 90).
Proof. vm_compute. reflexivity. Qed.


(** *** The source of a queued thumbnail *)

Lemma validate_library_relative_path_ret raw_path rel :
  validate_library_relative_path raw_path = ret rel →
  rel = raw_path
  ∧ String.prefix "/" raw_path = false
  ∧ (".." ∉ Py.path_parts raw_path)
  ∧ Py.contains "~" raw_path = false
  ∧ Py.contains "$" raw_path = false.
Proof.
  unfold validate_library_relative_path.
  destruct (String.prefix "/" raw_path); [done|].
  case_bool_decide; [done|].
  destruct (Py.contains "~" raw_path); [done|].
  destruct (Py.contains "$" raw_path); [done|].
  by intros [= <-].
Qed.

Lemma validate_source_path_None platform settings root relative :
  _validate_source_path platform settings root relative = None →
  validate_library_relative_path relative = ret relative.
Proof.
  unfold _validate_source_path.
  destruct (_ && _); [done|].
  destruct (validate_library_relative_path relative) as [e|rel] eqn:Ev; [done|].
  apply validate_library_relative_path_ret in Ev as [-> _]. done.
Qed.

Lemma normalize_dimension_ret settings requested d :
  _normalize_dimension settings requested = ret d →
  d = default (Config.thumbnail_max_dimension settings) requested
  ∧ d ≤ Config.thumbnail_max_dimension settings
  ∧ (is_Some requested → 1 ≤ d).
Proof.
  unfold _normalize_dimension. destruct requested as [r|].
  - destruct (Z.leb_spec r 0); [done|].
    destruct (Z.ltb_spec (Config.thumbnail_max_dimension settings) r); [done|].
    intros [= <-]. simpl. repeat split; [done|]. intros _. lia.
  - intros [= <-]. simpl. repeat split; [lia|]. by intros [? ?].
Qed.

Lemma update_row_length row rows : length (update_row row rows) = length rows.
Proof. unfold update_row. apply length_fmap. Qed.

(** X26.  [request_thumbnail] validates its source before it looks at the
    queue.  For a file id the library does not hold, or a file marked
    missing, it raises and writes nothing, also when a thumbnail of the file
    is in the table.  When it returns a snapshot, the file exists and is not
    missing, its library root exists and lies under the libraries root, its
    relative path is not absolute and holds no [..] part, no [~] and no [$],
    its extension is one of an image or a video, the format is one of the
    two supported, and the dimension is the one asked for, between 1 and
    [thumbnail_max_dimension], or that limit when none is asked for; the
    snapshot is the row of the key derived from these.  A row that the call
    appends is pending and carries these values, the size and the
    modification time of the file and the output path derived from the
    key. *)
Theorem request_thumbnail_validates platform settings file dim fmt now db :
  let out := request_thumbnail platform settings file dim fmt now db in
  (library_files db !! file = None → ∃ e, out = (raise e, thumbnails db))
  ∧ (∀ it, library_files db !! file = Some it → is_missing it = true →
       ∃ e, out = (raise e, thumbnails db))
  ∧ (∀ snap, out.1 = ret snap →
       ∃ it root f d m,
         library_files db !! file = Some it
         ∧ is_missing it = false
         ∧ library_roots db !! library_id it = Some root
         ∧ _validate_source_path platform settings (root_path root) (relative_path it) = None
         ∧ String.prefix "/" (relative_path it) = false
         ∧ (".." ∉ Py.path_parts (relative_path it))
         ∧ Py.contains "~" (relative_path it) = false
         ∧ Py.contains "$" (relative_path it) = false
         ∧ _normalize_format settings fmt = ret f
         ∧ d = default (Config.thumbnail_max_dimension settings) dim
         ∧ d ≤ Config.thumbnail_max_dimension settings
         ∧ (is_Some dim → 1 ≤ d)
         ∧ _infer_media_type (relative_path it) = ret m
         ∧ Py.lower (Py.path_suffix (relative_path it))
             ∈ (_IMAGE_EXTENSIONS ++ _VIDEO_EXTENSIONS)%list
         ∧ thumb_key snap = _build_thumb_key platform it d f
         ∧ (out.2 = (thumbnails db ++ [snap])%list →
            snap = queued (next_id (thumbnails db)) (_build_thumb_key platform it d f) it
                     (_build_group_key it) m f d
                     (_build_output_relpath (_build_thumb_key platform it d f) f) now)).
Proof.
  intros out. unfold out, request_thumbnail, resolve_request.
  split; [|split].
  - intros Hnone.
    destruct (_normalize_format settings fmt); [by eexists|].
    destruct (_normalize_dimension settings dim); [by eexists|].
    rewrite Hnone. by eexists.
  - intros it Hit Hmissing.
    destruct (_normalize_format settings fmt); [by eexists|].
    destruct (_normalize_dimension settings dim); [by eexists|].
    rewrite Hit, Hmissing. by eexists.
  - intros snap.
    destruct (_normalize_format settings fmt) as [|f] eqn:Ef; [done|].
    destruct (_normalize_dimension settings dim) as [|d] eqn:Ed; [done|].
    destruct (library_files db !! file) as [it|] eqn:Eit; [|done].
    destruct (is_missing it) eqn:Emiss; [done|].
    destruct (library_roots db !! library_id it) as [root|] eqn:Eroot; [|done].
    destruct (_validate_source_path _ _ _ _) eqn:Epath; [done|].
    destruct (_infer_media_type (relative_path it)) as [|m] eqn:Em; [done|].
    cbn [ret]. set (r := {| item := it |}). intros Hret.
    destruct (enqueue settings r now (thumbnails db)) as [res rows1] eqn:Eq.
    simpl in Hret. subst res.
    pose proof (enqueue_outcome _ _ _ _ _ _ Eq) as [Hsel Hcase]. simpl in Hsel, Hcase.
    apply select_by_key_Some in Hsel as [_ Hkey].
    destruct (validate_library_relative_path_ret _ _ (validate_source_path_None _ _ _ _ Epath))
      as (_ & Habs & Hparts & Htilde & Hdollar).
    destruct (normalize_dimension_ret _ _ _ Ed) as (Hd & Hmax & Hmin).
    exists it, root, f, d, m. repeat (split; [done|]).
    split.
    { revert Em. unfold _infer_media_type. rewrite elem_of_app.
      repeat case_bool_decide; try done; auto. }
    split; [done|]. cbn [snd]. intros Happ.
    revert Eq. unfold enqueue. cbn [key r].
    destruct (select_by_key (_build_thumb_key platform it d f) (thumbnails db))
      as [existing|] eqn:Ex.
    + destruct (_ && _); intros [= <- <-]; apply (f_equal length) in Happ;
        rewrite ?update_row_length, length_app in Happ; simpl in Happ; lia.
    + unfold conditional_insert. cbn [thumb_key queued]. rewrite Ex.
      destruct (queue_depth (thumbnails db) <? _).
      * cbn [item group media normalized_format normalized_dimension relpath r].
        set (row := queued _ _ _ _ _ _ _ _ _).
        rewrite (select_by_key_app_new _ (thumbnails db) row Ex eq_refl), thumbnail_snapshot_id.
        by intros [= <- _].
      * rewrite Ex. done.
Qed.

(** At the sample store: the row queued for file 1, and the refusals of an
    unknown file, of a dimension beyond the limit and of a format that is
    not supported. *)
Example request_thumbnail_validates_sample :
  sum_map (λ e : Raised, e)
    (λ s : ThumbnailSnapshot, (file_id s, status s, media_type s, format s, max_dimension s))
    (request_thumbnail Samples.platform Samples.cfg 1 (Some 128) (Some " JPEG ") 10
       Samples.thumbs_empty).1
  = inr (1, PENDING, IMAGE, JPEG, 128)
  ∧ (request_thumbnail Samples.platform Samples.cfg 9 None None 10 Samples.thumbs_empty).1
    = raise ThumbnailNotFoundError
  ∧ (request_thumbnail Samples.platform Samples.cfg 1 (Some 257) None 10
       Samples.thumbs_empty).1
    = raise ThumbnailPolicyError
  ∧ (request_thumbnail Samples.platform Samples.cfg 1 None (Some "png") 10
       Samples.thumbs_empty).1
    = raise ThumbnailPolicyError.
Proof. vm_compute. done. Qed.

End ThumbsFacts.

(** ** WAL maintenance scheduler *)

Module WalFacts.
Import Sql SqlFacts Wal.

(** [a] is more recent than [b] in the order [created_at DESC, id DESC]. *)
Definition more_recent (a b : WalMaintenanceJob) : Prop :=
  created_at b < created_at a ∨ (created_at a = created_at b ∧ id b < id a).

Lemma created_desc_spec a b : created_desc a b = true ↔ more_recent a b.
Proof.
  unfold created_desc, more_recent.
  rewrite orb_true_iff, andb_true_iff, !Z.ltb_lt, Z.eqb_eq. done.
Qed.

Lemma wal_snapshot_id (r : WalMaintenanceJob) : _to_snapshot r = r.
Proof. by destruct r. Qed.

Lemma created_desc_asym a b : created_desc a b = true → created_desc b a = false.
Proof.
  rewrite created_desc_spec, <- not_true_iff_false, created_desc_spec.
  unfold more_recent. lia.
Qed.

Lemma created_desc_trans a b c :
  created_desc a b = false → created_desc b c = false → created_desc a c = false.
Proof.
  rewrite <- !not_true_iff_false, !created_desc_spec. unfold more_recent. lia.
Qed.

(** The query for the active row returns the most recent active row. *)
Lemma select_active_Some rows top :
  select_active rows = Some top →
  top ∈ rows ∧ is_active top
  ∧ ∀ r, r ∈ rows → is_active r → ¬ more_recent r top.
Proof.
  unfold select_active. intros H.
  pose proof (head_order_by_elem _ _ _ H) as Hin.
  apply list_elem_of_filter in Hin as [Hact Hin].
  repeat split; [done|done|].
  intros r Hr Ha. rewrite <- created_desc_spec, not_true_iff_false.
  apply (head_order_by_first created_desc (filter is_active rows));
    [apply created_desc_asym|apply created_desc_trans|done|].
  by apply list_elem_of_filter.
Qed.

Lemma select_active_is_Some rows r :
  r ∈ rows → is_active r → is_Some (select_active rows).
Proof.
  intros Hr Ha. apply head_order_by_is_Some.
  intros Hnil. assert (r ∈ filter is_active rows) as Hin by by apply list_elem_of_filter.
  rewrite Hnil in Hin. by apply elem_of_nil in Hin.
Qed.

(** C8.  When the mode normalises and passes the truncate policy, and some
    row is pending, running or retryable: [request_checkpoint] returns the
    snapshot of an active row of the table that no active row is more recent
    than in the order [created_at DESC, id DESC], and commits the table
    unchanged; this for every mode, reason, requester and value of [force]. *)
Theorem request_checkpoint_coalesces settings mode reason_arg requested_by_arg
    force now rows normalized_mode r :
  _normalize_mode settings mode = ret normalized_mode →
  ¬ (normalized_mode = TRUNCATE ∧ Config.wal_checkpoint_allow_truncate settings = false) →
  r ∈ rows →
  status r ∈ [PENDING; RUNNING; RETRYABLE] →
  ∃ top,
    request_checkpoint settings mode reason_arg requested_by_arg force now rows
      = (ret top, rows)
    ∧ top ∈ rows
    ∧ status top ∈ [PENDING; RUNNING; RETRYABLE]
    ∧ ∀ other, other ∈ rows → status other ∈ [PENDING; RUNNING; RETRYABLE] →
        created_at other < created_at top
        ∨ (created_at other = created_at top ∧ id other ≤ id top).
Proof.
  intros Hmode Hpol Hr Hact.
  destruct (select_active_is_Some rows r Hr Hact) as [top Htop].
  exists top. unfold request_checkpoint. rewrite Hmode. unfold ret at 1. cbv iota beta.
  assert (bool_decide (normalized_mode = TRUNCATE)
          && negb (Config.wal_checkpoint_allow_truncate settings) = false) as ->.
  { apply not_true_iff_false. rewrite andb_true_iff, bool_decide_eq_true, negb_true_iff.
    done. }
  rewrite Htop, wal_snapshot_id.
  apply select_active_Some in Htop as (Hin & Ha & Hmax).
  repeat split; [done|done|].
  intros other Ho Hoa. specialize (Hmax other Ho Hoa).
  unfold more_recent in Hmax. lia.
Qed.

Lemma request_checkpoint_coalesces_witness :
  ∃ top,
    request_checkpoint Samples.cfg (Some " Passive ") None (Some "api") true 100
      Samples.wal_rows = (ret top, Samples.wal_rows)
    ∧ top ∈ Samples.wal_rows
    ∧ status top ∈ [PENDING; RUNNING; RETRYABLE]
    ∧ ∀ other, other ∈ Samples.wal_rows →
        status other ∈ [PENDING; RUNNING; RETRYABLE] →
        created_at other < created_at top
        ∨ (created_at other = created_at top ∧ id other ≤ id top).
Proof.
  apply (request_checkpoint_coalesces Samples.cfg (Some " Passive ") None (Some "api")
           true 100 Samples.wal_rows PASSIVE (Samples.wal_row 2 RETRYABLE 20)).
  - reflexivity.
  - intros [H _]. discriminate H.
  - apply list_elem_of_further, list_elem_of_here.
  - apply list_elem_of_further, list_elem_of_further, list_elem_of_here.
Defined.

(** At the sample table the row returned is the one with id 3. *)
Example request_checkpoint_sample :
  (request_checkpoint Samples.cfg (Some " Passive ") None (Some "api") true 100
     Samples.wal_rows).1 = ret (Samples.wal_row 3 PENDING 20).
Proof. reflexivity. Qed.

(** *** One request at a time *)

Lemma select_active_None rows :
  select_active rows = None → ∀ r, r ∈ rows → ¬ is_active r.
Proof.
  intros H r Hr Ha. destruct (select_active_is_Some rows r Hr Ha) as [? ?]. congruence.
Qed.

Lemma filter_active_nil rows :
  (∀ r, r ∈ rows → ¬ is_active r) → filter is_active rows = [].
Proof.
  induction rows as [|a rows IH]; intros Hl; [done|].
  rewrite filter_cons, decide_False by (apply Hl, list_elem_of_here).
  apply IH. intros x Hx. by apply Hl, list_elem_of_further.
Qed.

Lemma wal_id_lt_next rows r : r ∈ rows → id r < next_id rows.
Proof.
  unfold next_id. induction rows as [|a rows IH]; simpl; intros H.
  - by apply elem_of_nil in H.
  - apply elem_of_cons in H as [->|H]; [lia|]. specialize (IH H). lia.
Qed.

(** What [request_checkpoint] does once the mode is accepted. *)
Lemma request_checkpoint_accepted settings mode reason_arg requested_by_arg force
    now rows normalized_mode :
  _normalize_mode settings mode = ret normalized_mode →
  ¬ (normalized_mode = TRUNCATE ∧ Config.wal_checkpoint_allow_truncate settings = false) →
  request_checkpoint settings mode reason_arg requested_by_arg force now rows
  = match select_active rows with
    | Some active => (ret active, rows)
    | None =>
        if negb force
           && match select_latest_completed rows with
              | Some latest_completed =>
                  match finished_at latest_completed with
                  | Some t => now <? t + Config.wal_checkpoint_min_interval_seconds settings
                  | None => false
                  end
              | None => false
              end
        then (raise WalMaintenanceConflictError, rows)
        else
          let row :=
            {| id := next_id rows;
               requested_mode := normalized_mode;
               status := PENDING;
               requested_by := Some (requester requested_by_arg);
               reason := reason_arg;
               execute_after := now;
               retry_count := 0;
               retry_after := Some now;
               worker_id := None;
               worker_heartbeat_at := None;
               lease_expires_at := None;
               checkpoint_busy := None;
               checkpoint_log_frames := None;
               checkpointed_frames := None;
               error_code := None;
               error_message := None;
               created_at := now;
               updated_at := now;
               started_at := None;
               finished_at := None |} in
          (ret row, (rows ++ [row])%list)
    end.
Proof.
  intros Hmode Hpol. unfold request_checkpoint.
  rewrite Hmode. unfold ret at 1. cbv iota beta.
  assert (bool_decide (normalized_mode = TRUNCATE)
          && negb (Config.wal_checkpoint_allow_truncate settings) = false) as ->.
  { apply not_true_iff_false. rewrite andb_true_iff, bool_decide_eq_true, negb_true_iff.
    done. }
  destruct (select_active rows) as [active|]; [by rewrite wal_snapshot_id|].
  destruct force; simpl; [done|].
  destruct (select_latest_completed rows) as [latest|]; [|done].
  unfold _coerce_utc. by destruct (finished_at latest).
Qed.

(** X16.  [request_checkpoint] on a table with unique ids and at most one
    pending, running or retryable row keeps both.  A call that raises writes
    nothing.  A call that returns hands back the one active row of the
    table afterwards: the row that was active before, with the table
    untouched, or, when none was, a new pending row appended under an id
    that no row had. *)
Theorem request_checkpoint_single_active settings mode reason_arg requested_by_arg
    force now rows :
  NoDup (id <$> rows) →
  (length (filter is_active rows) ≤ 1)%nat →
  let out := request_checkpoint settings mode reason_arg requested_by_arg force now rows in
  NoDup (id <$> out.2)
  ∧ (length (filter is_active out.2) ≤ 1)%nat
  ∧ (∀ e, out.1 = raise e → out.2 = rows)
  ∧ (∀ snap, out.1 = ret snap →
       filter is_active out.2 = [snap]
       ∧ (out.2 = rows
          ∨ (filter is_active rows = [] ∧ out.2 = (rows ++ [snap])%list
             ∧ status snap = PENDING ∧ id snap ∉ id <$> rows))).
Proof.
  intros Hid Hone out. subst out.
  destruct (_normalize_mode settings mode) as [e|normalized_mode] eqn:Hmode.
  { unfold request_checkpoint. rewrite Hmode. simpl. by repeat split. }
  destruct (decide (normalized_mode = TRUNCATE
                    ∧ Config.wal_checkpoint_allow_truncate settings = false))
    as [[-> Hallow]|Hpol].
  { unfold request_checkpoint. rewrite Hmode. unfold ret at 1. cbv iota beta.
    rewrite Hallow, bool_decide_eq_true_2 by done. simpl. by repeat split. }
  rewrite (request_checkpoint_accepted _ _ _ _ _ _ _ _ Hmode Hpol).
  destruct (select_active rows) as [active|] eqn:Ea.
  - simpl. split; [done|]. split; [done|]. split; [done|].
    intros snap [= <-]. split; [|by left].
    apply select_active_Some in Ea as (Hin & Hact & _).
    assert (active ∈ filter is_active rows) as Hf by by apply list_elem_of_filter.
    destruct (filter is_active rows) as [|a [|b l]]; simpl in Hone.
    + by apply elem_of_nil in Hf.
    + by apply list_elem_of_singleton in Hf as ->.
    + lia.
  - pose proof (filter_active_nil _ (select_active_None _ Ea)) as Hnil.
    destruct (negb force && _); simpl; [by repeat split|].
    set (row := {| id := next_id rows |}).
    assert (filter is_active (rows ++ [row])%list = [row]) as Hrow.
    { rewrite filter_app, Hnil, filter_cons, decide_True; [done|].
      unfold is_active. simpl. apply list_elem_of_here. }
    assert (id row ∉ id <$> rows) as Hfresh.
    { intros Hx. apply list_elem_of_fmap in Hx as (t & Ht & Hin).
      apply wal_id_lt_next in Hin. simpl in Ht. lia. }
    split.
    { rewrite fmap_app. apply NoDup_app. split; [done|].
      split; [|apply NoDup_singleton].
      intros x Hx Hx'. apply list_elem_of_singleton in Hx'. by subst x. }
    split; [by rewrite Hrow|]. split; [done|].
    intros snap [= <-]. split; [done|]. right. by repeat split.
Qed.

(** *** The rate limit *)

Lemma finished_desc_asym a b : finished_desc a b = true → finished_desc b a = false.
Proof.
  unfold finished_desc.
  destruct (finished_at a) as [x|], (finished_at b) as [y|]; try done.
  - rewrite orb_true_iff, andb_true_iff, orb_false_iff, andb_false_iff,
      !Z.ltb_lt, !Z.ltb_ge, Z.eqb_eq, Z.eqb_neq. lia.
  - rewrite Z.ltb_lt, Z.ltb_ge. lia.
Qed.

Lemma finished_desc_ntrans a b c :
  finished_desc a b = false → finished_desc b c = false → finished_desc a c = false.
Proof.
  unfold finished_desc.
  destruct (finished_at a) as [x|], (finished_at b) as [y|], (finished_at c) as [z|];
    try done;
    rewrite ?orb_false_iff, ?andb_false_iff, ?Z.ltb_ge, ?Z.eqb_neq; lia.
Qed.

Lemma max_finished_at_None rows :
  max_finished_at rows = None ↔ ∀ r, r ∈ rows → finished_at r = None.
Proof.
  induction rows as [|a rows IH]; simpl.
  - split; [|done]. intros _ r Hr. by apply elem_of_nil in Hr.
  - destruct (finished_at a) as [t|] eqn:Ea.
    + split.
      * by destruct (max_finished_at rows).
      * intros H. specialize (H a (list_elem_of_here _ _)). congruence.
    + rewrite IH. split.
      * intros H r Hr. apply elem_of_cons in Hr as [->|Hr]; [done|by apply H].
      * intros H r Hr. by apply H, list_elem_of_further.
Qed.

Lemma max_finished_at_Some rows m :
  max_finished_at rows = Some m ↔
    (∃ r, r ∈ rows ∧ finished_at r = Some m)
    ∧ ∀ r t, r ∈ rows → finished_at r = Some t → t ≤ m.
Proof.
  revert m. induction rows as [|a rows IH]; intros m; simpl.
  - split; [done|]. intros [(r & Hr & _) _]. by apply elem_of_nil in Hr.
  - destruct (finished_at a) as [t|] eqn:Ea.
    + destruct (max_finished_at rows) as [m'|] eqn:Em.
      * destruct (IH m') as [IH1 _]. destruct (IH1 eq_refl) as [(r' & Hr' & Hf') Hmax'].
        split.
        -- intros [= <-]. split.
           ++ destruct (Z.max_spec t m') as [[_ ->]|[_ ->]].
              ** exists r'. split; [by apply list_elem_of_further|done].
              ** exists a. split; [apply list_elem_of_here|done].
           ++ intros r u Hr Hu. apply elem_of_cons in Hr as [->|Hr].
              ** rewrite Ea in Hu. injection Hu as <-. lia.
              ** specialize (Hmax' r u Hr Hu). lia.
        -- intros [(r & Hr & Hf) Hmax]. f_equal.
           assert (t ≤ m) by (apply (Hmax a); [apply list_elem_of_here|done]).
           assert (m' ≤ m) by (apply (Hmax r'); [by apply list_elem_of_further|done]).
           apply elem_of_cons in Hr as [->|Hr].
           ++ rewrite Ea in Hf. injection Hf as <-. lia.
           ++ specialize (Hmax' r m Hr Hf). lia.
      * pose proof (proj1 (max_finished_at_None rows) Em) as Hnone.
        split.
        -- intros [= <-]. split.
           ++ exists a. split; [apply list_elem_of_here|done].
           ++ intros r u Hr Hu. apply elem_of_cons in Hr as [->|Hr].
              ** rewrite Ea in Hu. injection Hu as <-. lia.
              ** rewrite (Hnone r Hr) in Hu. done.
        -- intros [(r & Hr & Hf) Hmax]. f_equal.
           apply elem_of_cons in Hr as [->|Hr]; [congruence|].
           rewrite (Hnone r Hr) in Hf. done.
    + rewrite IH. split.
      * intros [(r & Hr & Hf) Hmax]. split.
        -- exists r. split; [by apply list_elem_of_further|done].
        -- intros r' u Hr' Hu. apply elem_of_cons in Hr' as [->|Hr']; [congruence|].
           by apply (Hmax r').
      * intros [(r & Hr & Hf) Hmax]. split.
        -- exists r. split; [|done]. apply elem_of_cons in Hr as [->|Hr]; [congruence|done].
        -- intros r' u Hr' Hu. apply (Hmax r'); [by apply list_elem_of_further|done].
Qed.
(** The two ways of asking for the latest completion agree: the first row by
    [finished_at DESC, id DESC] and [max(finished_at)]. *)
Lemma select_latest_completed_finished rows :
  select_latest_completed rows ≫= finished_at
  = max_finished_at (filter (λ r, status r = COMPLETED) rows).
Proof.
  unfold select_latest_completed.
  set (done_rows := filter (λ r, status r = COMPLETED) rows).
  destruct (head (order_by finished_desc done_rows)) as [latest|] eqn:E; simpl.
  - pose proof (head_order_by_elem _ _ _ E) as Hin.
    pose proof (head_order_by_first finished_desc done_rows latest
                  finished_desc_asym finished_desc_ntrans E) as Hmax.
    destruct (finished_at latest) as [t|] eqn:Et; symmetry.
    + apply max_finished_at_Some. split; [by exists latest|].
      intros r u Hr Hu. specialize (Hmax r Hr). unfold finished_desc in Hmax.
      rewrite Hu, Et in Hmax.
      apply orb_false_iff in Hmax as [Hlt _]. apply Z.ltb_ge in Hlt. lia.
    + apply max_finished_at_None. intros r Hr.
      specialize (Hmax r Hr). unfold finished_desc in Hmax. rewrite Et in Hmax.
      by destruct (finished_at r).
  - destruct done_rows as [|a l]; [done|].
    destruct (head_order_by_is_Some finished_desc (a :: l)) as [? ?]; [done|congruence].
Qed.

Lemma count_status_sum rows :
  count_status PENDING rows + count_status RUNNING rows + count_status RETRYABLE rows
  + count_status FAILED rows + count_status COMPLETED rows
  = Z.of_nat (length rows).
Proof.
  unfold count_status. induction rows as [|a rows IH]; [done|].
  rewrite !filter_cons. simpl length.
  destruct (status a); repeat case_decide; try done; simpl length; lia.
Qed.

Lemma substring_length n s : (String.length (substring 0 n s) ≤ n)%nat.
Proof.
  revert s. induction n as [|n IH]; intros [|c s]; simpl; try lia.
  specialize (IH s). lia.
Qed.

Lemma requester_bounded requested_by_arg :
  requester requested_by_arg ≠ ""
  ∧ (String.length (requester requested_by_arg) ≤ 64)%nat.
Proof.
  unfold requester.
  set (cut := substring 0 64 _).
  pose proof (substring_length 64 (Py.strip match requested_by_arg with
                                   | Some s => if Py.nonempty s then s else "api"
                                   | None => "api"
                                   end)) as Hlen.
  fold cut in Hlen. destruct cut; simpl; [split; [done|lia]|]. split; [done|].
  simpl in Hlen. lia.
Qed.

(** X17.  [request_checkpoint] with an accepted mode on a table with no
    pending, running or retryable row.  The request is refused with
    [WalMaintenanceConflictError], and nothing is written, exactly when it is
    not forced and some completed row finished less than
    [wal_checkpoint_min_interval_seconds] before now; the instant compared
    is the [latest_completed_at] that [get_metrics] reports.  A forced
    request, or one made after the interval, appends one pending row for the
    normalised mode, due now, with a requester that is never blank and
    never longer than the 64 characters of the column.  The five counts of
    [get_metrics] add up to the number of rows. *)
Theorem request_checkpoint_rate_limit settings mode reason_arg requested_by_arg
    force now rows normalized_mode :
  _normalize_mode settings mode = ret normalized_mode →
  ¬ (normalized_mode = TRUNCATE ∧ Config.wal_checkpoint_allow_truncate settings = false) →
  (∀ r, r ∈ rows → status r ∉ [PENDING; RUNNING; RETRYABLE]) →
  let out := request_checkpoint settings mode reason_arg requested_by_arg force now rows in
  let metrics := get_metrics now rows in
  let limited :=
    ∃ t, latest_completed_at metrics = Some t
         ∧ now < t + Config.wal_checkpoint_min_interval_seconds settings in
  (limited ↔
     ∃ r t, r ∈ rows ∧ status r = COMPLETED ∧ finished_at r = Some t
            ∧ now < t + Config.wal_checkpoint_min_interval_seconds settings)
  ∧ (force = false → limited → out = (raise WalMaintenanceConflictError, rows))
  ∧ (force = true ∨ ¬ limited →
       ∃ snap by_whom,
         out = (ret snap, (rows ++ [snap])%list)
         ∧ status snap = PENDING
         ∧ requested_mode snap = normalized_mode
         ∧ reason snap = reason_arg
         ∧ requested_by snap = Some by_whom
         ∧ by_whom ≠ "" ∧ (String.length by_whom ≤ 64)%nat
         ∧ execute_after snap = now ∧ created_at snap = now
         ∧ retry_count snap = 0 ∧ worker_id snap = None)
  ∧ pending metrics + running metrics + retryable metrics + failed metrics
    + completed metrics = Z.of_nat (length rows).
Proof.
  intros Hmode Hpol Hnone out metrics limited.
  assert (limited ↔
          ∃ r t, r ∈ rows ∧ status r = COMPLETED ∧ finished_at r = Some t
                 ∧ now < t + Config.wal_checkpoint_min_interval_seconds settings)
    as Hlimited.
  { subst limited metrics. unfold get_metrics. simpl. split.
    - intros (t & Ht & Hlt).
      assert (max_finished_at (filter (λ r, status r = COMPLETED) rows) = Some t) as Hm
        by by destruct (max_finished_at _).
      apply max_finished_at_Some in Hm as [(r & Hr & Hf) _].
      apply list_elem_of_filter in Hr as [Hs Hr]. by exists r, t.
    - intros (r & t & Hr & Hs & Hf & Hlt).
      destruct (max_finished_at (filter (λ r, status r = COMPLETED) rows)) as [m|] eqn:Em.
      + exists m. split; [done|].
        apply max_finished_at_Some in Em as [_ Hmax].
        assert (t ≤ m) by (apply (Hmax r); [by apply list_elem_of_filter|done]). lia.
      + pose proof (proj1 (max_finished_at_None _) Em r) as Hn.
        rewrite Hn in Hf; [done|]. by apply list_elem_of_filter. }
  assert (select_active rows = None) as Ha.
  { destruct (select_active rows) as [a|] eqn:Ea; [|done].
    apply select_active_Some in Ea as (Hin & Hact & _). by destruct (Hnone a Hin). }
  assert ((match select_latest_completed rows with
           | Some latest_completed =>
               match finished_at latest_completed with
               | Some t => now <? t + Config.wal_checkpoint_min_interval_seconds settings
               | None => false
               end
           | None => false
           end) = true ↔ limited) as Hcheck.
  { subst limited metrics. unfold get_metrics. simpl.
    rewrite <- select_latest_completed_finished.
    destruct (select_latest_completed rows) as [latest|]; simpl.
    - destruct (finished_at latest) as [t|]; simpl.
      + rewrite Z.ltb_lt. split; [by exists t|]. by intros (? & [= <-] & ?).
      + split; [done|]. by intros (? & ? & _).
    - split; [done|]. by intros (? & ? & _). }
  split; [done|].
  subst out. rewrite (request_checkpoint_accepted _ _ _ _ _ _ _ _ Hmode Hpol), Ha.
  split; [|split].
  - intros -> Hl. apply Hcheck in Hl. by rewrite Hl.
  - intros Hgo.
    assert (negb force
            && match select_latest_completed rows with
               | Some latest_completed =>
                   match finished_at latest_completed with
                   | Some t => now <? t + Config.wal_checkpoint_min_interval_seconds settings
                   | None => false
                   end
               | None => false
               end = false) as ->.
    { destruct Hgo as [->|Hn]; [done|]. apply andb_false_iff. right.
      apply not_true_iff_false. by rewrite Hcheck. }
    eexists _, (requester requested_by_arg). split; [done|]. simpl.
    destruct (requester_bounded requested_by_arg). by repeat split.
  - apply count_status_sum.
Qed.

(** *** The latest request *)

(** X18.  [get_latest] raises [WalMaintenanceNotFoundError] on the empty table
    and otherwise returns a row of the table than which none is more recent
    in the order [created_at DESC, id DESC].  When [request_checkpoint] has
    queued a new row, at a clock reading that no [created_at] of the table
    is after, [get_latest] returns that row. *)
Theorem get_latest_newest rows :
  (get_latest rows = raise WalMaintenanceNotFoundError ↔ rows = [])
  ∧ (∀ r, get_latest rows = ret r →
       r ∈ rows ∧ ∀ other, other ∈ rows → ¬ more_recent other r)
  ∧ (∀ settings mode reason_arg requested_by_arg force now snap,
       (∀ r, r ∈ rows → created_at r ≤ now) →
       request_checkpoint settings mode reason_arg requested_by_arg force now rows
       = (ret snap, (rows ++ [snap])%list) →
       get_latest (rows ++ [snap])%list = ret snap).
Proof.
  assert (∀ l r, get_latest l = ret r →
            r ∈ l ∧ ∀ other, other ∈ l → ¬ more_recent other r) as Hnewest.
  { intros l r. unfold get_latest.
    destruct (head (order_by created_desc l)) as [top|] eqn:E; [|done].
    rewrite wal_snapshot_id. intros [= <-].
    split; [by apply (head_order_by_elem created_desc)|].
    intros other Ho. rewrite <- created_desc_spec, not_true_iff_false.
    by apply (head_order_by_first created_desc l top
                created_desc_asym created_desc_trans E). }
  split; [|split; [apply Hnewest|]].
  - unfold get_latest. split.
    + destruct rows as [|a l]; [done|].
      destruct (head_order_by_is_Some created_desc (a :: l)) as [top Htop]; [done|].
      by rewrite Htop.
    + by intros ->.
  - intros settings mode reason_arg requested_by_arg force now snap Hclock Hreq.
    assert (id snap = next_id rows ∧ created_at snap = now) as [Hid Hcreated].
    { revert Hreq. unfold request_checkpoint.
      destruct (_normalize_mode settings mode); [done|]. unfold ret at 1. cbv iota beta.
      destruct (_ && negb _); [done|].
      destruct (select_active rows).
      - intros [= _ Hrows]. apply (f_equal length) in Hrows.
        rewrite length_app in Hrows. simpl in Hrows. lia.
      - destruct (if force then false else _); [done|].
        rewrite wal_snapshot_id. by intros [= <- _]. }
    destruct (get_latest (rows ++ [snap])%list) as [e|top] eqn:E.
    + exfalso. unfold get_latest in E.
      destruct (head_order_by_is_Some created_desc (rows ++ [snap])%list) as [top Htop].
      * by destruct rows.
      * by rewrite Htop in E.
    + destruct (Hnewest _ _ E) as [Hin Hmax]. f_equal.
      apply elem_of_app in Hin as [Hin|Hin]; [|by apply list_elem_of_singleton in Hin].
      exfalso. apply (Hmax snap); [apply elem_of_app; right; apply list_elem_of_here|].
      unfold more_recent. specialize (Hclock top Hin).
      pose proof (wal_id_lt_next rows top Hin). lia.
Qed.
(** *** Further theorems at the sample tables *)

Lemma request_checkpoint_single_active_witness :
  let out := request_checkpoint Samples.cfg None (Some "nightly") None true 100
               [Samples.wal_completed] in
  NoDup (id <$> out.2)
  ∧ (length (filter is_active out.2) ≤ 1)%nat
  ∧ (∀ e, out.1 = raise e → out.2 = [Samples.wal_completed])
  ∧ (∀ snap, out.1 = ret snap →
       filter is_active out.2 = [snap]
       ∧ (out.2 = [Samples.wal_completed]
          ∨ (filter is_active [Samples.wal_completed] = []
             ∧ out.2 = ([Samples.wal_completed] ++ [snap])%list
             ∧ status snap = PENDING ∧ id snap ∉ id <$> [Samples.wal_completed]))).
Proof.
  apply (request_checkpoint_single_active Samples.cfg None (Some "nightly") None true 100
           [Samples.wal_completed]).
  - apply NoDup_singleton.
  - vm_compute. lia.
Defined.

Lemma request_checkpoint_rate_limit_witness :
  request_checkpoint Samples.cfg (Some "restart") None None false 100
    [Samples.wal_completed]
  = (raise WalMaintenanceConflictError, [Samples.wal_completed]).
Proof.
  destruct (request_checkpoint_rate_limit Samples.cfg (Some "restart") None None false
              100 [Samples.wal_completed] RESTART) as (_ & Hrefused & _).
  - reflexivity.
  - intros [H _]. discriminate H.
  - intros r Hr. apply list_elem_of_singleton in Hr. subst r.
    rewrite !elem_of_cons, elem_of_nil. simpl. intros [H|[H|[H|[]]]]; discriminate H.
  - apply Hrefused; [reflexivity|]. exists 50. split; [reflexivity|]. simpl. lia.
Defined.

(** Refused at 100, the request is queued when forced, and at 950 also
    without force; [get_latest] then returns the row queued. *)
Example request_checkpoint_rate_limit_sample :
  (λ out, (sum_map (λ e : Raised, e) (λ r, (id r, status r, requested_by r)) out.1,
           length out.2))
    <$> [ request_checkpoint Samples.cfg None None (Some "  ") true 100
            [Samples.wal_completed];
          request_checkpoint Samples.cfg None None None false 950
            [Samples.wal_completed] ]
  = [ (inr (2, PENDING, Some "api"), 2%nat); (inr (2, PENDING, Some "api"), 2%nat) ]
  ∧ sum_map (λ e : Raised, e) id
      (get_latest
         (request_checkpoint Samples.cfg None None None false 950
            [Samples.wal_completed]).2)
    = inr 2
  ∧ latest_completed_at (get_metrics 100 [Samples.wal_completed]) = Some 50.
Proof. vm_compute. done. Qed.


(** *** The mode policy *)

Lemma WalCheckpointMode_of_None text :
  WalCheckpointMode_of text = None ↔ text ∉ ["passive"; "restart"; "truncate"].
Proof.
  unfold WalCheckpointMode_of. rewrite !elem_of_cons, elem_of_nil.
  repeat case_bool_decide; split; try done; try tauto.
Qed.

Lemma WalCheckpointMode_of_TRUNCATE text :
  WalCheckpointMode_of text = Some TRUNCATE ↔ text = "truncate".
Proof.
  unfold WalCheckpointMode_of.
  repeat case_bool_decide; split; try done; try congruence.
Qed.

(** X27.  The mode policy of [request_checkpoint], which is applied before
    the table is read.  With [token] the mode asked for, stripped and in
    lower case, or the configured default when none is asked for: the call
    raises [ValueError] exactly when the token is none of passive, restart
    and truncate, and [WalMaintenancePolicyError] exactly when it is truncate
    while [wal_checkpoint_allow_truncate] is off, also when a request is
    pending that the call would otherwise hand back.  Any call that raises
    writes nothing, and a row the call adds is pending and asks for the mode
    of the token: no truncate checkpoint is queued against the policy. *)
Theorem request_checkpoint_mode_policy settings mode reason_arg requested_by_arg
    force now rows :
  let out := request_checkpoint settings mode reason_arg requested_by_arg force now rows in
  let token :=
    match mode with
    | Some raw => Py.lower (Py.strip raw)
    | None => Config.wal_checkpoint_default_mode settings
    end in
  (out.1 = raise ValueError ↔ token ∉ ["passive"; "restart"; "truncate"])
  ∧ (out.1 = raise WalMaintenancePolicyError
     ↔ token = "truncate" ∧ Config.wal_checkpoint_allow_truncate settings = false)
  ∧ (out.1 = raise WalMaintenanceConflictError →
       force = false ∧ ∀ r, r ∈ rows → ¬ is_active r)
  ∧ (∀ e, out.1 = raise e → e ≠ WalMaintenanceNotFoundError ∧ out.2 = rows)
  ∧ (∀ r, r ∈ out.2 → r ∉ rows →
       WalCheckpointMode_of token = Some (requested_mode r)
       ∧ status r = PENDING
       ∧ (requested_mode r = TRUNCATE →
          Config.wal_checkpoint_allow_truncate settings = true)).
Proof.
  intros out token.
  assert (_normalize_mode settings mode
          = match WalCheckpointMode_of token with
            | Some m => ret m
            | None => raise ValueError
            end) as Hnorm.
  { unfold _normalize_mode, token. by destruct mode. }
  destruct (WalCheckpointMode_of token) as [m|] eqn:Em.
  2: { assert (out = (raise ValueError, rows)) as ->.
       { unfold out, request_checkpoint. by rewrite Hnorm. }
       apply WalCheckpointMode_of_None in Em. simpl.
       split; [done|]. split; [|split; [done|split; [by intros e [= <-]|done]]].
       split; [done|]. intros [-> _]. exfalso. apply Em.
       rewrite !elem_of_cons. auto. }
  assert (token ∈ ["passive"; "restart"; "truncate"]) as Htok.
  { destruct (decide (token ∈ ["passive"; "restart"; "truncate"])) as [|Hn]; [done|].
    apply WalCheckpointMode_of_None in Hn. congruence. }
  destruct (decide (m = TRUNCATE ∧ Config.wal_checkpoint_allow_truncate settings = false))
    as [[-> Hoff]|Hok].
  - assert (out = (raise WalMaintenancePolicyError, rows)) as ->.
    { unfold out, request_checkpoint. rewrite Hnorm. unfold ret at 1. cbv iota beta.
      by rewrite bool_decide_eq_true_2, Hoff by done. }
    apply WalCheckpointMode_of_TRUNCATE in Em. simpl.
    split; [done|]. split; [done|]. split; [done|]. split; [by intros e [= <-]|done].
  - assert (¬ (token = "truncate" ∧ Config.wal_checkpoint_allow_truncate settings = false))
      as Hok'.
    { intros [Ht Hoff]. apply Hok. split; [|done].
      apply WalCheckpointMode_of_TRUNCATE in Ht. congruence. }
    unfold out.
    rewrite (request_checkpoint_accepted _ _ _ _ _ _ _ m Hnorm Hok).
    destruct (select_active rows) as [active|] eqn:Ea.
    { simpl. split; [done|]. split; [done|]. split; [done|]. split; [done|].
      intros r Hr Hn. done. }
    destruct (negb force && _) eqn:Elim.
    + simpl. split; [done|]. split; [done|]. split.
      * intros _. apply andb_true_iff in Elim as [Hf _].
        split; [by destruct force|]. by apply select_active_None.
      * split; [by intros e [= <-]|done].
    + cbv zeta. cbn [fst snd]. split; [done|]. split; [done|]. split; [done|].
      split; [done|]. intros r Hr Hn.
      apply elem_of_app in Hr as [Hr|Hr]; [done|].
      apply list_elem_of_singleton in Hr as ->. cbn [requested_mode status].
      split; [done|]. split; [done|]. intros ->.
      destruct (Config.wal_checkpoint_allow_truncate settings); [done|].
      exfalso. by apply Hok.
Qed.

(** Under the sample configuration a truncate checkpoint is refused, also
    with a request pending, and an unknown mode is a [ValueError]. *)
Example request_checkpoint_mode_policy_sample :
  (request_checkpoint Samples.cfg (Some " TRUNCATE ") None None true 700
     [Samples.wal_completed]).1 = raise WalMaintenancePolicyError
  ∧ (request_checkpoint Samples.cfg (Some "truncate") None None false 700
       (request_checkpoint Samples.cfg None None None true 700 []).2).1
    = raise WalMaintenancePolicyError
  ∧ (request_checkpoint Samples.cfg (Some "full") None None true 700
       [Samples.wal_completed]).1 = raise ValueError
  ∧ (requested_mode <$> (request_checkpoint Samples.cfg (Some "Restart") None None true 700
                            [Samples.wal_completed]).2)
    = [PASSIVE; RESTART].
Proof. vm_compute. done. Qed.

End WalFacts.

(** ** Repair of the jobs table *)

Module MigrationsFacts.
Import Sql SqlFacts Migrations.

Lemma created_asc_asym a b : created_asc a b = true → created_asc b a = false.
Proof.
  apply (lex_asym created_at (λ x y, String.ltb (id x) (id y))).
  intros x y. apply ltb_asym.
Qed.

Lemma created_asc_ntrans a b c :
  created_asc a b = false → created_asc b c = false → created_asc a c = false.
Proof.
  apply (lex_ntrans created_at (λ x y, String.ltb (id x) (id y))).
  intros x y z. apply ltb_ntrans.
Qed.

Lemma rank_created_asc_asym a b :
  rank_created_asc a b = true → rank_created_asc b a = false.
Proof. apply (lex_asym status_rank created_asc). apply created_asc_asym. Qed.

Lemma rank_created_asc_ntrans a b c :
  rank_created_asc a b = false → rank_created_asc b c = false →
  rank_created_asc a c = false.
Proof. apply (lex_ntrans status_rank created_asc). apply created_asc_ntrans. Qed.

(** *** Normalisation *)

Lemma lower_char_idem c : lower_char (lower_char c) = lower_char c.
Proof. destruct c as [[] [] [] [] [] [] [] []]; reflexivity. Qed.

Lemma lower_idem s : lower (lower s) = lower s.
Proof. induction s as [|c s IH]; simpl; [done|]. by rewrite lower_char_idem, IH. Qed.

Lemma normalize_fmap rows : _normalize_job_enum_values rows = normalized <$> rows.
Proof.
  unfold _normalize_job_enum_values. apply list_fmap_ext. intros i r _.
  case_bool_decide as H; [done|].
  destruct (decide (kind r = lower (kind r))) as [Hk|]; [|exfalso; auto].
  destruct (decide (status r = lower (status r))) as [Hs|]; [|exfalso; auto].
  destruct r; unfold normalized; simpl in *. congruence.
Qed.

Lemma running_normalized r : running_scan_hash (normalized r) ↔ running_scan_hash r.
Proof. unfold running_scan_hash. simpl. by rewrite !lower_idem. Qed.

(** *** The rows beyond the first *)

Lemma filter_ids_NoDup (P : JobRow → Prop) `{∀ r, Decision (P r)} rows :
  NoDup (id <$> rows) → NoDup (id <$> filter P rows).
Proof.
  intros Hnd. eapply sublist_NoDup; [exact Hnd|]. apply fmap_sublist, sublist_filter.
Qed.

(** An identifier of the filtered rows belongs to a row that passes the
    filter. *)
Lemma id_in_filter (P : JobRow → Prop) `{∀ r, Decision (P r)} rows r :
  NoDup (id <$> rows) → r ∈ rows → id r ∈ id <$> filter P rows → P r.
Proof.
  intros Hnd Hr Hin. apply list_elem_of_fmap in Hin as (c & Hid & Hc).
  apply list_elem_of_filter in Hc as [HP Hc].
  by rewrite (fmap_inj_on id rows r c Hnd Hr Hc Hid).
Qed.

Lemma beyond_first_sub before cands x :
  x ∈ beyond_first before cands → x ∈ id <$> cands.
Proof.
  unfold beyond_first. intros Hx.
  apply list_elem_of_fmap in Hx as (c & -> & Hc).
  apply list_elem_of_fmap_2. apply (order_by_elem before).
  destruct (order_by before cands) as [|h tl]; [by apply elem_of_nil in Hc|].
  by apply list_elem_of_further.
Qed.

(** With unique identifiers, the rows ranked beyond the first are all the
    candidates but the one ranked first. *)
Lemma beyond_first_spec before cands keep c :
  NoDup (id <$> cands) → head (order_by before cands) = Some keep → c ∈ cands →
  id c ∈ beyond_first before cands ↔ id c ≠ id keep.
Proof.
  intros Hnd Hh Hc. unfold beyond_first.
  pose proof (order_by_perm before cands) as Hp.
  destruct (order_by before cands) as [|h tl] eqn:E; [done|].
  simpl in Hh. injection Hh as ->. simpl.
  rewrite <- Hp in Hnd, Hc. rewrite fmap_cons in Hnd.
  apply NoDup_cons in Hnd as [Hk Htl].
  apply elem_of_cons in Hc as [->|Hc].
  - split; [by intros ?|done].
  - split; [|by intros _; apply list_elem_of_fmap_2].
    intros _ Heq. apply Hk. rewrite <- Heq. by apply list_elem_of_fmap_2.
Qed.

(** The [UPDATE ... WHERE id IN (... row_num > 1)] of both repairs, row by
    row: a row is rewritten when it passes the filter and is not the first. *)
Lemma resolve_rows before (P : JobRow → Prop) `{∀ r, Decision (P r)}
    (upd : JobRow → JobRow) rows keep :
  NoDup (id <$> rows) →
  head (order_by before (filter P rows)) = Some keep →
  (λ r, if bool_decide (id r ∈ beyond_first before (filter P rows))
        then upd r else r) <$> rows
  = (λ r, if bool_decide (P r ∧ id r ≠ id keep) then upd r else r) <$> rows.
Proof.
  intros Hnd Hh. apply list_fmap_ext. intros i r Hr.
  apply list_elem_of_lookup_2 in Hr.
  pose proof (filter_ids_NoDup P rows Hnd) as Hndf.
  assert (id r ∈ beyond_first before (filter P rows) ↔ P r ∧ id r ≠ id keep) as Hiff;
    [|by rewrite (bool_decide_ext _ _ Hiff)].
  split.
  - intros Hin. assert (P r) as HP.
    { apply (id_in_filter P rows r Hnd Hr). by eapply beyond_first_sub. }
    split; [done|].
    by apply (beyond_first_spec before (filter P rows) keep r Hndf Hh);
      [apply list_elem_of_filter|].
  - intros [HP Hne].
    by apply (beyond_first_spec before (filter P rows) keep r Hndf Hh);
      [apply list_elem_of_filter|].
Qed.

(** *** The two repairs *)

(** [r] is older than [keep] in the order [created_at ASC, id ASC]. *)
Definition older (r keep : JobRow) : Prop :=
  created_at r < created_at keep
  ∨ (created_at r = created_at keep ∧ String.ltb (id r) (id keep) = true).

Lemma created_asc_spec a b : created_asc a b = true ↔ older a b.
Proof.
  unfold created_asc, older.
  by rewrite orb_true_iff, andb_true_iff, Z.ltb_lt, Z.eqb_eq.
Qed.

Lemma head_order_by_None {A} (before : A → A → bool) (l : list A) :
  head (order_by before l) = None → l = [].
Proof.
  destruct l as [|a l]; [done|]. intros H.
  by destruct (head_order_by_is_Some before (a :: l)) as [x Hx]; [|congruence].
Qed.

Lemma singleton_of_NoDup {A} (l : list A) a :
  NoDup l → a ∈ l → (∀ x, x ∈ l → x = a) → l = [a].
Proof.
  intros Hnd Ha Hall. destruct l as [|x l]; [by apply elem_of_nil in Ha|].
  rewrite (Hall x) by apply list_elem_of_here. f_equal.
  destruct l as [|y l]; [done|]. exfalso.
  apply NoDup_cons in Hnd as [Hx _]. apply Hx.
  rewrite (Hall x) by apply list_elem_of_here.
  rewrite <- (Hall y) by apply list_elem_of_further, list_elem_of_here.
  apply list_elem_of_here.
Qed.

Lemma reclassified_running_not_running now r :
  ¬ running_scan_hash (reclassified_running now r).
Proof. intros [H _]. discriminate H. Qed.

Lemma reclassified_running_not_active now r :
  ¬ pending_or_running_scan_hash (reclassified_running now r).
Proof.
  intros [_ H]. simpl in H. rewrite !elem_of_cons, elem_of_nil in H.
  by destruct H as [H|[H|[]]].
Qed.

Lemma reclassified_active_not_active now r :
  ¬ pending_or_running_scan_hash (reclassified_active now r).
Proof.
  intros [_ H]. simpl in H. rewrite !elem_of_cons, elem_of_nil in H.
  by destruct H as [H|[H|[]]].
Qed.

Lemma running_is_active r : running_scan_hash r → pending_or_running_scan_hash r.
Proof.
  intros [Hs Hk]. split; [done|]. rewrite Hs.
  apply list_elem_of_further, list_elem_of_here.
Qed.

Lemma running_rank r : running_scan_hash r → status_rank r = 0.
Proof. intros [Hs _]. unfold status_rank. by rewrite Hs. Qed.

Lemma active_not_running_rank r :
  pending_or_running_scan_hash r → ¬ running_scan_hash r → status_rank r = 1.
Proof.
  intros [Hk Hs] Hn. unfold status_rank.
  rewrite !elem_of_cons, elem_of_nil in Hs. destruct Hs as [Hs|[Hs|[]]].
  - by rewrite Hs.
  - exfalso. by apply Hn.
Qed.

Section Repair.
Context (now : Z) (rows0 : list JobRow) (keep : JobRow).
Hypothesis Hnd : NoDup (id <$> rows0).
Hypothesis Hfirst :
  head (order_by created_asc (filter running_scan_hash rows0)) = Some keep.

Let rows1 := _resolve_duplicate_running_scan_hash_jobs now rows0.
Let rows2 := _resolve_duplicate_pending_or_running_scan_hash_jobs now rows1.

Lemma keep_candidate : keep ∈ rows0 ∧ running_scan_hash keep.
Proof.
  apply head_order_by_elem in Hfirst.
  apply list_elem_of_filter in Hfirst. tauto.
Qed.

Lemma keep_oldest r : r ∈ rows0 → running_scan_hash r → created_asc r keep = false.
Proof.
  intros Hr Hrun.
  apply (head_order_by_first created_asc (filter running_scan_hash rows0));
    [apply created_asc_asym|apply created_asc_ntrans|done|].
  by apply list_elem_of_filter.
Qed.

Lemma rows1_eq :
  rows1 = (λ r, if bool_decide (running_scan_hash r ∧ id r ≠ id keep)
                then reclassified_running now r else r) <$> rows0.
Proof. by apply resolve_rows. Qed.

Lemma rows1_ids : id <$> rows1 = id <$> rows0.
Proof.
  rewrite rows1_eq, <- list_fmap_compose. apply list_fmap_ext.
  intros i r _. simpl. by case_bool_decide.
Qed.

Lemma rows1_keep : keep ∈ rows1.
Proof.
  destruct keep_candidate as [Hin Hrun]. rewrite rows1_eq.
  apply list_elem_of_fmap. exists keep. split; [|done].
  rewrite bool_decide_eq_false_2; [done|]. by intros [_ ?].
Qed.

Lemma rows1_running r1 : r1 ∈ rows1 → running_scan_hash r1 → r1 = keep.
Proof.
  rewrite rows1_eq. intros Hin Hrun.
  apply list_elem_of_fmap in Hin as (r & -> & Hr).
  case_bool_decide as Hc.
  - by apply reclassified_running_not_running in Hrun.
  - destruct keep_candidate as [Hk _].
    apply (fmap_inj_on id rows0 r keep Hnd Hr Hk).
    destruct (decide (id r = id keep)); [done|]. exfalso. by apply Hc.
Qed.

Lemma rows1_reclassified r :
  r ∈ rows0 → running_scan_hash r → id r ≠ id keep →
  reclassified_running now r ∈ rows1.
Proof.
  intros Hr Hrun Hne. rewrite rows1_eq.
  apply list_elem_of_fmap. exists r. split; [|done].
  by rewrite bool_decide_eq_true_2.
Qed.

(** In the second repair the running row ranks first. *)
Lemma second_first :
  head (order_by rank_created_asc (filter pending_or_running_scan_hash rows1))
  = Some keep.
Proof.
  destruct keep_candidate as [_ Hrun].
  assert (keep ∈ filter pending_or_running_scan_hash rows1) as Hk.
  { apply list_elem_of_filter. split; [by apply running_is_active|apply rows1_keep]. }
  destruct (head (order_by rank_created_asc _)) as [h|] eqn:Eh.
  - f_equal.
    pose proof (head_order_by_elem _ _ _ Eh) as Hh.
    apply list_elem_of_filter in Hh as [Hact Hh].
    destruct (decide (running_scan_hash h)) as [Hr|Hr]; [by apply rows1_running|].
    exfalso.
    pose proof (head_order_by_first rank_created_asc _ h
                  rank_created_asc_asym rank_created_asc_ntrans Eh keep Hk) as Hb.
    unfold rank_created_asc in Hb.
    rewrite (running_rank _ Hrun), (active_not_running_rank _ Hact Hr) in Hb.
    done.
  - apply head_order_by_None in Eh. rewrite Eh in Hk. by apply elem_of_nil in Hk.
Qed.

Lemma rows2_eq :
  rows2 = (λ r, if bool_decide (pending_or_running_scan_hash r ∧ id r ≠ id keep)
                then reclassified_active now r else r) <$> rows1.
Proof. apply resolve_rows; [by rewrite rows1_ids|apply second_first]. Qed.

Lemma rows2_ids : id <$> rows2 = id <$> rows0.
Proof.
  rewrite rows2_eq, <- rows1_ids, <- list_fmap_compose. apply list_fmap_ext.
  intros i r _. simpl. by case_bool_decide.
Qed.

Lemma rows2_keep : keep ∈ rows2.
Proof.
  rewrite rows2_eq. apply list_elem_of_fmap. exists keep.
  split; [|apply rows1_keep].
  rewrite bool_decide_eq_false_2; [done|]. by intros [_ ?].
Qed.

Lemma rows2_active r2 : r2 ∈ rows2 → pending_or_running_scan_hash r2 → r2 = keep.
Proof.
  rewrite rows2_eq. intros Hin Hact.
  apply list_elem_of_fmap in Hin as (r & -> & Hr).
  case_bool_decide as Hc.
  - by apply reclassified_active_not_active in Hact.
  - destruct keep_candidate as [Hk _].
    assert (id r = id keep) as Hid.
    { destruct (decide (id r = id keep)); [done|]. exfalso. by apply Hc. }
    assert (NoDup (id <$> rows1)) as Hnd1 by by rewrite rows1_ids.
    apply (fmap_inj_on id rows1 r keep Hnd1 Hr rows1_keep Hid).
Qed.

Lemma rows2_reclassified r :
  r ∈ rows0 → running_scan_hash r → id r ≠ id keep →
  reclassified_running now r ∈ rows2.
Proof.
  intros Hr Hrun Hne. rewrite rows2_eq.
  apply list_elem_of_fmap. exists (reclassified_running now r).
  split; [|by apply rows1_reclassified].
  rewrite bool_decide_eq_false_2; [done|].
  intros [Hact _]. by apply reclassified_running_not_active in Hact.
Qed.

(** After both repairs the running row ranked first is the only scan/hash
    row that is pending or running. *)
Lemma rows2_single_active : filter pending_or_running_scan_hash rows2 = [keep].
Proof.
  destruct keep_candidate as [_ Hrun].
  apply singleton_of_NoDup.
  - apply NoDup_filter. apply (NoDup_fmap_1 id). by rewrite rows2_ids.
  - apply list_elem_of_filter. split; [by apply running_is_active|apply rows2_keep].
  - intros x Hx. apply list_elem_of_filter in Hx as [Hact Hx]. by apply rows2_active.
Qed.

Lemma rows2_single_running : filter running_scan_hash rows2 = [keep].
Proof.
  destruct keep_candidate as [_ Hrun].
  apply singleton_of_NoDup.
  - apply NoDup_filter. apply (NoDup_fmap_1 id). by rewrite rows2_ids.
  - apply list_elem_of_filter. split; [done|apply rows2_keep].
  - intros x Hx. apply list_elem_of_filter in Hx as [Hr Hx].
    apply rows2_active; [done|]. by apply running_is_active.
Qed.
End Repair.

(** *** The claim about the migration *)

Lemma normalized_ids (rows : list JobRow) :
  id <$> (normalized <$> rows) = id <$> rows.
Proof. rewrite <- list_fmap_compose. by apply list_fmap_ext. Qed.

(** *** Running the repair again *)

(** One repair pass, whatever the filter and the update: with unique
    identifiers, and an update that takes a row out of the filter and keeps
    its identifier, at most one row passes the filter afterwards. *)
Lemma resolve_at_most_one before (P : JobRow → Prop) `{∀ r, Decision (P r)}
    (upd : JobRow → JobRow) rows :
  NoDup (id <$> rows) →
  (∀ r, ¬ P (upd r)) →
  (∀ r, id (upd r) = id r) →
  (length (filter P
     ((λ r, if bool_decide (id r ∈ beyond_first before (filter P rows))
            then upd r else r) <$> rows)) ≤ 1)%nat.
Proof.
  intros Hnd Hout Hid.
  set (out := _ <$> rows).
  assert (id <$> out = id <$> rows) as Hids.
  { unfold out. rewrite <- list_fmap_compose. apply list_fmap_ext.
    intros i r _. simpl. case_bool_decide; [apply Hid|done]. }
  destruct (head (order_by before (filter P rows))) as [keep|] eqn:Hhead.
  - assert (∀ x, x ∈ filter P out → x = keep) as Hall.
    { intros x Hx. apply list_elem_of_filter in Hx as [HPx Hx].
      unfold out in Hx. rewrite (resolve_rows before P upd rows keep Hnd Hhead) in Hx.
      apply list_elem_of_fmap in Hx as (r & -> & Hr).
      case_bool_decide as Hcase; [by apply Hout in HPx|].
      apply head_order_by_elem, list_elem_of_filter in Hhead as [_ Hkeep].
      apply (fmap_inj_on id rows r keep Hnd Hr Hkeep).
      destruct (decide (id r = id keep)); [done|]. exfalso. by apply Hcase. }
    assert (NoDup (filter P out)) as Hndf.
    { apply NoDup_filter, (NoDup_fmap_1 id). by rewrite Hids. }
    destruct (filter P out) as [|x [|y l]]; simpl; [lia|lia|]. exfalso.
    apply NoDup_cons in Hndf as [Hx _]. apply Hx.
    rewrite (Hall x) by apply list_elem_of_here.
    rewrite <- (Hall y) by apply list_elem_of_further, list_elem_of_here.
    apply list_elem_of_here.
  - apply head_order_by_None in Hhead.
    assert (out = rows) as ->.
    { unfold out. rewrite Hhead. rewrite <- (list_fmap_id rows) at 2.
      apply list_fmap_ext. intros i r _.
      change (beyond_first before []) with (@nil string).
      by rewrite bool_decide_eq_false_2 by apply not_elem_of_nil. }
    rewrite Hhead. simpl. lia.
Qed.

(** A pass over a table in which at most one row passes the filter changes
    nothing. *)
Lemma resolve_nothing before (P : JobRow → Prop) `{∀ r, Decision (P r)}
    (upd : JobRow → JobRow) rows :
  (length (filter P rows) ≤ 1)%nat →
  (λ r, if bool_decide (id r ∈ beyond_first before (filter P rows))
        then upd r else r) <$> rows = rows.
Proof.
  intros Hlen.
  assert (beyond_first before (filter P rows) = []) as ->.
  { unfold beyond_first. destruct (filter P rows) as [|x [|y l]]; simpl in *; [done|done|lia]. }
  rewrite <- (list_fmap_id rows) at 2. apply list_fmap_ext. intros i r _.
  by rewrite bool_decide_eq_false_2 by apply not_elem_of_nil.
Qed.

(** Rows whose [kind] and [status] are in lower case already. *)
Definition normal (r : JobRow) : Prop := normalized r = r.

Lemma normalized_normal r : normal (normalized r).
Proof. unfold normal, normalized. simpl. by rewrite !lower_idem. Qed.

Lemma normal_kind r : normal r → lower (kind r) = kind r.
Proof. unfold normal. intros H. by rewrite <- H at 2. Qed.

Lemma reclassified_running_normal now r : normal r → normal (reclassified_running now r).
Proof.
  intros Hr. unfold normal, normalized. simpl. by rewrite (normal_kind r Hr).
Qed.

Lemma reclassified_active_normal now r : normal r → normal (reclassified_active now r).
Proof.
  intros Hr. unfold normal, normalized. simpl. by rewrite (normal_kind r Hr).
Qed.

Lemma repair_normal now rows : Forall normal (repair now rows).
Proof.
  unfold repair, _resolve_duplicate_pending_or_running_scan_hash_jobs,
    _resolve_duplicate_running_scan_hash_jobs.
  rewrite normalize_fmap.
  apply Forall_fmap, Forall_forall. intros r Hr. simpl.
  assert (normal r) as Hn.
  { apply list_elem_of_fmap in Hr as (r0 & -> & Hr0). simpl.
    assert (normal r0) as Hn0.
    { apply list_elem_of_fmap in Hr0 as (r1 & -> & _). apply normalized_normal. }
    case_bool_decide; [by apply reclassified_running_normal|done]. }
  case_bool_decide; [by apply reclassified_active_normal|done].
Qed.

Lemma repair_ids now rows : id <$> repair now rows = id <$> rows.
Proof.
  unfold repair, _resolve_duplicate_pending_or_running_scan_hash_jobs,
    _resolve_duplicate_running_scan_hash_jobs.
  rewrite normalize_fmap, <- !list_fmap_compose.
  apply list_fmap_ext. intros i r _. simpl.
  repeat case_bool_decide; reflexivity.
Qed.

Lemma resolve_running_ids now rows :
  id <$> _resolve_duplicate_running_scan_hash_jobs now rows = id <$> rows.
Proof.
  unfold _resolve_duplicate_running_scan_hash_jobs.
  rewrite <- list_fmap_compose. apply list_fmap_ext. intros i r _. simpl.
  case_bool_decide; reflexivity.
Qed.

(** After the repair at most one scan/hash job is pending or running: the
    partial unique index can be built. *)
Lemma repair_single_active now rows :
  NoDup (id <$> rows) →
  (length (filter pending_or_running_scan_hash (repair now rows)) ≤ 1)%nat.
Proof.
  intros Hnd. unfold repair, _resolve_duplicate_pending_or_running_scan_hash_jobs.
  apply resolve_at_most_one.
  - by rewrite resolve_running_ids, normalize_fmap, normalized_ids.
  - apply reclassified_active_not_active.
  - done.
Qed.

Lemma filter_running_active rows :
  (length (filter running_scan_hash rows)
   ≤ length (filter pending_or_running_scan_hash rows))%nat.
Proof.
  induction rows as [|r rows IH]; [done|].
  rewrite !filter_cons. destruct (decide (running_scan_hash r)) as [Hr|].
  - rewrite decide_True by by apply running_is_active. simpl. lia.
  - destruct (decide (pending_or_running_scan_hash r)); simpl; lia.
Qed.

(** The repair changes nothing in a table it has repaired, whenever it is
    run again. *)
Lemma repair_repaired now now' rows :
  NoDup (id <$> rows) → repair now' (repair now rows) = repair now rows.
Proof.
  intros Hnd.
  pose proof (repair_single_active now rows Hnd) as Hone.
  pose proof (repair_normal now rows) as Hnormal.
  set (done := repair now rows) in *.
  unfold repair at 1. rewrite normalize_fmap.
  assert (normalized <$> done = done) as ->.
  { rewrite <- (list_fmap_id done) at 2. apply list_fmap_ext. intros i r Hr. simpl.
    apply list_elem_of_lookup_2 in Hr. rewrite Forall_forall in Hnormal.
    by apply Hnormal. }
  unfold _resolve_duplicate_running_scan_hash_jobs.
  rewrite resolve_nothing by (pose proof (filter_running_active done); lia).
  unfold _resolve_duplicate_pending_or_running_scan_hash_jobs.
  by rewrite resolve_nothing.
Qed.

(** [apply_migrations] on the rows of [jobs]: as soon as one of the three
    steps that repair them is still to run, the outcome is the repaired
    table, whichever of them run. *)
Lemma apply_migrations_repairs existing_versions now rows :
  NoDup (id <$> rows) →
  6 ∉ existing_versions ∨ 7 ∉ existing_versions ∨ 9 ∉ existing_versions →
  apply_migrations existing_versions now (Some rows) = Some (repair now rows).
Proof.
  intros Hnd Hpending. unfold apply_migrations, MIGRATIONS. cbn [foldl fst snd].
  repeat match goal with
  | |- context [if ?b then ?x else ?x] => replace (if b then x else x) with x by by destruct b
  end.
  unfold _migration_0006_jobs_lease_protocol,
    _migration_0007_normalize_enum_storage_for_rust_protocol,
    _migration_0009_scan_hash_admission_mutex.
  repeat case_bool_decide; cbn [fmap option_fmap option_map];
    rewrite ?repair_repaired by (by rewrite ?repair_ids); try done.
  exfalso. tauto.
Qed.

(** C9.  The migration [_migration_0009_scan_hash_admission_mutex], run on a
    jobs table with unique identifiers that holds two or more running
    scan/hash jobs: one of them, [keep], than which no running scan/hash job
    is older in the order [created_at ASC, id ASC], is the only running
    scan/hash row of the table the migration leaves (with [kind] and
    [status] in lower case); every other one is there as a retryable row with
    [error_code = MIGRATION_MUTEX_RECOVERY] and with [worker_id],
    [worker_heartbeat_at] and [lease_expires_at] cleared.  [apply_migrations]
    leaves that same table on every store in which this migration is still
    to run, whichever earlier steps run with it. *)
Theorem migration_keeps_oldest_running now rows :
  NoDup (id <$> rows) →
  (2 ≤ length (filter running_scan_hash rows))%nat →
  ∃ keep out,
    keep ∈ rows
    ∧ running_scan_hash keep
    ∧ (∀ r, r ∈ rows → running_scan_hash r → ¬ older r keep)
    ∧ _migration_0009_scan_hash_admission_mutex now (Some rows) = Some out
    ∧ (∀ existing_versions, 9 ∉ existing_versions →
         apply_migrations existing_versions now (Some rows) = Some out)
    ∧ filter running_scan_hash out = [normalized keep]
    ∧ status (normalized keep) = "running"
    ∧ ∀ r, r ∈ rows → running_scan_hash r → id r ≠ id keep →
        ∃ r', r' ∈ out
          ∧ r' = reclassified_running now (normalized r)
          ∧ id r' = id r
          ∧ status r' = "retryable"
          ∧ error_code r' = Some "MIGRATION_MUTEX_RECOVERY"
          ∧ worker_id r' = None
          ∧ worker_heartbeat_at r' = None
          ∧ lease_expires_at r' = None.
Proof.
  intros Hnd Hlen.
  set (rows0 := normalized <$> rows).
  assert (NoDup (id <$> rows0)) as Hnd0 by by (unfold rows0; rewrite normalized_ids).
  destruct (filter running_scan_hash rows) as [|r1 rest] eqn:Ecand; [simpl in Hlen; lia|].
  assert (r1 ∈ rows ∧ running_scan_hash r1) as [Hr1 Hrun1].
  { assert (r1 ∈ filter running_scan_hash rows) as H by (rewrite Ecand; apply list_elem_of_here).
    apply list_elem_of_filter in H. tauto. }
  destruct (head_order_by_is_Some created_asc (filter running_scan_hash rows0))
    as [keep0 Hfirst].
  { intros Hnil.
    assert (normalized r1 ∈ filter running_scan_hash rows0) as H.
    { apply list_elem_of_filter. split; [by apply running_normalized|].
      by apply list_elem_of_fmap_2. }
    rewrite Hnil in H. by apply elem_of_nil in H. }
  destruct (keep_candidate rows0 keep0 Hfirst) as [Hk0 Hrun0].
  apply list_elem_of_fmap in Hk0 as (keep & -> & Hkeep).
  exists keep, (repair now rows).
  split; [done|]. split; [by apply running_normalized|].
  split.
  { intros r Hr Hrun Hold. apply created_asc_spec in Hold.
    assert (created_asc (normalized r) (normalized keep) = false) as Hf.
    { apply (keep_oldest rows0 (normalized keep) Hfirst (normalized r));
        [by apply list_elem_of_fmap_2|by apply running_normalized]. }
    change (created_asc r keep = false) in Hf. congruence. }
  split; [done|].
  split; [by intros versions Hpending; apply apply_migrations_repairs; [|tauto]|].
  unfold repair. rewrite normalize_fmap. fold rows0.
  split; [by apply rows2_single_running|].
  split.
  { destruct Hrun0 as [Hs _]. simpl in *. by rewrite lower_idem in Hs. }
  intros r Hr Hrun Hne. exists (reclassified_running now (normalized r)).
  split; [|done].
  apply (rows2_reclassified now rows0 (normalized keep) Hnd0 Hfirst);
    [by apply list_elem_of_fmap_2|by apply running_normalized|done].
Qed.

Lemma migration_keeps_oldest_running_witness :
  ∃ keep out,
    keep ∈ Samples.legacy_rows
    ∧ running_scan_hash keep
    ∧ (∀ r, r ∈ Samples.legacy_rows → running_scan_hash r → ¬ older r keep)
    ∧ _migration_0009_scan_hash_admission_mutex 100 (Some Samples.legacy_rows) = Some out
    ∧ (∀ existing_versions, 9 ∉ existing_versions →
         apply_migrations existing_versions 100 (Some Samples.legacy_rows) = Some out)
    ∧ filter running_scan_hash out = [normalized keep]
    ∧ status (normalized keep) = "running"
    ∧ ∀ r, r ∈ Samples.legacy_rows → running_scan_hash r → id r ≠ id keep →
        ∃ r', r' ∈ out
          ∧ r' = reclassified_running 100 (normalized r)
          ∧ id r' = id r
          ∧ status r' = "retryable"
          ∧ error_code r' = Some "MIGRATION_MUTEX_RECOVERY"
          ∧ worker_id r' = None
          ∧ worker_heartbeat_at r' = None
          ∧ lease_expires_at r' = None.
Proof.
  apply (migration_keeps_oldest_running 100 Samples.legacy_rows).
  - apply (bool_decide_unpack (NoDup (id <$> Samples.legacy_rows))). reflexivity.
  - apply (bool_decide_unpack
             (2 ≤ length (filter running_scan_hash Samples.legacy_rows))%nat).
    reflexivity.
Defined.

(** At the sample table: job-a stays running, job-b becomes retryable with
    the recovery code, and the pending job-c is reclassified by the second
    repair. *)
Example migration_sample :
  (λ r, (id r, kind r, status r, error_code r))
    <$> default [] (_migration_0009_scan_hash_admission_mutex 100 (Some Samples.legacy_rows))
  = [ ("job-b", "hash", "retryable", Some "MIGRATION_MUTEX_RECOVERY");
      ("job-a", "scan", "running", None);
      ("job-c", "scan", "retryable", Some "MIGRATION_ACTIVE_RECOVERY") ].
Proof. reflexivity. Qed.

(** The same table on a store that has recorded the versions 1 to 6, as the
    store of the test suite has: the steps 7 and 9 both run the repair. *)
Example apply_migrations_sample :
  (λ r, (id r, kind r, status r, error_code r))
    <$> default [] (apply_migrations [1; 2; 3; 4; 5; 6] 100 (Some Samples.legacy_rows))
  = [ ("job-b", "hash", "retryable", Some "MIGRATION_MUTEX_RECOVERY");
      ("job-a", "scan", "running", None);
      ("job-c", "scan", "retryable", Some "MIGRATION_ACTIVE_RECOVERY") ].
Proof. reflexivity. Qed.

(** Once the migrations have run on a store in which the admission-mutex
    step was still to run, at most one scan/hash job is pending or running:
    the partial unique index [ix_jobs_single_active_scan_hash] can be
    built. *)
Theorem migrations_allow_unique_index now rows versions :
  NoDup (id <$> rows) →
  9 ∉ versions →
  ∃ out,
    apply_migrations versions now (Some rows) = Some out
    ∧ index_builds out = true.
Proof.
  intros Hnd Hpending. exists (repair now rows). split.
  - apply apply_migrations_repairs; [done|tauto].
  - unfold index_builds. apply bool_decide_eq_true. by apply repair_single_active.
Qed.

Lemma migrations_allow_unique_index_witness :
  ∃ out,
    apply_migrations [1; 2; 3; 4; 5; 6] 100 (Some Samples.legacy_rows) = Some out
    ∧ index_builds out = true.
Proof.
  apply (migrations_allow_unique_index 100 Samples.legacy_rows [1; 2; 3; 4; 5; 6]).
  - apply (bool_decide_unpack (NoDup (id <$> Samples.legacy_rows))). reflexivity.
  - apply (bool_decide_unpack (9 ∉ [1; 2; 3; 4; 5; 6])). reflexivity.
Defined.


(** *** What the repair leaves of a row *)

Lemma active_normalized r :
  pending_or_running_scan_hash (normalized r) ↔ pending_or_running_scan_hash r.
Proof. unfold pending_or_running_scan_hash. simpl. by rewrite !lower_idem. Qed.

(** The repair, row by row: a row is lower-cased, and rewritten by one of the
    two updates at most, which it passes the filter of. *)
Lemma repair_row now rows i r :
  NoDup (id <$> rows) → rows !! i = Some r →
  ∃ r', repair now rows !! i = Some r'
    ∧ (r' = normalized r
       ∨ (running_scan_hash r ∧ r' = reclassified_running now (normalized r))
       ∨ (pending_or_running_scan_hash r ∧ r' = reclassified_active now (normalized r))).
Proof.
  intros Hnd Hi.
  unfold repair, _resolve_duplicate_pending_or_running_scan_hash_jobs.
  set (rows1 := _resolve_duplicate_running_scan_hash_jobs now (_normalize_job_enum_values rows)).
  assert (NoDup (id <$> (normalized <$> rows))) as Hnd0 by by rewrite normalized_ids.
  assert (NoDup (id <$> rows1)) as Hnd1.
  { unfold rows1. by rewrite resolve_running_ids, normalize_fmap. }
  assert (∃ r1, rows1 !! i = Some r1
                ∧ (r1 = normalized r
                   ∨ (running_scan_hash r ∧ r1 = reclassified_running now (normalized r))))
    as (r1 & Hr1 & Hcase).
  { unfold rows1, _resolve_duplicate_running_scan_hash_jobs.
    rewrite normalize_fmap, !list_lookup_fmap, Hi. simpl. eexists. split; [done|].
    case_bool_decide as Hin; [|by left]. right. split; [|done].
    apply running_normalized.
    apply (id_in_filter running_scan_hash (normalized <$> rows)); [done| |].
    - apply list_elem_of_fmap. exists r. split; [done|]. by eapply list_elem_of_lookup_2.
    - by eapply beyond_first_sub. }
  rewrite list_lookup_fmap, Hr1. simpl. eexists. split; [done|].
  case_bool_decide as Hin.
  - assert (pending_or_running_scan_hash r1) as Hact.
    { apply (id_in_filter pending_or_running_scan_hash rows1); [done| |].
      - by eapply list_elem_of_lookup_2.
      - by eapply beyond_first_sub. }
    destruct Hcase as [->|[_ ->]].
    + right. right. split; [by apply active_normalized|done].
    + by apply reclassified_running_not_active in Hact.
  - destruct Hcase as [->|[Hrun ->]]; [by left|]. right. by left.
Qed.

(** With the three repairing steps recorded, no step touches the rows. *)
Lemma apply_migrations_recorded existing_versions now jobs :
  6 ∈ existing_versions → 7 ∈ existing_versions → 9 ∈ existing_versions →
  apply_migrations existing_versions now jobs = jobs.
Proof.
  intros H6 H7 H9. unfold apply_migrations, MIGRATIONS. cbn [foldl fst snd].
  repeat match goal with
  | |- context [if ?b then ?x else ?x] => replace (if b then x else x) with x by by destruct b
  end.
  by rewrite !bool_decide_eq_true_2 by done.
Qed.

(** X25.  [apply_migrations] on a jobs table with unique ids deletes, adds and
    reorders no job.  A job is left as it is, or with [kind] and [status] in
    lower case, or, only if it was a pending or running scan/hash job, as a
    retryable job with its [kind] in lower case, the worker, the heartbeat
    and the lease cleared, an error code, [updated_at] now and a
    [finished_at]; its [id], [dry_run], [payload], [progress] and
    [created_at] are kept.  With the migrations 6, 7 and 9 recorded the table
    is not touched; and once one of them has run, a later run leaves the
    table as it is, whichever versions are recorded then. *)
Theorem migrations_keep_jobs existing_versions now rows :
  NoDup (id <$> rows) →
  ∃ out,
    apply_migrations existing_versions now (Some rows) = Some out
    ∧ id <$> out = id <$> rows
    ∧ (∀ i r, rows !! i = Some r →
         ∃ r', out !! i = Some r'
           ∧ (r' = r ∨ r' = normalized r
              ∨ (pending_or_running_scan_hash r
                 ∧ status r' = "retryable"
                 ∧ kind r' = lower (kind r)
                 ∧ worker_id r' = None
                 ∧ worker_heartbeat_at r' = None
                 ∧ lease_expires_at r' = None
                 ∧ is_Some (error_code r')
                 ∧ updated_at r' = now
                 ∧ finished_at r' = Some (default now (finished_at r))
                 ∧ id r' = id r ∧ dry_run r' = dry_run r ∧ payload r' = payload r
                 ∧ progress r' = progress r ∧ created_at r' = created_at r)))
    ∧ (6 ∈ existing_versions → 7 ∈ existing_versions → 9 ∈ existing_versions →
       out = rows)
    ∧ (6 ∉ existing_versions ∨ 7 ∉ existing_versions ∨ 9 ∉ existing_versions →
       ∀ versions' now', apply_migrations versions' now' (Some out) = Some out).
Proof.
  intros Hnd.
  destruct (decide (6 ∈ existing_versions ∧ 7 ∈ existing_versions ∧ 9 ∈ existing_versions))
    as [(H6 & H7 & H9)|Hpending].
  - exists rows. split; [by apply apply_migrations_recorded|]. split; [done|].
    split; [|split; [done|]].
    + intros i r Hi. exists r. split; [done|by left].
    + intros [H|[H|H]]; done.
  - assert (6 ∉ existing_versions ∨ 7 ∉ existing_versions ∨ 9 ∉ existing_versions)
      as Hsome.
    { destruct (decide (6 ∈ existing_versions)); [|by left].
      destruct (decide (7 ∈ existing_versions)); [|by right; left].
      destruct (decide (9 ∈ existing_versions)); [|by right; right].
      exfalso. by apply Hpending. }
    exists (repair now rows).
    split; [by apply apply_migrations_repairs|]. split; [apply repair_ids|].
    split; [|split].
    + intros i r Hi. destruct (repair_row now rows i r Hnd Hi) as (r' & Hr' & Hcase).
      exists r'. split; [done|].
      destruct Hcase as [->|[[Hrun ->]|[Hact ->]]]; [by right; left|..];
        right; right.
      * split; [by apply running_is_active|]. simpl. repeat split; eauto.
      * split; [done|]. simpl. repeat split; eauto.
        destruct (null_or_blank (error_code r)) eqn:E; [eauto|].
        destruct (error_code r); [eauto|done].
    + intros H6 H7 H9. exfalso. by apply Hpending.
    + intros _ versions' now'.
      destruct (decide (6 ∈ versions' ∧ 7 ∈ versions' ∧ 9 ∈ versions'))
        as [(H6 & H7 & H9)|Hp'].
      * by apply apply_migrations_recorded.
      * rewrite apply_migrations_repairs.
        -- by rewrite repair_repaired.
        -- by rewrite repair_ids.
        -- destruct (decide (6 ∈ versions')); [|by left].
           destruct (decide (7 ∈ versions')); [|by right; left].
           destruct (decide (9 ∈ versions')); [|by right; right].
           exfalso. by apply Hp'.
Qed.

Lemma migrations_keep_jobs_witness :
  ∃ out,
    apply_migrations [1; 2; 3; 4; 5; 6; 7; 8] 100 (Some Samples.legacy_rows) = Some out
    ∧ id <$> out = id <$> Samples.legacy_rows
    ∧ (∀ i r, Samples.legacy_rows !! i = Some r →
         ∃ r', out !! i = Some r'
           ∧ (r' = r ∨ r' = normalized r
              ∨ (pending_or_running_scan_hash r
                 ∧ status r' = "retryable"
                 ∧ kind r' = lower (kind r)
                 ∧ worker_id r' = None
                 ∧ worker_heartbeat_at r' = None
                 ∧ lease_expires_at r' = None
                 ∧ is_Some (error_code r')
                 ∧ updated_at r' = 100
                 ∧ finished_at r' = Some (default 100 (finished_at r))
                 ∧ id r' = id r ∧ dry_run r' = dry_run r ∧ payload r' = payload r
                 ∧ progress r' = progress r ∧ created_at r' = created_at r)))
    ∧ (6 ∈ [1; 2; 3; 4; 5; 6; 7; 8] → 7 ∈ [1; 2; 3; 4; 5; 6; 7; 8] →
       9 ∈ [1; 2; 3; 4; 5; 6; 7; 8] → out = Samples.legacy_rows)
    ∧ (6 ∉ [1; 2; 3; 4; 5; 6; 7; 8] ∨ 7 ∉ [1; 2; 3; 4; 5; 6; 7; 8]
       ∨ 9 ∉ [1; 2; 3; 4; 5; 6; 7; 8] →
       ∀ versions' now', apply_migrations versions' now' (Some out) = Some out).
Proof.
  apply (migrations_keep_jobs [1; 2; 3; 4; 5; 6; 7; 8] 100 Samples.legacy_rows).
  apply (bool_decide_unpack (NoDup (id <$> Samples.legacy_rows))). reflexivity.
Defined.

End MigrationsFacts.

(** ** The cursor codec *)

Module CursorFacts.
Import Models Cursor.

Local Open Scope N_scope.
Local Open Scope list_scope.

(** Case analysis on the comparisons of code points in the goal, innermost
    first. *)
Ltac no_conditional t :=
  lazymatch t with
  | context [if _ then _ else _] => fail
  | _ => idtac
  end.

Ltac code_point_cases :=
  repeat (cbv iota; cbn [andb orb negb implb];
          match goal with
          | |- context [N.eqb ?a ?b] =>
              no_conditional a; no_conditional b;
              destruct (N.eqb_spec a b); try lia
          | |- context [N.leb ?a ?b] =>
              no_conditional a; no_conditional b;
              destruct (N.leb_spec a b); try lia
          | |- context [N.ltb ?a ?b] =>
              no_conditional a; no_conditional b;
              destruct (N.ltb_spec a b); try lia
          end);
  cbv iota; cbn [andb orb negb implb].

(** Linear arithmetic with quotients and remainders by constants. *)
Ltac lia_div := zify; Z.to_euclidean_division_equations; lia.

(** The characters of a lower-case hexadecimal numeral. *)
Definition lower_hex (c : N) : Prop := 48 ≤ c ≤ 57 ∨ 97 ≤ c ≤ 102.

(** Characters a JSON string holds as they are, and that [ensure_ascii]
    leaves alone. *)
Definition plain (c : N) : Prop := 32 ≤ c ≤ 126 ∧ c ≠ 34 ∧ c ≠ 92.

Lemma lower_hex_plain c : lower_hex c → plain c.
Proof. unfold lower_hex, plain. lia. Qed.

Lemma escape_char_plain c : plain c → escape_char c = [c].
Proof.
  unfold plain, escape_char. intros Hc.
  code_point_cases; reflexivity.
Qed.

Lemma escape_plain s : Forall plain s → s ≫= escape_char = s.
Proof.
  induction 1 as [|c s Hc _ IH]; [done|].
  rewrite bind_cons, IH, (escape_char_plain c Hc). done.
Qed.

Lemma dumps_str_plain s : Forall plain s → dumps_str s = 34 :: s ++ [34].
Proof. intros Hs. unfold dumps_str. by rewrite (escape_plain s Hs). Qed.

Lemma lower_char_hex c : lower_hex c → lower_char c = [c].
Proof.
  unfold lower_hex, lower_char. intros Hc.
  code_point_cases; reflexivity.
Qed.

Lemma lower_hex_text s : Forall lower_hex s → lower s = s.
Proof.
  induction 1 as [|c s Hc _ IH]; [done|].
  unfold lower in *. rewrite bind_cons, IH, (lower_char_hex c Hc). done.
Qed.

Lemma hex_value_lower c : lower_hex c → is_Some (hex_value c).
Proof.
  unfold lower_hex, hex_value. intros Hc.
  code_point_cases; eauto.
Qed.

Lemma isspace_ascii_hex c : lower_hex c → isspace_ascii c = false.
Proof.
  unfold lower_hex, isspace_ascii. intros Hc.
  code_point_cases; reflexivity.
Qed.

(** [bytes.fromhex] accepts an even number of hexadecimal digits. *)
Lemma fromhex_lower_hex n s :
  length s = (2 * n)%nat → Forall lower_hex s → is_Some (fromhex s).
Proof.
  revert s. induction n as [|n IH]; intros s Hlen Hs.
  - destruct s; [by eexists|done].
  - destruct s as [|c [|d s]]; simpl in Hlen; try lia.
    apply Forall_cons in Hs as [Hc Hs]. apply Forall_cons in Hs as [Hd Hs].
    destruct (hex_value_lower c Hc) as [top Htop].
    destruct (hex_value_lower d Hd) as [bot Hbot].
    destruct (IH s ltac:(lia) Hs) as [tail Htail].
    simpl. rewrite (isspace_ascii_hex c Hc), Htop, Hbot, Htail. by eexists.
Qed.

(** *** Decimal numerals *)

Lemma value_of_digits_snoc ds d :
  value_of_digits (ds ++ [d]) = 10 * value_of_digits ds + (d - 48).
Proof. unfold value_of_digits. by rewrite fold_left_app. Qed.

Lemma digits_of_app fuel n acc :
  digits_of fuel n acc = digits_of fuel n [] ++ acc.
Proof.
  revert n acc. induction fuel as [|fuel IH]; intros n acc; simpl; [done|].
  destruct (n <? 10); [done|].
  rewrite (IH _ (_ :: acc)), (IH _ [_]), <- app_assoc. done.
Qed.

Lemma is_digit_spec c : is_digit c = true ↔ 48 ≤ c ≤ 57.
Proof. unfold is_digit. code_point_cases; simpl; split; (done || lia). Qed.

Lemma digits_of_S fuel n acc :
  digits_of (S fuel) n acc =
  if n <? 10 then (48 + n mod 10) :: acc
  else digits_of fuel (n / 10) ((48 + n mod 10) :: acc).
Proof. reflexivity. Qed.

(** What [digits_of] writes when the fuel covers the number: digits whose
    value is the number, the first of them not [0] unless the number is. *)
Lemma digits_of_spec fuel n :
  n < 2 ^ N.of_nat (S fuel) →
  ∃ d ds,
    digits_of (S fuel) n [] = d :: ds ∧
    48 ≤ d ≤ 57 ∧ (0 < n → 49 ≤ d) ∧
    Forall (λ c, is_digit c = true) ds ∧
    value_of_digits (d :: ds) = n.
Proof.
  revert n. induction fuel as [|fuel IH]; intros n Hn.
  - exists (48 + n), []. change (2 ^ N.of_nat 1) with 2 in Hn.
    rewrite digits_of_S. destruct (N.ltb_spec n 10) as [Hlt|]; [|lia].
    rewrite (N.mod_small n 10 Hlt).
    repeat split; try lia; [constructor|].
    unfold value_of_digits. simpl. lia.
  - rewrite digits_of_S. destruct (N.ltb_spec n 10) as [Hlt|Hge].
    + exists (48 + n mod 10), [].
      rewrite (N.mod_small n 10 Hlt).
      repeat split; try lia; [constructor|].
      unfold value_of_digits. simpl. lia.
    + assert (n / 10 < 2 ^ N.of_nat (S fuel)) as Hdiv.
      { rewrite Nat2N.inj_succ, N.pow_succ_r' in Hn.
        apply N.Div0.div_lt_upper_bound. lia. }
      destruct (IH (n / 10) Hdiv) as (d & ds & Heq & Hd & Hpos & Hds & Hval).
      rewrite digits_of_app, Heq.
      exists d, (ds ++ [48 + n mod 10]). split; [done|].
      assert (n mod 10 < 10) as Hmod by (apply N.mod_lt; lia).
      assert (0 < n / 10) as Hq.
      { apply N.div_str_pos. lia. }
      repeat split; try (clear -Hd Hpos Hq Hmod; lia_div).
      * apply Forall_app. split; [done|]. constructor; [|constructor].
        apply is_digit_spec. clear -Hmod. lia_div.
      * rewrite app_comm_cons, value_of_digits_snoc, Hval.
        clear. lia_div.
Qed.

Lemma str_of_N_spec n :
  ∃ d ds,
    str_of_N n = d :: ds ∧
    48 ≤ d ≤ 57 ∧ (0 < n → 49 ≤ d) ∧
    Forall (λ c, is_digit c = true) ds ∧
    value_of_digits (d :: ds) = n.
Proof.
  apply digits_of_spec.
  rewrite Nat2N.inj_succ, N2Nat.id.
  destruct n as [|p]; [done|].
  apply N.log2_spec. lia.
Qed.

Lemma span_digits_all ds rest :
  Forall (λ c, is_digit c = true) ds →
  match rest with [] => True | c :: _ => is_digit c = false end →
  span_digits (ds ++ rest) = (ds, rest).
Proof.
  intros Hds Hrest. induction Hds as [|c ds Hc _ IH]; cbn [span_digits app].
  - destruct rest as [|c rest]; [done|]. cbn [span_digits]. by rewrite Hrest.
  - by rewrite Hc, IH.
Qed.

(** *** Base64 *)

Lemma chunks_of_three_ind (P : octets → Prop) :
  P [] → (∀ x, P [x]) → (∀ x y, P [x; y]) →
  (∀ x y z rest, P rest → P (x :: y :: z :: rest)) →
  ∀ data, P data.
Proof.
  intros H0 H1 H2 H3. fix IH 1.
  intros [|x [|y [|z rest]]]; [apply H0|apply H1|apply H2|apply H3, IH].
Qed.

(** The characters of the URL-safe alphabet. *)
Definition alphabet (c : N) : Prop :=
  65 ≤ c ≤ 90 ∨ 97 ≤ c ≤ 122 ∨ 48 ≤ c ≤ 57 ∨ c = 45 ∨ c = 95.

Definition url_char (v : N) : N := _urlsafe_encode_translation (b2a v).

Lemma url_char_alphabet v : alphabet (url_char v).
Proof.
  unfold alphabet, url_char, b2a, _urlsafe_encode_translation.
  code_point_cases; lia.
Qed.

Lemma a2b_url_char v :
  v < 64 → a2b (_urlsafe_decode_translation (url_char v)) = Some v.
Proof.
  intros Hv.
  unfold url_char, b2a, _urlsafe_encode_translation, _urlsafe_decode_translation, a2b.
  code_point_cases; f_equal; lia.
Qed.

Lemma decode_translation_not_pad c :
  alphabet c → (_urlsafe_decode_translation c =? 61) = false.
Proof.
  unfold alphabet, _urlsafe_decode_translation. intros Hc.
  code_point_cases; reflexivity.
Qed.

(** One character of the alphabet read by the decoder. *)
Lemma a2b_base64_char v rest quad_pos leftchar pads :
  v < 64 →
  a2b_base64 (_urlsafe_decode_translation (url_char v) :: rest) quad_pos leftchar pads =
  if quad_pos =? 0 then a2b_base64 rest 1 v 0
  else if quad_pos =? 1 then
    cons (leftchar * 4 + v / 16) <$> a2b_base64 rest 2 (v mod 16) 0
  else if quad_pos =? 2 then
    cons (leftchar * 16 + v / 4) <$> a2b_base64 rest 3 (v mod 4) 0
  else cons (leftchar * 64 + v) <$> a2b_base64 rest 0 0 0.
Proof.
  intros Hv. cbn [a2b_base64].
  rewrite (decode_translation_not_pad _ (url_char_alphabet v)).
  by rewrite (a2b_url_char v Hv).
Qed.

Lemma a2b_base64_two_pads leftchar : a2b_base64 [61; 61] 2 leftchar 0 = Some [].
Proof. reflexivity. Qed.

Lemma a2b_base64_one_pad leftchar : a2b_base64 [61] 3 leftchar 0 = Some [].
Proof. reflexivity. Qed.

(** Decoding undoes encoding, padding included. *)
Lemma a2b_base64_b2a_base64 data :
  Forall (λ b, b < 256) data →
  urlsafe_b64decode (urlsafe_b64encode data) = Some data.
Proof.
  unfold urlsafe_b64decode, urlsafe_b64encode.
  induction data as [|x|x y|x y z rest IH] using chunks_of_three_ind; intros Hdata.
  - reflexivity.
  - apply Forall_cons in Hdata as [Hx _].
    cbn [b2a_base64 fmap list_fmap].
    fold (url_char (x / 4)). fold (url_char (x mod 4 * 16)).
    rewrite a2b_base64_char by lia_div. cbn [N.eqb].
    rewrite a2b_base64_char by lia_div. cbn [N.eqb Pos.eqb].
    change (_urlsafe_decode_translation <$> [61; 61]) with [61; 61].
    rewrite a2b_base64_two_pads. cbn [fmap option_fmap option_map].
    f_equal. f_equal. lia_div.
  - apply Forall_cons in Hdata as [Hx Hdata]. apply Forall_cons in Hdata as [Hy _].
    cbn [b2a_base64 fmap list_fmap].
    fold (url_char (x / 4)). fold (url_char (x mod 4 * 16 + y / 16)).
    fold (url_char (y mod 16 * 4)).
    rewrite a2b_base64_char by lia_div. cbn [N.eqb].
    rewrite a2b_base64_char by lia_div. cbn [N.eqb Pos.eqb].
    rewrite a2b_base64_char by lia_div. cbn [N.eqb Pos.eqb].
    change (_urlsafe_decode_translation <$> [61]) with [61].
    rewrite a2b_base64_one_pad. cbn [fmap option_fmap option_map].
    f_equal. f_equal; [lia_div|]. f_equal. lia_div.
  - apply Forall_cons in Hdata as [Hx Hdata]. apply Forall_cons in Hdata as [Hy Hdata].
    apply Forall_cons in Hdata as [Hz Hdata].
    cbn [b2a_base64 fmap list_fmap].
    fold (url_char (x / 4)). fold (url_char (x mod 4 * 16 + y / 16)).
    fold (url_char (y mod 16 * 4 + z / 64)). fold (url_char (z mod 64)).
    rewrite a2b_base64_char by lia_div. cbn [N.eqb].
    rewrite a2b_base64_char by lia_div. cbn [N.eqb Pos.eqb].
    rewrite a2b_base64_char by lia_div. cbn [N.eqb Pos.eqb].
    rewrite a2b_base64_char by lia_div. cbn [N.eqb Pos.eqb].
    rewrite (IH Hdata). cbn [fmap option_fmap option_map].
    f_equal. f_equal; [lia_div|]. f_equal; [lia_div|]. f_equal. lia_div.
Qed.

Lemma alphabet_not_pad c : alphabet c → c ≠ 61.
Proof. unfold alphabet. lia. Qed.

Lemma rstrip_char_cons x c s :
  c ≠ x → rstrip_char x (c :: s) = c :: rstrip_char x s.
Proof.
  intros Hc. cbn [rstrip_char].
  destruct (N.eqb_spec c x); [done|]. by destruct (rstrip_char x s).
Qed.

Lemma pad_length_four (n : nat) :
  Z.to_nat ((- Z.of_nat (S (S (S (S n))))) mod 4) = Z.to_nat ((- Z.of_nat n) mod 4).
Proof. f_equal. lia_div. Qed.

(** The token: the encoding without its padding.  It is made of characters
    of the alphabet, and the padding the decoder computes from its length
    is the padding that was removed. *)
Definition token_of (data : octets) : text := rstrip_char 61 (urlsafe_b64encode data).

Lemma token_of_alphabet data : Forall alphabet (token_of data).
Proof.
  unfold token_of, urlsafe_b64encode.
  induction data as [|x|x y|x y z rest IH] using chunks_of_three_ind;
    cbn [b2a_base64 fmap list_fmap];
    repeat match goal with
    | |- context [_urlsafe_encode_translation (b2a ?v)] => fold (url_char v)
    end.
  - constructor.
  - rewrite !rstrip_char_cons by (apply alphabet_not_pad, url_char_alphabet).
    repeat (constructor; [apply url_char_alphabet|]). constructor.
  - rewrite !rstrip_char_cons by (apply alphabet_not_pad, url_char_alphabet).
    repeat (constructor; [apply url_char_alphabet|]). constructor.
  - rewrite !rstrip_char_cons by (apply alphabet_not_pad, url_char_alphabet).
    repeat (constructor; [apply url_char_alphabet|]). exact IH.
Qed.

Lemma token_of_padded data :
  token_of data ++ replicate (Z.to_nat ((- Z.of_nat (length (token_of data))) mod 4)) 61
  = urlsafe_b64encode data.
Proof.
  unfold token_of, urlsafe_b64encode.
  induction data as [|x|x y|x y z rest IH] using chunks_of_three_ind;
    cbn [b2a_base64 fmap list_fmap];
    repeat match goal with
    | |- context [_urlsafe_encode_translation (b2a ?v)] => fold (url_char v)
    end.
  - reflexivity.
  - rewrite !rstrip_char_cons by (apply alphabet_not_pad, url_char_alphabet).
    reflexivity.
  - rewrite !rstrip_char_cons by (apply alphabet_not_pad, url_char_alphabet).
    reflexivity.
  - rewrite !rstrip_char_cons by (apply alphabet_not_pad, url_char_alphabet).
    cbn [length]. rewrite pad_length_four. cbn [app]. by rewrite IH.
Qed.

Lemma token_of_nonempty x data : token_of (x :: data) ≠ [].
Proof.
  unfold token_of, urlsafe_b64encode.
  destruct data as [|y [|z rest]]; cbn [b2a_base64 fmap list_fmap];
    fold (url_char (x / 4));
    rewrite rstrip_char_cons by (apply alphabet_not_pad, url_char_alphabet);
    done.
Qed.

Lemma alphabet_not_space c : alphabet c → isspace c = false.
Proof. unfold alphabet, isspace. intros Hc. code_point_cases; reflexivity. Qed.

Lemma strip_no_space s : Forall (λ c, isspace c = false) s → strip s = s.
Proof.
  intros Hs. unfold strip.
  assert (lstrip s = s) as ->.
  { destruct Hs as [|c s Hc _]; [done|]. cbn [lstrip]. by rewrite Hc. }
  induction Hs as [|c s Hc _ IH]; [done|].
  cbn [rstrip]. rewrite IH, Hc. by destruct s.
Qed.

Lemma strip_token_of data : strip (token_of data) = token_of data.
Proof.
  apply strip_no_space.
  eapply Forall_impl; [apply token_of_alphabet|]. apply alphabet_not_space.
Qed.

Lemma urlsafe_b64encode_ascii data :
  Forall (λ c, c < 128) (urlsafe_b64encode data).
Proof.
  unfold urlsafe_b64encode.
  assert (forall v, url_char v < 128) as Hchar.
  { intros v. pose proof (url_char_alphabet v) as Hv. unfold alphabet in Hv. lia. }
  induction data as [|x|x y|x y z rest IH] using chunks_of_three_ind;
    cbn [b2a_base64 fmap list_fmap];
    repeat match goal with
    | |- context [_urlsafe_encode_translation (b2a ?v)] => fold (url_char v)
    end;
    repeat (constructor; [apply Hchar || done|]); (constructor || exact IH).
Qed.

(** *** ASCII text under the codecs *)

Lemma forallb_ascii s : Forall (λ c, c < 128) s → forallb (λ c, c <? 128) s = true.
Proof.
  induction 1 as [|c s Hc _ IH]; [done|].
  cbn [forallb]. rewrite IH. by destruct (N.ltb_spec c 128); [|lia].
Qed.

Lemma encode_ascii_ascii s : Forall (λ c, c < 128) s → encode_ascii s = Some s.
Proof. intros Hs. unfold encode_ascii. by rewrite forallb_ascii. Qed.

Lemma encode_utf8_ascii s : Forall (λ c, c < 128) s → encode_utf8 s = Some s.
Proof.
  induction 1 as [|c s Hc _ IH]; [done|].
  cbn [encode_utf8]. rewrite IH. unfold utf8_of_char.
  by destruct (N.ltb_spec c 128); [|lia].
Qed.

Lemma decode_utf8_ascii s : Forall (λ c, c < 128) s → decode_utf8 s = Some s.
Proof.
  induction 1 as [|c s Hc _ IH]; [done|].
  cbn [decode_utf8]. rewrite IH.
  by destruct (N.ltb_spec c 128); [|lia].
Qed.

(** *** JSON text *)

Lemma plain_char_cases c :
  plain c → (c =? 34) = false ∧ (c =? 92) = false ∧ (c <? 32) = false.
Proof. unfold plain. intros Hc. repeat split; code_point_cases; reflexivity. Qed.

Lemma string_body_plain s rest :
  Forall plain s → string_body (s ++ 34 :: rest) = Some (s, rest).
Proof.
  induction 1 as [|c s Hc _ IH]; [reflexivity|].
  destruct (plain_char_cases c Hc) as (Hq & Hb & _).
  cbn [app string_body]. by rewrite Hq, Hb, IH.
Qed.

Lemma unescape_plain s : Forall plain s → unescape s = Some s.
Proof.
  induction 1 as [|c s Hc _ IH]; [reflexivity|].
  destruct (plain_char_cases c Hc) as (_ & Hb & Hctl).
  cbn [unescape]. by rewrite Hb, Hctl, IH.
Qed.

Lemma scan_once_string fuel s rest :
  Forall plain s →
  scan_once (S fuel) (34 :: s ++ 34 :: rest) = Some (JStr s, rest).
Proof.
  intros Hs. cbn [scan_once]. change (34 =? 34) with true. cbv iota.
  rewrite (string_body_plain s rest Hs). cbn [mbind option_bind].
  by rewrite (unescape_plain s Hs).
Qed.

(** What may follow a number without being read as part of it. *)
Definition closes_number (c : N) : Prop := c = 44 ∨ c = 125.

Lemma match_number_int d ds c rest :
  49 ≤ d ≤ 57 → Forall (λ c, is_digit c = true) ds → closes_number c →
  match_number (d :: ds ++ c :: rest)
  = Some (JInt (Z.of_N (value_of_digits (d :: ds))), c :: rest).
Proof.
  intros Hd Hds Hc. unfold match_number.
  destruct (N.eqb_spec d 45); [lia|].
  destruct (N.leb_spec 49 d); [|lia]. destruct (N.leb_spec d 57); [|lia].
  cbn [andb]. rewrite (span_digits_all ds (c :: rest) Hds).
  2:{ unfold closes_number in Hc. unfold is_digit. code_point_cases; reflexivity. }
  assert ((c =? 46) = false /\ (c =? 101) = false /\ (c =? 69) = false)
    as (Hdot & He1 & He2).
  { unfold closes_number in Hc. repeat split; code_point_cases; reflexivity. }
  destruct rest as [|c' rest]; rewrite ?Hdot, ?He1, ?He2; cbn [andb orb];
    rewrite ?He1, ?He2; reflexivity.
Qed.

Lemma strip_prefix_head x prefix d s :
  x ≠ d → strip_prefix (x :: prefix) (d :: s) = None.
Proof. intros Hx. cbn [strip_prefix]. by destruct (N.eqb_spec x d). Qed.

Lemma scan_once_int fuel d ds c rest :
  49 ≤ d ≤ 57 → Forall (λ c, is_digit c = true) ds → closes_number c →
  scan_once (S fuel) (d :: ds ++ c :: rest)
  = Some (JInt (Z.of_N (value_of_digits (d :: ds))), c :: rest).
Proof.
  intros Hd Hds Hc. rewrite <- (match_number_int d ds c rest Hd Hds Hc).
  cbn [scan_once].
  destruct (N.eqb_spec d 34); [lia|]. destruct (N.eqb_spec d 123); [lia|].
  destruct (N.eqb_spec d 91); [lia|].
  change (lit "null") with (110 :: lit "ull").
  change (lit "true") with (116 :: lit "rue").
  change (lit "false") with (102 :: lit "alse").
  change (lit "NaN") with (78 :: lit "aN").
  change (lit "Infinity") with (73 :: lit "nfinity").
  change (lit "-Infinity") with (45 :: lit "Infinity").
  rewrite !strip_prefix_head by lia. reflexivity.
Qed.

Lemma skip_ws_head c s : is_ws c = false → skip_ws (c :: s) = c :: s.
Proof. intros Hc. cbn [skip_ws]. by rewrite Hc. Qed.

(** One member of an object: a key that needs no escape, a colon, a value,
    with no white space between them. *)
Lemma object_members_member fuel key c after_colon value after_value :
  Forall plain key → is_ws c = false →
  scan_once fuel (c :: after_colon) = Some (value, after_value) →
  object_members (S fuel) (34 :: key ++ 34 :: 58 :: c :: after_colon)
  = match skip_ws after_value with
    | e :: tail =>
        if e =? 125 then Some ([(key, value)], tail)
        else if e =? 44 then
          '(more, tail) ← object_members fuel (skip_ws tail);
          Some ((key, value) :: more, tail)
        else None
    | [] => None
    end.
Proof.
  intros Hkey Hc Hvalue. cbn [object_members].
  change (34 =? 34) with true. cbv iota.
  rewrite (string_body_plain key _ Hkey). cbn [mbind option_bind].
  rewrite (unescape_plain key Hkey).
  rewrite (skip_ws_head 58) by reflexivity.
  change (58 =? 58) with true. cbv iota.
  rewrite (skip_ws_head c _ Hc), Hvalue. reflexivity.
Qed.

Lemma scan_once_str_of_int fuel n c rest :
  (0 < n)%Z → closes_number c →
  ∃ d tail,
    str_of_int n ++ c :: rest = d :: tail ∧ is_ws d = false ∧
    scan_once (S fuel) (d :: tail) = Some (JInt n, c :: rest).
Proof.
  intros Hn Hc. unfold str_of_int.
  destruct (Z.ltb_spec n 0); [lia|].
  destruct (str_of_N_spec (Z.abs_N n)) as (d & ds & Heq & Hd & Hpos & Hds & Hval).
  assert (49 <= d <= 57) as Hd' by lia.
  exists d, (ds ++ c :: rest). rewrite Heq. split; [done|]. split.
  - unfold is_ws. code_point_cases; reflexivity.
  - rewrite (scan_once_int fuel d ds c rest Hd' Hds Hc), Hval.
    by rewrite N2Z.inj_abs_N, Z.abs_eq by lia.
Qed.

Lemma scan_once_object fuel e tail :
  e ≠ 125 → is_ws e = false →
  scan_once (S fuel) (123 :: e :: tail)
  = '(members, tail) ← object_members fuel (e :: tail); Some (JObj members, tail).
Proof.
  intros He Hws. cbn [scan_once].
  change (123 =? 34) with false. change (123 =? 123) with true. cbv iota.
  rewrite (skip_ws_head e tail Hws).
  by destruct (N.eqb_spec e 125).
Qed.

(** *** The round trip *)

(** The snapshots the listing produces: at least two files, at least one
    byte, a digest written as 64 lower-case hexadecimal digits. *)
Definition valid_snapshot (g : DuplicateGroupSnapshot) : Prop :=
  (2 ≤ file_count g)%Z ∧ (1 ≤ total_size_bytes g)%Z ∧
  length (content_hash_hex g) = 64%nat ∧ Forall lower_hex (content_hash_hex g).

(** The canonical JSON text of a snapshot: sorted keys, no white space. *)
Definition payload_text (g : DuplicateGroupSnapshot) : text :=
  123 :: 34 :: lit "content_hash_hex" ++ 34 :: 58 :: 34 :: content_hash_hex g ++
  34 :: 44 :: 34 :: lit "file_count" ++ 34 :: 58 :: str_of_int (file_count g) ++
  44 :: 34 :: lit "hash_algorithm" ++ 34 :: 58 :: 34 ::
  lit (HashAlgorithm_value (hash_algorithm g)) ++
  34 :: 44 :: 34 :: lit "total_size_bytes" ++ 34 :: 58 ::
  str_of_int (total_size_bytes g) ++ [125].

(** The value [json.loads] reads back from it. *)
Definition payload_value (g : DuplicateGroupSnapshot) : json :=
  JObj [ (lit "content_hash_hex", JStr (content_hash_hex g));
         (lit "file_count", JInt (file_count g));
         (lit "hash_algorithm", JStr (lit (HashAlgorithm_value (hash_algorithm g))));
         (lit "total_size_bytes", JInt (total_size_bytes g)) ].

Ltac plain_literal :=
  match goal with
  | |- Forall plain ?s => let v := eval vm_compute in s in change (Forall plain v)
  end;
  repeat (constructor; [unfold plain; lia|]); constructor.

Lemma plain_algorithm a : Forall plain (lit (HashAlgorithm_value a)).
Proof. destruct a; plain_literal. Qed.

Lemma dumps_payload g :
  Forall lower_hex (content_hash_hex g) →
  dumps [ (lit "file_count", VInt (file_count g));
          (lit "total_size_bytes", VInt (total_size_bytes g));
          (lit "hash_algorithm", VStr (lit (HashAlgorithm_value (hash_algorithm g))));
          (lit "content_hash_hex", VStr (content_hash_hex g)) ]
  = payload_text g.
Proof.
  intros Hhex. unfold dumps.
  change (sort_keys _) with
    [ (lit "content_hash_hex", VStr (content_hash_hex g));
      (lit "file_count", VInt (file_count g));
      (lit "hash_algorithm", VStr (lit (HashAlgorithm_value (hash_algorithm g))));
      (lit "total_size_bytes", VInt (total_size_bytes g)) ].
  cbn [dumps_members dumps_scalar].
  rewrite (dumps_str_plain (content_hash_hex g))
    by (eapply Forall_impl; [exact Hhex|apply lower_hex_plain]).
  rewrite (dumps_str_plain (lit (HashAlgorithm_value _))) by apply plain_algorithm.
  rewrite !dumps_str_plain by plain_literal.
  unfold payload_text.
  repeat (rewrite <- ?app_assoc; cbn [app]). reflexivity.
Qed.

Lemma str_of_int_ascii n : (0 < n)%Z → Forall (λ c, c < 128) (str_of_int n).
Proof.
  intros Hn. unfold str_of_int. destruct (Z.ltb_spec n 0); [lia|].
  destruct (str_of_N_spec (Z.abs_N n)) as (d & ds & -> & Hd & _ & Hds & _).
  constructor; [lia|]. eapply Forall_impl; [exact Hds|].
  intros c Hc. apply is_digit_spec in Hc. lia.
Qed.

Ltac ascii_literal :=
  match goal with
  | |- Forall ?P ?s => let v := eval vm_compute in s in change (Forall P v)
  end;
  repeat (constructor; [lia|]); constructor.

Lemma payload_text_ascii g :
  valid_snapshot g → Forall (λ c, c < 128) (payload_text g).
Proof.
  intros (Hcount & Hsize & _ & Hhex). unfold payload_text.
  repeat match goal with
  | |- Forall _ (_ :: _) => apply Forall_cons; split; [lia|]
  | |- Forall _ (_ ++ _) => apply Forall_app; split
  end.
  - ascii_literal.
  - eapply Forall_impl; [exact Hhex|]. unfold lower_hex. intros c Hc. lia.
  - ascii_literal.
  - apply str_of_int_ascii. lia.
  - ascii_literal.
  - destruct (hash_algorithm g); ascii_literal.
  - ascii_literal.
  - apply str_of_int_ascii. lia.
  - constructor.
Qed.

Lemma payload_text_fuel g :
  ∃ fuel, S (length (payload_text g)) = S (S (S (S (S (S fuel))))).
Proof.
  unfold payload_text. cbn [length]. rewrite length_app.
  change (length (lit "content_hash_hex")) with 16%nat. cbn [Nat.add]. eauto.
Qed.

(** [json.loads] reads the canonical text back. *)
Lemma loads_payload g :
  valid_snapshot g → loads (payload_text g) = Some (payload_value g).
Proof.
  intros (Hcount & Hsize & _ & Hhex). unfold loads.
  destruct (payload_text_fuel g) as [fuel ->].
  unfold payload_text.
  rewrite strip_prefix_head by lia.
  rewrite (skip_ws_head 123) by reflexivity.
  rewrite scan_once_object by (lia || reflexivity).
  destruct (scan_once_str_of_int fuel (total_size_bytes g) 125 [])
    as (d2 & tail2 & -> & Hws2 & Hscan2); [lia|by right|].
  destruct (scan_once_str_of_int (S (S fuel)) (file_count g) 44
              (34 :: lit "hash_algorithm" ++ 34 :: 58 :: 34 ::
               lit (HashAlgorithm_value (hash_algorithm g)) ++
               34 :: 44 :: 34 :: lit "total_size_bytes" ++ 34 :: 58 :: d2 :: tail2))
    as (d1 & tail1 & -> & Hws1 & Hscan1); [lia|by left|].
  erewrite object_members_member.
  2: plain_literal. 2: reflexivity.
  2:{ apply scan_once_string. eapply Forall_impl; [exact Hhex|apply lower_hex_plain]. }
  rewrite (skip_ws_head 44) by reflexivity.
  change (44 =? 125) with false. change (44 =? 44) with true. cbv iota.
  rewrite (skip_ws_head 34) by reflexivity.
  erewrite object_members_member.
  2: plain_literal. 2: exact Hws1. 2: exact Hscan1.
  rewrite (skip_ws_head 44) by reflexivity.
  change (44 =? 125) with false. change (44 =? 44) with true. cbv iota.
  rewrite (skip_ws_head 34) by reflexivity.
  erewrite object_members_member.
  2: plain_literal. 2: reflexivity. 2: apply scan_once_string, plain_algorithm.
  rewrite (skip_ws_head 44) by reflexivity.
  change (44 =? 125) with false. change (44 =? 44) with true. cbv iota.
  rewrite (skip_ws_head 34) by reflexivity.
  erewrite object_members_member.
  2: plain_literal. 2: exact Hws2. 2: exact Hscan2.
  reflexivity.
Qed.

Lemma encode_payload g :
  valid_snapshot g → _encode_group_cursor g = inr (token_of (payload_text g)).
Proof.
  intros Hg. unfold _encode_group_cursor.
  rewrite dumps_payload by apply Hg.
  by rewrite (encode_utf8_ascii _ (payload_text_ascii g Hg)).
Qed.

Lemma HashAlgorithm_of_value a : HashAlgorithm_of (lower (lit (HashAlgorithm_value a))) = Some a.
Proof. by destruct a. Qed.

Lemma expected_length a : _expected_hash_hex_length a = inr 64%nat.
Proof. by destruct a. Qed.

Lemma decode_payload g :
  valid_snapshot g →
  _decode_group_cursor (token_of (payload_text g))
  = inr {| cursor_file_count := file_count g;
           cursor_total_size_bytes := total_size_bytes g;
           cursor_hash_algorithm := hash_algorithm g;
           cursor_content_hash_hex := content_hash_hex g |}.
Proof.
  intros Hg. pose proof Hg as (Hcount & Hsize & Hlen & Hhex).
  pose proof (payload_text_ascii g Hg) as Hascii.
  unfold _decode_group_cursor.
  rewrite strip_token_of.
  rewrite bool_decide_eq_false_2 by (unfold payload_text; apply token_of_nonempty).
  rewrite token_of_padded.
  rewrite (encode_ascii_ascii _ (urlsafe_b64encode_ascii _)). cbn [mbind option_bind].
  rewrite a2b_base64_b2a_base64
    by (eapply Forall_impl; [exact Hascii|]; intros c Hc; cbv beta in *; lia).
  cbn [mbind option_bind].
  rewrite (decode_utf8_ascii _ Hascii). cbn [mbind option_bind].
  rewrite (loads_payload g Hg).
  change (subscript (payload_value g) (lit "file_count"))
    with (Some (JInt (file_count g))).
  change (subscript (payload_value g) (lit "total_size_bytes"))
    with (Some (JInt (total_size_bytes g))).
  change (subscript (payload_value g) (lit "hash_algorithm"))
    with (Some (JStr (lit (HashAlgorithm_value (hash_algorithm g))))).
  change (subscript (payload_value g) (lit "content_hash_hex"))
    with (Some (JStr (content_hash_hex g))).
  cbn [mbind option_bind py_int py_str fmap option_fmap option_map].
  rewrite HashAlgorithm_of_value. cbn [mbind option_bind].
  rewrite (lower_hex_text _ Hhex).
  destruct (Z.ltb_spec (file_count g) 2); [lia|].
  destruct (Z.ltb_spec (total_size_bytes g) 1); [lia|].
  cbn [orb]. rewrite expected_length, Hlen.
  destruct (fromhex_lower_hex 32 (content_hash_hex g) Hlen Hhex) as [digest ->].
  reflexivity.
Qed.


(** *** What the decoder accepts *)

(** The characters [bytes.fromhex] goes through without complaint. *)
Definition hex_or_blank (c : N) : Prop := lower_hex c ∨ isspace_ascii c = true.

Lemma lower_char_no_capital c :
  Forall (λ x, ¬ 65 ≤ x ≤ 90) (lower_char c).
Proof.
  unfold lower_char.
  code_point_cases; repeat (constructor; [lia|]); constructor.
Qed.

Lemma lower_no_capital s : Forall (λ x, ¬ 65 ≤ x ≤ 90) (lower s).
Proof.
  unfold lower. induction s as [|c s IH]; [constructor|].
  rewrite bind_cons. apply Forall_app. split; [apply lower_char_no_capital|exact IH].
Qed.

Lemma hex_value_Some c v :
  hex_value c = Some v → lower_hex c ∨ 65 ≤ c ≤ 70.
Proof.
  unfold hex_value, lower_hex.
  destruct (N.leb_spec 48 c), (N.leb_spec c 57), (N.leb_spec 97 c),
    (N.leb_spec c 102), (N.leb_spec 65 c), (N.leb_spec c 70);
    cbn [andb]; intros; simplify_eq; lia.
Qed.

Lemma fromhex_chars n s digest :
  (length s ≤ n)%nat → fromhex s = Some digest →
  Forall (λ c, isspace_ascii c = true ∨ is_Some (hex_value c)) s.
Proof.
  revert s digest. induction n as [|n IH]; intros s digest Hlen Hs.
  { destruct s; [constructor|simpl in Hlen; lia]. }
  destruct s as [|c rest]; [constructor|].
  cbn [fromhex] in Hs. cbn [length] in Hlen.
  destruct (isspace_ascii c) eqn:Hspace.
  - constructor; [by left|]. apply (IH rest digest); [lia|done].
  - destruct (hex_value c) as [top|] eqn:Htop; [|done].
    destruct rest as [|d rest]; [done|].
    destruct (hex_value d) as [bot|] eqn:Hbot; [|done].
    destruct (fromhex rest) as [tail|] eqn:Htail; [|done].
    cbn [length] in Hlen.
    constructor; [right; by rewrite Htop|].
    constructor; [right; by rewrite Hbot|].
    apply (IH rest tail); [lia|done].
Qed.

Lemma fromhex_lower s digest :
  fromhex (lower s) = Some digest → Forall hex_or_blank (lower s).
Proof.
  intros Hs.
  pose proof (fromhex_chars _ _ _ (le_n _) Hs) as Hchars.
  pose proof (lower_no_capital s) as Hlow.
  rewrite Forall_forall in Hchars, Hlow. apply Forall_forall. intros c Hc.
  destruct (Hchars c Hc) as [Hspace|[v Hv]]; [by right|].
  left. destruct (hex_value_Some c v Hv) as [|Hcap]; [done|].
  specialize (Hlow c Hc). lia.
Qed.

Lemma expected_length_inv a n : _expected_hash_hex_length a = inr n → n = 64%nat.
Proof. rewrite expected_length. congruence. Qed.

(** An accepted cursor is within the bounds, and its hash text has 64
    characters, each a lower-case hexadecimal digit or ASCII white space. *)
Lemma decode_group_cursor_accepts cursor c :
  _decode_group_cursor cursor = inr c →
  (2 ≤ cursor_file_count c)%Z ∧ (1 ≤ cursor_total_size_bytes c)%Z ∧
  length (cursor_content_hash_hex c) = 64%nat ∧
  Forall hex_or_blank (cursor_content_hash_hex c).
Proof.
  unfold _decode_group_cursor. cbv zeta.
  destruct (bool_decide _); [done|].
  destruct (_ ≫= _) as [payload|]; [|done].
  destruct (_ ≫= _) as [[[[count size] algorithm] hash]|] eqn:Hcoerced; [|done].
  destruct (Z.ltb_spec count 2); [done|].
  destruct (Z.ltb_spec size 1); [done|]. cbn [orb].
  destruct (_expected_hash_hex_length algorithm) as [|expected] eqn:Hexpected; [done|].
  apply expected_length_inv in Hexpected as ->.
  destruct (Nat.eqb_spec (length hash) 64); [|done]. cbn [negb].
  destruct (negb _); [done|].
  destruct (fromhex hash) as [digest|] eqn:Hdigest; [|done].
  intros [= <-]. cbn. repeat split; try done.
  apply bind_Some in Hcoerced as (? & _ & Hcoerced).
  apply bind_Some in Hcoerced as (? & _ & Hcoerced).
  apply bind_Some in Hcoerced as (? & _ & Hcoerced).
  apply bind_Some in Hcoerced as (? & _ & Hcoerced).
  apply bind_Some in Hcoerced as (? & _ & Hcoerced).
  apply bind_Some in Hcoerced as (? & _ & Hcoerced).
  apply bind_Some in Hcoerced as (? & _ & Hcoerced).
  apply bind_Some in Hcoerced as (? & _ & Hcoerced).
  apply bind_Some in Hcoerced as (? & Hlower & Hcoerced).
  apply fmap_Some in Hlower as (raw & _ & ->).
  injection Hcoerced as <- <- <- <-.
  by apply (fromhex_lower raw digest).
Qed.

Lemma decode_group_cursor_raises cursor e :
  _decode_group_cursor cursor = inl e → e = ValueError.
Proof.
  unfold _decode_group_cursor, raise. cbv zeta.
  repeat case_match; intros; simplify_eq; try done.
  by rewrite expected_length in *.
Qed.

(** Every cursor is either refused with [ValueError] or decoded to a cursor
    within the bounds whose hash text has 64 characters, each a lower-case
    hexadecimal digit or ASCII white space. *)
Theorem decode_group_cursor_outcome cursor :
  _decode_group_cursor cursor = inl ValueError ∨
  ∃ c,
    _decode_group_cursor cursor = inr c ∧
    (2 ≤ cursor_file_count c)%Z ∧ (1 ≤ cursor_total_size_bytes c)%Z ∧
    length (cursor_content_hash_hex c) = 64%nat ∧
    Forall hex_or_blank (cursor_content_hash_hex c).
Proof.
  destruct (_decode_group_cursor cursor) as [e|c] eqn:Hdecode.
  - left. by rewrite (decode_group_cursor_raises cursor e Hdecode).
  - right. exists c. split; [done|]. by apply (decode_group_cursor_accepts cursor).
Qed.

(** *** The cursors of the samples *)

(** The two cursors the test suite expects to be refused are refused: text
    that is no JSON once decoded, and a hash text of two characters. *)
Lemma decode_rejects_test_cursors :
  _decode_group_cursor (lit "invalid-cursor") = inl ValueError ∧
  _decode_group_cursor Samples.cursor_short_hash = inl ValueError.
Proof. split; vm_compute; reflexivity. Qed.

Lemma valid_group_a : valid_snapshot Samples.group_a.
Proof.
  unfold valid_snapshot. cbn [file_count total_size_bytes content_hash_hex Samples.group_a].
  split; [lia|]. split; [lia|]. split; [reflexivity|].
  match goal with
  | |- Forall ?P ?s => let v := eval vm_compute in s in change (Forall P v)
  end.
  repeat (constructor; [unfold lower_hex; lia|]). constructor.
Qed.

(** The sample cursor is the cursor of a snapshot whose hash text is the
    blank-padded one. *)
Lemma cursor_blank_padded_encodes :
  _encode_group_cursor
    {| group_key := lit "sha256:";
       hash_algorithm := SHA256;
       content_hash_hex := Samples.blank_padded_hash;
       file_count := 3;
       total_size_bytes := 300;
       duplicate_waste_bytes := 200;
       sample_file_id := 1 |}
  = inr Samples.cursor_blank_padded.
Proof. vm_compute. reflexivity. Qed.

(** C7 at the sample cursor.  The claim has every cursor whose hash text is
    not 64 lower-case hexadecimal digits refused with [ValueError].  The
    hash text of the sample cursor has 64 characters, the last two of them
    spaces; [bytes.fromhex] skips the spaces, and the decoder returns the
    cursor with that hash text instead of raising. *)
Theorem decode_accepts_blank_padded_hash :
  _decode_group_cursor Samples.cursor_blank_padded
  = inr {| cursor_file_count := 3;
           cursor_total_size_bytes := 300;
           cursor_hash_algorithm := SHA256;
           cursor_content_hash_hex := Samples.blank_padded_hash |}
  ∧ length Samples.blank_padded_hash = 64%nat
  ∧ ¬ Forall lower_hex Samples.blank_padded_hash.
Proof.
  split; [vm_compute; reflexivity|]. split; [reflexivity|].
  intros Hhex. apply (Forall_lookup_1 _ _ 62%nat 32) in Hhex; [|reflexivity].
  unfold lower_hex in Hhex. lia.
Qed.


End CursorFacts.

(** ** Duplicate groups *)

Module DuplicatesFacts.
Import Models Cursor CursorFacts Duplicates.
Local Open Scope list_scope.

(** *** Decimal numerals read back *)

Lemma grouped_digits_digits ds acc :
  Forall (λ c, is_digit c = true) ds →
  grouped_digits ds acc true = Some (fold_left (λ acc c, 10 * acc + (c - 48))%N ds acc).
Proof.
  intros Hds. revert acc. induction Hds as [|c ds Hc _ IH]; intros acc; [done|].
  cbn [grouped_digits fold_left]. by rewrite Hc, IH.
Qed.

Lemma rstrip_ascii_no_space s :
  Forall (λ c, isspace_ascii c = false) s → rstrip_ascii s = s.
Proof.
  induction 1 as [|c s Hc _ IH]; [done|].
  cbn [rstrip_ascii]. rewrite IH, Hc. by destruct s.
Qed.

Lemma digit_chars c :
  is_digit c = true →
  isspace c = false ∧ isspace_ascii c = false ∧ (127 <=? c)%N = false
  ∧ (c =? 45)%N = false ∧ (c =? 43)%N = false.
Proof.
  rewrite is_digit_spec. intros Hc. unfold isspace, isspace_ascii.
  repeat split; code_point_cases; reflexivity || lia.
Qed.

Lemma digits_unchanged s :
  Forall (λ c, is_digit c = true) s →
  (λ c, if (127 <=? c)%N && isspace c then 32%N else c) <$> s = s
  ∧ rstrip_ascii s = s.
Proof.
  intros Hs. split.
  - induction Hs as [|c s Hc _ IH]; [done|].
    rewrite fmap_cons, IH. by destruct (digit_chars c Hc) as (_ & _ & -> & _).
  - apply rstrip_ascii_no_space. eapply Forall_impl; [exact Hs|].
    intros c Hc. by apply digit_chars.
Qed.

(** [int] of a decimal numeral, with or without a minus sign. *)
Lemma int_of_str_numeral (negative : bool) d ds :
  Forall (λ c, is_digit c = true) (d :: ds) →
  int_of_str (if negative then 45%N :: d :: ds else d :: ds)
  = Some (if negative then - Z.of_N (value_of_digits (d :: ds))
          else Z.of_N (value_of_digits (d :: ds))).
Proof.
  intros Hall. destruct (digits_unchanged _ Hall) as [Hmap Hr].
  destruct (digit_chars d (Forall_inv Hall)) as (_ & Hsp & _ & H45 & H43).
  assert (grouped_digits (d :: ds) 0 false = Some (value_of_digits (d :: ds))) as Hg.
  { cbn [grouped_digits]. rewrite (Forall_inv Hall).
    by rewrite (grouped_digits_digits ds) by apply (Forall_inv_tail Hall). }
  unfold int_of_str. destruct negative.
  - rewrite fmap_cons, Hmap. change ((127 <=? 45)%N && isspace 45) with false.
    cbv iota. cbn [lstrip_ascii]. change (isspace_ascii 45) with false. cbv iota.
    assert (rstrip_ascii (45%N :: d :: ds) = 45%N :: d :: ds) as ->.
    { change (rstrip_ascii (45%N :: d :: ds))
        with (match rstrip_ascii (d :: ds) with
              | [] => if isspace_ascii 45 then [] else [45%N]
              | kept => 45%N :: kept
              end).
      by rewrite Hr. }
    change (45 =? 45)%N with true. cbv iota. by rewrite Hg.
  - rewrite Hmap. cbn [lstrip_ascii]. rewrite Hsp, Hr, H45, H43. by rewrite Hg.
Qed.

(** [int(str(n)) == n] *)
Lemma int_of_str_of_int n : int_of_str (str_of_int n) = Some n.
Proof.
  unfold str_of_int.
  destruct (str_of_N_spec (Z.abs_N n)) as (d & ds & -> & Hd & _ & Hds & Hval).
  assert (Forall (λ c, is_digit c = true) (d :: ds)) as Hall.
  { constructor; [by apply is_digit_spec|done]. }
  destruct (Z.ltb_spec n 0).
  - rewrite (int_of_str_numeral true d ds Hall), Hval. f_equal. lia.
  - rewrite (int_of_str_numeral false d ds Hall), Hval. f_equal. lia.
Qed.

Lemma str_of_N_no_space n : Forall (λ c, isspace c = false) (str_of_N n).
Proof.
  destruct (str_of_N_spec n) as (d & ds & -> & Hd & _ & Hds & _).
  constructor.
  - by apply digit_chars, is_digit_spec.
  - eapply Forall_impl; [exact Hds|]. intros c Hc. by apply digit_chars.
Qed.

Lemma str_of_int_no_space n : Forall (λ c, isspace c = false) (str_of_int n).
Proof.
  unfold str_of_int.
  destruct (n <? 0); [constructor; [done|]|]; apply str_of_N_no_space.
Qed.

Lemma str_of_int_nonempty n : str_of_int n ≠ [].
Proof.
  unfold str_of_int. destruct (n <? 0); [done|].
  by destruct (str_of_N_spec (Z.abs_N n)) as (d & ds & -> & _).
Qed.

(** The cursor [str(file_id)] is read back as the id. *)
Lemma normalize_file_cursor_str n :
  1 ≤ n → _normalize_file_cursor (Some (str_of_int n)) = ret (Some n).
Proof.
  intros Hn. unfold _normalize_file_cursor.
  rewrite (strip_no_space _ (str_of_int_no_space n)).
  rewrite bool_decide_eq_false_2 by apply str_of_int_nonempty.
  rewrite int_of_str_of_int. by destruct (Z.ltb_spec n 1); [lia|].
Qed.

(** *** The cursor of a file page *)

(** X19.  [_normalize_file_cursor] reads back the cursor that
    [list_group_files] writes, [str(file_id)], for every id from 1 on, also
    with white space around it.  No cursor gives [None]; a blank one raises
    [ValueError]; and whatever text is accepted, the anchor returned is at
    least 1, so the ids 0 and below cannot be named by a cursor. *)
Theorem normalize_file_cursor_outcome :
  (∀ n, 1 ≤ n → _normalize_file_cursor (Some (str_of_int n)) = ret (Some n))
  ∧ (∀ n, 1 ≤ n →
       _normalize_file_cursor (Some (32%N :: str_of_int n ++ [10%N])) = ret (Some n))
  ∧ _normalize_file_cursor None = ret None
  ∧ (∀ cursor, strip cursor = [] → _normalize_file_cursor (Some cursor) = raise ValueError)
  ∧ (∀ n, n ≤ 0 → _normalize_file_cursor (Some (str_of_int n)) = raise ValueError)
  ∧ (∀ cursor,
       _normalize_file_cursor cursor = raise ValueError
       ∨ (cursor = None ∧ _normalize_file_cursor cursor = ret None)
       ∨ ∃ anchor, 1 ≤ anchor ∧ _normalize_file_cursor cursor = ret (Some anchor)).
Proof.
  split; [|split; [|split; [|split; [|split]]]].
  - apply normalize_file_cursor_str.
  - intros n Hn. unfold _normalize_file_cursor.
    assert (strip (32%N :: str_of_int n ++ [10%N]) = str_of_int n) as ->.
    { unfold strip. cbn [lstrip]. change (isspace 32) with true. cbv iota.
      pose proof (str_of_int_no_space n) as Hs.
      pose proof (str_of_int_nonempty n) as Hn0.
      destruct (str_of_int n) as [|c s]; [done|].
      apply Forall_cons in Hs as [Hc Hs]. cbn [app lstrip]. rewrite Hc.
      clear -Hc Hs. revert c Hc. induction Hs as [|x s Hx _ IH]; intros c Hc.
      - cbn [app rstrip]. change (isspace 10) with true. cbv iota. by rewrite Hc.
      - cbn [app rstrip]. cbn [app rstrip] in IH. rewrite (IH x Hx). done. }
    rewrite bool_decide_eq_false_2 by apply str_of_int_nonempty.
    rewrite int_of_str_of_int. by destruct (Z.ltb_spec n 1); [lia|].
  - done.
  - intros cursor Hc. unfold _normalize_file_cursor. by rewrite Hc.
  - intros n Hn. unfold _normalize_file_cursor.
    rewrite (strip_no_space _ (str_of_int_no_space n)).
    rewrite bool_decide_eq_false_2 by apply str_of_int_nonempty.
    rewrite int_of_str_of_int. by destruct (Z.ltb_spec n 1); [|lia].
  - intros [cursor|]; [|right; left; by split].
    unfold _normalize_file_cursor.
    destruct (bool_decide (strip cursor = [])); [by left|].
    destruct (int_of_str (strip cursor)) as [anchor|]; [|by left].
    destruct (Z.ltb_spec anchor 1); [by left|].
    right. right. exists anchor. by split.
Qed.
(** *** Hexadecimal text and blobs *)

Lemma hex_digit_lower v : (v < 16)%N → lower_hex (hex_digit v) ∧ hex_value (hex_digit v) = Some v.
Proof.
  intros Hv. unfold hex_digit, lower_hex, hex_value.
  destruct (N.ltb_spec v 10).
  - split; [lia|]. code_point_cases; f_equal; lia.
  - split; [lia|]. code_point_cases; f_equal; lia.
Qed.

Lemma lower_hex_of_cons b blob :
  lower_hex_of (b :: blob)
  = hex_digit (b / 16) :: hex_digit (b mod 16) :: lower_hex_of blob.
Proof. reflexivity. Qed.

Lemma lower_hex_of_chars blob :
  Forall (λ b, b < 256)%N blob →
  Forall lower_hex (lower_hex_of blob) ∧ length (lower_hex_of blob) = (2 * length blob)%nat.
Proof.
  induction 1 as [|b blob Hb _ [IH1 IH2]]; [by split|].
  rewrite lower_hex_of_cons. split.
  - constructor; [apply hex_digit_lower; lia_div|].
    constructor; [apply hex_digit_lower; lia_div|done].
  - simpl. lia.
Qed.

(** [bytes.fromhex(blob.hex()) == blob] *)
Lemma fromhex_lower_hex_of blob :
  Forall (λ b, b < 256)%N blob → fromhex (lower_hex_of blob) = Some blob.
Proof.
  induction 1 as [|b blob Hb _ IH]; [done|].
  rewrite lower_hex_of_cons. cbn [fromhex].
  assert (b / 16 < 16)%N as H1 by lia_div.
  assert (b mod 16 < 16)%N as H2 by lia_div.
  destruct (hex_digit_lower _ H1) as [Hl1 Hv1].
  destruct (hex_digit_lower _ H2) as [Hl2 Hv2].
  rewrite (isspace_ascii_hex _ Hl1), Hv1, Hv2, IH. simpl. f_equal. f_equal. lia_div.
Qed.

Lemma hex_value_digit c v :
  lower_hex c → hex_value c = Some v → (v < 16)%N ∧ hex_digit v = c.
Proof.
  unfold lower_hex, hex_value, hex_digit. intros Hc.
  code_point_cases; intros [= <-]; split; try lia.
  all: code_point_cases; lia.
Qed.

(** Text of an even number of lower-case hexadecimal digits is the [hex()]
    of the blob [bytes.fromhex] reads from it. *)
Lemma fromhex_inv n hex :
  length hex = (2 * n)%nat → Forall lower_hex hex →
  ∃ blob, fromhex hex = Some blob ∧ lower_hex_of blob = hex
          ∧ length blob = n ∧ Forall (λ b, b < 256)%N blob.
Proof.
  revert hex. induction n as [|n IH]; intros hex Hlen Hhex.
  - destruct hex; [|done]. by exists [].
  - destruct hex as [|c [|d hex]]; simpl in Hlen; try lia.
    apply Forall_cons in Hhex as [Hc Hhex]. apply Forall_cons in Hhex as [Hd Hhex].
    destruct (hex_value_lower c Hc) as [top Htop].
    destruct (hex_value_lower d Hd) as [bot Hbot].
    destruct (hex_value_digit c top Hc Htop) as [Ht <-].
    destruct (hex_value_digit d bot Hd Hbot) as [Hb <-].
    destruct (IH hex ltac:(lia) Hhex) as (blob & Hblob & Hback & Hl & Hbytes).
    exists ((top * 16 + bot)%N :: blob). cbn [fromhex].
    rewrite (isspace_ascii_hex _ Hc), Htop, Hbot, Hblob. split; [done|].
    split; [|split; [simpl; lia|constructor; [lia|done]]].
    rewrite lower_hex_of_cons, Hback. f_equal; [f_equal; lia_div|].
    f_equal. f_equal. lia_div.
Qed.

(** A blob read by [bytes.fromhex] has at most half as many bytes as the
    text has characters. *)
Lemma fromhex_length n s blob :
  (length s ≤ n)%nat → fromhex s = Some blob → (2 * length blob ≤ length s)%nat.
Proof.
  revert s blob. induction n as [|n IH]; intros s blob Hlen Hs.
  { destruct s; [|simpl in Hlen; lia]. injection Hs as <-. simpl. lia. }
  destruct s as [|c rest]; [injection Hs as <-; simpl; lia|].
  cbn [fromhex] in Hs. cbn [length] in Hlen.
  destruct (isspace_ascii c).
  - specialize (IH rest blob ltac:(lia) Hs). simpl. lia.
  - destruct (hex_value c) as [top|]; [|done].
    destruct rest as [|d rest]; [done|].
    destruct (hex_value d) as [bot|]; [|done].
    destruct (fromhex rest) as [tail|] eqn:Htail; [|done].
    injection Hs as <-. cbn [length] in Hlen.
    specialize (IH rest tail ltac:(lia) Htail). simpl. lia.
Qed.

(** *** Group keys *)

Lemma partition_found sep s before found after :
  partition sep s = (before, found, after) →
  (found = [sep] ∧ s = before ++ sep :: after) ∨ (found = [] ∧ after = [] ∧ s = before).
Proof.
  revert before found after. induction s as [|c s IH]; intros before found after.
  - intros [= <- <- <-]. by right.
  - cbn [partition]. destruct (N.eqb_spec c sep) as [->|Hne].
    + intros [= <- <- <-]. by left.
    + destruct (partition sep s) as [[b f] a]. intros [= <- <- <-].
      destruct (IH b f a eq_refl) as [[-> ->]|(-> & -> & ->)]; [by left|by right].
Qed.

Lemma partition_first sep before after :
  sep ∉ before → partition sep (before ++ sep :: after) = (before, [sep], after).
Proof.
  induction before as [|c before IH]; intros Hnot; cbn [app partition].
  - by rewrite N.eqb_refl.
  - destruct (N.eqb_spec c sep) as [->|_].
    + exfalso. apply Hnot, list_elem_of_here.
    + rewrite IH; [done|]. intros Hin. by apply Hnot, list_elem_of_further.
Qed.

Lemma algorithm_text a :
  let name := lit (HashAlgorithm_value a) in
  (58%N ∉ name) ∧ Forall (λ c, isspace c = false) name ∧ lower name = name
  ∧ HashAlgorithm_of name = Some a.
Proof.
  destruct a; cbv zeta.
  all: match goal with
       | |- context [lit ?s] =>
           let v := eval vm_compute in (lit s) in change (lit s) with v
       end.
  all: split; [rewrite !elem_of_cons, elem_of_nil; lia|].
  all: split; [repeat (constructor; [reflexivity|]); constructor|].
  all: split; reflexivity.
Qed.

Lemma HashAlgorithm_of_Some name a :
  HashAlgorithm_of name = Some a → name = lit (HashAlgorithm_value a).
Proof.
  unfold HashAlgorithm_of. repeat case_bool_decide; intros [= <-]; done.
Qed.

Lemma lower_app a b : lower (a ++ b) = lower a ++ lower b.
Proof. unfold lower. apply bind_app. Qed.

(** The key written for a group parses back. *)
Lemma parse_written_key a blob :
  length blob = 32%nat → Forall (λ b, b < 256)%N blob →
  _parse_group_key (lit (HashAlgorithm_value a) ++ 58%N :: lower_hex_of blob)
  = ret (a, lower_hex_of blob, blob).
Proof.
  intros Hlen Hbytes.
  destruct (algorithm_text a) as (Hcolon & Hspace & Hlower & Hof).
  destruct (lower_hex_of_chars blob Hbytes) as [Hhex Hhexlen].
  unfold _parse_group_key.
  rewrite strip_no_space.
  2: { apply Forall_app. split; [done|]. constructor; [done|].
       eapply Forall_impl; [exact Hhex|]. intros c Hc.
       apply alphabet_not_space. unfold alphabet, lower_hex in *. lia. }
  rewrite lower_app, Hlower.
  change (lower (58%N :: lower_hex_of blob)) with (58%N :: lower (lower_hex_of blob)).
  rewrite (lower_hex_text _ Hhex).
  rewrite bool_decide_eq_false_2 by by destruct (lit (HashAlgorithm_value a)).
  rewrite (partition_first 58 _ _ Hcolon).
  rewrite bool_decide_eq_true_2 by done. cbn [negb].
  rewrite Hof, expected_length. cbn [of_codec ret].
  rewrite Hhexlen, Hlen. cbn [Nat.mul Nat.add Nat.eqb Nat.modulo negb]. simpl.
  by rewrite (fromhex_lower_hex_of blob Hbytes).
Qed.

(** X20.  [_parse_group_key] reads back the key that [list_groups] writes for
    a group: the value of the algorithm, a colon and the [hex()] of a hash
    of 32 bytes give the algorithm, the hexadecimal text and the hash.  Any
    other outcome is a [ValueError] or a triple whose text is the part after
    the first colon of the lower-cased, stripped key: 64 characters, each a
    lower-case hexadecimal digit or ASCII white space, which
    [bytes.fromhex] read as a blob of 32 bytes at most (fewer when white
    space stands between the digits). *)
Theorem parse_group_key_outcome :
  (∀ a blob,
     length blob = 32%nat → Forall (λ b, b < 256)%N blob →
     _parse_group_key (lit (HashAlgorithm_value a) ++ 58%N :: lower_hex_of blob)
     = ret (a, lower_hex_of blob, blob))
  ∧ (∀ group_key,
       _parse_group_key group_key = raise ValueError
       ∨ ∃ a hash_hex blob,
           _parse_group_key group_key = ret (a, hash_hex, blob)
           ∧ lower (strip group_key) = lit (HashAlgorithm_value a) ++ 58%N :: hash_hex
           ∧ length hash_hex = 64%nat
           ∧ Forall hex_or_blank hash_hex
           ∧ fromhex hash_hex = Some blob
           ∧ (length blob ≤ 32)%nat
           ∧ (Forall lower_hex hash_hex → length blob = 32%nat
                                          ∧ lower_hex_of blob = hash_hex)).
Proof.
  split.
  - apply parse_written_key.
  - intros group_key. unfold _parse_group_key.
    destruct (bool_decide (lower (strip group_key) = [])); [by left|].
    destruct (partition 58 (lower (strip group_key)))
      as [[algorithm_raw sep] hash_hex] eqn:Ep.
    case_bool_decide as Hsep; cbn [negb]; [|by left].
    destruct (HashAlgorithm_of algorithm_raw) as [a|] eqn:Ea; [|by left].
    rewrite expected_length. cbn [of_codec ret].
    destruct (Nat.eqb_spec (length hash_hex) 64) as [Hlen|]; cbn [negb]; [|by left].
    destruct (length hash_hex mod 2 =? 0)%nat; cbn [negb]; [|by left].
    destruct (fromhex hash_hex) as [blob|] eqn:Eh; [|by left].
    right. exists a, hash_hex, blob.
    apply HashAlgorithm_of_Some in Ea. subst algorithm_raw.
    destruct (partition_found _ _ _ _ _ Ep) as [[_ Htoken]|(-> & _)]; [|done].
    split; [done|]. split; [done|]. split; [done|].
    assert (Forall hex_or_blank hash_hex) as Hchars.
    { pose proof (fromhex_chars _ _ _ (le_n _) Eh) as Hc.
      pose proof (lower_no_capital (strip group_key)) as Hlow.
      rewrite Htoken in Hlow.
      apply Forall_app in Hlow as [_ Hlow]. apply Forall_cons in Hlow as [_ Hlow].
      rewrite Forall_forall in Hc, Hlow. apply Forall_forall. intros c Hin.
      destruct (Hc c Hin) as [Hspace|[v Hv]]; [by right|].
      left. destruct (hex_value_Some c v Hv) as [|Hcap]; [done|].
      specialize (Hlow c Hin). lia. }
    split; [done|]. split; [done|]. split.
    + pose proof (fromhex_length _ _ _ (le_n _) Eh). lia.
    + intros Hhex. destruct (fromhex_inv 32 hash_hex Hlen Hhex)
        as (blob' & Hblob' & Hback & Hl & _).
      rewrite Eh in Hblob'. injection Hblob' as <-. by split.
Qed.
(** *** The files of a group, page by page *)

(** A listing call as a page function: the items and the next cursor, or
    nothing when the call raises. *)
Definition pages {A} (call : option text → Result (ListResult A)) (cursor : option text)
    : option (list A * option text) :=
  match call cursor with
  | inl _ => None
  | inr page => Some (items page, next_cursor page)
  end.

(** The rows the join gives for one file. *)
Definition roots_of (db : Store) (lf : LibraryFile) : list (LibraryFile * LibraryRoot) :=
  lr ← library_roots db;
  if bool_decide (lr_id lr = lf_library_id lf) then [(lf, lr)] else [].

Lemma joined_roots_of db : joined db = library_files db ≫= roots_of db.
Proof. reflexivity. Qed.

Lemma roots_of_elem db lf r :
  r ∈ roots_of db lf ↔
    r.1 = lf ∧ r.2 ∈ library_roots db ∧ lr_id r.2 = lf_library_id lf.
Proof.
  unfold roots_of. rewrite list_elem_of_bind. split.
  - intros (lr & Hr & Hlr). case_bool_decide; [|by apply elem_of_nil in Hr].
    apply list_elem_of_singleton in Hr. by subst r.
  - intros (H1 & H2 & H3). exists r.2. split; [|done].
    rewrite bool_decide_eq_true_2 by done. apply list_elem_of_singleton.
    destruct r. simpl in *. by subst.
Qed.

Lemma roots_of_short db lf :
  NoDup (lr_id <$> library_roots db) → (length (roots_of db lf) ≤ 1)%nat.
Proof.
  unfold roots_of. induction (library_roots db) as [|lr roots IH]; intros Hnd; [simpl; lia|].
  rewrite fmap_cons in Hnd. apply NoDup_cons in Hnd as [Hnot Hnd].
  rewrite bind_cons, length_app. case_bool_decide as Hm; [|by apply IH].
  replace (roots ≫= _) with (@nil (LibraryFile * LibraryRoot)); [simpl; lia|].
  symmetry. clear IH. induction roots as [|lr' roots IH]; [done|].
  rewrite bind_cons. rewrite bool_decide_eq_false_2.
  - apply IH.
    + intros Hin. apply Hnot. rewrite fmap_cons. by apply list_elem_of_further.
    + rewrite fmap_cons in Hnd. by apply NoDup_cons in Hnd as [_ ?].
  - intros Hm'. apply Hnot. rewrite fmap_cons, Hm, <- Hm'. apply list_elem_of_here.
Qed.

Lemma joined_elem db r :
  r ∈ joined db ↔
    r.1 ∈ library_files db ∧ r.2 ∈ library_roots db ∧ lr_id r.2 = lf_library_id r.1.
Proof.
  rewrite joined_roots_of, list_elem_of_bind. split.
  - intros (lf & Hr & Hlf). apply roots_of_elem in Hr as (<- & ? & ?). done.
  - intros (H1 & H2 & H3). exists r.1. split; [|done]. by apply roots_of_elem.
Qed.

Lemma joined_ids db :
  NoDup (lf_id <$> library_files db) → NoDup (lr_id <$> library_roots db) →
  NoDup ((λ r : LibraryFile * LibraryRoot, lf_id r.1) <$> joined db)
  ∧ (length (joined db) ≤ length (library_files db))%nat.
Proof.
  intros Hfiles Hroots. rewrite joined_roots_of.
  induction (library_files db) as [|lf files IH]; [split; [constructor|done]|].
  rewrite fmap_cons in Hfiles. apply NoDup_cons in Hfiles as [Hnot Hfiles].
  destruct (IH Hfiles) as [IH1 IH2].
  rewrite bind_cons, fmap_app, length_app.
  pose proof (roots_of_short db lf Hroots) as Hshort.
  split; [|simpl; lia].
  apply NoDup_app. split; [|split; [|done]].
  - destruct (roots_of db lf) as [|r [|r' l]]; simpl in *; [constructor| |lia].
    apply NoDup_singleton.
  - intros x Hx Hx'. apply Hnot.
    apply list_elem_of_fmap in Hx as (r & Hxr & Hr).
    apply roots_of_elem in Hr as (Hr1 & _).
    apply list_elem_of_fmap in Hx' as (r' & Hxr' & Hr').
    apply list_elem_of_bind in Hr' as (lf' & Hr' & Hlf').
    apply roots_of_elem in Hr' as (Hr1' & _).
    assert (lf_id lf = lf_id lf') as -> by congruence.
    by apply list_elem_of_fmap_2.
Qed.

Definition by_id (a b : LibraryFile * LibraryRoot) : bool := lf_id a.1 <? lf_id b.1.

Lemma by_id_asym a b : by_id a b = true → by_id b a = false.
Proof. unfold by_id. rewrite Z.ltb_lt, Z.ltb_ge. lia. Qed.

Lemma by_id_ntrans a b c : by_id a b = false → by_id b c = false → by_id a c = false.
Proof. unfold by_id. rewrite !Z.ltb_ge. lia. Qed.

(** The files of the group, with their roots, by ascending id. *)
Definition group_files (a : HashAlgorithm) (blob : octets) (db : Store)
    : list (LibraryFile * LibraryRoot) :=
  Sql.order_by by_id (filter (λ r, in_group a blob None r = true) (joined db)).

Section Files.
Context (settings : PageSettings) (group_key : text) (limit : option Z) (db : Store).
Context (a : HashAlgorithm) (hash_hex : text) (blob : octets).
Context (Hfiles : NoDup (lf_id <$> library_files db)).
Context (Hroots : NoDup (lr_id <$> library_roots db)).
Context (Hkey : _parse_group_key group_key = ret (a, hash_hex, blob)).
Context (Hlimit : 1 ≤ _normalize_limit settings limit).

Lemma joined_total x y :
  x ∈ joined db → y ∈ joined db → x ≠ y → by_id x y = true ∨ by_id y x = true.
Proof.
  intros Hx Hy Hne. unfold by_id. rewrite !Z.ltb_lt.
  destruct (joined_ids db Hfiles Hroots) as [Hnd _].
  destruct (decide (lf_id x.1 = lf_id y.1)) as [Heq|]; [|lia].
  exfalso. apply Hne.
  by apply (SqlFacts.fmap_inj_on (λ r : LibraryFile * LibraryRoot, lf_id r.1) (joined db)).
Qed.

Lemma joined_NoDup : NoDup (joined db).
Proof.
  destruct (joined_ids db Hfiles Hroots) as [Hnd _].
  by apply (NoDup_fmap_1 (λ r : LibraryFile * LibraryRoot, lf_id r.1)).
Qed.

Lemma group_files_sorted : StronglySorted (SqlFacts.goes_before by_id) (group_files a blob db).
Proof.
  apply SqlFacts.order_by_sorted.
  - apply by_id_asym.
  - apply by_id_ntrans.
  - apply NoDup_filter, joined_NoDup.
  - intros x y Hx Hy. apply list_elem_of_filter in Hx as [_ Hx].
    apply list_elem_of_filter in Hy as [_ Hy]. by apply joined_total.
Qed.

(** The rows a call selects and sorts: all the files of the group, or those
    after the anchor. *)
Lemma selected_files cursor_id :
  Sql.order_by (λ a b : LibraryFile * LibraryRoot, lf_id a.1 <? lf_id b.1)
    (filter (λ r, in_group a blob cursor_id r = true) (joined db))
  = match cursor_id with
    | None => group_files a blob db
    | Some c => filter (λ r : LibraryFile * LibraryRoot, c < lf_id r.1) (group_files a blob db)
    end.
Proof.
  destruct cursor_id as [c|]; [|done].
  unfold group_files.
  rewrite <- (SqlFacts.order_by_filter by_id by_id_asym by_id_ntrans).
  - rewrite list_filter_filter. f_equal. apply list_filter_iff. intros r.
    unfold in_group. rewrite !andb_true_iff, Z.ltb_lt. tauto.
  - apply NoDup_filter, joined_NoDup.
  - intros x y Hx Hy. apply list_elem_of_filter in Hx as [_ Hx].
    apply list_elem_of_filter in Hy as [_ Hy]. by apply joined_total.
Qed.

(** What a call returns, given the rows it selects. *)
Lemma list_group_files_page cursor cursor_id :
  _normalize_file_cursor cursor = ret cursor_id →
  pages (λ c, list_group_files settings group_key limit c db) cursor
  = Some (SqlFacts.page_at file_snapshot (λ r, str_of_int (lf_id r.1))
            (Z.to_nat (_normalize_limit settings limit))
            (match cursor_id with
             | None => group_files a blob db
             | Some c => filter (λ r : LibraryFile * LibraryRoot, c < lf_id r.1)
                           (group_files a blob db)
             end)).
Proof.
  intros Hc. unfold pages, list_group_files. rewrite Hc, Hkey. cbn [ret].
  rewrite selected_files. set (rows := match cursor_id with None => _ | Some _ => _ end).
  destruct (SqlFacts.limit_plus_one (_normalize_limit settings limit) rows Hlimit)
    as (Htake & Hmore & Hsome).
  cbn [items next_cursor]. rewrite Htake, Hmore. unfold SqlFacts.page_at. f_equal. f_equal.
  destruct (Z.to_nat (_normalize_limit settings limit) <? length rows)%nat eqn:E; [|done].
  apply Nat.ltb_lt in E. specialize (Hsome E).
  rewrite bool_decide_eq_false_2.
  - cbn [negb]. rewrite fmap_last, <- option_fmap_compose. done.
  - intros Hnil. apply fmap_nil_inv in Hnil. done.
Qed.

Lemma follow_group_files fuel :
  (∀ lf, lf ∈ library_files db → 1 ≤ lf_id lf) →
  (length (library_files db) < fuel)%nat →
  SqlFacts.follow (pages (λ c, list_group_files settings group_key limit c db)) fuel None
  = Some (file_snapshot <$> group_files a blob db).
Proof.
  intros Hids Hfuel.
  apply (SqlFacts.follow_all _ (group_files a blob db) file_snapshot
           (λ r, str_of_int (lf_id r.1))
           (Z.to_nat (_normalize_limit settings limit))).
  - lia.
  - by rewrite (list_group_files_page None None eq_refl).
  - intros before r rest Hsplit.
    assert (1 ≤ lf_id r.1) as Hid.
    { apply Hids. assert (r ∈ group_files a blob db) as Hin.
      { rewrite Hsplit. apply elem_of_app. right. apply list_elem_of_here. }
      unfold group_files in Hin. apply SqlFacts.order_by_elem in Hin.
      apply list_elem_of_filter in Hin as [_ Hin]. by apply joined_elem in Hin as [? _]. }
    rewrite (list_group_files_page _ (Some (lf_id r.1))).
    2: { by apply normalize_file_cursor_str. }
    rewrite Hsplit.
    rewrite (list_filter_iff _ (λ x, by_id r x = true)).
    2: { intros x. unfold by_id. by rewrite Z.ltb_lt. }
    rewrite (SqlFacts.filter_after by_id by_id_asym).
    2: { rewrite <- Hsplit. apply group_files_sorted. }
    done.
  - unfold group_files. rewrite SqlFacts.order_by_perm.
    pose proof (length_filter (λ r, in_group a blob None r = true) (joined db)).
    destruct (joined_ids db Hfiles Hroots) as [_ Hlen]. lia.
Qed.
End Files.
Lemma normalize_limit_pos settings limit :
  1 ≤ default_page_size settings → 1 ≤ _normalize_limit settings limit.
Proof. intros Hd. unfold _normalize_limit. destruct limit; lia. Qed.

Lemma sorted_fmap_strict {A B} (R : relation A) (S : relation B) (f : A → B) l :
  (∀ x y, R x y → S (f x) (f y)) →
  StronglySorted R l → StronglySorted S (f <$> l).
Proof.
  intros HRS. induction 1 as [|a l Hl IH Ha]; [constructor|].
  rewrite fmap_cons. constructor; [done|].
  apply Forall_fmap. eapply Forall_impl; [exact Ha|]. intros y. apply HRS.
Qed.

(** X21.  [list_group_files] for a group key that parses, on tables whose
    primary keys are unique and whose file ids start at 1.  A client that
    asks for the first page and follows [next_cursor] until there is none
    receives, over an unchanged store, every file of the group exactly once,
    by ascending [file_id]: the files that are not missing, need no hash,
    carry the algorithm and the hash of the key, and whose library root
    exists.  A page never holds more than the normalised limit, which for a
    given limit lies between 1 and [max_page_size]. *)
Theorem list_group_files_pages settings group_key limit db a hash_hex blob :
  NoDup (lf_id <$> library_files db) →
  NoDup (lr_id <$> library_roots db) →
  (∀ lf, lf ∈ library_files db → 1 ≤ lf_id lf) →
  1 ≤ default_page_size settings →
  _parse_group_key group_key = ret (a, hash_hex, blob) →
  (∃ all,
     SqlFacts.follow (pages (λ c, list_group_files settings group_key limit c db))
       (S (length (library_files db))) None = Some all
     ∧ StronglySorted (λ x y, file_id x < file_id y) all
     ∧ ∀ s, s ∈ all ↔
         ∃ lf lr, lf ∈ library_files db ∧ lr ∈ library_roots db
           ∧ lr_id lr = lf_library_id lf
           ∧ lf_is_missing lf = false ∧ lf_needs_hash lf = false
           ∧ lf_hash_algorithm lf = Some (lit (HashAlgorithm_value a))
           ∧ lf_content_hash lf = Some blob
           ∧ s = file_snapshot (lf, lr))
  ∧ (∀ cursor page,
       list_group_files settings group_key limit cursor db = ret page →
       Z.of_nat (length (items page)) ≤ _normalize_limit settings limit)
  ∧ (∀ l, limit = Some l →
       1 ≤ _normalize_limit settings limit
       ∧ (1 ≤ max_page_size settings →
          _normalize_limit settings limit ≤ max_page_size settings)).
Proof.
  intros Hfiles Hroots Hids Hdefault Hkey.
  pose proof (normalize_limit_pos settings limit Hdefault) as Hlimit.
  split; [|split].
  - exists (file_snapshot <$> group_files a blob db). split; [|split].
    + apply (follow_group_files settings group_key limit db a hash_hex blob
               Hfiles Hroots Hkey Hlimit); [done|lia].
    + apply (sorted_fmap_strict (SqlFacts.goes_before by_id)).
      * intros x y. unfold SqlFacts.goes_before, by_id. simpl. by rewrite Z.ltb_lt.
      * by apply (group_files_sorted db a blob Hfiles Hroots).
    + intros s. rewrite list_elem_of_fmap. unfold group_files. split.
      * intros (r & -> & Hr). apply SqlFacts.order_by_elem in Hr.
        apply list_elem_of_filter in Hr as [Hin Hr].
        apply joined_elem in Hr as (H1 & H2 & H3).
        unfold in_group in Hin.
        rewrite !andb_true_iff, !negb_true_iff, !bool_decide_eq_true in Hin.
        exists r.1, r.2. destruct r. simpl in *. naive_solver.
      * intros (lf & lr & H1 & H2 & H3 & H4 & H5 & H6 & H7 & ->).
        exists (lf, lr). split; [done|]. apply SqlFacts.order_by_elem.
        apply list_elem_of_filter. split; [|by apply joined_elem].
        unfold in_group. simpl. rewrite H4, H5.
        by rewrite !bool_decide_eq_true_2 by done.
  - intros cursor page. unfold list_group_files.
    destruct (_normalize_file_cursor cursor) as [e|cursor_id]; [done|].
    rewrite Hkey. cbn [ret]. intros [= <-]. cbn [items].
    rewrite length_fmap, !length_take. lia.
  - intros l ->. unfold _normalize_limit. lia.
Qed.
(** *** The order of the duplicate groups *)

Lemma text_ltb_order : SqlFacts.strict_total text_ltb.
Proof.
  split.
  - intros x. induction x as [|c x IH]; [done|].
    cbn [text_ltb]. by rewrite N.ltb_irrefl, N.eqb_refl, IH.
  - intros x. induction x as [|c x IH]; intros [|d y] [|e z]; cbn [text_ltb]; try done.
    rewrite !orb_true_iff, !andb_true_iff, !N.ltb_lt, !N.eqb_eq.
    intros [?|[-> Hxy]] [?|[-> Hyz]]; [left; lia|by left|by left|].
    right. split; [done|]. by apply (IH y z).
  - intros x. induction x as [|c x IH]; intros [|d y] Hne; cbn [text_ltb];
      [done|by left|by right|].
    rewrite !orb_true_iff, !andb_true_iff, !N.ltb_lt, !N.eqb_eq.
    destruct (N.lt_trichotomy c d) as [?|[->|?]]; [by left; left| |by right; left].
    destruct (IH y) as [?|?]; [congruence|by left; right|by right; right].
Qed.

(** The columns of the [ORDER BY] clause. *)
Definition sort_key (g : GroupRow) : Z * (Z * (text * text)) :=
  (row_file_count g,
   (row_total_size_bytes g, (row_hash_algorithm g, row_content_hash_hex g))).

(** The values a cursor binds to the keyset predicate. *)
Definition cursor_key (state : _GroupCursor) : Z * (Z * (text * text)) :=
  (cursor_file_count state,
   (cursor_total_size_bytes state,
    (lit (HashAlgorithm_value (cursor_hash_algorithm state)),
     cursor_content_hash_hex state))).

Definition key_lt (x y : Z * (Z * (text * text))) : bool :=
  SqlFacts.lexprod (λ x y : Z, y <? x)
    (SqlFacts.lexprod (λ x y : Z, y <? x) (SqlFacts.lexprod text_ltb text_ltb)) x y.

Lemma key_lt_order : SqlFacts.strict_total key_lt.
Proof.
  unfold key_lt.
  repeat apply SqlFacts.lexprod_strict_total;
    (apply SqlFacts.Z_descending || apply text_ltb_order).
Qed.

Lemma group_order_key a b : group_order a b = key_lt (sort_key a) (sort_key b).
Proof.
  unfold group_order, key_lt, sort_key, SqlFacts.lexprod. simpl.
  destruct (Z.eqb_spec (row_file_count a) (row_file_count b)),
    (Z.eqb_spec (row_total_size_bytes a) (row_total_size_bytes b));
    repeat case_bool_decide; try done; try lia.
Qed.

Lemma after_cursor_key state g :
  after_cursor state g = key_lt (cursor_key state) (sort_key g).
Proof.
  unfold after_cursor, key_lt, sort_key, cursor_key, SqlFacts.lexprod. simpl.
  destruct (Z.eqb_spec (row_file_count g) (cursor_file_count state)),
    (Z.eqb_spec (row_total_size_bytes g) (cursor_total_size_bytes state)),
    (Z.ltb_spec (row_file_count g) (cursor_file_count state)),
    (Z.ltb_spec (row_total_size_bytes g) (cursor_total_size_bytes state));
    repeat case_bool_decide; try done; try lia; try congruence;
    simpl; rewrite ?orb_false_r, ?andb_false_r, ?andb_true_r; try done.
Qed.

Lemma group_order_asym a b : group_order a b = true → group_order b a = false.
Proof.
  rewrite !group_order_key. apply (SqlFacts.strict_total_asym key_lt key_lt_order).
Qed.

Lemma group_order_ntrans a b c :
  group_order a b = false → group_order b c = false → group_order a c = false.
Proof.
  rewrite !group_order_key. apply (SqlFacts.strict_total_ntrans key_lt key_lt_order).
Qed.

(** *** The rows of [grouped] *)

Lemma length_remove_dups `{EqDecision A} (l : list A) :
  (length (remove_dups l) ≤ length l)%nat.
Proof.
  induction l as [|x l IH]; [done|]. cbn [remove_dups].
  destruct (decide_rel elem_of x l); simpl; lia.
Qed.

Lemma length_omap {A B} (f : A → option B) (l : list A) :
  (length (omap f l) ≤ length l)%nat.
Proof.
  induction l as [|x l IH]; [done|]. cbn [omap list_omap].
  destruct (f x); simpl; lia.
Qed.

(** The store is well formed: a hashed file carries the value of a hash
    algorithm and a hash of 32 bytes. *)
Definition hashes_well_formed (files : list LibraryFile) : Prop :=
  ∀ lf algorithm blob,
    lf ∈ files → grouping_key lf = Some (algorithm, blob) →
    (∃ a, algorithm = lit (HashAlgorithm_value a))
    ∧ length blob = 32%nat ∧ Forall (λ b, b < 256)%N blob.

(** The files of a group. *)
Definition members (key : text * octets) (files : list LibraryFile) : list LibraryFile :=
  filter (λ lf, grouping_key lf = Some key) files.

Lemma grouped_elem files g :
  g ∈ grouped files ↔
    ∃ key lf, lf ∈ files ∧ grouping_key lf = Some key
              ∧ g = aggregate key (members key files)
              ∧ (2 ≤ length (members key files))%nat.
Proof.
  unfold grouped. rewrite list_elem_of_filter, list_elem_of_fmap. split.
  - intros [Hcount (key & -> & Hkey)].
    apply elem_of_remove_dups, list_elem_of_omap in Hkey as (lf & Hlf & Hk).
    exists key, lf. repeat split; [done|done|]. simpl in Hcount. unfold members. lia.
  - intros (key & lf & Hlf & Hk & -> & Hcount). split; [simpl; unfold members in *; lia|].
    exists key. split; [done|].
    apply elem_of_remove_dups, list_elem_of_omap. by exists lf.
Qed.

Lemma grouped_length files : (length (grouped files) ≤ length files)%nat.
Proof.
  unfold grouped.
  etransitivity; [apply length_filter|]. rewrite length_fmap.
  etransitivity; [apply length_remove_dups|]. apply length_omap.
Qed.

(** A row of [grouped] in a well-formed store. *)
Definition good_row (g : GroupRow) : Prop :=
  ∃ a blob,
    row_hash_algorithm g = lit (HashAlgorithm_value a)
    ∧ row_content_hash_hex g = lower_hex_of blob
    ∧ length blob = 32%nat ∧ Forall (λ b, b < 256)%N blob
    ∧ 2 ≤ row_file_count g.

Lemma grouped_good files g :
  hashes_well_formed files → g ∈ grouped files → good_row g.
Proof.
  intros Hwf Hg. apply grouped_elem in Hg as ([algorithm blob] & lf & Hlf & Hk & -> & Hn).
  destruct (Hwf lf algorithm blob Hlf Hk) as ((a & ->) & Hlen & Hbytes).
  exists a, blob. simpl. repeat split; try done. lia.
Qed.

Lemma lower_hex_of_inj b1 b2 :
  Forall (λ b, b < 256)%N b1 → Forall (λ b, b < 256)%N b2 →
  lower_hex_of b1 = lower_hex_of b2 → b1 = b2.
Proof.
  intros H1 H2 Heq. apply (f_equal fromhex) in Heq.
  rewrite !fromhex_lower_hex_of in Heq by done. congruence.
Qed.

(** Two rows of [grouped] differ in the algorithm or in the hash text. *)
Lemma grouped_keys files :
  hashes_well_formed files → NoDup (sort_key <$> grouped files).
Proof.
  intros Hwf.
  apply (NoDup_fmap_1 (λ k : Z * (Z * (text * text)), k.2.2)).
  rewrite <- list_fmap_compose. unfold grouped.
  eapply sublist_NoDup; [|apply fmap_sublist, sublist_filter].
  rewrite <- list_fmap_compose.
  apply NoDup_fmap_2_strong; [|apply NoDup_remove_dups].
  intros [a1 b1] [a2 b2] H1 H2. simpl. intros [= -> Hhex]. f_equal.
  apply elem_of_remove_dups, list_elem_of_omap in H1 as (lf1 & Hlf1 & Hk1).
  apply elem_of_remove_dups, list_elem_of_omap in H2 as (lf2 & Hlf2 & Hk2).
  destruct (Hwf _ _ _ Hlf1 Hk1) as (_ & _ & Hb1).
  destruct (Hwf _ _ _ Hlf2 Hk2) as (_ & _ & Hb2).
  by apply lower_hex_of_inj.
Qed.

Lemma grouped_NoDup files : hashes_well_formed files → NoDup (grouped files).
Proof. intros Hwf. apply (NoDup_fmap_1 sort_key), grouped_keys, Hwf. Qed.

Lemma grouped_total files x y :
  hashes_well_formed files →
  x ∈ grouped files → y ∈ grouped files → x ≠ y →
  group_order x y = true ∨ group_order y x = true.
Proof.
  intros Hwf Hx Hy Hne. rewrite !group_order_key.
  apply (SqlFacts.st_total key_lt key_lt_order). intros Heq. apply Hne.
  by apply (SqlFacts.fmap_inj_on sort_key (grouped files)); [apply grouped_keys|..].
Qed.

(** The groups, in the order of the listing. *)
Definition all_groups (files : list LibraryFile) : list GroupRow :=
  Sql.order_by group_order (grouped files).

Lemma all_groups_sorted files :
  hashes_well_formed files →
  StronglySorted (SqlFacts.goes_before group_order) (all_groups files).
Proof.
  intros Hwf. apply SqlFacts.order_by_sorted.
  - apply group_order_asym.
  - apply group_order_ntrans.
  - by apply grouped_NoDup.
  - intros x y. by apply grouped_total.
Qed.

(** *** The snapshot and the cursor of a row *)

Definition snapshot_of (g : GroupRow) : DuplicateGroupSnapshot :=
  match group_snapshot g with
  | inr snapshot => snapshot
  | inl _ =>
      {| group_key := []; hash_algorithm := SHA256; content_hash_hex := [];
         file_count := 0; total_size_bytes := 0; duplicate_waste_bytes := 0;
         sample_file_id := 0 |}
  end.

Definition cursor_text (g : GroupRow) : text := token_of (payload_text (snapshot_of g)).

Lemma group_snapshot_good g :
  good_row g →
  ∃ a blob,
    row_hash_algorithm g = lit (HashAlgorithm_value a)
    ∧ row_content_hash_hex g = lower_hex_of blob
    ∧ length blob = 32%nat ∧ Forall (λ b, b < 256)%N blob
    ∧ group_snapshot g
      = ret {| group_key := lit (HashAlgorithm_value a) ++ 58%N :: lower_hex_of blob;
               hash_algorithm := a;
               content_hash_hex := lower_hex_of blob;
               file_count := row_file_count g;
               total_size_bytes := row_total_size_bytes g;
               duplicate_waste_bytes := row_duplicate_waste_bytes g;
               sample_file_id := row_sample_file_id g |}.
Proof.
  intros (a & blob & Ha & Hh & Hlen & Hbytes & Hcount).
  exists a, blob. repeat split; try done.
  unfold group_snapshot. rewrite Ha, HashAlgorithm_of_value, Hh.
  destruct (lower_hex_of_chars blob Hbytes) as [Hhex _].
  by rewrite (lower_hex_text _ Hhex).
Qed.

Lemma group_snapshots_good rows :
  (∀ g, g ∈ rows → good_row g) →
  group_snapshots rows = ret (snapshot_of <$> rows).
Proof.
  induction rows as [|g rows IH]; intros Hgood; [done|].
  cbn [group_snapshots fmap list_fmap]. unfold snapshot_of at 1.
  destruct (group_snapshot_good g) as (a & blob & _ & _ & _ & _ & ->);
    [apply Hgood, list_elem_of_here|].
  unfold ret at 1. rewrite IH; [done|].
  intros x Hx. by apply Hgood, list_elem_of_further.
Qed.

Lemma snapshot_of_valid g :
  good_row g → 1 ≤ row_total_size_bytes g → valid_snapshot (snapshot_of g).
Proof.
  intros Hg Hsize. pose proof Hg as (_ & _ & _ & _ & _ & _ & Hcount).
  destruct (group_snapshot_good g Hg) as (a & blob & _ & _ & Hlen & Hbytes & Hs).
  unfold snapshot_of. rewrite Hs. cbn [ret].
  destruct (lower_hex_of_chars blob Hbytes) as [Hhex Hhexlen].
  repeat split; simpl; try done. by rewrite Hhexlen, Hlen.
Qed.

(** The cursor written for a row binds the columns of that row. *)
Lemma cursor_of_row g :
  good_row g → 1 ≤ row_total_size_bytes g →
  cursor_text g ≠ []
  ∧ of_codec (_encode_group_cursor (snapshot_of g)) = ret (cursor_text g)
  ∧ ∃ state, of_codec (_decode_group_cursor (cursor_text g)) = ret state
             ∧ cursor_key state = sort_key g.
Proof.
  intros Hg Hsize. pose proof (snapshot_of_valid g Hg Hsize) as Hvalid.
  split; [unfold cursor_text, payload_text; apply token_of_nonempty|].
  split; [by rewrite (encode_payload _ Hvalid)|].
  unfold cursor_text. rewrite (decode_payload _ Hvalid). eexists. split; [done|].
  destruct (group_snapshot_good g Hg) as (a & blob & Ha & Hh & _ & _ & Hs).
  unfold snapshot_of, cursor_key, sort_key. rewrite Hs. simpl. by rewrite Ha, Hh.
Qed.

(** *** The groups, page by page *)

Section Groups.
Context (settings : PageSettings) (limit : option Z) (db : Store).
Context (Hwf : hashes_well_formed (library_files db)).
Context (Hsize : ∀ g, g ∈ grouped (library_files db) → 1 ≤ row_total_size_bytes g).
Context (Hlimit : 1 ≤ _normalize_limit settings limit).

Lemma all_groups_elem g : g ∈ all_groups (library_files db) ↔ g ∈ grouped (library_files db).
Proof. unfold all_groups. apply SqlFacts.order_by_elem. Qed.

(** The rows a call selects and sorts: all the groups, or those after the
    cursor. *)
Lemma selected_groups cursor_state :
  Sql.order_by group_order
    (match cursor_state with
     | Some state => filter (λ g, after_cursor state g = true) (grouped (library_files db))
     | None => grouped (library_files db)
     end)
  = match cursor_state with
    | Some state => filter (λ g, after_cursor state g = true) (all_groups (library_files db))
    | None => all_groups (library_files db)
    end.
Proof.
  destruct cursor_state as [state|]; [|done]. unfold all_groups.
  rewrite <- (SqlFacts.order_by_filter group_order group_order_asym group_order_ntrans).
  - done.
  - by apply grouped_NoDup.
  - intros x y. by apply grouped_total.
Qed.

(** What a call returns, given the cursor state it decodes. *)
Lemma list_groups_page cursor cursor_state :
  match cursor with
  | Some c =>
      if bool_decide (c = []) then ret None
      else match of_codec (_decode_group_cursor c) with
           | inl e => inl e
           | inr state => ret (Some state)
           end
  | None => ret None
  end = ret cursor_state →
  pages (λ c, list_groups settings limit c db) cursor
  = Some (SqlFacts.page_at snapshot_of cursor_text
            (Z.to_nat (_normalize_limit settings limit))
            (match cursor_state with
             | Some state =>
                 filter (λ g, after_cursor state g = true) (all_groups (library_files db))
             | None => all_groups (library_files db)
             end)).
Proof.
  intros Hc. unfold pages, list_groups. rewrite Hc. cbn [ret].
  rewrite selected_groups.
  set (rows := match cursor_state with None => _ | Some _ => _ end).
  assert (∀ g, g ∈ rows → g ∈ grouped (library_files db)) as Hrows.
  { intros g Hg. apply all_groups_elem. unfold rows in Hg.
    destruct cursor_state; [|done]. by apply list_elem_of_filter in Hg as [_ Hg]. }
  destruct (SqlFacts.limit_plus_one (_normalize_limit settings limit) rows Hlimit)
    as (Htake & Hmore & Hsome).
  rewrite Htake, Hmore.
  rewrite group_snapshots_good.
  2: { intros g Hg. apply (grouped_good (library_files db)); [done|].
       apply Hrows. eapply subseteq_take, Hg. }
  cbn [ret]. unfold SqlFacts.page_at.
  destruct (Z.to_nat (_normalize_limit settings limit) <? length rows)%nat eqn:E; [|done].
  apply Nat.ltb_lt in E. specialize (Hsome E).
  rewrite bool_decide_eq_false_2.
  2: { intros Hnil. apply fmap_nil_inv in Hnil. done. }
  cbn [andb negb]. rewrite fmap_last.
  destruct (last (take (Z.to_nat (_normalize_limit settings limit)) rows)) as [r|] eqn:Elast;
    [|done].
  cbn [fmap option_fmap option_map].
  assert (r ∈ grouped (library_files db)) as Hr.
  { apply Hrows. eapply subseteq_take. apply last_Some in Elast as [front ->].
    apply elem_of_app. right. apply list_elem_of_here. }
  destruct (cursor_of_row r) as (_ & -> & _);
    [by apply (grouped_good (library_files db))|by apply Hsize|].
  done.
Qed.

Lemma follow_groups fuel :
  (length (library_files db) < fuel)%nat →
  SqlFacts.follow (pages (λ c, list_groups settings limit c db)) fuel None
  = Some (snapshot_of <$> all_groups (library_files db)).
Proof.
  intros Hfuel.
  apply (SqlFacts.follow_all _ (all_groups (library_files db)) snapshot_of cursor_text
           (Z.to_nat (_normalize_limit settings limit))).
  - lia.
  - by rewrite (list_groups_page None None eq_refl).
  - intros before r rest Hsplit.
    assert (r ∈ grouped (library_files db)) as Hr.
    { apply all_groups_elem. rewrite Hsplit. apply elem_of_app. right. apply list_elem_of_here. }
    destruct (cursor_of_row r) as (Hne & _ & state & Hstate & Hkey);
      [by apply (grouped_good (library_files db))|by apply Hsize|].
    rewrite (list_groups_page _ (Some state)).
    2: { rewrite bool_decide_eq_false_2 by done. by rewrite Hstate. }
    rewrite (list_filter_iff _ (λ x, group_order r x = true)).
    2: { intros x. by rewrite after_cursor_key, group_order_key, Hkey. }
    rewrite Hsplit. rewrite (SqlFacts.filter_after group_order group_order_asym).
    2: { rewrite <- Hsplit. by apply all_groups_sorted. }
    done.
  - unfold all_groups. rewrite SqlFacts.order_by_perm.
    pose proof (grouped_length (library_files db)). lia.
Qed.
End Groups.

Lemma group_snapshots_length rows snapshots :
  group_snapshots rows = ret snapshots → length snapshots = length rows.
Proof.
  revert snapshots. induction rows as [|g rows IH]; intros snapshots.
  - by intros [= <-].
  - cbn [group_snapshots]. destruct (group_snapshot g); [done|].
    destruct (group_snapshots rows) as [|rest]; [done|].
    intros [= <-]. simpl. f_equal. by apply IH.
Qed.


Lemma dup_store_well_formed : hashes_well_formed (library_files Samples.dup_store).
Proof.
  intros lf algorithm blob Hin Hk.
  repeat (apply elem_of_cons in Hin as [->|Hin]); try (by apply elem_of_nil in Hin);
    vm_compute in Hk; try discriminate Hk; injection Hk as <- <-;
    (split; [by exists SHA256|split; [reflexivity|]]);
    repeat (constructor; [reflexivity|]); constructor.
Qed.

Lemma list_group_files_pages_witness :
  (∃ all,
     SqlFacts.follow
       (pages (λ c, list_group_files Samples.dup_settings Samples.dup_group_key (Some 2) c
                      Samples.dup_store))
       (S (length (library_files Samples.dup_store))) None = Some all
     ∧ StronglySorted (λ x y, file_id x < file_id y) all
     ∧ ∀ s, s ∈ all ↔
         ∃ lf lr, lf ∈ library_files Samples.dup_store
           ∧ lr ∈ library_roots Samples.dup_store
           ∧ lr_id lr = lf_library_id lf
           ∧ lf_is_missing lf = false ∧ lf_needs_hash lf = false
           ∧ lf_hash_algorithm lf = Some (lit (HashAlgorithm_value SHA256))
           ∧ lf_content_hash lf = Some (replicate 32 171%N)
           ∧ s = file_snapshot (lf, lr))
  ∧ (∀ cursor page,
       list_group_files Samples.dup_settings Samples.dup_group_key (Some 2) cursor
         Samples.dup_store = ret page →
       Z.of_nat (length (items page)) ≤ _normalize_limit Samples.dup_settings (Some 2))
  ∧ (∀ l, Some 2 = Some l →
       1 ≤ _normalize_limit Samples.dup_settings (Some 2)
       ∧ (1 ≤ max_page_size Samples.dup_settings →
          _normalize_limit Samples.dup_settings (Some 2)
          ≤ max_page_size Samples.dup_settings)).
Proof.
  apply (list_group_files_pages Samples.dup_settings Samples.dup_group_key (Some 2)
           Samples.dup_store SHA256 (lower_hex_of (replicate 32 171%N))
           (replicate 32 171%N)).
  - vm_compute. repeat (constructor; [set_solver|]). constructor.
  - vm_compute. repeat (constructor; [set_solver|]). constructor.
  - intros lf Hin.
    repeat (apply elem_of_cons in Hin as [->|Hin]); try (by apply elem_of_nil in Hin);
      vm_compute; discriminate.
  - vm_compute. discriminate.
  - vm_compute. reflexivity.
Defined.

(** The three files of the group come in two pages of two and one; the
    missing file with the same hash is left out. *)
Example list_group_files_sample :
  sum_map (λ e : Raised, e) (λ page, (file_id <$> items page, next_cursor page))
    (list_group_files Samples.dup_settings Samples.dup_group_key (Some 2) None
       Samples.dup_store)
  = inr ([1; 2], Some (lit "2"))
  ∧ sum_map (λ e : Raised, e) (λ page, (file_id <$> items page, next_cursor page))
      (list_group_files Samples.dup_settings Samples.dup_group_key (Some 2)
         (Some (lit "2")) Samples.dup_store)
    = inr ([3], None)
  ∧ list_group_files Samples.dup_settings Samples.dup_group_key (Some 2)
      (Some (lit "0")) Samples.dup_store
    = raise ValueError.
Proof. vm_compute. done. Qed.


(** The two groups of the sample store come one a page, the larger first. *)
Example list_groups_sample :
  (λ all : list DuplicateGroupSnapshot,
     (λ s, (file_count s, total_size_bytes s, duplicate_waste_bytes s, sample_file_id s))
       <$> all)
    <$> SqlFacts.follow
          (pages (λ c, list_groups Samples.dup_settings (Some 1) c Samples.dup_store)) 3 None
  = Some [(3, 30, 20, 1); (2, 10, 5, 4)].
Proof. vm_compute. reflexivity. Qed.

(** A group of empty files has a total size of 0.  [list_groups] writes that
    into the cursor of the page the group ends, and refuses the cursor when
    it comes back, since [_decode_group_cursor] asks for a total size of 1 at
    least: the second group of the store is not reached. *)
Example list_groups_empty_files :
  ∃ page next,
    list_groups Samples.dup_settings (Some 1) None Samples.dup_store_empty_files = ret page
    ∧ (total_size_bytes <$> items page) = [0]
    ∧ next_cursor page = Some next
    ∧ list_groups Samples.dup_settings (Some 1) (Some next) Samples.dup_store_empty_files
      = raise ValueError
    ∧ length (grouped (library_files Samples.dup_store_empty_files)) = 2%nat.
Proof.
  eexists. eexists. split; [vm_compute; reflexivity|].
  split; [reflexivity|]. split; [reflexivity|].
  split; vm_compute; reflexivity.
Qed.

End DuplicatesFacts.
